(** * The Merkle tree engine of the SDK (package [merkle])

    A shallow embedding of [New], [proofGen], [treeBuild], [fixOdd],
    [updateProofs], [Verify] and [GenerateProof], followed by the
    properties the specification states about them and by further
    properties of the code: the shape of the trees and proofs that [New]
    returns, what [Verify] and [GenerateProof] answer on them, and the
    absence of panics.

    Conventions of the embedding.
    - A Go [[]byte] is a [list byte]: the bytes it holds, without the
      array behind it.  A nil slice and an empty slice are identified, and
      an [append] yields the concatenation and leaves every other slice as
      it is.  The module [Heap] embeds the methods once more with the
      slices in a memory, where an [append] writes into spare capacity and
      nil differs from empty; what is stated of the bytes of the leaves,
      nodes, roots and proofs of a tree is stated there.
    - A Go [int] that holds a length or an index is a [nat]: every such
      value stays below twice the number of leaves.  [uint32] values
      ([Depth], [Path]) are [Z] with the wrap-around written out.
    - A Go function returning [(T, error)] returns a pair whose second
      component is [option error]; what is assigned on the error path is
      therefore exactly what the callee returned.
    - A run-time panic (index out of range, nil function call) ends the
      execution with [Crash].
    - The goroutine of [treeBuild] is run in sequence, before the levels
      are built.  [treeBuild] waits for it only when it returns no error;
      what is stated of a call that returns an error leaves the leaf index
      out ([observable]).  The handlers for parallel
      execution ([proofGenHandler], [updateProofHandler], [leafGenHandler],
      [treeBuildHandler]) have no caller in the package file and are not
      embedded. *)

From Stdlib Require Import ZArith Lia Bool.
From Stdlib Require Import Strings.Byte.
From Stdlib Require Reals Lra.
From stdpp Require Import gmap strings list sorting.

Local Open Scope Z_scope.

(* ===================================================================== *)
(** ** Bytes and errors *)

Abbreviation bytes := (list byte).

Definition error := string.

#[global] Instance byte_eq_dec : EqDecision byte := Byte.byte_eq_dec.

#[global] Instance byte_countable : Countable byte :=
  inj_countable Byte.to_N Byte.of_N Byte.of_to_N.

(** [bytes.Compare]: lexicographic order on the unsigned byte values;
    the result is negative, zero or positive. *)
Fixpoint bytesCompare (a b : bytes) : comparison :=
  match a, b with
  | [], [] => Eq
  | [], _ :: _ => Lt
  | _ :: _, [] => Gt
  | x :: a', y :: b' =>
      match N.compare (Byte.to_N x) (Byte.to_N y) with
      | Eq => bytesCompare a' b'
      | c => c
      end
  end.

Definition bytesLess (a b : bytes) : bool :=
  match bytesCompare a b with Lt => true | _ => false end.

(** [bytes.Equal] and [reflect.DeepEqual] on two byte slices. *)
Definition bytesEqual (a b : bytes) : bool := bool_decide (a = b).

(* ===================================================================== *)
(** ** SHA-256

    The digest the package uses by default.  The function below follows
    FIPS 180-4 on 32-bit words kept as [Z]. *)

Module SHA256.

Local Open Scope Z_scope.

Definition w32 (z : Z) : Z := z mod 2 ^ 32.
Definition add32 (a b : Z) : Z := w32 (a + b).
Definition rotr (n x : Z) : Z := Z.lor (Z.shiftr x n) (w32 (Z.shiftl x (32 - n))).
Definition not32 (x : Z) : Z := Z.lxor x 0xffffffff.

(** The first [n] primes, by trial division against the primes found so
  far; [fuel] bounds the candidates tried. *)
Fixpoint primesFrom (fuel : nat) (k : Z) (found : list Z) (n : nat) : list Z :=
match fuel, n with
| O, _ | _, O => rev found
| S fuel', S n' =>
    if forallb (fun q => negb (k mod q =? 0)) found
    then primesFrom fuel' (k + 1) (k :: found) n'
    else primesFrom fuel' (k + 1) found n
end.

Definition primes (n : nat) : list Z := primesFrom 400 2 [] n.

(** The integer cube root of [x], one bit at a time below bit [bits]. *)
Fixpoint cbrt (bits : nat) (x r : Z) : Z :=
match bits with
| O => r
| S b =>
    let c := r + 2 ^ Z.of_nat b in
    cbrt b x (if c * c * c <=? x then c else r)
end.

(** The round constants: the first 32 bits of the fractional parts of the
  cube roots of the first 64 primes. *)
Definition K : list Z :=
Eval vm_compute in (fun q => w32 (cbrt 36 (q * 2 ^ 96) 0)) <$> primes 64.

(** The initial hash value: the same for the square roots of the first 8
  primes. *)
Definition H0 : list Z :=
Eval vm_compute in (fun q => w32 (Z.sqrt (q * 2 ^ 64))) <$> primes 8.

(** Big-endian bytes of an [n]-byte word, and back. *)
Fixpoint be_bytes (n : nat) (x : Z) : list Z :=
  match n with
  | O => []
  | S n' => Z.shiftr x (8 * Z.of_nat n') mod 256 :: be_bytes n' x
  end.

Definition be_word (bs : list Z) : Z := fold_left (fun acc b => acc * 256 + b) bs 0.

Definition pad (msg : list Z) : list Z :=
  let len := length msg in
  let zeros := ((119 - len mod 64) mod 64)%nat in
  msg ++ [0x80] ++ replicate zeros 0 ++ be_bytes 8 (8 * Z.of_nat len).

(** Cut a list into pieces of [n] elements; [fuel] bounds the number of
    pieces. *)
Fixpoint chunks {A} (fuel n : nat) (l : list A) : list (list A) :=
  match fuel, l with
  | O, _ | _, [] => []
  | S fuel', _ => take n l :: chunks fuel' n (drop n l)
  end.

(** The message schedule, most recent word first. *)
Fixpoint extend (n : nat) (r : list Z) : list Z :=
  match n with
  | O => r
  | S n' =>
      let w2 := nth 1 r 0 in
      let w7 := nth 6 r 0 in
      let w15 := nth 14 r 0 in
      let w16 := nth 15 r 0 in
      let s0 := Z.lxor (Z.lxor (rotr 7 w15) (rotr 18 w15)) (Z.shiftr w15 3) in
      let s1 := Z.lxor (Z.lxor (rotr 17 w2) (rotr 19 w2)) (Z.shiftr w2 10) in
      extend n' (add32 (add32 (add32 w16 s0) w7) s1 :: r)
  end.

Definition schedule (chunk : list Z) : list Z :=
  rev (extend 48 (rev (be_word <$> chunks 16 4 chunk))).

Definition round (st : list Z) (kw : Z * Z) : list Z :=
  match st with
  | [a; b; c; d; e; f; g; h] =>
      let S1 := Z.lxor (Z.lxor (rotr 6 e) (rotr 11 e)) (rotr 25 e) in
      let ch := Z.lxor (Z.land e f) (Z.land (not32 e) g) in
      let t1 := add32 (add32 (add32 (add32 h S1) ch) kw.1) kw.2 in
      let S0 := Z.lxor (Z.lxor (rotr 2 a) (rotr 13 a)) (rotr 22 a) in
      let maj := Z.lxor (Z.lxor (Z.land a b) (Z.land a c)) (Z.land b c) in
      let t2 := add32 S0 maj in
      [add32 t1 t2; a; b; c; add32 d t1; e; f; g]
  | _ => st
  end.

Definition compress (hs : list Z) (chunk : list Z) : list Z :=
  zip_with add32 hs (fold_left round (zip K (schedule chunk)) hs).

Definition byteZ (b : byte) : Z := Z.of_N (Byte.to_N b).
Definition Zbyte (z : Z) : byte :=
  match Byte.of_N (Z.to_N z) with Some b => b | None => Byte.x00 end.

Definition sum256 (msg : bytes) : bytes :=
  let padded := pad (byteZ <$> msg) in
  let hs := fold_left compress (chunks (length padded) 64 padded) H0 in
  Zbyte <$> concat (be_bytes 4 <$> hs).

End SHA256.

(* ===================================================================== *)
(** ** The arithmetic of [calTreeDepth]

    [math.Log2] and [math.Trunc] belong to Go's standard library.  The
    program forms a [float64] only as the base-2 logarithm of a slice
    length and as the truncation of such a value, so a value is kept
    exactly, as [whole + log2 (num / 2^exp)] with the fraction in [1, 2).
    This is the arithmetic without rounding.  The rounding of [math.Log2]
    is described in the module [Float] below; up to 2^47 blocks it leaves
    the depth as computed here, and beyond 2^49 it does not. *)

Module Math.

Record float64 := F64 { whole : Z; num : Z; exp : Z }.

(** [math.Log2(float64(n))] for a positive [n]. *)
Definition Log2 (n : Z) : float64 :=
  {| whole := Z.log2 n; num := n; exp := Z.log2 n |}.

(** [math.Trunc] (the values here are never negative). *)
Definition Trunc (x : float64) : float64 :=
  {| whole := whole x; num := 1; exp := 0 |}.

(** [x != y] on two such values. *)
Definition neq (x y : float64) : bool :=
  negb ((whole x =? whole y) && (num x * 2 ^ exp y =? num y * 2 ^ exp x)).

(** The conversion [uint32(x)]. *)
Definition to_uint32 (x : float64) : Z := whole x mod 2 ^ 32.

End Math.

Definition u32 (z : Z) : Z := z mod 2 ^ 32.

Definition calTreeDepth (blockLen : Z) : Z :=
  let log2BlockLen := Math.Log2 blockLen in
  if Math.neq log2BlockLen (Math.Trunc log2BlockLen)
  then u32 (Math.to_uint32 log2BlockLen + 1)
  else Math.to_uint32 log2BlockLen.

Local Close Scope Z_scope.

(* ===================================================================== *)
(** ** Data model *)

(** [ModeType] is an [int]; the three recognised values are [iota]
    constants. *)
Definition ModeType := Z.
Definition ModeProofGen : ModeType := 0%Z.
Definition ModeTreeBuild : ModeType := 1%Z.
Definition ModeProofGenAndTreeBuild : ModeType := 2%Z.
Definition defaultHashLen : nat := 32.

(** The interface [DataBlock]. *)
Class DataBlock (B : Type) := Serialize : B -> bytes * option error.

Definition HashFuncType := bytes -> bytes * option error.

(** Modelled from the spec: [defaultHashFunc], whose declaration is in a
    file of the package that is not among the sources; the specification
    names SHA-256 as the default digest, and a SHA-256 computation does not
    fail. *)
Definition defaultHashFunc : HashFuncType := fun data => (SHA256.sum256 data, None).

Record Config := mkConfig {
  HashFunc : option HashFuncType;
  NumRoutines : Z;
  Mode : ModeType;
  NoDuplicates : bool;
  SortLeaves : bool;
  SortPairs : bool }.

Record Proof := mkProof {
  Siblings : list bytes;
  Path : Z }.

Record MerkleTree := mkTree {
  config : Config;
  leafMap : gmap bytes nat;
  tree : list (list bytes);
  Root : bytes;
  Leaves : list bytes;
  Proofs : list Proof;
  Depth : Z }.

(** [new(Config)] and [&MerkleTree{Config: config}]. *)
Definition newConfig : Config := mkConfig None 0%Z 0%Z false false false.
Definition newTree (c : Config) : MerkleTree := mkTree c ∅ [] [] [] [] 0%Z.

Definition with_tree (t : list (list bytes)) (m : MerkleTree) : MerkleTree :=
  mkTree (config m) (leafMap m) t (Root m) (Leaves m) (Proofs m) (Depth m).
Definition with_leafMap (lm : gmap bytes nat) (m : MerkleTree) : MerkleTree :=
  mkTree (config m) lm (tree m) (Root m) (Leaves m) (Proofs m) (Depth m).
Definition with_Root (r : bytes) (m : MerkleTree) : MerkleTree :=
  mkTree (config m) (leafMap m) (tree m) r (Leaves m) (Proofs m) (Depth m).
Definition with_Leaves (l : list bytes) (m : MerkleTree) : MerkleTree :=
  mkTree (config m) (leafMap m) (tree m) (Root m) l (Proofs m) (Depth m).
Definition with_Proofs (p : list Proof) (m : MerkleTree) : MerkleTree :=
  mkTree (config m) (leafMap m) (tree m) (Root m) (Leaves m) p (Depth m).
Definition with_Depth (d : Z) (m : MerkleTree) : MerkleTree :=
  mkTree (config m) (leafMap m) (tree m) (Root m) (Leaves m) (Proofs m) d.

(** One call of [rand.Read] on a 32-byte buffer either fills it or fails. *)
Inductive RandRead := Filled (b : bytes) | ReadErr (e : error).

(* ===================================================================== *)
(** ** Executions

    The methods of [*MerkleTree] run against the tree they mutate and the
    number of reads already made from the random source; a panic ends the
    execution. *)

Record World := mkWorld { mt : MerkleTree; draws : nat }.

Inductive Exec (A : Type) : Type :=
| Done (a : A) (w : World)
| Crash (why : string).
Arguments Done {A} a w.
Arguments Crash {A} why.

Definition M (A : Type) : Type := World -> Exec A.

Definition ret {A} (a : A) : M A := fun w => Done a w.

Definition bind {A C} (c : M A) (k : A -> M C) : M C :=
  fun w => match c w with
           | Done a w' => k a w'
           | Crash why => Crash why
           end.

Definition panic {A} (why : string) : M A := fun _ => Crash why.

Declare Scope exec_scope.
Delimit Scope exec_scope with exec.
Notation "x <- c ;; k" := (bind c (fun x => k))
  (at level 100, c at next level, right associativity) : exec_scope.
Notation "c ;; k" := (bind c (fun _ => k))
  (at level 100, right associativity) : exec_scope.
Local Open Scope exec_scope.

Definition getTree : M MerkleTree := fun w => Done (mt w) w.
Definition modify (f : MerkleTree -> MerkleTree) : M unit :=
  fun w => Done tt (mkWorld (f (mt w)) (draws w)).

(** [s[i]], which panics when [i] is out of range. *)
Definition index {A} (s : list A) (i : nat) : M A :=
  match s !! i with
  | Some x => ret x
  | None => panic "index out of range"
  end.

(** [s[i] = x] on a local slice, which panics when [i] is out of range. *)
Definition store {A} (s : list A) (i : nat) (x : A) : M (list A) :=
  if decide (i < length s) then ret (<[i := x]> s)
  else panic "index out of range".

(** A [for] loop over the index values [idxs] whose body cannot return. *)
Fixpoint forM (idxs : list nat) (body : nat -> M unit) : M unit :=
  match idxs with
  | [] => ret tt
  | i :: rest => body i ;; forM rest body
  end.

(** A [for] loop whose body updates local variables of type [L] and may
    leave the enclosing function with an error. *)
Fixpoint forE {L} (idxs : list nat) (body : nat -> L -> M (L * option error))
    (acc : L) : M (L * option error) :=
  match idxs with
  | [] => ret (acc, None)
  | i :: rest =>
      r <- body i acc ;;
      match r.2 with
      | Some e => ret r
      | None => forE rest body r.1
      end
  end.

(** A [for] loop whose body updates local variables and cannot return. *)
Fixpoint forL {L} (idxs : list nat) (body : nat -> L -> M L) (acc : L) : M L :=
  match idxs with
  | [] => ret acc
  | i :: rest => acc' <- body i acc ;; forL rest body acc'
  end.

(** The values of [i] in [for i := lo; i < hi; i++]. *)
Definition range (lo hi : nat) : list nat := seq lo (hi - lo).

(** The values of [i] in [for i := 0; i < hi; i += 2]. *)
Definition evens (hi : nat) : list nat := (fun k => 2 * k) <$> seq 0 (Nat.div2 (hi + 1)).

(* ===================================================================== *)
(** ** The methods of the tree *)

(** [sort.Slice] with [bytes.Compare(a, b) < 0]: slices that compare equal
    are byte-identical, so the sorted sequence does not depend on the
    sorting algorithm. *)
Fixpoint sortInsert (x : bytes) (l : list bytes) : list bytes :=
  match l with
  | [] => [x]
  | y :: l' => if bytesLess y x then y :: sortInsert x l' else x :: l
  end.

Definition sortSlice (l : list bytes) : list bytes := foldr sortInsert [] l.

(** What a call of [New] yields: the two results, or a panic. *)
Inductive NewResult :=
| Returned (m : option MerkleTree) (err : option error)
| Panicked (why : string).

Section Methods.

Context {B : Type} `{DataBlock B}.

(** [rnd k] is the outcome of the [k]-th read from [crypto/rand]. *)
Variable rnd : nat -> RandRead.

(** [m.HashFunc(data)]; calling a nil function panics. *)
Definition callHash (data : bytes) : M (bytes * option error) :=
  m <- getTree ;;
  match HashFunc (config m) with
  | Some h => ret (h data)
  | None => panic "nil function call"
  end.

Definition initProofs : M unit :=
  m <- getTree ;;
  let numLeaves := length (Leaves m) in
  modify (with_Proofs (replicate numLeaves (mkProof [] 0%Z))).

Definition min (a b : nat) : nat := if decide (a < b) then a else b.

(** [m.Proofs[i]] read and written through the pointer stored there. *)
Definition updProof (i : nat) (f : Proof -> Proof) : M unit :=
  m <- getTree ;;
  p <- index (Proofs m) i ;;
  modify (with_Proofs (<[i := f p]> (Proofs m))).

Definition updatePairProof (buf : list bytes) (idx batch step : nat) : M unit :=
  m <- getTree ;;
  let start := idx * batch in
  let end_ := min (start + batch) (length (Proofs m)) in
  forM (range start end_) (fun i =>
    updProof i (fun p => mkProof (Siblings p) (u32 (Path p + 2 ^ Z.of_nat step))) ;;
    sib <- index buf (idx + 1) ;;
    updProof i (fun p => mkProof (Siblings p ++ [sib]) (Path p))) ;;
  let start := start + batch in
  let end_ := min (start + batch) (length (Proofs m)) in
  forM (range start end_) (fun i =>
    sib <- index buf idx ;;
    updProof i (fun p => mkProof (Siblings p ++ [sib]) (Path p))).

Definition updateProofs (buf : list bytes) (bufLen step : nat) : M unit :=
  let batch := 2 ^ step in
  forM (evens bufLen) (fun i => updatePairProof buf i batch step).

Definition getDummyHash : M (bytes * option error) :=
  fun w =>
    let w' := mkWorld (mt w) (S (draws w)) in
    match rnd (draws w) with
    | Filled b => Done (resize defaultHashLen Byte.x00 b, None) w'
    | ReadErr e => Done ([], Some e) w'
    end.

Definition fixOdd (buf : list bytes) (prevLen : nat) : M (list bytes * nat * option error) :=
  if Nat.even prevLen then ret (buf, prevLen, None) else
  m <- getTree ;;
  r <- (if NoDuplicates (config m) then getDummyHash
        else (x <- index buf (prevLen - 1) ;; ret (x, None))) ;;
  match r.2 with
  | Some e => ret ([], 0, Some e)
  | None =>
      let appendNode := r.1 in
      let prevLen := prevLen + 1 in
      if decide (length buf < prevLen) then ret (buf ++ [appendNode], prevLen, None)
      else (buf <- store buf (prevLen - 1) appendNode ;; ret (buf, prevLen, None))
  end.

Definition proofGen : M (option error) :=
  m <- getTree ;;
  let numLeaves := length (Leaves m) in
  initProofs ;;
  let buf := Leaves m in
  r <- fixOdd buf numLeaves ;;
  let '(buf, prevLen, err) := r in
  match err with Some e => ret (Some e) | None =>
  updateProofs buf numLeaves 0 ;;
  r <- forE (range 1 (Z.to_nat (Depth m))) (fun step '(buf, prevLen) =>
         r <- forE (evens prevLen) (fun idx buf =>
                a <- index buf idx ;;
                b <- index buf (idx + 1) ;;
                r <- callHash (a ++ b) ;;
                buf <- store buf (idx / 2) r.1 ;;
                ret (buf, r.2)) buf ;;
         let '(buf, err) := r in
         match err with Some e => ret ((buf, prevLen), Some e) | None =>
         let prevLen := prevLen / 2 in
         r <- fixOdd buf prevLen ;;
         let '(buf, prevLen, err) := r in
         match err with Some e => ret ((buf, prevLen), Some e) | None =>
         updateProofs buf prevLen step ;;
         ret ((buf, prevLen), None)
         end end) (buf, prevLen) ;;
  let '((buf, prevLen), err) := r in
  match err with Some e => ret (Some e) | None =>
  a <- index buf 0 ;;
  b <- index buf 1 ;;
  r <- callHash (a ++ b) ;;
  modify (with_Root r.1) ;;
  ret r.2
  end end.

Definition leafGen (blocks : list B) : M (list bytes * option error) :=
  let lenLeaves := length blocks in
  let leaves := replicate lenLeaves [] in
  r <- forE (range 0 lenLeaves) (fun i leaves =>
         b <- index blocks i ;;
         let '(data, err) := Serialize b in
         match err with Some e => ret ([], Some e) | None =>
         leaves <- store leaves i data ;;
         ret (leaves, None)
         end) leaves ;;
  let '(leaves, err) := r in
  match err with Some e => ret ([], Some e) | None =>
  m <- getTree ;;
  if SortLeaves (config m) then ret (sortSlice leaves, None)
  else ret (leaves, None)
  end.

(** [m.tree[i] = lvl], [m.tree[i]], [m.tree[i][j]] and [m.tree[i][j] = x]. *)
Definition setLevel (i : nat) (lvl : list bytes) : M unit :=
  m <- getTree ;;
  t <- store (tree m) i lvl ;;
  modify (with_tree t).

Definition level (i : nat) : M (list bytes) :=
  m <- getTree ;; index (tree m) i.

Definition treeAt (i j : nat) : M bytes :=
  lvl <- level i ;; index lvl j.

Definition setTreeAt (i j : nat) (x : bytes) : M unit :=
  lvl <- level i ;;
  lvl <- store lvl j x ;;
  setLevel i lvl.

(** The goroutine that fills [leafMap] is joined before [treeBuild]
    returns its result; it is run here before the levels are built. *)
Definition treeBuild : M (option error) :=
  m <- getTree ;;
  let numLeaves := length (Leaves m) in
  forM (range 0 numLeaves) (fun i =>
    m <- getTree ;;
    l <- index (Leaves m) i ;;
    modify (with_leafMap (<[l := i]> (leafMap m)))) ;;
  modify (with_tree (replicate (Z.to_nat (Depth m)) [])) ;;
  setLevel 0 (Leaves m) ;;
  lvl <- level 0 ;;
  r <- fixOdd lvl numLeaves ;;
  let '(lvl, prevLen, err) := r in
  setLevel 0 lvl ;;
  match err with Some e => ret (Some e) | None =>
  r <- forE (range 0 (Z.to_nat (u32 (Depth m - 1)))) (fun i prevLen =>
         setLevel (i + 1) (replicate (prevLen / 2) []) ;;
         r <- forE (evens prevLen) (fun j (_ : unit) =>
                a <- treeAt i j ;;
                b <- treeAt i (j + 1) ;;
                if bytesEqual a b then
                  setTreeAt (i + 1) (j / 2) a ;; ret (tt, None)
                else
                  m <- getTree ;;
                  r <- (if SortPairs (config m) then
                          if bytesLess a b then callHash (a ++ b)
                          else callHash (b ++ a)
                        else callHash (a ++ b)) ;;
                  setTreeAt (i + 1) (j / 2) r.1 ;;
                  ret (tt, r.2)) tt ;;
         match r.2 with Some e => ret (prevLen, Some e) | None =>
         lvl <- level (i + 1) ;;
         r <- fixOdd lvl (length lvl) ;;
         let '(lvl, prevLen, err) := r in
         setLevel (i + 1) lvl ;;
         ret (prevLen, err)
         end) prevLen ;;
  match r.2 with Some e => ret (Some e) | None =>
  let top := Z.to_nat (u32 (Depth m - 1)) in
  a <- treeAt top 0 ;;
  b <- treeAt top 1 ;;
  r <- callHash (a ++ b) ;;
  modify (with_Root r.1) ;;
  ret r.2
  end end.

Fixpoint verifyLoop (hashFunc : HashFuncType) (root : bytes)
    (siblings : list bytes) (hash : bytes) (path : Z) : bool * option error :=
  match siblings with
  | [] => (bytesEqual hash root, None)
  | n :: rest =>
      let '(hash, err) :=
        if (Z.land path 1 =? 1)%Z then hashFunc (hash ++ n)
        else hashFunc (n ++ hash) in
      match err with
      | Some e => (false, Some e)
      | None => verifyLoop hashFunc root rest hash (Z.shiftr path 1)
      end
  end.

Definition Verify (dataBlock : option B) (proof : option Proof) (root : bytes)
    (hashFunc : option HashFuncType) : bool * option error :=
  match dataBlock with None => (false, Some "data block is nil"%string) | Some dataBlock =>
  match proof with None => (false, Some "proof is nil"%string) | Some proof =>
  let hashFunc := match hashFunc with Some h => h | None => defaultHashFunc end in
  let '(data, err) := Serialize dataBlock in
  match err with Some e => (false, Some e) | None =>
  let '(hash, err) := hashFunc data in
  match err with Some e => (false, Some e) | None =>
  verifyLoop hashFunc root (Siblings proof) hash (Path proof)
  end end end end.

Definition GenerateProof (dataBlock : B) : M (option Proof * option error) :=
  m <- getTree ;;
  if negb (Mode (config m) =? ModeTreeBuild)%Z
     && negb (Mode (config m) =? ModeProofGenAndTreeBuild)%Z
  then ret (None, Some "merkle Tree is not in built, could not generate proof by this method"%string)
  else
  let '(blockByte, err) := Serialize dataBlock in
  match err with Some e => ret (None, Some e) | None =>
  r <- callHash blockByte ;;
  let '(blockHash, err) := r in
  match err with Some e => ret (None, Some e) | None =>
  match leafMap m !! blockHash with
  | None => ret (None, Some "data block is not a member of the Merkle Tree"%string)
  | Some idx =>
      let siblings := replicate (Z.to_nat (Depth m)) [] in
      r <- forL (range 0 (Z.to_nat (Depth m))) (fun i '(idx, path, siblings) =>
             if Nat.odd idx then
               x <- treeAt i (idx - 1) ;;
               siblings <- store siblings i x ;;
               ret (idx / 2, path, siblings)
             else
               let path := u32 (path + 2 ^ Z.of_nat i) in
               x <- treeAt i (idx + 1) ;;
               siblings <- store siblings i x ;;
               ret (idx / 2, path, siblings)) (idx, 0%Z, siblings) ;;
      let '(idx, path, siblings) := r in
      ret (Some (mkProof siblings path), None)
  end end end.

(** The part of [New] that runs on the freshly allocated tree.  The
    boolean tells whether the named result [m] is returned ([true]) or
    an explicit [nil] ([false]). *)
Definition buildTree (blocks : list B) : M (bool * option error) :=
  modify (with_Depth (calTreeDepth (Z.of_nat (length blocks)))) ;;
  r <- leafGen blocks ;;
  let '(leaves, err) := r in
  modify (with_Leaves leaves) ;;
  match err with Some e => ret (true, Some e) | None =>
  m <- getTree ;;
  if (Mode (config m) =? ModeProofGen)%Z then
    err <- proofGen ;; ret (true, err)
  else if (Mode (config m) =? ModeTreeBuild)%Z then
    err <- treeBuild ;; ret (true, err)
  else if (Mode (config m) =? ModeProofGenAndTreeBuild)%Z then
    err <- treeBuild ;;
    match err with Some e => ret (true, Some e) | None =>
    initProofs ;;
    m <- getTree ;;
    forM (range 0 (length (tree m))) (fun i =>
      lvl <- level i ;;
      updateProofs lvl (length lvl) i) ;;
    ret (true, None)
    end
  else ret (false, Some "invalid configuration mode"%string)
  end.

Definition New (config : option Config) (blocks : list B) : NewResult :=
  if decide (length blocks <= 1) then
    Returned None (Some "the number of data blocks must be greater than 1"%string)
  else
    let config := match config with Some c => c | None => newConfig end in
    let config :=
      match HashFunc config with
      | None => mkConfig (Some defaultHashFunc) (NumRoutines config) (Mode config)
                  (NoDuplicates config) (SortLeaves config) (SortPairs config)
      | Some _ => config
      end in
    let config :=
      if (Mode config =? 0)%Z then
        mkConfig (HashFunc config) (NumRoutines config) ModeProofGen
          (NoDuplicates config) (SortLeaves config) (SortPairs config)
      else config in
    match buildTree blocks (mkWorld (newTree config) 0) with
    | Done (true, err) w => Returned (Some (mt w)) err
    | Done (false, err) w => Returned None err
    | Crash why => Panicked why
    end.

End Methods.

(* ===================================================================== *)
(** ** Vocabulary of the properties *)

(** [New]'s treatment of its [config] argument: a nil pointer, a nil hash
    function and an unset mode are replaced by the defaults. *)
Definition normalize (cfg : option Config) : Config :=
  let c := match cfg with Some c => c | None => newConfig end in
  let c := match HashFunc c with
           | None => mkConfig (Some defaultHashFunc) (NumRoutines c) (Mode c)
                       (NoDuplicates c) (SortLeaves c) (SortPairs c)
           | Some _ => c
           end in
  if (Mode c =? 0)%Z then
    mkConfig (HashFunc c) (NumRoutines c) ModeProofGen
      (NoDuplicates c) (SortLeaves c) (SortPairs c)
  else c.

(** The mode and the odd-node policy a caller asks for. *)
Definition modeOf (cfg : option Config) : ModeType :=
  match cfg with Some c => Mode c | None => 0%Z end.

Definition noDuplicateOddNode (cfg : option Config) : bool :=
  match cfg with Some c => NoDuplicates c | None => false end.

Definition recognized (mode : ModeType) : bool :=
  (mode =? ModeProofGen)%Z || (mode =? ModeTreeBuild)%Z
  || (mode =? ModeProofGenAndTreeBuild)%Z.

(** The tree of a call of [New] that returned one without an error. *)
Definition built (r : NewResult) : option MerkleTree :=
  match r with Returned (Some m) None => Some m | _ => None end.

Definition succeeded (r : NewResult) : bool :=
  match built r with Some _ => true | None => false end.

Definition treeOf (r : NewResult) : MerkleTree :=
  match r with Returned (Some m) _ => m | _ => newTree newConfig end.

Definition nilb {A} (l : list A) : bool :=
  match l with [] => true | _ :: _ => false end.

(** No leaves, levels, root or proofs can be read from the result. *)
Definition nothingExposed (m : option MerkleTree) : bool :=
  match m with
  | None => true
  | Some m => nilb (Leaves m) && nilb (tree m) && nilb (Root m) && nilb (Proofs m)
  end.

(** [New] returned an error and exposes nothing. *)
Definition failsClean (r : NewResult) : bool :=
  match r with
  | Returned m (Some _) => nothingExposed m
  | _ => false
  end.

(** [GenerateProof] run on a finished tree; [None] stands for a panic. *)
Definition generateProofOn {B} `{DataBlock B} (m : MerkleTree) (b : B)
  : option (option Proof * option error) :=
  match GenerateProof b (mkWorld m 0) with
  | Done r _ => Some r
  | Crash _ => None
  end.

(** [Verify] as the specification words it: the accumulator starts as the
    serialized block, with no hashing applied. *)
Fixpoint specVerifyLoop (hashFunc : HashFuncType) (root : bytes)
    (siblings : list bytes) (acc : bytes) (path : Z) : bool * option error :=
  match siblings with
  | [] => (bytesEqual acc root, None)
  | n :: rest =>
      let '(acc, err) :=
        if Z.testbit path 0 then hashFunc (acc ++ n) else hashFunc (n ++ acc) in
      match err with
      | Some e => (false, Some e)
      | None => specVerifyLoop hashFunc root rest acc (Z.shiftr path 1)
      end
  end.

Definition specVerify {B} `{DataBlock B} (dataBlock : B) (proof : Proof) (root : bytes)
    (hashFunc : HashFuncType) : bool * option error :=
  let '(data, err) := Serialize dataBlock in
  match err with
  | Some e => (false, Some e)
  | None => specVerifyLoop hashFunc root (Siblings proof) data (Path proof)
  end.

(** *** Invariants *)

(** An execution that ends keeps the property [P] of the tree. *)
Definition keeps {A} (P : MerkleTree -> Prop) (c : M A) : Prop :=
  forall w a w', c w = Done a w' -> P (mt w) -> P (mt w').

(** One level adds one sibling to a proof and at most the bit of that
    level to its path. *)
Definition stepped (step : nat) (p p' : Proof) : Prop :=
  (exists x, Siblings p' = Siblings p ++ [x]) /\
  (Path p' = Path p \/ Path p' = u32 (Path p + 2 ^ Z.of_nat step)).

(** [P'] is [P] with the proofs of the leaves in [[lo, hi)] stepped. *)
Definition updated (step lo hi : nat) (P P' : list Proof) : Prop :=
  length P' = length P /\
  forall i p, P !! i = Some p ->
    exists p', P' !! i = Some p' /\
      if decide (lo <= i < hi) then stepped step p p' else p' = p.

(** A proof that has gone through [s] levels. *)
Definition proofOk (s : nat) (p : Proof) : Prop :=
  length (Siblings p) = s /\ (0 <= Path p < 2 ^ Z.of_nat s)%Z.

(** The first [k] levels have even length and cover the [n] leaves. *)
Definition levelsOk (n : nat) (t : list (list bytes)) (k : nat) : Prop :=
  forall j lvl, j < k -> t !! j = Some lvl ->
    Nat.even (length lvl) = true /\ n <= length lvl * 2 ^ j.

(** The fields [New] fixes before the tree is built. *)
Definition frame (c : Config) (d : Z) (l : list bytes) (m : MerkleTree) : Prop :=
  config m = c /\ Depth m = d /\ Leaves m = l.

(** The tree pads odd levels by duplication. *)
Definition duplicating (m : MerkleTree) : Prop := NoDuplicates (config m) = false.

(** *** Concrete inputs *)

(** A data block that serializes to the bytes it holds, or fails. *)
Inductive rawBlock := Raw (data : bytes) | Faulty (e : error).

#[global] Instance rawBlock_DataBlock : DataBlock rawBlock :=
  fun b => match b with Raw data => (data, None) | Faulty e => ([], Some e) end.

Definition blockA : rawBlock := Raw ["a"%byte].
Definition blockB : rawBlock := Raw ["b"%byte].
Definition blockC : rawBlock := Raw ["c"%byte].
Definition blockD : rawBlock := Raw ["d"%byte].

(** Random sources: one whose reads fail, and one that fills every buffer
    with the same byte. *)
Definition noRandom : nat -> RandRead := fun _ => ReadErr "no entropy".
Definition constRandom (b : byte) : nat -> RandRead := fun _ => Filled (replicate 32 b).

(** A hash function that never fails, made from a function on bytes. *)
Definition total (h : bytes -> bytes) : HashFuncType := fun data => (h data, None).

(** A configuration with the duplication policy and no sorting. *)
Definition configOf (h : option HashFuncType) (mode : ModeType) : Config :=
  mkConfig h 0%Z mode false false false.

(** The tree [New] builds from "a", "b", "c" with the default configuration. *)
Definition tree_abc : MerkleTree := treeOf (New noRandom None [blockA; blockB; blockC]).

(** The concrete scenario of the specification, the path value left open:
    blocks "a", "b", "c", "d", hash [h], no sorting, duplication policy. *)
Definition scenario_abcd (h : bytes -> bytes) (mode : ModeType) (path : Z) : Prop :=
  exists m,
    New noRandom (Some (configOf (Some (total h)) mode)) [blockA; blockB; blockC; blockD]
      = Returned (Some m) None /\
    Leaves m = [["a"]; ["b"]; ["c"]; ["d"]]%byte /\
    (mode = ModeProofGenAndTreeBuild ->
       tree m = [[["a"]; ["b"]; ["c"]; ["d"]]; [h ["a"; "b"]; h ["c"; "d"]]]%byte) /\
    Root m = h (h ["a"; "b"]%byte ++ h ["c"; "d"]%byte) /\
    Proofs m !! 0 = Some (mkProof [["b"%byte]; h ["c"; "d"]%byte] path).

(** *** Vocabulary of the further properties *)

(** The bytes a block serializes to, and whether its serialization
    succeeds. *)
Definition serialized {B} `{DataBlock B} (b : B) : bytes := (Serialize b).1.
Definition serializes {B} `{DataBlock B} (b : B) : Prop := (Serialize b).2 = None.

(** [i] is the last position of the leaf [l]. *)
Definition lastIndexOf (leaves : list bytes) (l : bytes) (i : nat) : Prop :=
  leaves !! i = Some l /\ forall j, i < j -> leaves !! j <> Some l.

(** The sorting options a caller asks for. *)
Definition sortLeavesOf (cfg : option Config) : bool :=
  match cfg with Some c => SortLeaves c | None => false end.

Definition sortPairsOf (cfg : option Config) : bool :=
  match cfg with Some c => SortPairs c | None => false end.

(** [b] does not come before [a] in the order of [bytes.Compare]. *)
Definition notBefore (a b : bytes) : Prop := bytesLess b a = false.

(** The node [treeBuild] puts above the pair [(a, b)]: a pair of identical
    nodes is propagated, any other pair is hashed, in sorted order when
    [SortPairs] is set. *)
Definition pairNode (sortPairs : bool) (h : HashFuncType) (a b : bytes)
  : bytes * option error :=
  if bytesEqual a b then (a, None)
  else if sortPairs then
         if bytesLess a b then h (a ++ b) else h (b ++ a)
       else h (a ++ b).

(** Every pair of the level [lo] has its node in the level [up]. *)
Definition linked (sortPairs : bool) (h : HashFuncType) (lo up : list bytes) : Prop :=
  forall j a b, lo !! (2 * j) = Some a -> lo !! (2 * j + 1) = Some b ->
    exists x, pairNode sortPairs h a b = (x, None) /\ up !! j = Some x.

(** The levels below [k] of a tree over [n] leaves: each has even length,
    covers the leaves, and holds at most one node of padding. *)
Definition levelsTight (n : nat) (t : list (list bytes)) (k : nat) : Prop :=
  forall j lvl, j < k -> t !! j = Some lvl ->
    Nat.even (length lvl) = true /\
    n <= length lvl * 2 ^ j /\ length lvl * 2 ^ j < n + 2 ^ S j.

(** Each level below [k] is linked to the level above it. *)
Definition levelsLinked (sortPairs : bool) (h : HashFuncType)
    (t : list (list bytes)) (k : nat) : Prop :=
  forall j lo up, S j < k -> t !! j = Some lo -> t !! S j = Some up ->
    linked sortPairs h lo up.

(** The reference construction under the duplication policy.  [pairUp f]
    puts the node [f a b] above every pair [(a, b)] of a level; [dupPad]
    repeats the last node of a level of odd length; [levelAt f leaves j] is
    the level [j] over the leaves, and [merkleRoot f h leaves depth] the
    hash of the two nodes of the level [depth - 1]. *)
Fixpoint pairUp (f : bytes -> bytes -> bytes * option error) (l : list bytes)
  : option (list bytes) :=
  match l with
  | a :: b :: rest =>
      match f a b, pairUp f rest with
      | (x, None), Some up => Some (x :: up)
      | _, _ => None
      end
  | _ => Some []
  end.

Definition dupPad (l : list bytes) : list bytes :=
  if Nat.even (length l) then l
  else match last l with Some x => l ++ [x] | None => l end.

Fixpoint levelAt (f : bytes -> bytes -> bytes * option error) (leaves : list bytes)
    (j : nat) : option (list bytes) :=
  match j with
  | 0 => Some (dupPad leaves)
  | S j' =>
      match levelAt f leaves j' with
      | Some lo => dupPad <$> pairUp f lo
      | None => None
      end
  end.

Definition merkleRoot (f : bytes -> bytes -> bytes * option error) (h : HashFuncType)
    (leaves : list bytes) (depth : nat) : option bytes :=
  match levelAt f leaves (depth - 1) with
  | Some (a :: b :: _) =>
      match h (a ++ b) with (r, None) => Some r | _ => None end
  | _ => None
  end.

(** The node [proofGen] puts above a pair: always the hash of the two. *)
Definition hashNode (h : HashFuncType) (a b : bytes) : bytes * option error := h (a ++ b).

(** [P'] is [P] with the proof of each leaf [i] in [[lo, hi)] changed as
    [R i] says. *)
Definition updatedBy (R : nat -> Proof -> Proof -> Prop) (lo hi : nat)
    (P P' : list Proof) : Prop :=
  length P' = length P /\
  forall i p, P !! i = Some p ->
    exists p', P' !! i = Some p' /\
      if decide (lo <= i < hi) then R i p p' else p' = p.

(** The step of [updatePairProof] for the leaf [i] at the level [step]
    held in [buf]: the node above the leaf has index [i / 2 ^ step]; a node
    with an even index gets its right neighbour and the bit [step] of the
    path, a node with an odd index its left neighbour. *)
Definition stepBy (buf : list bytes) (step i : nat) (p p' : Proof) : Prop :=
  let k := i / 2 ^ step in
  exists x,
    if Nat.even k
    then buf !! (k + 1) = Some x /\
         p' = mkProof (Siblings p ++ [x]) (u32 (Path p + 2 ^ Z.of_nat step))
    else buf !! (k - 1) = Some x /\ p' = mkProof (Siblings p ++ [x]) (Path p).

(** The node reached from [acc] by the loop of [Verify] over
    [siblings]; [None] when a call of the hash function fails. *)
Fixpoint climb (h : HashFuncType) (siblings : list bytes) (acc : bytes) (path : Z)
  : option bytes :=
  match siblings with
  | [] => Some acc
  | n :: rest =>
      let '(acc, err) :=
        if (Z.land path 1 =? 1)%Z then h (acc ++ n) else h (n ++ acc) in
      match err with
      | Some _ => None
      | None => climb h rest acc (Z.shiftr path 1)
      end
  end.

(** One more step of the loop, on the bit [bit] of the path. *)
Definition climbStep (h : HashFuncType) (bit : bool) (x : bytes) (acc : option bytes)
  : option bytes :=
  match acc with
  | None => None
  | Some a =>
      let '(y, err) := if bit then h (a ++ x) else h (x ++ a) in
      match err with Some _ => None | None => Some y end
  end.

(** The hash function [New] works with. *)
Definition hashOf (cfg : option Config) : HashFuncType :=
  match cfg with
  | Some c => match HashFunc c with Some h => h | None => defaultHashFunc end
  | None => defaultHashFunc
  end.

(** The state in which [New] starts the construction: the configuration
    normalized, the depth computed and the leaves generated. *)
Definition started {B} (cfg : option Config) (blocks : list B) (leaves : list bytes) : World :=
  mkWorld (with_Leaves leaves
             (with_Depth (calTreeDepth (Z.of_nat (length blocks))) (newTree (normalize cfg)))) 0.

(** The loop of [New] that streams the levels of the tree into the
    proofs. *)
Definition streamLevels (n : nat) : M unit :=
  forM (range 0 n) (fun i => lvl <- level i ;; updateProofs lvl (length lvl) i).

(** The two trees agree on everything but the proofs. *)
Definition sameTree (m m' : MerkleTree) : Prop := with_Proofs [] m = with_Proofs [] m'.

(** The tree is well formed over the hash function [h]: it has [Depth]
    levels, the lowest holds the leaves and at most one node of padding,
    every level is linked to the next, and the root is the hash of the two
    nodes of the top level. *)
Record wellFormed (sortPairs : bool) (h : HashFuncType) (m : MerkleTree) : Prop := {
  wf_length : length (tree m) = Z.to_nat (Depth m);
  wf_tight : levelsTight (length (Leaves m)) (tree m) (Z.to_nat (Depth m));
  wf_linked : levelsLinked sortPairs h (tree m) (Z.to_nat (Depth m));
  wf_leaves : exists pad, tree m !! 0 = Some (Leaves m ++ pad) /\ length pad <= 1 /\
                (NoDuplicates (config m) = false ->
                 forall x, pad = [x] -> last (Leaves m) = Some x);
  wf_root : exists a b, tree m !! (Z.to_nat (Depth m) - 1) = Some [a; b] /\
                h (a ++ b) = (Root m, None)
}.

(** The index of the node paired with the node [k] of a level. *)
Definition neighbour (k : nat) : nat := if Nat.even k then k + 1 else k - 1.

(** The proof of the leaf [i] read off the first [s] levels of the tree
    [t]: at each level the neighbour of the node above the leaf, and the
    bit of the level when that node has an even index. *)
Fixpoint proofAt (t : list (list bytes)) (i s : nat) : option Proof :=
  match s with
  | 0 => Some (mkProof [] 0%Z)
  | S s' =>
      match proofAt t i s', t !! s' with
      | Some p, Some lvl =>
          let k := i / 2 ^ s' in
          match lvl !! neighbour k with
          | Some x =>
              Some (mkProof (Siblings p ++ [x])
                      (if Nat.even k then u32 (Path p + 2 ^ Z.of_nat s') else Path p))
          | None => None
          end
      | _, _ => None
      end
  end.

(** The execution [c] started in [w] ends without a panic, in a result
    and a state that satisfy [Q]. *)
Definition wp {A} (c : M A) (Q : A -> World -> Prop) (w : World) : Prop :=
  match c w with Done a w' => Q a w' | Crash _ => False end.

(** The state [v] holds the tree [m] with [n] proofs in place of its
    own. *)
Definition shape (n : nat) (m : MerkleTree) (v : World) : Prop :=
  sameTree (mt v) m /\ length (Proofs (mt v)) = n.

(** On the way up from the leaf [i], below the top level, no node is
    identical to its neighbour. *)
Definition distinctOnPath (m : MerkleTree) (i : nat) : Prop :=
  forall s lvl x y, s < Z.to_nat (Depth m) - 1 -> tree m !! s = Some lvl ->
    lvl !! (i / 2 ^ s) = Some x -> lvl !! neighbour (i / 2 ^ s) = Some y -> x <> y.

(** A hash function that returns its input: the nodes of a tree built
    with it spell out the leaves below them. *)
Definition echo : HashFuncType := total (fun data => data).

(** The tree [New] builds from "a", "b", "c" with [echo] in the mode
    [mode]. *)
Definition tree_echo (mode : ModeType) : MerkleTree :=
  treeOf (New noRandom (Some (configOf (Some echo) mode)) [blockA; blockB; blockC]).

(** Three proofs that have not left the leaves yet. *)
Definition proofs_at_leaves : World :=
  mkWorld (with_Proofs (replicate 3 (mkProof [] 0%Z)) (newTree newConfig)) 0.

(** Whether a block serializes is decidable. *)
#[global] Instance serializes_dec {B} `{DataBlock B} (b : B) : Decision (serializes b).
Proof. unfold serializes. apply _. Defined.




(* ===================================================================== *)
(** ** The rounding of [calTreeDepth]

    [calTreeDepth] works on [float64] values.  A finite [float64] is a
    number [mant * 2 ^ expo] whose mantissa is below 2^53 in absolute
    value; [math.Trunc], the comparison and the conversion to [uint32] are
    exact on them.

    [math.Log2] is part of Go's library and rounds.  It is described here
    by what its definition guarantees for the argument [float64(n)] of a
    length [n] below 2^53, which the conversion represents exactly.  With
    [n = frac * 2 ^ e], [1/2 <= frac < 1]: when [frac] is 1/2 the result is
    [e - 1], exactly; otherwise it is the float nearest to [a + e], the sum
    of the integer [e] and of an approximation [a] of the logarithm of
    [frac], whose error (that of [math.Log], of the constant [1/Ln2] and of
    their product) stays well below 2^-50. *)

Module Float.
Import Reals.
Local Open Scope R_scope.

Record float64 := F64 { mant : Z; expo : Z }.



(** The integer part of a float, towards zero. *)
Definition whole (x : float64) : Z :=
  if (0 <=? expo x)%Z then (mant x * 2 ^ expo x)%Z
  else (mant x ÷ 2 ^ (- expo x))%Z.

(** [math.Trunc]. *)
Definition Trunc (x : float64) : float64 := F64 (whole x) 0.

(** [x != y]. *)
Definition neq (x y : float64) : bool :=
  let e := Z.min (expo x) (expo y) in
  negb (mant x * 2 ^ (expo x - e) =? mant y * 2 ^ (expo y - e))%Z.

(** The conversion [uint32(x)], for a float that is not negative. *)
Definition to_uint32 (x : float64) : Z := (whole x mod 2 ^ 32)%Z.

(** [calTreeDepth], given the function [Log2] that [math.Log2] is on the
    lengths. *)
Definition calTreeDepth (Log2 : Z -> float64) (blockLen : Z) : Z :=
  let log2BlockLen := Log2 blockLen in
  if neq log2BlockLen (Trunc log2BlockLen)
  then u32 (to_uint32 log2BlockLen + 1)
  else to_uint32 log2BlockLen.

(** The logarithm in base 2, and the float nearest to a real number. *)
Definition log2 (x : R) : R := ln x / ln 2.



End Float.

(* ===================================================================== *)
(** ** Slices in memory

    The methods above work on the bytes of their slices.  [append] does
    more than concatenate: when the first operand has room behind its
    length it writes the second operand there, into an array that other
    slices may share, and [reflect.DeepEqual] tells a nil slice from an
    empty one.  The module [Heap] embeds the same methods with the slices
    as Go has them, a position, a length and a capacity in a memory of
    bytes, so that the properties that depend on the bytes of the nodes can
    be stated of the code with caller-supplied slices.

    - The memory is one sequence of bytes.  The arrays lie in it one after
      the other; a slice stays within the capacity it was given, so within
      its array.  An allocation takes fresh memory at the end.
    - [Serialize] returns a slice of data that is in memory before [New] is
      called, the same at every call, and does nothing else.
    - The hash function is a function of the bytes of its argument and
      returns a newly allocated slice without spare capacity (as a digest
      does); a result of no bytes is the nil slice.
    - When [append] has to allocate, the new slice is given no spare
      capacity; it is used for a call of the hash function only.
    - Where two slices of a level hold the same bytes, [sort.Slice] may put
      either first; insertion order is taken. *)

Module Heap.

Inductive slice := nilSlice | Slice (ptr len cap : nat).

Definition len (s : slice) : nat :=
  match s with nilSlice => 0 | Slice _ l _ => l end.

Definition cap (s : slice) : nat :=
  match s with nilSlice => 0 | Slice _ _ c => c end.

(** The bytes of a slice. *)
Definition read (mem : bytes) (s : slice) : bytes :=
  match s with
  | nilSlice => []
  | Slice p l _ => take l (drop p mem)
  end.

(** The memory with [data] written at the position [pos]. *)
Definition write (mem : bytes) (pos : nat) (data : bytes) : bytes :=
  take pos mem ++ data ++ drop (pos + length data) mem.

(** A new array that holds [data]. *)
Definition alloc (mem : bytes) (data : bytes) : slice * bytes :=
  (Slice (length mem) (length data) (length data), mem ++ data).

(** [append(x, y...)]. *)
Definition appendAt (mem : bytes) (x y : slice) : slice * bytes :=
  let data := read mem y in
  match x with
  | nilSlice =>
      match data with
      | [] => (nilSlice, mem)
      | _ => alloc mem data
      end
  | Slice p l c =>
      if decide (l + length data <= c)
      then (Slice p (l + length data) c, write mem (p + l) data)
      else alloc mem (read mem x ++ data)
  end.

(** [reflect.DeepEqual] on two byte slices: both nil, or neither and the
    same bytes. *)
Definition deepEqualAt (mem : bytes) (a b : slice) : bool :=
  match a, b with
  | nilSlice, nilSlice => true
  | Slice _ _ _, Slice _ _ _ => bool_decide (read mem a = read mem b)
  | _, _ => false
  end.

(** [sort.Slice] with [bytes.Compare(a, b) < 0]. *)
Fixpoint sortInsert (mem : bytes) (x : slice) (l : list slice) : list slice :=
  match l with
  | [] => [x]
  | y :: l' =>
      if bytesLess (read mem y) (read mem x) then y :: sortInsert mem x l' else x :: l
  end.

Definition sortSlice (mem : bytes) (l : list slice) : list slice :=
  foldr (sortInsert mem) [] l.

(** The interface [DataBlock]. *)
Class DataBlock (B : Type) := Serialize : B -> slice * option error.

Record Proof := mkProof {
  Siblings : list slice;
  Path : Z }.

Record MerkleTree := mkTree {
  config : Config;
  leafMap : gmap bytes nat;
  tree : list (list slice);
  Root : slice;
  Leaves : list slice;
  Proofs : list Proof;
  Depth : Z }.

Definition newTree (c : Config) : MerkleTree := mkTree c ∅ [] nilSlice [] [] 0%Z.

Definition with_tree (t : list (list slice)) (m : MerkleTree) : MerkleTree :=
  mkTree (config m) (leafMap m) t (Root m) (Leaves m) (Proofs m) (Depth m).
Definition with_leafMap (lm : gmap bytes nat) (m : MerkleTree) : MerkleTree :=
  mkTree (config m) lm (tree m) (Root m) (Leaves m) (Proofs m) (Depth m).
Definition with_Root (r : slice) (m : MerkleTree) : MerkleTree :=
  mkTree (config m) (leafMap m) (tree m) r (Leaves m) (Proofs m) (Depth m).
Definition with_Leaves (l : list slice) (m : MerkleTree) : MerkleTree :=
  mkTree (config m) (leafMap m) (tree m) (Root m) l (Proofs m) (Depth m).
Definition with_Proofs (p : list Proof) (m : MerkleTree) : MerkleTree :=
  mkTree (config m) (leafMap m) (tree m) (Root m) (Leaves m) p (Depth m).
Definition with_Depth (d : Z) (m : MerkleTree) : MerkleTree :=
  mkTree (config m) (leafMap m) (tree m) (Root m) (Leaves m) (Proofs m) d.

(** *** Executions

    As above, with the memory as a third component of the state. *)

Record World := mkWorld { mt : MerkleTree; draws : nat; mem : bytes }.

Inductive Exec (A : Type) : Type :=
| Done (a : A) (w : World)
| Crash (why : string).
Arguments Done {A} a w.
Arguments Crash {A} why.

Definition M (A : Type) : Type := World -> Exec A.

Definition ret {A} (a : A) : M A := fun w => Done a w.

Definition bind {A C} (c : M A) (k : A -> M C) : M C :=
  fun w => match c w with
           | Done a w' => k a w'
           | Crash why => Crash why
           end.

Definition panic {A} (why : string) : M A := fun _ => Crash why.

Declare Scope heap_scope.
Delimit Scope heap_scope with heap.
Notation "x <- c ;; k" := (bind c (fun x => k))
  (at level 100, c at next level, right associativity) : heap_scope.
Notation "c ;; k" := (bind c (fun _ => k))
  (at level 100, right associativity) : heap_scope.
Local Open Scope heap_scope.

Definition getTree : M MerkleTree := fun w => Done (mt w) w.
Definition modify (f : MerkleTree -> MerkleTree) : M unit :=
  fun w => Done tt (mkWorld (f (mt w)) (draws w) (mem w)).

Definition index {A} (s : list A) (i : nat) : M A :=
  match s !! i with
  | Some x => ret x
  | None => panic "index out of range"
  end.

Definition store {A} (s : list A) (i : nat) (x : A) : M (list A) :=
  if decide (i < length s) then ret (<[i := x]> s)
  else panic "index out of range".

Fixpoint forM (idxs : list nat) (body : nat -> M unit) : M unit :=
  match idxs with
  | [] => ret tt
  | i :: rest => body i ;; forM rest body
  end.

Fixpoint forE {L} (idxs : list nat) (body : nat -> L -> M (L * option error))
    (acc : L) : M (L * option error) :=
  match idxs with
  | [] => ret (acc, None)
  | i :: rest =>
      r <- body i acc ;;
      match r.2 with
      | Some e => ret r
      | None => forE rest body r.1
      end
  end.

Fixpoint forL {L} (idxs : list nat) (body : nat -> L -> M L) (acc : L) : M L :=
  match idxs with
  | [] => ret acc
  | i :: rest => acc' <- body i acc ;; forL rest body acc'
  end.

(** The operations on the memory. *)
Definition load (s : slice) : M bytes := fun w => Done (read (mem w) s) w.

Definition append (x y : slice) : M slice :=
  fun w => let '(s, mem') := appendAt (mem w) x y in Done s (mkWorld (mt w) (draws w) mem').

(** The slice in which a function returns the bytes [data]. *)
Definition fresh (data : bytes) : M slice :=
  fun w => match data with
           | [] => Done nilSlice w
           | _ => let '(s, mem') := alloc (mem w) data in
                  Done s (mkWorld (mt w) (draws w) mem')
           end.

Definition deepEqual (a b : slice) : M bool := fun w => Done (deepEqualAt (mem w) a b) w.

(** [bytes.Compare(a, b) < 0] and [bytes.Equal(a, b)]. *)
Definition less (a b : slice) : M bool :=
  fun w => Done (bytesLess (read (mem w) a) (read (mem w) b)) w.
Definition equal (a b : slice) : M bool :=
  fun w => Done (bytesEqual (read (mem w) a) (read (mem w) b)) w.

(** A call of the hash function [h]. *)
Definition hashWith (h : HashFuncType) (data : slice) : M (slice * option error) :=
  bs <- load data ;;
  let '(out, err) := h bs in
  s <- fresh out ;;
  ret (s, err).

(** *** The methods of the tree *)

Section Methods.

Context {B : Type} `{DataBlock B}.

Variable rnd : nat -> RandRead.

Definition callHash (data : slice) : M (slice * option error) :=
  m <- getTree ;;
  match HashFunc (config m) with
  | Some h => hashWith h data
  | None => panic "nil function call"
  end.

Definition initProofs : M unit :=
  m <- getTree ;;
  let numLeaves := length (Leaves m) in
  modify (with_Proofs (replicate numLeaves (mkProof [] 0%Z))).

Definition updProof (i : nat) (f : Proof -> Proof) : M unit :=
  m <- getTree ;;
  p <- index (Proofs m) i ;;
  modify (with_Proofs (<[i := f p]> (Proofs m))).

Definition updatePairProof (buf : list slice) (idx batch step : nat) : M unit :=
  m <- getTree ;;
  let start := idx * batch in
  let end_ := min (start + batch) (length (Proofs m)) in
  forM (range start end_) (fun i =>
    updProof i (fun p => mkProof (Siblings p) (u32 (Path p + 2 ^ Z.of_nat step))) ;;
    sib <- index buf (idx + 1) ;;
    updProof i (fun p => mkProof (Siblings p ++ [sib]) (Path p))) ;;
  let start := start + batch in
  let end_ := min (start + batch) (length (Proofs m)) in
  forM (range start end_) (fun i =>
    sib <- index buf idx ;;
    updProof i (fun p => mkProof (Siblings p ++ [sib]) (Path p))).

Definition updateProofs (buf : list slice) (bufLen step : nat) : M unit :=
  let batch := 2 ^ step in
  forM (evens bufLen) (fun i => updatePairProof buf i batch step).

(** The buffer of 32 bytes is new memory; when the read fails nil is
    returned. *)
Definition getDummyHash : M (slice * option error) :=
  fun w =>
    match rnd (draws w) with
    | Filled b =>
        let '(s, mem') := alloc (mem w) (resize defaultHashLen Byte.x00 b) in
        Done (s, None) (mkWorld (mt w) (S (draws w)) mem')
    | ReadErr e => Done (nilSlice, Some e) (mkWorld (mt w) (S (draws w)) (mem w))
    end.

Definition fixOdd (buf : list slice) (prevLen : nat) : M (list slice * nat * option error) :=
  if Nat.even prevLen then ret (buf, prevLen, None) else
  m <- getTree ;;
  r <- (if NoDuplicates (config m) then getDummyHash
        else (x <- index buf (prevLen - 1) ;; ret (x, None))) ;;
  match r.2 with
  | Some e => ret ([], 0, Some e)
  | None =>
      let appendNode := r.1 in
      let prevLen := prevLen + 1 in
      if decide (length buf < prevLen) then ret (buf ++ [appendNode], prevLen, None)
      else (buf <- store buf (prevLen - 1) appendNode ;; ret (buf, prevLen, None))
  end.

Definition proofGen : M (option error) :=
  m <- getTree ;;
  let numLeaves := length (Leaves m) in
  initProofs ;;
  let buf := Leaves m in
  r <- fixOdd buf numLeaves ;;
  let '(buf, prevLen, err) := r in
  match err with Some e => ret (Some e) | None =>
  updateProofs buf numLeaves 0 ;;
  r <- forE (range 1 (Z.to_nat (Depth m))) (fun step '(buf, prevLen) =>
         r <- forE (evens prevLen) (fun idx buf =>
                a <- index buf idx ;;
                b <- index buf (idx + 1) ;;
                t <- append a b ;;
                r <- callHash t ;;
                buf <- store buf (idx / 2) r.1 ;;
                ret (buf, r.2)) buf ;;
         let '(buf, err) := r in
         match err with Some e => ret ((buf, prevLen), Some e) | None =>
         let prevLen := prevLen / 2 in
         r <- fixOdd buf prevLen ;;
         let '(buf, prevLen, err) := r in
         match err with Some e => ret ((buf, prevLen), Some e) | None =>
         updateProofs buf prevLen step ;;
         ret ((buf, prevLen), None)
         end end) (buf, prevLen) ;;
  let '((buf, prevLen), err) := r in
  match err with Some e => ret (Some e) | None =>
  a <- index buf 0 ;;
  b <- index buf 1 ;;
  t <- append a b ;;
  r <- callHash t ;;
  modify (with_Root r.1) ;;
  ret r.2
  end end.

Definition leafGen (blocks : list B) : M (list slice * option error) :=
  let lenLeaves := length blocks in
  let leaves := replicate lenLeaves nilSlice in
  r <- forE (range 0 lenLeaves) (fun i leaves =>
         b <- index blocks i ;;
         let '(data, err) := Serialize b in
         match err with Some e => ret ([], Some e) | None =>
         leaves <- store leaves i data ;;
         ret (leaves, None)
         end) leaves ;;
  let '(leaves, err) := r in
  match err with Some e => ret ([], Some e) | None =>
  m <- getTree ;;
  if SortLeaves (config m)
  then (fun w => Done (sortSlice (mem w) leaves, None) w)
  else ret (leaves, None)
  end.

Definition setLevel (i : nat) (lvl : list slice) : M unit :=
  m <- getTree ;;
  t <- store (tree m) i lvl ;;
  modify (with_tree t).

Definition level (i : nat) : M (list slice) :=
  m <- getTree ;; index (tree m) i.

Definition treeAt (i j : nat) : M slice :=
  lvl <- level i ;; index lvl j.

Definition setTreeAt (i j : nat) (x : slice) : M unit :=
  lvl <- level i ;;
  lvl <- store lvl j x ;;
  setLevel i lvl.

(** The goroutine that fills [leafMap] is run first ([treeBuild] waits for
    it only when it returns no error); the key of a leaf is the string of
    its bytes when the goroutine reads it. *)
Definition treeBuild : M (option error) :=
  m <- getTree ;;
  let numLeaves := length (Leaves m) in
  forM (range 0 numLeaves) (fun i =>
    m <- getTree ;;
    l <- index (Leaves m) i ;;
    key <- load l ;;
    modify (with_leafMap (<[key := i]> (leafMap m)))) ;;
  modify (with_tree (replicate (Z.to_nat (Depth m)) [])) ;;
  setLevel 0 (Leaves m) ;;
  lvl <- level 0 ;;
  r <- fixOdd lvl numLeaves ;;
  let '(lvl, prevLen, err) := r in
  setLevel 0 lvl ;;
  match err with Some e => ret (Some e) | None =>
  r <- forE (range 0 (Z.to_nat (u32 (Depth m - 1)))) (fun i prevLen =>
         setLevel (i + 1) (replicate (prevLen / 2) nilSlice) ;;
         r <- forE (evens prevLen) (fun j (_ : unit) =>
                a <- treeAt i j ;;
                b <- treeAt i (j + 1) ;;
                same <- deepEqual a b ;;
                if same then
                  setTreeAt (i + 1) (j / 2) a ;; ret (tt, None)
                else
                  m <- getTree ;;
                  r <- (if SortPairs (config m) then
                          lt <- less a b ;;
                          if lt then (t <- append a b ;; callHash t)
                          else (t <- append b a ;; callHash t)
                        else (t <- append a b ;; callHash t)) ;;
                  setTreeAt (i + 1) (j / 2) r.1 ;;
                  ret (tt, r.2)) tt ;;
         match r.2 with Some e => ret (prevLen, Some e) | None =>
         lvl <- level (i + 1) ;;
         r <- fixOdd lvl (length lvl) ;;
         let '(lvl, prevLen, err) := r in
         setLevel (i + 1) lvl ;;
         ret (prevLen, err)
         end) prevLen ;;
  match r.2 with Some e => ret (Some e) | None =>
  let top := Z.to_nat (u32 (Depth m - 1)) in
  a <- treeAt top 0 ;;
  b <- treeAt top 1 ;;
  t <- append a b ;;
  r <- callHash t ;;
  modify (with_Root r.1) ;;
  ret r.2
  end end.

Fixpoint verifyLoop (hashFunc : HashFuncType) (root : slice)
    (siblings : list slice) (hash : slice) (path : Z) : M (bool * option error) :=
  match siblings with
  | [] => same <- equal hash root ;; ret (same, None)
  | n :: rest =>
      t <- (if (Z.land path 1 =? 1)%Z then append hash n else append n hash) ;;
      r <- hashWith hashFunc t ;;
      let '(hash, err) := r in
      match err with
      | Some e => ret (false, Some e)
      | None => verifyLoop hashFunc root rest hash (Z.shiftr path 1)
      end
  end.

Definition Verify (dataBlock : option B) (proof : option Proof) (root : slice)
    (hashFunc : option HashFuncType) : M (bool * option error) :=
  match dataBlock with None => ret (false, Some "data block is nil"%string) | Some dataBlock =>
  match proof with None => ret (false, Some "proof is nil"%string) | Some proof =>
  let hashFunc := match hashFunc with Some h => h | None => defaultHashFunc end in
  let '(data, err) := Serialize dataBlock in
  match err with Some e => ret (false, Some e) | None =>
  r <- hashWith hashFunc data ;;
  let '(hash, err) := r in
  match err with Some e => ret (false, Some e) | None =>
  verifyLoop hashFunc root (Siblings proof) hash (Path proof)
  end end end end.

Definition GenerateProof (dataBlock : B) : M (option Proof * option error) :=
  m <- getTree ;;
  if negb (Mode (config m) =? ModeTreeBuild)%Z
     && negb (Mode (config m) =? ModeProofGenAndTreeBuild)%Z
  then ret (None, Some "merkle Tree is not in built, could not generate proof by this method"%string)
  else
  let '(blockByte, err) := Serialize dataBlock in
  match err with Some e => ret (None, Some e) | None =>
  r <- callHash blockByte ;;
  let '(blockHash, err) := r in
  match err with Some e => ret (None, Some e) | None =>
  key <- load blockHash ;;
  match leafMap m !! key with
  | None => ret (None, Some "data block is not a member of the Merkle Tree"%string)
  | Some idx =>
      let siblings := replicate (Z.to_nat (Depth m)) nilSlice in
      r <- forL (range 0 (Z.to_nat (Depth m))) (fun i '(idx, path, siblings) =>
             if Nat.odd idx then
               x <- treeAt i (idx - 1) ;;
               siblings <- store siblings i x ;;
               ret (idx / 2, path, siblings)
             else
               let path := u32 (path + 2 ^ Z.of_nat i) in
               x <- treeAt i (idx + 1) ;;
               siblings <- store siblings i x ;;
               ret (idx / 2, path, siblings)) (idx, 0%Z, siblings) ;;
      let '(idx, path, siblings) := r in
      ret (Some (mkProof siblings path), None)
  end end end.

Definition buildTree (blocks : list B) : M (bool * option error) :=
  modify (with_Depth (calTreeDepth (Z.of_nat (length blocks)))) ;;
  r <- leafGen blocks ;;
  let '(leaves, err) := r in
  modify (with_Leaves leaves) ;;
  match err with Some e => ret (true, Some e) | None =>
  m <- getTree ;;
  if (Mode (config m) =? ModeProofGen)%Z then
    err <- proofGen ;; ret (true, err)
  else if (Mode (config m) =? ModeTreeBuild)%Z then
    err <- treeBuild ;; ret (true, err)
  else if (Mode (config m) =? ModeProofGenAndTreeBuild)%Z then
    err <- treeBuild ;;
    match err with Some e => ret (true, Some e) | None =>
    initProofs ;;
    m <- getTree ;;
    forM (range 0 (length (tree m))) (fun i =>
      lvl <- level i ;;
      updateProofs lvl (length lvl) i) ;;
    ret (true, None)
    end
  else ret (false, Some "invalid configuration mode"%string)
  end.

(** What a call of [New] yields, with the memory it leaves. *)
Inductive NewResult :=
| Returned (m : option MerkleTree) (err : option error) (mem : bytes)
| Panicked (why : string).

Definition New (config : option Config) (blocks : list B) (mem : bytes) : NewResult :=
  if decide (length blocks <= 1) then
    Returned None (Some "the number of data blocks must be greater than 1"%string) mem
  else
    let config := match config with Some c => c | None => newConfig end in
    let config :=
      match HashFunc config with
      | None => mkConfig (Some defaultHashFunc) (NumRoutines config) (Mode config)
                  (NoDuplicates config) (SortLeaves config) (SortPairs config)
      | Some _ => config
      end in
    let config :=
      if (Mode config =? 0)%Z then
        mkConfig (HashFunc config) (NumRoutines config) ModeProofGen
          (NoDuplicates config) (SortLeaves config) (SortPairs config)
      else config in
    match buildTree blocks (mkWorld (newTree config) 0 mem) with
    | Done (true, err) w => Returned (Some (mt w)) err (Heap.mem w)
    | Done (false, err) w => Returned None err (Heap.mem w)
    | Crash why => Panicked why
    end.

End Methods.

(** *** Vocabulary *)

(** The slice lies in the memory. *)
Definition valid (mem : bytes) (s : slice) : Prop :=
  match s with nilSlice => True | Slice p l c => l <= c /\ p + c <= length mem end.

(** The slice has no spare capacity, and is nil when it holds no byte. *)
Definition tight (s : slice) : Prop :=
  match s with nilSlice => True | Slice p l c => c = l /\ 0 < l end.

Definition good (mem : bytes) (s : slice) : Prop := valid mem s /\ tight s.

(** The tree and the memory that a call of [New] leaves. *)
Definition treeOf (r : NewResult) : MerkleTree :=
  match r with
  | Returned (Some m) _ _ => m
  | _ => newTree newConfig
  end.

Definition memOf (r : NewResult) : bytes :=
  match r with
  | Returned _ _ mem => mem
  | Panicked _ => []
  end.

(** A block for the examples: a slice of the memory, or a failure. *)
Inductive window := Window (s : slice) | Broken (e : error).

#[global] Instance window_DataBlock : DataBlock window :=
  fun b => match b with
           | Window s => (s, None)
           | Broken e => (nilSlice, Some e)
           end.

End Heap.

(** The bytes that a proof and a tree hold in a memory. *)
Definition proofBytes (mem : bytes) (p : Heap.Proof) : Proof :=
  mkProof (Heap.read mem <$> Heap.Siblings p) (Heap.Path p).

Definition treeBytes (mem : bytes) (m : Heap.MerkleTree) : MerkleTree :=
  mkTree (Heap.config m) (Heap.leafMap m)
    ((fun lvl : list Heap.slice => Heap.read mem <$> lvl) <$> Heap.tree m)
    (Heap.read mem (Heap.Root m))
    (Heap.read mem <$> Heap.Leaves m)
    (proofBytes mem <$> Heap.Proofs m)
    (Heap.Depth m).

(** *** The relation between slices and bytes

    [rel mem x a]: in the memory [mem] the value [x] of the methods on
    slices holds what the value [a] of the methods on bytes is.  A slice
    holds bytes when it lies in the memory without spare capacity and these
    are its bytes. *)

Class Rel (AH A : Type) := rel : bytes -> AH -> A -> Prop.
#[global] Arguments rel : simpl never.

(** The relation is kept when memory is allocated. *)
Class Stable (AH A : Type) {R : Rel AH A} :=
  rel_stable : forall m m' x a, m `prefix_of` m' -> rel m x a -> rel m' x a.

#[global] Instance rel_slice : Rel Heap.slice bytes :=
  fun m s a => Heap.good m s /\ Heap.read m s = a.
#[global] Instance rel_unit : Rel unit unit := fun _ x a => x = a.
#[global] Instance rel_nat : Rel nat nat := fun _ x a => x = a.
#[global] Instance rel_bool : Rel bool bool := fun _ x a => x = a.
#[global] Instance rel_Z : Rel Z Z := fun _ x a => x = a.
#[global] Instance rel_error : Rel (option error) (option error) := fun _ x a => x = a.
#[global] Instance rel_list {AH A} `{Rel AH A} : Rel (list AH) (list A) :=
  fun m => Forall2 (rel m).
#[global] Instance rel_prod {AH A CH C} `{Rel AH A} `{Rel CH C} : Rel (AH * CH) (A * C) :=
  fun m x a => rel m x.1 a.1 /\ rel m x.2 a.2.
#[global] Instance rel_Proof : Rel Heap.Proof Proof :=
  fun m p q => rel m (Heap.Siblings p) (Siblings q) /\ Heap.Path p = Path q.
#[global] Instance rel_option_Proof : Rel (option Heap.Proof) (option Proof) :=
  fun m => option_Forall2 (rel m).
#[global] Instance rel_tree : Rel Heap.MerkleTree MerkleTree :=
  fun m t u =>
    Heap.config t = config u /\ Heap.leafMap t = leafMap u /\
    rel m (Heap.tree t) (tree u) /\ rel m (Heap.Root t) (Root u) /\
    rel m (Heap.Leaves t) (Leaves u) /\ rel m (Heap.Proofs t) (Proofs u) /\
    Heap.Depth t = Depth u.

Definition relW (wh : Heap.World) (w : World) : Prop :=
  rel (Heap.mem wh) (Heap.mt wh) (mt w) /\ Heap.draws wh = draws w.

(** [sim m0 cH c]: from related states whose memory extends [m0], the
    computation on slices ends as the computation on bytes does, in related
    states and with related results, and only allocates. *)
Definition sim {AH A} `{Rel AH A} (m0 : bytes) (cH : Heap.M AH) (c : M A) : Prop :=
  forall wh w, m0 `prefix_of` Heap.mem wh -> relW wh w ->
    match cH wh with
    | Heap.Done aH wh' =>
        exists a w', c w = Done a w' /\ relW wh' w' /\
                     Heap.mem wh `prefix_of` Heap.mem wh' /\ rel (Heap.mem wh') aH a
    | Heap.Crash why => c w = Crash why
    end.

(** A step on slices that has no counterpart on bytes: it yields a value
    related to [a] and leaves the tree as it is. *)
Definition reads {AH A} `{Rel AH A} (m0 : bytes) (cH : Heap.M AH) (a : A) : Prop :=
  sim m0 cH (ret a).

(** A block as [New] sees it in the memory [mem]: the bytes of the slice
    that [Serialize] returns. *)
Definition contents {B} `{Heap.DataBlock B} (mem : bytes) : DataBlock B :=
  fun b => (Heap.read mem (Heap.Serialize b).1, (Heap.Serialize b).2).

(** The slice that [Serialize] returns for the block lies in the memory and
    has no spare capacity. *)
Definition placed {B} `{Heap.DataBlock B} (mem : bytes) (b : B) : Prop :=
  (Heap.Serialize b).2 = None -> Heap.good mem (Heap.Serialize b).1.

(** The bytes of a block in a memory. *)
Definition bytesOf {B} `{Heap.DataBlock B} (mem : bytes) (b : B) : bytes :=
  Heap.read mem (Heap.Serialize b).1.

(** The state in which a method is called on a tree in a memory. *)
Definition called (m : Heap.MerkleTree) (mem : bytes) : Heap.World := Heap.mkWorld m 0 mem.

(** Three blocks of one byte each, side by side in one array, each slice
    cut to its own byte (as [u[i:i+1:i+1]] is). *)
Definition memory_abc : bytes := ["a"; "b"; "c"]%byte.
Definition windowA : Heap.window := Heap.Window (Heap.Slice 0 1 1).
Definition windowB : Heap.window := Heap.Window (Heap.Slice 1 1 1).
Definition windowC : Heap.window := Heap.Window (Heap.Slice 2 1 1).

(** What [New] leaves for them with the hash function [echo] in the mode
    [mode]. *)
Definition slices_echo (mode : ModeType) : Heap.NewResult :=
  Heap.New noRandom (Some (configOf (Some echo) mode)) [windowA; windowB; windowC] memory_abc.

(** The same three bytes with the first slice given the capacity of the
    whole array (as [u[0:1]] is), and a fourth block elsewhere. *)
Definition memory_abcd : bytes := ["a"; "b"; "c"; "d"]%byte.
Definition windowWide : Heap.window := Heap.Window (Heap.Slice 0 1 3).
Definition windowD : Heap.window := Heap.Window (Heap.Slice 3 1 1).

(* ===================================================================== *)
(** ** SHA-256 on the test vectors of FIPS 180-4 *)

Example sum256_empty :
  SHA256.sum256 [] =
  ([xe3; xb0; xc4; x42; x98; xfc; x1c; x14; x9a; xfb; xf4; xc8; x99; x6f;
   xb9; x24; x27; xae; x41; xe4; x64; x9b; x93; x4c; xa4; x95; x99; x1b;
   x78; x52; xb8; x55])%byte.
Proof. vm_compute. reflexivity. Qed.

Example sum256_abc :
  SHA256.sum256 ["a"; "b"; "c"]%byte =
  ([xba; x78; x16; xbf; x8f; x01; xcf; xea; x41; x41; x40; xde; x5d; xae;
   x22; x23; xb0; x03; x61; xa3; x96; x17; x7a; x9c; xb4; x10; xff; x61;
   xf2; x00; x15; xad])%byte.
Proof. vm_compute. reflexivity. Qed.

(* ===================================================================== *)
(** ** The depth of the tree *)

Local Open Scope Z_scope.

Lemma log2_small (n : Z) : 2 <= n < 2 ^ 63 -> 1 <= Z.log2 n < 63.
Proof.
  intros [Hlo Hhi]. split.
  - change 1 with (Z.log2 2). apply Z.log2_le_mono. lia.
  - apply Z.log2_lt_pow2; lia.
Qed.

Lemma Log2_integral (n : Z) :
  0 < n -> Math.neq (Math.Log2 n) (Math.Trunc (Math.Log2 n)) = false <-> n = 2 ^ Z.log2 n.
Proof.
  intros Hn. unfold Math.neq, Math.Log2, Math.Trunc; simpl.
  rewrite Z.eqb_refl, Z.pow_0_r, Z.mul_1_r, Z.mul_1_l. simpl.
  rewrite negb_false_iff, Z.eqb_eq. reflexivity.
Qed.

Lemma calTreeDepth_log2_up (n : Z) : 2 <= n < 2 ^ 63 -> calTreeDepth n = Z.log2_up n.
Proof.
  intros Hn. pose proof (log2_small n Hn) as Hl.
  assert (Hsm : forall z, 0 <= z < 64 -> z mod 2 ^ 32 = z).
  { intros z Hz. apply Z.mod_small. lia. }
  unfold calTreeDepth.
  destruct (Math.neq _ _) eqn:E.
  - unfold u32, Math.to_uint32. cbn [Math.whole Math.Log2].
    rewrite (Hsm (Z.log2 n)) by lia. rewrite Hsm by lia.
    assert (Hne : n <> 2 ^ Z.log2 n).
    { intros Hp. apply Log2_integral in Hp; [congruence | lia]. }
    destruct (Z.log2_spec n) as [H1 H2]; [lia|].
    symmetry. apply Z.log2_up_unique; [lia|].
    replace (Z.pred (Z.log2 n + 1)) with (Z.log2 n) by lia.
    replace (Z.log2 n + 1) with (Z.succ (Z.log2 n)) by lia. lia.
  - apply Log2_integral in E; [|lia].
    unfold Math.to_uint32. cbn [Math.whole Math.Log2]. rewrite Hsm by lia.
    rewrite E at 2. rewrite Z.log2_up_pow2; lia.
Qed.

Local Close Scope Z_scope.

(* ===================================================================== *)
(** ** The depth under rounding *)

Module FloatFacts.
Import Reals Lra Float.
Local Open Scope R_scope.











(** *** Bounds on the logarithm *)













(** *** Floats near an integer *)








(** *** The grid of the floats *)





(** *** Beyond 2^49 *)






(** *** Floats between 1 and 2 *)





End FloatFacts.

(* ===================================================================== *)
(** ** Reasoning about executions *)

(** Inversion of the executions that end. *)

Lemma bind_Done {A C} (c : M A) (k : A -> M C) w b w' :
  bind c k w = Done b w' -> exists a w1, c w = Done a w1 /\ k a w1 = Done b w'.
Proof. unfold bind. destruct (c w) as [a w1|]; [eauto | discriminate]. Qed.

Lemma ret_Done {A} (a b : A) w w' : ret a w = Done b w' -> b = a /\ w' = w.
Proof. unfold ret. intros [= -> ->]. auto. Qed.

Lemma index_Done {A} (s : list A) i x w w' :
  index s i w = Done x w' -> s !! i = Some x /\ w' = w.
Proof. unfold index. destruct (s !! i); [intros [= -> ->]; auto | discriminate]. Qed.

Lemma store_Done {A} (s : list A) i x s' w w' :
  store s i x w = Done s' w' -> i < length s /\ s' = <[i := x]> s /\ w' = w.
Proof. unfold store. case_decide; [intros [= <- <-]; auto | discriminate]. Qed.

Lemma getTree_Done m w w' : getTree w = Done m w' -> m = mt w /\ w' = w.
Proof. intros [= <- <-]. auto. Qed.

Lemma modify_Done f u w w' :
  modify f w = Done u w' -> w' = mkWorld (f (mt w)) (draws w).
Proof. intros [= <-]. auto. Qed.

(** Take apart the hypothesis [H] that an execution ended. *)
Ltac exec_inv H :=
  lazymatch type of H with
  | bind _ _ _ = Done _ _ =>
      let a := fresh "a" in let w := fresh "w" in
      let H1 := fresh "E" in let H2 := fresh "E" in
      apply bind_Done in H; destruct H as (a & w & H1 & H2);
      exec_inv H1; exec_inv H2
  | ret _ _ = Done _ _ => apply ret_Done in H; destruct H as [? ?]; subst
  | index _ _ _ = Done _ _ => apply index_Done in H; destruct H as [? ?]; subst
  | store _ _ _ _ = Done _ _ => apply store_Done in H; destruct H as (? & ? & ?); subst
  | getTree _ = Done _ _ => apply getTree_Done in H; destruct H as [? ?]; subst
  | modify _ _ = Done _ _ => apply modify_Done in H; subst
  | panic _ _ = Done _ _ => discriminate H
  | Crash _ = Done _ _ => discriminate H
  | _ => idtac
  end.

(** Invariants of the loops: [I j] holds before the iteration on the
    [j]-th index value. *)

Section Loops.
Context {L : Type}.

Lemma forM_seq_inv (I : nat -> World -> Prop) (f : nat -> nat) body len :
  forall a w w',
  I a w ->
  (forall j w1 w2, a <= j < a + len -> I j w1 -> body (f j) w1 = Done tt w2 -> I (S j) w2) ->
  forM (f <$> seq a len) body w = Done tt w' ->
  I (a + len) w'.
Proof.
  induction len as [|len IH]; intros a w w' H0 Hstep Hrun; simpl in Hrun.
  - exec_inv Hrun. by rewrite Nat.add_0_r.
  - exec_inv Hrun. destruct a0.
    replace (a + S len) with (S a + len) by lia.
    eapply IH; [ | | exact E0].
    + eapply Hstep; [ | exact H0 | exact E ]. lia.
    + intros j w1 w2 Hj. apply Hstep. lia.
Qed.

(** A loop that ends without an error has run all its iterations. *)
Lemma forE_seq_inv (I : nat -> L -> World -> Prop) (f : nat -> nat) body len :
  forall a acc w acc' w',
  I a acc w ->
  (forall j x w1 y w2, a <= j < a + len -> I j x w1 ->
     body (f j) x w1 = Done (y, None) w2 -> I (S j) y w2) ->
  forE (f <$> seq a len) body acc w = Done (acc', None) w' ->
  I (a + len) acc' w'.
Proof.
  induction len as [|len IH]; intros a acc w acc' w' H0 Hstep Hrun; simpl in Hrun.
  - exec_inv Hrun. injection H as <-. by rewrite Nat.add_0_r.
  - exec_inv Hrun. destruct a0 as [y [e|]]; simpl in E0.
    + exec_inv E0. discriminate.
    + replace (a + S len) with (S a + len) by lia.
      eapply IH; [ | | exact E0].
      * eapply Hstep; [ | exact H0 | exact E ]. lia.
      * intros j x w1 z w2 Hj. apply Hstep. lia.
Qed.
End Loops.

Lemma range_seq lo hi : range lo hi = id <$> seq lo (hi - lo).
Proof. unfold range. by rewrite list_fmap_id. Qed.

Lemma forM_range_inv (I : nat -> World -> Prop) body lo hi w w' :
  lo <= hi -> I lo w ->
  (forall j w1 w2, lo <= j < hi -> I j w1 -> body j w1 = Done tt w2 -> I (S j) w2) ->
  forM (range lo hi) body w = Done tt w' -> I hi w'.
Proof.
  intros Hle H0 Hstep Hrun. rewrite range_seq in Hrun.
  replace hi with (lo + (hi - lo)) by lia.
  eapply (forM_seq_inv I id); [exact H0 | | exact Hrun].
  intros j w1 w2 Hj. apply Hstep. lia.
Qed.

Lemma forM_range_empty body lo hi w w' :
  hi <= lo -> forM (range lo hi) body w = Done tt w' -> w' = w.
Proof.
  intros Hle. unfold range. replace (hi - lo) with 0 by lia. simpl.
  intros E. by exec_inv E.
Qed.

Lemma forM_evens_inv (I : nat -> World -> Prop) body hi w w' :
  I 0 w ->
  (forall j w1 w2, j < Nat.div2 (hi + 1) -> I j w1 ->
     body (2 * j) w1 = Done tt w2 -> I (S j) w2) ->
  forM (evens hi) body w = Done tt w' -> I (Nat.div2 (hi + 1)) w'.
Proof.
  intros H0 Hstep Hrun. unfold evens in Hrun.
  change (Nat.div2 (hi + 1)) with (0 + Nat.div2 (hi + 1)).
  eapply (forM_seq_inv I (fun k => 2 * k)); [exact H0 | | exact Hrun].
  intros j w1 w2 Hj. apply Hstep. lia.
Qed.

Lemma forE_range_inv {L} (I : nat -> L -> World -> Prop) body lo hi acc w acc' w' :
  lo <= hi -> I lo acc w ->
  (forall j x w1 y w2, lo <= j < hi -> I j x w1 ->
     body j x w1 = Done (y, None) w2 -> I (S j) y w2) ->
  forE (range lo hi) body acc w = Done (acc', None) w' -> I hi acc' w'.
Proof.
  intros Hle H0 Hstep Hrun. rewrite range_seq in Hrun.
  replace hi with (lo + (hi - lo)) by lia.
  eapply (forE_seq_inv I id); [exact H0 | | exact Hrun].
  intros j x w1 y w2 Hj. apply Hstep. lia.
Qed.

Lemma forE_evens_inv {L} (I : nat -> L -> World -> Prop) body hi acc w acc' w' :
  I 0 acc w ->
  (forall j x w1 y w2, j < Nat.div2 (hi + 1) -> I j x w1 ->
     body (2 * j) x w1 = Done (y, None) w2 -> I (S j) y w2) ->
  forE (evens hi) body acc w = Done (acc', None) w' -> I (Nat.div2 (hi + 1)) acc' w'.
Proof.
  intros H0 Hstep Hrun. unfold evens in Hrun.
  change (Nat.div2 (hi + 1)) with (0 + Nat.div2 (hi + 1)).
  eapply (forE_seq_inv I (fun k => 2 * k)); [exact H0 | | exact Hrun].
  intros j x w1 y w2 Hj. apply Hstep. lia.
Qed.

(** [keeps P] is closed under the constructions of executions. *)

Section Keeps.
Context (P : MerkleTree -> Prop).

Lemma keeps_ret {A} (a : A) : keeps P (ret a).
Proof. intros w b w' E ?. exec_inv E. done. Qed.
Lemma keeps_panic {A} why : keeps P (@panic A why).
Proof. intros w b w' E. discriminate. Qed.
Lemma keeps_getTree : keeps P getTree.
Proof. intros w b w' E ?. exec_inv E. done. Qed.
Lemma keeps_index {A} (s : list A) i : keeps P (index s i).
Proof. intros w b w' E ?. exec_inv E. done. Qed.
Lemma keeps_store {A} (s : list A) i x : keeps P (store s i x).
Proof. intros w b w' E ?. exec_inv E. done. Qed.
Lemma keeps_modify f : (forall m, P m -> P (f m)) -> keeps P (modify f).
Proof. intros Hf w b w' E ?. exec_inv E. simpl. auto. Qed.
Lemma keeps_bind {A C} (c : M A) (k : A -> M C) :
  keeps P c -> (forall a, keeps P (k a)) -> keeps P (bind c k).
Proof.
  intros Hc Hk w b w' E Hw. apply bind_Done in E as (a & w1 & E1 & E2).
  eapply Hk; [exact E2|]. eapply Hc; eauto.
Qed.
Lemma keeps_forM idxs body : (forall i, keeps P (body i)) -> keeps P (forM idxs body).
Proof.
  intros Hb. induction idxs as [|i idxs IH]; simpl.
  - apply keeps_ret.
  - apply keeps_bind; auto.
Qed.
Lemma keeps_forL {L} idxs (body : nat -> L -> M L) acc :
  (forall i x, keeps P (body i x)) -> keeps P (forL idxs body acc).
Proof.
  intros Hb. revert acc. induction idxs as [|i idxs IH]; intros acc; simpl.
  - apply keeps_ret.
  - apply keeps_bind; auto.
Qed.
Lemma keeps_forE {L} idxs (body : nat -> L -> M (L * option error)) acc :
  (forall i x, keeps P (body i x)) -> keeps P (forE idxs body acc).
Proof.
  intros Hb. revert acc. induction idxs as [|i idxs IH]; intros acc; simpl.
  - apply keeps_ret.
  - apply keeps_bind; auto. intros [y [e|]]; simpl; [apply keeps_ret | apply IH].
Qed.
End Keeps.

(** Descend into an execution to show that it keeps a property. *)
Ltac keeps_step :=
  lazymatch goal with
  | |- keeps _ (bind _ _) => apply keeps_bind
  | |- keeps _ (ret _) => apply keeps_ret
  | |- keeps _ (panic _) => apply keeps_panic
  | |- keeps _ getTree => apply keeps_getTree
  | |- keeps _ (index _ _) => apply keeps_index
  | |- keeps _ (store _ _ _) => apply keeps_store
  | |- keeps _ (forM _ _) => apply keeps_forM
  | |- keeps _ (forL _ _ _) => apply keeps_forL
  | |- keeps _ (forE _ _ _) => apply keeps_forE
  | |- keeps _ (modify _) => apply keeps_modify; try (intros []; simpl; tauto)
  | |- keeps _ (match ?x with _ => _ end) => destruct x
  | |- keeps _ (if ?x then _ else _) => destruct x
  | |- forall _, _ => intro
  end.

Ltac keeps_auto := repeat keeps_step.

Lemma keeps_callHash P data : keeps P (callHash data).
Proof. unfold callHash. keeps_auto. Qed.

Lemma keeps_getDummyHash P rnd : keeps P (getDummyHash rnd).
Proof.
  intros w b w' E. unfold getDummyHash in E.
  destruct (rnd (draws w)); injection E as <- <-; simpl; auto.
Qed.

Lemma keeps_fixOdd P rnd buf n : keeps P (fixOdd rnd buf n).
Proof. unfold fixOdd. keeps_auto; try apply keeps_getDummyHash. Qed.

(* ===================================================================== *)
(** ** The effect of [updateProofs] *)

Lemma updated_refl step lo hi (P : list Proof) : hi <= lo -> updated step lo hi P P.
Proof.
  intros Hle. split; [done|]. intros i p Hp. exists p. split; [done|].
  case_decide; [lia | done].
Qed.

Lemma updated_snoc step a j (P P1 : list Proof) p1 p1' :
  updated step a j P P1 -> a <= j -> P1 !! j = Some p1 -> stepped step p1 p1' ->
  updated step a (S j) P (<[j := p1']> P1).
Proof.
  intros [Hlen Hup] Haj Hj Hst. split; [by rewrite length_insert|].
  intros i p Hp. destruct (Hup i p Hp) as (p' & Hp' & Hcase).
  destruct (decide (i = j)) as [->|Hne].
  - exists p1'. split.
    + apply list_lookup_insert_eq. by eapply lookup_lt_Some.
    + rewrite decide_True by lia. rewrite decide_False in Hcase by lia.
      congruence.
  - exists p'. split; [by rewrite list_lookup_insert_ne|].
    destruct (decide (a <= i < j)).
    + by rewrite decide_True by lia.
    + by rewrite decide_False by lia.
Qed.

Lemma updated_app step a b c (P P1 P2 : list Proof) :
  updated step a b P P1 -> updated step b c P1 P2 -> a <= b <= c ->
  updated step a c P P2.
Proof.
  intros [Hlen1 Hup1] [Hlen2 Hup2] Habc. split; [congruence|].
  intros i p Hp. destruct (Hup1 i p Hp) as (p1 & Hp1 & Hc1).
  destruct (Hup2 i p1 Hp1) as (p2 & Hp2 & Hc2).
  exists p2. split; [done|].
  destruct (decide (a <= i < b)), (decide (b <= i < c)); try lia.
  - rewrite decide_True by lia. by subst.
  - rewrite decide_True by lia. by subst.
  - rewrite decide_False by lia. by subst.
Qed.

Lemma updated_clip step a b (P P' : list Proof) :
  updated step a (min b (length P)) P P' -> updated step a b P P'.
Proof.
  intros [Hlen Hup]. split; [done|]. intros i p Hp.
  destruct (Hup i p Hp) as (p' & Hp' & Hc). exists p'. split; [done|].
  apply lookup_lt_Some in Hp. unfold min in Hc.
  destruct (decide (a <= i < b)); case_decide; case_decide; try lia; done.
Qed.

Lemma updated_all step hi (P P' : list Proof) :
  updated step 0 hi P P' -> length P <= hi -> Forall2 (stepped step) P P'.
Proof.
  intros [Hlen Hup] Hhi. apply Forall2_same_length_lookup_2; [done|].
  intros i p p' Hp Hp'. destruct (Hup i p Hp) as (q & Hq & Hc).
  apply lookup_lt_Some in Hp as Hi. rewrite decide_True in Hc by lia. congruence.
Qed.

Lemma stepped_proofOk s p p' : proofOk s p -> stepped s p p' -> proofOk (S s) p'.
Proof.
  intros [Hl Hp] [[x Hx] Hpath]. split.
  - rewrite Hx, length_app. simpl. lia.
  - rewrite Nat2Z.inj_succ, Z.pow_succ_r by lia.
    destruct Hpath as [-> | ->]; [lia|]. unfold u32.
    assert (0 < 2 ^ Z.of_nat s)%Z by (apply Z.pow_pos_nonneg; lia).
    pose proof (Z.mod_pos_bound (Path p + 2 ^ Z.of_nat s) (2 ^ 32) ltac:(lia)).
    pose proof (Z.mod_le (Path p + 2 ^ Z.of_nat s) (2 ^ 32) ltac:(lia) ltac:(lia)).
    lia.
Qed.

Lemma Forall2_stepped_proofOk s (P P' : list Proof) :
  Forall (proofOk s) P -> Forall2 (stepped s) P P' -> Forall (proofOk (S s)) P'.
Proof.
  intros HP H2. induction H2; [constructor|].
  inversion HP; subst. constructor; [by eapply stepped_proofOk | auto].
Qed.

Lemma updProof_Done i f u w w' :
  updProof i f w = Done u w' ->
  exists p, Proofs (mt w) !! i = Some p /\
            Proofs (mt w') = <[i := f p]> (Proofs (mt w)).
Proof.
  unfold updProof. intros E. exec_inv E. eauto.
Qed.

Lemma updatePairProof_updated buf idx step w w' :
  updatePairProof buf idx (2 ^ step) step w = Done tt w' ->
  updated step (idx * 2 ^ step) (idx * 2 ^ step + 2 * 2 ^ step)
    (Proofs (mt w)) (Proofs (mt w')).
Proof.
  unfold updatePairProof. intros E.
  apply bind_Done in E as (m & w0 & E0 & E). exec_inv E0.
  apply bind_Done in E as ([] & w1 & E1 & E2).
  set (P := Proofs (mt w)) in *. set (b := 2 ^ step) in *. set (s := idx * b) in *.
  assert (H1 : updated step s (s + b) P (Proofs (mt w1))).
  { apply updated_clip.
    destruct (decide (s <= min (s + b) (length P))) as [Hle|Hgt].
    - eapply (forM_range_inv (fun j v => updated step s j P (Proofs (mt v))));
        [exact Hle | | | exact E1].
      + apply updated_refl. lia.
      + intros j v1 v2 Hj Hinv Hb.
        apply bind_Done in Hb as ([] & v3 & Hu1 & Hb).
        apply bind_Done in Hb as (sib & v4 & Hsib & Hu2).
        exec_inv Hsib.
        apply updProof_Done in Hu1 as (p & Hp & Hw).
        apply updProof_Done in Hu2 as (p2 & Hp2 & Hw4).
        rewrite Hw4, Hw, list_insert_insert_eq.
        rewrite Hw in Hp2. rewrite list_lookup_insert_eq in Hp2 by (by eapply lookup_lt_Some).
        injection Hp2 as <-.
        eapply updated_snoc; [exact Hinv | lia | exact Hp | ].
        split; simpl; eauto.
    - apply forM_range_empty in E1; [|lia]. subst w1. apply updated_refl. lia. }
  assert (Hlen : length (Proofs (mt w1)) = length P) by apply H1.
  assert (H2 : updated step (s + b) (s + b + b) (Proofs (mt w1)) (Proofs (mt w'))).
  { apply updated_clip. rewrite Hlen.
    destruct (decide (s + b <= min (s + b + b) (length P))) as [Hle|Hgt].
    - eapply (forM_range_inv (fun j v => updated step (s + b) j (Proofs (mt w1)) (Proofs (mt v))));
        [exact Hle | | | exact E2].
      + apply updated_refl. lia.
      + intros j v1 v2 Hj Hinv Hb.
        apply bind_Done in Hb as (sib & v4 & Hsib & Hu2).
        exec_inv Hsib.
        apply updProof_Done in Hu2 as (p & Hp & Hw).
        rewrite Hw.
        eapply updated_snoc; [exact Hinv | lia | exact Hp | ].
        split; simpl; eauto.
    - apply forM_range_empty in E2; [|lia]. subst w'. apply updated_refl. lia. }
  replace (s + 2 * b) with (s + b + b) by lia.
  eapply updated_app; [exact H1 | exact H2 | lia].
Qed.

Lemma updateProofs_stepped buf bufLen step w w' :
  updateProofs buf bufLen step w = Done tt w' ->
  length (Proofs (mt w)) <= 2 * Nat.div2 (bufLen + 1) * 2 ^ step ->
  Forall2 (stepped step) (Proofs (mt w)) (Proofs (mt w')).
Proof.
  unfold updateProofs. intros E Hcover.
  eapply updated_all; [|exact Hcover].
  eapply (forM_evens_inv
            (fun j v => updated step 0 (2 * j * 2 ^ step) (Proofs (mt w)) (Proofs (mt v))));
    [ | | exact E].
  - apply updated_refl. lia.
  - intros j w1 w2 Hj Hinv Hb. apply updatePairProof_updated in Hb.
    eapply updated_app; [exact Hinv | | lia].
    replace (2 * S j * 2 ^ step) with (2 * j * 2 ^ step + 2 * 2 ^ step) by lia.
    exact Hb.
Qed.

Lemma updateProofs_proofOk buf bufLen step w w' :
  updateProofs buf bufLen step w = Done tt w' ->
  length (Proofs (mt w)) <= 2 * Nat.div2 (bufLen + 1) * 2 ^ step ->
  Forall (proofOk step) (Proofs (mt w)) ->
  Forall (proofOk (S step)) (Proofs (mt w')) /\ length (Proofs (mt w')) = length (Proofs (mt w)).
Proof.
  intros E Hcover Hok. pose proof (updateProofs_stepped _ _ _ _ _ E Hcover) as H2.
  split; [by eapply Forall2_stepped_proofOk | symmetry; by eapply Forall2_length].
Qed.

(* ===================================================================== *)
(** ** Proofs generated by [proofGen] *)

Lemma even_div2_succ p : Nat.even p = true -> 2 * Nat.div2 (p + 1) = p.
Proof.
  intros He. apply Nat.even_spec in He as [k ->].
  replace (2 * k + 1) with (S (2 * k)) by lia.
  rewrite Nat.div2_succ_double. lia.
Qed.

Lemma le_double_div2_succ n : n <= 2 * Nat.div2 (n + 1).
Proof.
  destruct (Nat.even n) eqn:E.
  - rewrite even_div2_succ; auto.
  - assert (Ho : Nat.odd n = true) by (rewrite <- Nat.negb_even, E; done).
    apply Nat.odd_spec in Ho as [k ->].
    replace (2 * k + 1 + 1) with (2 * (S k)) by lia.
    rewrite Nat.div2_double. lia.
Qed.

Lemma even_halve p : Nat.even p = true -> p = 2 * (p / 2).
Proof.
  intros He. apply Nat.even_spec in He as [k ->].
  rewrite (Nat.mul_comm 2 k), Nat.div_mul; lia.
Qed.

Lemma keeps_eq {A} (c : M A) :
  (forall P, keeps P c) -> forall w a w', c w = Done a w' -> mt w' = mt w.
Proof. intros Hk w a w' E. by apply (Hk (fun m => m = mt w) w a w' E). Qed.

Lemma fixOdd_Done rnd buf p buf' p' w w' :
  fixOdd rnd buf p w = Done (buf', p', None) w' ->
  mt w' = mt w /\ Nat.even p' = true /\ p <= p' /\ (length buf = p -> length buf' = p').
Proof.
  intros E. split.
  { eapply keeps_eq; [|exact E]. intros P. apply keeps_fixOdd. }
  unfold fixOdd in E. destruct (Nat.even p) eqn:Hev.
  - exec_inv E. injection H as -> ->. auto.
  - apply bind_Done in E as (m & w0 & E0 & E).
    apply bind_Done in E as (r & w1 & E1 & E).
    destruct r as [x [e|]]; simpl in E; [exec_inv E; discriminate|].
    assert (Hp' : Nat.even (p + 1) = true).
    { rewrite Nat.add_1_r, Nat.even_succ, <- Nat.negb_even, Hev. done. }
    case_decide.
    + exec_inv E. injection H0 as -> ->. repeat split; [done | lia |].
      intros Hl. rewrite length_app. simpl. lia.
    + apply bind_Done in E as (b2 & w2 & E2 & E). exec_inv E2. exec_inv E.
      injection H1 as -> ->. repeat split; [done | lia |]. intros Hl. lia.
Qed.

Lemma initProofs_Done u w w' :
  initProofs w = Done u w' ->
  Proofs (mt w') = replicate (length (Leaves (mt w))) (mkProof [] 0%Z).
Proof. unfold initProofs. intros E. exec_inv E. done. Qed.

Lemma proofOk_init n : Forall (proofOk 0) (replicate n (mkProof [] 0%Z)).
Proof. apply Forall_replicate. split; simpl; [done | lia]. Qed.

Lemma keeps_updProof P i f :
  (forall m l, P m -> P (with_Proofs l m)) -> keeps P (updProof i f).
Proof. intros HP. unfold updProof. keeps_auto. auto. Qed.

Lemma keeps_updateProofs P buf bufLen step :
  (forall m l, P m -> P (with_Proofs l m)) -> keeps P (updateProofs buf bufLen step).
Proof.
  intros HP. unfold updateProofs, updatePairProof.
  keeps_auto; by apply keeps_updProof.
Qed.

Lemma keeps_initProofs P :
  (forall m l, P m -> P (with_Proofs l m)) -> keeps P initProofs.
Proof. intros HP. unfold initProofs. keeps_auto. auto. Qed.

Lemma proofGen_proofs rnd w w' :
  proofGen rnd w = Done None w' ->
  (1 <= Depth (mt w))%Z ->
  length (Proofs (mt w')) = length (Leaves (mt w)) /\
  Forall (proofOk (Z.to_nat (Depth (mt w)))) (Proofs (mt w')).
Proof.
  unfold proofGen. intros E HD.
  apply bind_Done in E as (m & w0 & E0 & E). exec_inv E0.
  set (n := length (Leaves (mt w))) in *.
  apply bind_Done in E as ([] & w1 & Einit & E).
  apply initProofs_Done in Einit as HP1. fold n in HP1.
  apply bind_Done in E as ([[buf prevLen] err] & w2 & Efix & E).
  destruct err as [e|]; [exec_inv E; discriminate|].
  apply fixOdd_Done in Efix as (Hmt2 & Hev & Hle & _).
  apply bind_Done in E as ([] & w3 & Eup & E).
  apply updateProofs_proofOk in Eup as [Hok3 Hlen3].
  2:{ rewrite Hmt2, HP1, length_replicate, Nat.pow_0_r, Nat.mul_1_r.
      apply le_double_div2_succ. }
  2:{ rewrite Hmt2, HP1. apply proofOk_init. }
  rewrite Hmt2, HP1, length_replicate in Hlen3.
  apply bind_Done in E as ([[buf' prevLen'] err] & w4 & Eloop & E).
  destruct err as [e|]; [exec_inv E; discriminate|].
  assert (Hinv : length (Proofs (mt w4)) = n /\
                 Forall (proofOk (Z.to_nat (Depth (mt w)))) (Proofs (mt w4))).
  { eapply (forE_range_inv
              (fun s (acc : list bytes * nat) v =>
                 Nat.even acc.2 = true /\ n <= acc.2 * 2 ^ (s - 1) /\
                 length (Proofs (mt v)) = n /\ Forall (proofOk s) (Proofs (mt v))))
      in Eloop; [tauto | lia | | ].
    - simpl. split; [done|]. split; [lia|]. done.
    - clear. intros s [b p] v1 [b2 p2] v2 Hs (Hev & Hn & Hlen & Hok) Hbody.
      simpl in Hev, Hn.
      apply bind_Done in Hbody as ([b1 err] & va & Ehash & Hbody).
      destruct err as [e|]; [exec_inv Hbody; discriminate|].
      assert (Hva : mt va = mt v1).
      { eapply keeps_eq; [|exact Ehash]. intros P. keeps_auto. apply keeps_callHash. }
      apply bind_Done in Hbody as ([[b3 p3] err] & vb & Efix & Hbody).
      destruct err as [e|]; [exec_inv Hbody; discriminate|].
      apply fixOdd_Done in Efix as (Hvb & Hev3 & Hle3 & _).
      apply bind_Done in Hbody as ([] & vc & Eup & Hbody).
      exec_inv Hbody. injection H as -> ->.
      assert (Hcov : n <= p3 * 2 ^ s).
      { apply even_halve in Hev. destruct s as [|s']; [lia|].
        replace (S s' - 1) with s' in Hn by lia.
        rewrite Nat.pow_succ_r'. nia. }
      apply updateProofs_proofOk in Eup as [Hok' Hlen'].
      + cbn [fst snd]. replace (S s - 1) with s by lia.
        rewrite Hvb, Hva in Hlen'. repeat split; [done | done | congruence | done].
      + rewrite even_div2_succ by done. rewrite Hvb, Hva. lia.
      + by rewrite Hvb, Hva. }
  destruct Hinv as [Hlen4 Hok4].
  assert (Hw' : Proofs (mt w') = Proofs (mt w4)).
  { refine ((_ : keeps (fun m => Proofs m = Proofs (mt w4)) _) w4 None w' E eq_refl).
    keeps_auto. apply keeps_callHash. }
  rewrite Hw'. done.
Qed.

(* ===================================================================== *)
(** ** Levels built by [treeBuild] *)

Lemma setLevel_Done i lvl u w w' :
  setLevel i lvl w = Done u w' ->
  i < length (tree (mt w)) /\
  mt w' = with_tree (<[i := lvl]> (tree (mt w))) (mt w).
Proof. unfold setLevel. intros E. exec_inv E. done. Qed.

Lemma level_Done i lvl w w' :
  level i w = Done lvl w' -> tree (mt w) !! i = Some lvl /\ w' = w.
Proof. unfold level. intros E. exec_inv E. done. Qed.

Lemma treeAt_Done i j x w w' :
  treeAt i j w = Done x w' -> w' = w.
Proof. unfold treeAt, level. intros E. exec_inv E. done. Qed.

Lemma setTreeAt_Done i j x u w w' :
  setTreeAt i j x w = Done u w' ->
  exists lvl, tree (mt w) !! i = Some lvl /\ j < length lvl /\
    mt w' = with_tree (<[i := <[j := x]> lvl]> (tree (mt w))) (mt w).
Proof.
  unfold setTreeAt. intros E.
  apply bind_Done in E as (lvl & w1 & E1 & E). apply level_Done in E1 as [Hl ->].
  apply bind_Done in E as (lvl' & w2 & E2 & E). exec_inv E2.
  apply setLevel_Done in E as [_ ->]. eauto.
Qed.

Lemma callHash_Done data r w w' : callHash data w = Done r w' -> w' = w.
Proof. unfold callHash. intros E. exec_inv E. destruct (HashFunc _); exec_inv E1; done. Qed.

Lemma u32_pred D : (1 <= D < 2 ^ 32)%Z -> Z.to_nat (u32 (D - 1)) = Z.to_nat D - 1.
Proof. intros HD. unfold u32. rewrite Z.mod_small by lia. lia. Qed.

(** The inner loop of [treeBuild] fills level [i + 1] and nothing else. *)
Lemma treeBuild_inner i prevLen (body : nat -> unit -> M (unit * option error)) w w' r :
  (forall j u v v' r', body j u v = Done r' v' ->
     (mt v' = mt v) \/
     (exists lvl k x, tree (mt v) !! (i + 1) = Some lvl /\ k < length lvl /\
        mt v' = with_tree (<[i + 1 := <[k := x]> lvl]> (tree (mt v))) (mt v))) ->
  forE (evens prevLen) body tt w = Done r w' ->
  length (tree (mt w')) = length (tree (mt w)) /\
  (forall j, j <> i + 1 -> tree (mt w') !! j = tree (mt w) !! j) /\
  (forall lvl, tree (mt w) !! (i + 1) = Some lvl ->
     exists lvl', tree (mt w') !! (i + 1) = Some lvl' /\ length lvl' = length lvl).
Proof.
  intros Hbody. generalize (evens prevLen) as idxs. intros idxs. revert w.
  generalize tt as acc.
  induction idxs as [|j idxs IH]; intros acc w E; simpl in E.
  - exec_inv E. eauto.
  - apply bind_Done in E as ([u err] & w1 & Eb & E). simpl in E.
    assert (H1 : length (tree (mt w1)) = length (tree (mt w)) /\
                 (forall j, j <> i + 1 -> tree (mt w1) !! j = tree (mt w) !! j) /\
                 (forall lvl, tree (mt w) !! (i + 1) = Some lvl ->
                    exists lvl', tree (mt w1) !! (i + 1) = Some lvl' /\ length lvl' = length lvl)).
    { destruct acc. apply Hbody in Eb as [-> | (lvl & k & x & Hl & Hk & ->)]; [eauto|].
      simpl. rewrite length_insert. split; [done|]. split.
      - intros j' Hj'. by rewrite list_lookup_insert_ne.
      - intros lvl0 Hl0. rewrite Hl in Hl0. injection Hl0 as <-.
        eexists. split.
        + apply list_lookup_insert_eq. by eapply lookup_lt_Some.
        + by rewrite length_insert. }
    destruct err as [e|].
    + exec_inv E. done.
    + apply IH in E as (Hlen & Hoth & Hlvl). destruct H1 as (Hlen1 & Hoth1 & Hlvl1).
      split; [congruence|]. split.
      * intros j' Hj'. rewrite Hoth, Hoth1; done.
      * intros lvl Hl. destruct (Hlvl1 lvl Hl) as (l1 & Hl1 & Hlen1').
        destruct (Hlvl l1 Hl1) as (l2 & Hl2 & Hlen2). exists l2. split; [done | congruence].
Qed.

Lemma treeBuild_levels rnd w w' :
  treeBuild rnd w = Done None w' ->
  (1 <= Depth (mt w) < 2 ^ 32)%Z ->
  length (tree (mt w')) = Z.to_nat (Depth (mt w)) /\
  levelsOk (length (Leaves (mt w))) (tree (mt w')) (Z.to_nat (Depth (mt w))).
Proof.
  unfold treeBuild. intros E HD.
  apply bind_Done in E as (m & w0 & E0 & E). exec_inv E0.
  set (n := length (Leaves (mt w))) in *. set (D := Z.to_nat (Depth (mt w))) in *.
  assert (HD1 : 1 <= D) by lia.
  rewrite (u32_pred _ HD) in E. fold D in E.
  apply bind_Done in E as ([] & w1 & Emap & E).
  apply bind_Done in E as ([] & w2 & Emk & E). exec_inv Emk.
  apply bind_Done in E as ([] & w3 & Eset & E).
  apply setLevel_Done in Eset as [_ Hw3]. simpl in Hw3.
  apply bind_Done in E as (lvl0 & w4 & Elvl & E).
  apply level_Done in Elvl as [Hlvl0 ->]. rewrite Hw3 in Hlvl0. simpl in Hlvl0.
  rewrite list_lookup_insert_eq in Hlvl0 by (rewrite length_replicate; lia).
  injection Hlvl0 as <-.
  apply bind_Done in E as ([[lvl prevLen] err] & w5 & Efix & E).
  apply bind_Done in E as ([] & w6 & Eset & E).
  apply setLevel_Done in Eset as [_ Hw6].
  destruct err as [e|]; [exec_inv E; discriminate|].
  apply fixOdd_Done in Efix as (Hw5 & Hev & Hle & Hlen). specialize (Hlen eq_refl).
  rewrite Hw5, Hw3 in Hw6. simpl in Hw6. rewrite list_insert_insert_eq in Hw6.
  apply bind_Done in E as ([prevLen' err] & w7 & Eloop & E). simpl in E.
  destruct err as [e|]; [exec_inv E; discriminate|].
  assert (Hinv : length (tree (mt w7)) = D /\ levelsOk n (tree (mt w7)) D).
  { eapply (forE_range_inv
              (fun i (p : nat) v =>
                 length (tree (mt v)) = D /\ levelsOk n (tree (mt v)) (S i) /\
                 exists l, tree (mt v) !! i = Some l /\ length l = p))
      in Eloop; [ | lia | | ].
    - replace (S (D - 1)) with D in Eloop by lia. tauto.
    - rewrite Hw6. simpl. rewrite length_insert, length_replicate.
      split; [done|]. split.
      + intros j l Hj Hl. replace j with 0 in * by lia.
        rewrite list_lookup_insert_eq in Hl by (rewrite length_replicate; lia).
        injection Hl as <-. rewrite Nat.pow_0_r, Hlen. split; [done | lia].
      + exists lvl. split; [|done].
        apply list_lookup_insert_eq. rewrite length_replicate; lia.
    - clear -HD1. intros i p v1 p' v2 Hi (HlenT & Hok & l & Hl & Hlp) Hbody.
      apply bind_Done in Hbody as ([] & va & Eset & Hbody).
      apply setLevel_Done in Eset as [Hlt Hva].
      apply bind_Done in Hbody as ([u err] & vb & Einner & Hbody). simpl in Hbody.
      destruct err as [e|]; [exec_inv Hbody; discriminate|].
      eapply (treeBuild_inner i) in Einner as (HlenB & HothB & HlvlB).
      2:{ clear. intros j u v v' r' Eb.
          apply bind_Done in Eb as (a & v1 & Ea & Eb). apply treeAt_Done in Ea as ->.
          apply bind_Done in Eb as (b & v2 & Ea & Eb). apply treeAt_Done in Ea as ->.
          destruct (bytesEqual a b).
          - apply bind_Done in Eb as ([] & v3 & Es & Eb). exec_inv Eb.
            apply setTreeAt_Done in Es as (lvl & Hl & Hk & Hm). right. eauto 10.
          - apply bind_Done in Eb as (m & v3 & Eg & Eb). exec_inv Eg.
            apply bind_Done in Eb as (r & v4 & Eh & Eb).
            assert (v4 = v) as ->.
            { destruct (SortPairs _); [destruct (bytesLess a b)|];
                by apply callHash_Done in Eh. }
            apply bind_Done in Eb as ([] & v5 & Es & Eb). exec_inv Eb.
            apply setTreeAt_Done in Es as (lvl & Hl & Hk & Hm). right. eauto 10. }
      rewrite Hva in HlenB, HothB, HlvlB. simpl in HlenB, HothB, HlvlB.
      rewrite length_insert in HlenB.
      destruct (HlvlB (replicate (p `div` 2) [])) as (l1 & Hl1 & Hlen1).
      { apply list_lookup_insert_eq. lia. }
      rewrite length_replicate in Hlen1.
      apply bind_Done in Hbody as (l1' & vc & Elvl & Hbody).
      apply level_Done in Elvl as [Hl1' ->]. rewrite Hl1 in Hl1'. injection Hl1' as <-.
      apply bind_Done in Hbody as ([[l2 p2] err] & vd & Efix & Hbody).
      apply bind_Done in Hbody as ([] & ve & Eset & Hbody).
      exec_inv Hbody. injection H as -> <-.
      apply fixOdd_Done in Efix as (Hvd & Hev2 & Hle2 & Hlen2). specialize (Hlen2 eq_refl).
      apply setLevel_Done in Eset as [_ Hve]. rewrite Hvd in Hve.
      assert (Hkeep : forall j, j < S i -> tree (mt ve) !! j = tree (mt v1) !! j).
      { intros j Hj. rewrite Hve. simpl.
        rewrite list_lookup_insert_ne by lia. rewrite HothB by lia.
        by rewrite list_lookup_insert_ne by lia. }
      assert (Hnew : tree (mt ve) !! (S i) = Some l2).
      { rewrite Hve. simpl. replace (i + 1) with (S i) by lia.
        apply list_lookup_insert_eq. lia. }
      split; [|split].
      + rewrite Hve. simpl. rewrite length_insert. lia.
      + intros j lj Hj Hlj. destruct (decide (j = S i)) as [->|Hne].
        * rewrite Hnew in Hlj. injection Hlj as <-. rewrite Hlen2. split; [done|].
          destruct (Hok i l ltac:(lia) Hl) as [Hevl Hnl].
          apply even_halve in Hevl.
          rewrite Nat.pow_succ_r'. nia.
        * rewrite Hkeep in Hlj by lia. apply Hok; [lia | done].
      + exists l2. done. }
  destruct Hinv as [HlenT Hok].
  assert (Hw' : tree (mt w') = tree (mt w7)).
  { refine ((_ : keeps (fun m => tree m = tree (mt w7)) _) w7 None w' E eq_refl).
    unfold treeAt, level. keeps_auto. apply keeps_callHash. }
  rewrite Hw'. done.
Qed.

(* ===================================================================== *)
(** ** Trees returned by [New] *)

Lemma sortInsert_length x l : length (sortInsert x l) = S (length l).
Proof. induction l as [|y l IH]; simpl; [done|]. destruct (bytesLess y x); simpl; lia. Qed.

Lemma sortSlice_length l : length (sortSlice l) = length l.
Proof.
  unfold sortSlice. induction l as [|x l IH]; simpl; [done|].
  rewrite sortInsert_length. lia.
Qed.

Lemma forE_total {L} (Q R : L -> Prop) body len :
  forall a acc w,
  (forall j x v, a <= j < a + len -> Q x ->
     exists y e, body j x v = Done (y, e) v /\ (e = None -> Q y) /\ (e <> None -> R y)) ->
  Q acc ->
  exists y e, forE (seq a len) body acc w = Done (y, e) w /\ (e = None -> Q y) /\ (e <> None -> R y).
Proof.
  induction len as [|len IH]; intros a acc w Hbody Hacc; simpl.
  - exists acc, None. done.
  - destruct (Hbody a acc w ltac:(lia) Hacc) as (y & e & E & Hq & Hr).
    unfold bind at 1. rewrite E. simpl. destruct e as [e|].
    + exists y, (Some e). done.
    + apply IH; [|by apply Hq]. intros j x v Hj. apply Hbody. lia.
Qed.

Section WithBlocks.
Context {B : Type} `{DataBlock B}.

Lemma leafGen_body (blocks : list B) i leaves w :
  i < length blocks -> length leaves = length blocks ->
  exists y e,
    (b <- index blocks i ;;
     let '(data, err) := Serialize b in
     match err with Some e => ret ([], Some e) | None =>
     leaves <- store leaves i data ;;
     ret (leaves, None)
     end) w = Done (y, e) w /\
    (e = None -> length y = length blocks) /\ (e <> None -> y = []).
Proof.
  intros Hi Hl. destruct (lookup_lt_is_Some_2 blocks i Hi) as [b Hb].
  unfold bind, index. rewrite Hb. unfold ret.
  destruct (Serialize b) as [data [e|]].
  - exists [], (Some e). done.
  - unfold store. rewrite decide_True by lia.
    exists (<[i := data]> leaves), None. rewrite length_insert. done.
Qed.

Lemma leafGen_Done (blocks : list B) w :
  exists y e, leafGen blocks w = Done (y, e) w /\
    (e = None -> length y = length blocks) /\ (e <> None -> y = []).
Proof.
  unfold leafGen, range. rewrite Nat.sub_0_r.
  edestruct (forE_total (fun l : list bytes => length l = length blocks)
               (fun l => l = [])) as (leaves & err & E & Hok & Herr);
    [ | | unfold bind at 1; rewrite E ].
  - intros j x v Hj Hx. apply leafGen_body; [lia | done].
  - by rewrite length_replicate.
  - destruct err as [e|].
    + exists [], (Some e). done.
    + unfold bind, getTree. destruct (SortLeaves _).
      * exists (sortSlice leaves), None. repeat split; [|done].
        intros _. rewrite sortSlice_length. by apply Hok.
      * exists leaves, None. done.
Qed.

End WithBlocks.

Lemma keeps_proofGen P rnd :
  (forall m l, P m -> P (with_Proofs l m)) ->
  (forall m r, P m -> P (with_Root r m)) ->
  keeps P (proofGen rnd).
Proof.
  intros HP HR. unfold proofGen.
  keeps_auto; auto using keeps_initProofs, keeps_fixOdd, keeps_updateProofs, keeps_callHash.
Qed.

Lemma keeps_treeBuild P rnd :
  (forall m l, P m -> P (with_leafMap l m)) ->
  (forall m t, P m -> P (with_tree t m)) ->
  (forall m r, P m -> P (with_Root r m)) ->
  keeps P (treeBuild rnd).
Proof.
  intros HM HT HR. unfold treeBuild, setTreeAt, treeAt, setLevel, level.
  keeps_auto; auto using keeps_fixOdd, keeps_callHash.
Qed.

Lemma frame_with_Proofs c d l m p : frame c d l m -> frame c d l (with_Proofs p m).
Proof. by intros (? & ? & ?). Qed.
Lemma frame_with_Root c d l m r : frame c d l m -> frame c d l (with_Root r m).
Proof. by intros (? & ? & ?). Qed.
Lemma frame_with_tree c d l m t : frame c d l m -> frame c d l (with_tree t m).
Proof. by intros (? & ? & ?). Qed.
Lemma frame_with_leafMap c d l m t : frame c d l m -> frame c d l (with_leafMap t m).
Proof. by intros (? & ? & ?). Qed.

Lemma calTreeDepth_range n :
  (2 <= n < 2 ^ 63)%Z -> (1 <= calTreeDepth n < 2 ^ 32)%Z.
Proof.
  intros Hn. rewrite calTreeDepth_log2_up by done.
  destruct (Z.log2_up_spec n) as [H1 H2]; [lia|].
  assert (0 < Z.log2_up n)%Z by (apply Z.log2_up_pos; lia).
  assert (Z.log2_up n <= 63)%Z.
  { destruct (Z.le_gt_cases (Z.log2_up n) 63) as [|Hgt]; [done|].
    assert (2 ^ 63 <= 2 ^ Z.pred (Z.log2_up n))%Z by (apply Z.pow_le_mono_r; lia).
    lia. }
  lia.
Qed.

Section Built.
Context {B : Type} `{DataBlock B}.

Lemma New_unfold rnd cfg (blocks : list B) :
  New rnd cfg blocks =
  if decide (length blocks <= 1) then
    Returned None (Some "the number of data blocks must be greater than 1"%string)
  else
    match buildTree rnd blocks (mkWorld (newTree (normalize cfg)) 0) with
    | Done (true, err) w => Returned (Some (mt w)) err
    | Done (false, err) w => Returned None err
    | Crash why => Panicked why
    end.
Proof. reflexivity. Qed.

Lemma buildTree_proofs rnd (blocks : list B) c w :
  buildTree rnd blocks (mkWorld (newTree c) 0) = Done (true, None) w ->
  (2 <= Z.of_nat (length blocks) < 2 ^ 63)%Z ->
  Mode c = ModeProofGen \/ Mode c = ModeProofGenAndTreeBuild ->
  config (mt w) = c /\
  Depth (mt w) = calTreeDepth (Z.of_nat (length blocks)) /\
  length (Proofs (mt w)) = length blocks /\
  Forall (proofOk (Z.to_nat (Depth (mt w)))) (Proofs (mt w)).
Proof.
  intros E Hn Hmode. unfold buildTree in E.
  set (d := calTreeDepth (Z.of_nat (length blocks))) in *.
  pose proof (calTreeDepth_range _ Hn) as Hd. fold d in Hd.
  apply bind_Done in E as ([] & w1 & E1 & E). exec_inv E1. simpl in E.
  apply bind_Done in E as ([leaves err] & w2 & Eleaf & E).
  destruct (leafGen_Done blocks {| mt := with_Depth d (newTree c); draws := 0 |})
    as (y & e & Eleaf' & Hlen & _).
  rewrite Eleaf' in Eleaf. injection Eleaf as -> -> <-.
  apply bind_Done in E as ([] & w3 & E3 & E). exec_inv E3. simpl in E.
  destruct err as [e|]; [exec_inv E; discriminate|]. specialize (Hlen eq_refl).
  apply bind_Done in E as (m & w4 & E4 & E). exec_inv E4. simpl in E.
  set (w0 := {| mt := with_Leaves leaves (with_Depth d (newTree c)); draws := 0 |}) in *.
  assert (Hfr : frame c d leaves (mt w0)) by done.
  destruct Hmode as [Hm | Hm]; rewrite Hm in E; simpl in E.
  - apply bind_Done in E as (err & w5 & Egen & E). exec_inv E. injection H0 as <-.
    assert (Hfr' : frame c d leaves (mt w5)).
    { refine (keeps_proofGen _ rnd _ _ w0 None w5 Egen Hfr);
        eauto using frame_with_Proofs, frame_with_Root. }
    apply proofGen_proofs in Egen as [Hl Hok]; [|simpl; lia].
    destruct Hfr' as (Hc & Hdw & _). simpl in Hl, Hok. rewrite Hdw.
    split_and!; [done | done | congruence | done].
  - apply bind_Done in E as (err & w5 & Etb & E).
    destruct err as [e|]; [exec_inv E; discriminate|].
    assert (Hfr5 : frame c d leaves (mt w5)).
    { refine (keeps_treeBuild _ rnd _ _ _ w0 None w5 Etb Hfr);
        eauto using frame_with_leafMap, frame_with_tree, frame_with_Root. }
    apply treeBuild_levels in Etb as [HlenT Hlv]; [|simpl; lia]. simpl in HlenT, Hlv.
    apply bind_Done in E as ([] & w6 & Einit & E).
    assert (Hfr6 : frame c d leaves (mt w6) /\ tree (mt w6) = tree (mt w5)).
    { refine (keeps_initProofs (fun m => frame c d leaves m /\ tree m = tree (mt w5))
                _ w5 tt w6 Einit _); [|done].
      intros m0 l [Hf Ht]. split; [by apply frame_with_Proofs | done]. }
    destruct Hfr6 as [Hfr6 Ht6].
    apply initProofs_Done in Einit as HP6.
    rewrite (proj2 (proj2 Hfr5)) in HP6.
    apply bind_Done in E as (m6 & w7 & E7 & E). exec_inv E7.
    apply bind_Done in E as ([] & w8 & Eloop & E). exec_inv E.
    rewrite Ht6, HlenT in Eloop.
    eapply (forM_range_inv
              (fun i v => frame c d leaves (mt v) /\ tree (mt v) = tree (mt w5) /\
                          length (Proofs (mt v)) = length leaves /\
                          Forall (proofOk i) (Proofs (mt v))))
      in Eloop; [ | lia | | ].
    + destruct Eloop as ((Hc & Hdw & _) & _ & Hl & Hok). rewrite Hdw.
      split_and!; [done | done | congruence | done].
    + rewrite HP6, length_replicate. split_and!; try done.
      apply proofOk_init.
    + clear -Hlv Hlen. intros i v1 v2 Hi (Hfr & Ht & Hl & Hok) Hbody.
      apply bind_Done in Hbody as (lvl & v3 & Elvl & Hbody).
      apply level_Done in Elvl as [Hlvl ->]. rewrite Ht in Hlvl.
      destruct (Hlv i lvl ltac:(lia) Hlvl) as [Hev Hcov].
      assert (Hk : frame c d leaves (mt v2) /\ tree (mt v2) = tree (mt w5)).
      { refine (keeps_updateProofs
                  (fun m => frame c d leaves m /\ tree m = tree (mt w5))
                  _ _ _ _ v1 tt v2 Hbody _); [|done].
        intros m0 l [Hf Ht']. split; [by apply frame_with_Proofs | done]. }
      apply updateProofs_proofOk in Hbody as [Hok' Hlen']; [ | | done].
      * destruct Hk. split_and!; try done. congruence.
      * rewrite even_div2_succ by done. rewrite Hl. lia.
Qed.

End Built.

(* ===================================================================== *)
(** ** Independence from the random source *)

Lemma normalize_NoDuplicates cfg : NoDuplicates (normalize cfg) = noDuplicateOddNode cfg.
Proof.
  unfold normalize, noDuplicateOddNode.
  destruct cfg as [c|]; [destruct c as [[h|] r md nd sl sp]|]; simpl;
    try destruct (md =? 0)%Z; reflexivity.
Qed.




Lemma duplicating_with_Proofs m l : duplicating m -> duplicating (with_Proofs l m).
Proof. done. Qed.
Lemma duplicating_with_Root m l : duplicating m -> duplicating (with_Root l m).
Proof. done. Qed.
Lemma duplicating_with_tree m l : duplicating m -> duplicating (with_tree l m).
Proof. done. Qed.
Lemma duplicating_with_leafMap m l : duplicating m -> duplicating (with_leafMap l m).
Proof. done. Qed.
Lemma duplicating_with_Leaves m l : duplicating m -> duplicating (with_Leaves l m).
Proof. done. Qed.
Lemma duplicating_with_Depth m l : duplicating m -> duplicating (with_Depth l m).
Proof. done. Qed.

Lemma keeps_level P i : keeps P (level i).
Proof. unfold level. keeps_auto. Qed.
Lemma keeps_treeAt P i j : keeps P (treeAt i j).
Proof. unfold treeAt, level. keeps_auto. Qed.
Lemma keeps_setLevel P i l :
  (forall m t, P m -> P (with_tree t m)) -> keeps P (setLevel i l).
Proof. intros HP. unfold setLevel. keeps_auto. auto. Qed.
Lemma keeps_setTreeAt P i j x :
  (forall m t, P m -> P (with_tree t m)) -> keeps P (setTreeAt i j x).
Proof. intros HP. unfold setTreeAt, setLevel, level. keeps_auto. auto. Qed.

Create HintDb keeps.
#[local] Hint Resolve keeps_level keeps_treeAt keeps_setLevel keeps_setTreeAt : keeps.
#[local] Hint Resolve keeps_fixOdd keeps_callHash keeps_getDummyHash : keeps.
#[local] Hint Resolve keeps_initProofs keeps_updateProofs keeps_proofGen keeps_treeBuild : keeps.
#[local] Hint Resolve duplicating_with_Proofs duplicating_with_Root duplicating_with_tree
  duplicating_with_leafMap duplicating_with_Leaves duplicating_with_Depth : keeps.





Section Indep.
Context {B : Type} `{DataBlock B}.


End Indep.

(* ===================================================================== *)
(** ** The frame of a tree returned by [New] *)

Lemma frame_with_Leaves_eq c d l m : config m = c -> Depth m = d -> frame c d l (with_Leaves l m).
Proof. by intros <- <-. Qed.

Section Frame.
Context {B : Type} `{DataBlock B}.

(** The configuration, the depth and the leaves of a tree that [New]
    returns, with or without an error. *)
Lemma buildTree_frame rnd (blocks : list B) c ret err w :
  buildTree rnd blocks (mkWorld (newTree c) 0) = Done (ret, err) w ->
  exists leaves e,
    leafGen blocks (mkWorld (with_Depth (calTreeDepth (Z.of_nat (length blocks))) (newTree c)) 0)
      = Done (leaves, e)
          (mkWorld (with_Depth (calTreeDepth (Z.of_nat (length blocks))) (newTree c)) 0) /\
    frame c (calTreeDepth (Z.of_nat (length blocks))) leaves (mt w) /\
    (err = None -> e = None).
Proof.
  intros E. unfold buildTree in E.
  set (d := calTreeDepth (Z.of_nat (length blocks))) in *.
  apply bind_Done in E as ([] & w1 & E1 & E). exec_inv E1. simpl in E.
  set (w1 := {| mt := with_Depth d (newTree c); draws := 0 |}) in *.
  apply bind_Done in E as ([leaves e] & w2 & Eleaf & E).
  destruct (leafGen_Done blocks w1) as (y & e' & Eleaf' & _).
  rewrite Eleaf' in Eleaf. injection Eleaf as -> -> <-.
  exists leaves, e. split; [done|].
  apply bind_Done in E as ([] & w3 & E3 & E). exec_inv E3.
  set (w0 := {| mt := with_Leaves leaves (mt w1); draws := draws w1 |}) in *.
  assert (Hfr : frame c d leaves (mt w0)) by done.
  assert (Hk : frame c d leaves (mt w)).
  { refine ((_ : keeps (frame c d leaves) _) w0 (ret, err) w E Hfr).
    keeps_auto;
      eauto using keeps_proofGen, keeps_treeBuild, keeps_initProofs, keeps_updateProofs,
        keeps_level, frame_with_Proofs, frame_with_Root, frame_with_tree, frame_with_leafMap. }
  split; [done|]. intros ->. destruct e as [e|]; [|done].
  exec_inv E. discriminate.
Qed.

Lemma New_frame rnd cfg (blocks : list B) m err :
  New rnd cfg blocks = Returned (Some m) err ->
  2 <= length blocks /\
  exists leaves e,
    leafGen blocks (mkWorld (with_Depth (calTreeDepth (Z.of_nat (length blocks)))
                               (newTree (normalize cfg))) 0)
      = Done (leaves, e)
          (mkWorld (with_Depth (calTreeDepth (Z.of_nat (length blocks)))
                      (newTree (normalize cfg))) 0) /\
    frame (normalize cfg) (calTreeDepth (Z.of_nat (length blocks))) leaves m /\
    (err = None -> e = None) /\
    exists w, buildTree rnd blocks (mkWorld (newTree (normalize cfg)) 0) = Done (true, err) w /\
              mt w = m.
Proof.
  intros Hnew. rewrite New_unfold in Hnew.
  destruct (decide (length blocks <= 1)) as [|Hlen]; [discriminate|].
  destruct (buildTree _ _ _) as [[[|] err'] w|] eqn:E; try discriminate.
  injection Hnew as <- <-. split; [lia|].
  destruct (buildTree_frame _ _ _ _ _ _ E) as (leaves & e & El & Hfr & He).
  exists leaves, e. split_and!; try done. eauto.
Qed.

Lemma leafGen_result (blocks : list B) w leaves w' :
  leafGen blocks w = Done (leaves, None) w' ->
  Forall serializes blocks /\
  leaves = (if SortLeaves (config (mt w)) then sortSlice (serialized <$> blocks)
            else serialized <$> blocks).
Proof.
  unfold leafGen. intros E.
  apply bind_Done in E as ([l0 err] & w1 & Eloop & E).
  destruct err as [e|]; [exec_inv E; discriminate|].
  set (n := length blocks) in *.
  eapply (forE_range_inv
            (fun i (l : list bytes) v =>
               v = w /\ Forall serializes (take i blocks) /\
               l = (serialized <$> take i blocks) ++ replicate (n - i) []))
    in Eloop; [ | lia | | ].
  - destruct Eloop as (-> & Hall & Hl). subst n.
    rewrite firstn_all in Hall. rewrite firstn_all, Nat.sub_diag, app_nil_r in Hl. subst l0.
    apply bind_Done in E as (m & w2 & Eg & E). exec_inv Eg.
    destruct (SortLeaves _); exec_inv E; by injection H0 as ->.
  - rewrite Nat.sub_0_r. done.
  - subst n. clear. intros i l v1 l' v2 Hi (-> & Hall & ->) Hbody.
    apply bind_Done in Hbody as (b & v3 & Eb & Hbody). exec_inv Eb.
    destruct (Serialize b) as [data [e|]] eqn:Es; [exec_inv Hbody; discriminate|].
    apply bind_Done in Hbody as (l2 & v4 & Est & Hbody). exec_inv Est. exec_inv Hbody.
    injection H2 as ->.
    rewrite (take_S_r _ _ _ H0). split; [done|]. split.
    + apply Forall_app. split; [done|]. constructor; [|done]. exact (f_equal snd Es).
    + rewrite fmap_app. simpl.
      replace (serialized b) with data by (symmetry; exact (f_equal fst Es)).
      replace (length blocks - i) with (S (length blocks - S i)) by lia. simpl.
      rewrite <- app_assoc. simpl.
      rewrite insert_app_r_alt; rewrite length_fmap, length_take; [|lia].
      replace (i - i `min` length blocks) with 0 by lia. done.
Qed.
End Frame.

(** A loop leaves with the error of the first iteration that fails. *)
Lemma forE_first_error {L} (Q : L -> Prop) (body : nat -> L -> M (L * option error))
    i y e len :
  forall a acc w,
  a <= i < a + len ->
  (forall j x v, a <= j < i -> Q x -> exists x', body j x v = Done (x', None) v /\ Q x') ->
  (forall x v, Q x -> body i x v = Done (y, Some e) v) ->
  Q acc ->
  forE (seq a len) body acc w = Done (y, Some e) w.
Proof.
  induction len as [|len IH]; intros a acc w Hi Hbefore Hat Hacc; [lia|].
  cbn [seq forE]. destruct (decide (a = i)) as [->|Hne].
  - unfold bind. rewrite (Hat acc w Hacc). done.
  - destruct (Hbefore a acc w ltac:(lia) Hacc) as (x' & E & Hx').
    unfold bind at 1. rewrite E. cbn [fst snd].
    apply IH; [lia | | done | done]. intros j x v Hj. apply Hbefore. lia.
Qed.

Section LeafErrors.
Context {B : Type} `{DataBlock B}.

(** [leafGen] returns the error of the first block that fails to
    serialize. *)
Lemma leafGen_first_error (blocks : list B) i b e w :
  blocks !! i = Some b -> (Serialize b).2 = Some e ->
  Forall serializes (take i blocks) ->
  leafGen blocks w = Done ([], Some e) w.
Proof.
  intros Hb He Hbefore. unfold leafGen, range. rewrite Nat.sub_0_r.
  apply lookup_lt_Some in Hb as Hi.
  unfold bind at 1.
  rewrite (forE_first_error (fun l : list bytes => length l = length blocks) _ i [] e
             (length blocks) 0 _ w).
  - done.
  - lia.
  - intros j x v Hj Hx.
    destruct (lookup_lt_is_Some_2 blocks j ltac:(lia)) as [bj Hbj].
    assert (Hs : serializes bj).
    { eapply (Forall_lookup_1 _ _ j); [exact Hbefore|].
      rewrite lookup_take_lt by lia. done. }
    unfold bind, index. rewrite Hbj. unfold ret. unfold serializes in Hs.
    destruct (Serialize bj) as [data err]. cbn [snd] in Hs. subst err.
    unfold store. rewrite decide_True by lia.
    eexists. split; [reflexivity|]. by rewrite length_insert.
  - intros x v Hx. unfold bind, index. rewrite Hb. unfold ret.
    destruct (Serialize b) as [data err]. cbn [snd] in He. subst err. done.
  - by rewrite length_replicate.
Qed.

End LeafErrors.

(* ===================================================================== *)
(** ** Rejected inputs *)

Lemma normalize_Mode cfg : Mode (normalize cfg) = modeOf cfg.
Proof.
  unfold normalize, modeOf.
  destruct cfg as [c|]; [destruct c as [[h|] r md nd sl sp]|]; simpl;
    try (destruct (md =? 0)%Z eqn:E; simpl; [apply Z.eqb_eq in E; by subst | done]);
    reflexivity.
Qed.

Section Rejected.
Context {B : Type} `{DataBlock B}.

Lemma New_too_few rnd cfg (blocks : list B) :
  length blocks < 2 ->
  New rnd cfg blocks =
  Returned None (Some "the number of data blocks must be greater than 1"%string).
Proof. intros Hlt. rewrite New_unfold. by rewrite decide_True by lia. Qed.

Lemma buildTree_unrecognized rnd (blocks : list B) c y e :
  recognized (Mode c) = false ->
  let d := calTreeDepth (Z.of_nat (length blocks)) in
  let w1 := mkWorld (with_Depth d (newTree c)) 0 in
  leafGen blocks w1 = Done (y, e) w1 ->
  buildTree rnd blocks (mkWorld (newTree c) 0) =
  Done (match e with
        | Some e => (true, Some e)
        | None => (false, Some "invalid configuration mode"%string)
        end) (mkWorld (with_Leaves y (with_Depth d (newTree c))) 0).
Proof.
  intros Hmode d w1 E. unfold recognized in Hmode.
  apply orb_false_iff in Hmode as [Hmode E2]. apply orb_false_iff in Hmode as [E0 E1].
  unfold buildTree. unfold bind at 1. unfold modify at 1. cbv beta iota.
  cbn [mt draws]. fold d. fold w1.
  unfold bind at 1. rewrite E. cbv beta iota.
  unfold bind at 1. unfold modify at 1. cbv beta iota.
  destruct e as [e|]; [reflexivity|].
  unfold bind at 1. unfold getTree at 1. cbv beta iota.
  change (config (mt {| mt := with_Leaves y (mt w1); draws := draws w1 |})) with c.
  rewrite E0, E1, E2. reflexivity.
Qed.

(** With an unrecognized mode the blocks are serialized first: the call
    ends with the mode error and a nil tree, or with the error of a block
    and a tree that holds the configuration and the depth only. *)
Lemma New_unrecognized rnd cfg (blocks : list B) :
  2 <= length blocks -> recognized (modeOf cfg) = false ->
  New rnd cfg blocks = Returned None (Some "invalid configuration mode"%string) \/
  exists e, New rnd cfg blocks =
    Returned (Some (with_Leaves [] (with_Depth (calTreeDepth (Z.of_nat (length blocks)))
                                      (newTree (normalize cfg))))) (Some e).
Proof.
  intros Hlen Hmode.
  rewrite <- normalize_Mode in Hmode.
  set (w1 := mkWorld (with_Depth (calTreeDepth (Z.of_nat (length blocks)))
                        (newTree (normalize cfg))) 0).
  destruct (leafGen_Done blocks w1) as (y & e & E & _ & Herr).
  pose proof (buildTree_unrecognized rnd blocks _ y e Hmode E) as Hb.
  rewrite New_unfold. rewrite decide_False by lia. rewrite Hb.
  destruct e as [e|]; [|by left].
  right. exists e. rewrite Herr by done. reflexivity.
Qed.
End Rejected.

(** *** Calls of [New] that expose nothing *)

(** A list with an element that fails [P] has a first such element. *)
Lemma first_failure {A} (P : A -> Prop) `{!forall x, Decision (P x)} (l : list A) :
  ~ Forall P l ->
  exists i x, l !! i = Some x /\ ~ P x /\ Forall P (take i l).
Proof.
  induction l as [|a l IH]; intros Hn.
  - by destruct Hn.
  - destruct (decide (P a)) as [Ha|Ha].
    + destruct IH as (i & x & Hi & Hx & Hbefore).
      { intros Hall. apply Hn. by constructor. }
      exists (S i), x. split_and!; [done | done | by constructor].
    + exists 0, a. split_and!; [done | done | constructor].
Qed.

Section Clean.
Context {B : Type} `{DataBlock B}.

(** When every block serializes, [leafGen] returns one leaf per block. *)
Lemma leafGen_all (blocks : list B) w :
  Forall serializes blocks ->
  exists leaves, leafGen blocks w = Done (leaves, None) w /\ length leaves = length blocks.
Proof.
  intros Hall. unfold leafGen, range. rewrite Nat.sub_0_r.
  edestruct (forE_total (fun l : list bytes => length l = length blocks)
               (fun _ => False)) as (leaves & err & E & Hok & Herr);
    [ | | unfold bind at 1; rewrite E ].
  - intros j x v Hj Hx.
    destruct (lookup_lt_is_Some_2 blocks j ltac:(lia)) as [b Hb].
    pose proof (Forall_lookup_1 _ _ _ _ Hall Hb) as Hs. unfold serializes in Hs.
    unfold bind, index. rewrite Hb. unfold ret.
    destruct (Serialize b) as [data err]. cbn [snd] in Hs. subst err.
    unfold store. rewrite decide_True by lia.
    exists (<[j := data]> x), None. rewrite length_insert. done.
  - by rewrite length_replicate.
  - destruct err as [e|]; [by destruct Herr|]. specialize (Hok eq_refl).
    unfold bind, getTree. destruct (SortLeaves _).
    + exists (sortSlice leaves). by rewrite sortSlice_length.
    + by exists leaves.
Qed.

(** A tree that [New] returns after all the blocks were serialized holds
    their leaves, with or without an error. *)
Lemma New_exposes_leaves rnd cfg (blocks : list B) m err :
  Forall serializes blocks ->
  New rnd cfg blocks = Returned (Some m) err ->
  length (Leaves m) = length blocks /\ 2 <= length blocks.
Proof.
  intros Hall Hnew.
  apply New_frame in Hnew as (Hlen & leaves & e & El & (_ & _ & HL) & _).
  destruct (leafGen_all blocks
              (mkWorld (with_Depth (calTreeDepth (Z.of_nat (length blocks)))
                          (newTree (normalize cfg))) 0) Hall) as (leaves' & El' & Hl').
  rewrite El' in El. injection El as <- <-. by rewrite HL.
Qed.

Lemma New_recognized_tree rnd cfg (blocks : list B) r :
  recognized (modeOf cfg) = true ->
  New rnd cfg blocks = r -> 2 <= length blocks ->
  match r with
  | Returned None _ => False
  | _ => True
  end.
Proof.
  intros Hmode <- Hlen. rewrite New_unfold. rewrite decide_False by lia.
  destruct (buildTree rnd blocks _) as [[[|] err] w|] eqn:E; [done | | done].
  exfalso. unfold buildTree in E.
  apply bind_Done in E as ([] & w1 & E1 & E). exec_inv E1.
  apply bind_Done in E as ([leaves e] & w2 & Eleaf & E).
  apply bind_Done in E as ([] & w3 & E3 & E). exec_inv E3.
  destruct e as [e|]; [exec_inv E; discriminate|].
  apply bind_Done in E as (m & w4 & E4 & E). exec_inv E4.
  assert (Hc : Mode (config (mt w2)) = modeOf cfg).
  { rewrite <- normalize_Mode.
    destruct (leafGen_Done blocks
                {| mt := with_Depth (calTreeDepth (Z.of_nat (length blocks)))
                           (newTree (normalize cfg)); draws := 0 |})
      as (y & e' & Eleaf' & _).
    cbn [mt draws] in Eleaf. rewrite Eleaf' in Eleaf. by injection Eleaf as _ _ <-. }
  cbn [mt config with_Leaves] in E. rewrite Hc in E.
  unfold recognized in Hmode.
  destruct (modeOf cfg =? ModeProofGen)%Z;
    [apply bind_Done in E as (? & ? & _ & E); exec_inv E; discriminate|].
  destruct (modeOf cfg =? ModeTreeBuild)%Z;
    [apply bind_Done in E as (? & ? & _ & E); exec_inv E; discriminate|].
  destruct (modeOf cfg =? ModeProofGenAndTreeBuild)%Z; [|discriminate].
  apply bind_Done in E as ([e|] & ? & _ & E); [exec_inv E; discriminate|].
  apply bind_Done in E as (? & ? & _ & E).
  apply bind_Done in E as (? & ? & _ & E).
  apply bind_Done in E as (? & ? & _ & E). exec_inv E. discriminate.
Qed.

Lemma New_serialization_error rnd cfg (blocks : list B) :
  2 <= length blocks -> ~ Forall serializes blocks ->
  exists e, New rnd cfg blocks =
    Returned (Some (with_Depth (calTreeDepth (Z.of_nat (length blocks)))
                      (newTree (normalize cfg)))) (Some e).
Proof.
  intros Hlen Hn.
  apply first_failure in Hn as (i & b & Hb & Hfail & Hbefore); [|apply _].
  unfold serializes in Hfail.
  destruct (Serialize b) as [data [e|]] eqn:Es; [|by destruct Hfail].
  exists e. rewrite New_unfold.
  rewrite decide_False by lia. unfold buildTree.
  unfold bind at 1. unfold modify at 1. cbn [mt draws].
  unfold bind at 1.
  rewrite (leafGen_first_error blocks i b e _ Hb); [reflexivity | by rewrite Es | done].
Qed.

Lemma New_invalid_mode rnd cfg (blocks : list B) :
  2 <= length blocks -> Forall serializes blocks -> recognized (modeOf cfg) = false ->
  New rnd cfg blocks = Returned None (Some "invalid configuration mode"%string).
Proof.
  intros Hlen Hall Hmode. rewrite <- normalize_Mode in Hmode.
  set (w1 := mkWorld (with_Depth (calTreeDepth (Z.of_nat (length blocks)))
                        (newTree (normalize cfg))) 0).
  destruct (leafGen_all blocks w1 Hall) as (y & E & _).
  pose proof (buildTree_unrecognized rnd blocks _ y None Hmode E) as Hb.
  rewrite New_unfold. rewrite decide_False by lia. by rewrite Hb.
Qed.

End Clean.

(* ===================================================================== *)
(** ** Runs that do not read the random source *)











Section Pow2.
Context {B : Type} `{DataBlock B}.


End Pow2.

(** *** Runs that end without a read *)














Section Unread.
Context {B : Type} `{DataBlock B}.




End Unread.

(* ===================================================================== *)
(** ** Observations on concrete trees *)

Lemma fmap_built {A} (f : MerkleTree -> A) r x :
  f <$> built r = Some x -> exists m, r = Returned (Some m) None /\ f m = x.
Proof.
  destruct r as [[m|] [e|]|]; simpl; try discriminate.
  intros [= <-]. eauto.
Qed.

Lemma succeeded_treeOf r : succeeded r = true -> r = Returned (Some (treeOf r)) None.
Proof. by destruct r as [[m|] [e|]|]. Qed.

Lemma scenario_abcd_observed h mode :
  mode = ModeProofGen \/ mode = ModeProofGenAndTreeBuild ->
  (fun m => (Leaves m, tree m, Root m, Proofs m !! 0)) <$>
    built (New noRandom (Some (configOf (Some (total h)) mode)) [blockA; blockB; blockC; blockD])
  = Some ([["a"]; ["b"]; ["c"]; ["d"]]%byte,
          (if (mode =? ModeProofGenAndTreeBuild)%Z
           then [[["a"]; ["b"]; ["c"]; ["d"]]; [h ["a"; "b"]; h ["c"; "d"]]]%byte else []),
          h (h ["a"; "b"]%byte ++ h ["c"; "d"]%byte),
          Some (mkProof [["b"%byte]; h ["c"; "d"]%byte] 3)).
Proof. intros [-> | ->]; vm_compute; reflexivity. Qed.

Lemma scenario_abcd_path h mode path :
  mode = ModeProofGen \/ mode = ModeProofGenAndTreeBuild ->
  scenario_abcd h mode path -> path = 3%Z.
Proof.
  intros Hmode (m & Hm & _ & _ & _ & Hp).
  destruct (fmap_built _ _ _ (scenario_abcd_observed h mode Hmode))
    as (m' & Hm' & Hobs).
  rewrite Hm in Hm'. injection Hm' as <-.
  assert (HP : Proofs m !! 0 = Some (mkProof [["b"%byte]; h ["c"; "d"]%byte] 3)).
  { by injection Hobs. }
  rewrite Hp in HP. by injection HP.
Qed.

(** Apart from its first step [Verify] is the algorithm of the
    specification: it starts from the hash of the serialized block. *)
Lemma Verify_from_hashed_block {B} `{DataBlock B} (b : B) p root h data x :
  Serialize b = (data, None) -> h data = (x, None) ->
  Verify (Some b) (Some p) root (Some h) = specVerifyLoop h root (Siblings p) x (Path p).
Proof.
  intros Hs Hh. unfold Verify. rewrite Hs, Hh.
  generalize (Path p) as path. generalize x as acc.
  induction (Siblings p) as [|n rest IH]; intros acc path;
    cbn [verifyLoop specVerifyLoop]; [done|].
  assert (Hbit : (Z.land path 1 =? 1)%Z = Z.testbit path 0).
  { rewrite Z.bit0_odd. change 1%Z with (Z.ones 1) at 1.
    rewrite Z.land_ones by lia. change (2 ^ 1)%Z with 2%Z.
    rewrite Zodd_mod. reflexivity. }
  rewrite Hbit. destruct (Z.testbit path 0).
  - destruct (h (acc ++ n)) as [y [e|]]; [done | apply IH].
  - destruct (h (n ++ acc)) as [y [e|]]; [done | apply IH].
Qed.

(* ===================================================================== *)
(** ** The claims *)

(** C1 (round trip), evaluated on the code: for the tree [New] builds from
    the blocks "a" and "b" with the default configuration, [Verify] called
    with block "a", the proof generated for it, the root of the tree and
    the hash function of the tree answers [false].  The leaves are the
    serialized blocks, so the root is H(a ++ b), while [Verify] hashes the
    block first and compares H(H(a) ++ b) with it; the algorithm of the
    specification, which does not hash the block, answers [true] on the
    same input. *)
Theorem C1_round_trip_fails :
  exists m p,
    New noRandom None [blockA; blockB] = Returned (Some m) None /\
    Proofs m !! 0 = Some p /\
    Verify (Some blockA) (Some p) (Root m) (HashFunc (config m)) = (false, None) /\
    specVerify blockA p (Root m) defaultHashFunc = (true, None).
Proof.
  set (p := mkProof [["b"%byte]] 1).
  assert (Hobs : (fun m => (Proofs m !! 0,
                            Verify (Some blockA) (Some p) (Root m) (HashFunc (config m)),
                            specVerify blockA p (Root m) defaultHashFunc))
                 <$> built (New noRandom None [blockA; blockB])
                 = Some (Some p, (false, None), (true, None))).
  { vm_compute. reflexivity. }
  apply fmap_built in Hobs as (m & Hm & Hobs).
  exists m, p. split; [exact Hm|].
  split; [exact (f_equal (fun o => o.1.1) Hobs)|].
  split; [exact (f_equal (fun o => o.1.2) Hobs) | exact (f_equal snd Hobs)].
Qed.

(** C2 (the algorithm of [Verify]), evaluated on the code: with no
    siblings and the serialized block itself as root, the algorithm of the
    specification answers [true], and [Verify] answers [false], because its
    accumulator starts as the hash of the serialized block. *)
Theorem C2_Verify_hashes_the_block :
  Verify (Some blockA) (Some (mkProof [] 0%Z)) ["a"%byte] None = (false, None) /\
  specVerify blockA (mkProof [] 0%Z) ["a"%byte] defaultHashFunc = (true, None).
Proof. split; vm_compute; reflexivity. Qed.

(** C3 (a duplicated odd node is propagated unhashed), evaluated on the
    code for the leaves "a", "b", "c" and any hash [h] that does not fail:
    in [ModeTreeBuild] level 1 is [h(a ++ b); c] and the root is
    h(h(a ++ b) ++ c), but in [ModeProofGen] the duplicated pair is hashed
    and the root is h(h(a ++ b) ++ h(c ++ c)). *)
Theorem C3_odd_leaf_hashed_in_ModeProofGen (h : bytes -> bytes) :
  Root <$> built (New noRandom (Some (configOf (Some (total h)) ModeProofGen))
                    [blockA; blockB; blockC])
    = Some (h (h ["a"; "b"]%byte ++ h ["c"; "c"]%byte)) /\
  (fun m => (tree m, Root m)) <$>
    built (New noRandom (Some (configOf (Some (total h)) ModeTreeBuild))
             [blockA; blockB; blockC])
    = Some ([[["a"]; ["b"]; ["c"]; ["c"]]; [h ["a"; "b"]; ["c"]]]%byte,
            h (h ["a"; "b"]%byte ++ ["c"]%byte)).
Proof. split; vm_compute; reflexivity. Qed.

(** C4 (streaming and indexed proofs agree), evaluated on the code: for
    the tree built in [ModeProofGenAndTreeBuild] from "a" and "b" with the
    default hash, the proof stored for "a" has the sibling "b" and path 1,
    and [GenerateProof] for "a" returns no proof but the not-found error. *)
Theorem C4_GenerateProof_misses_streamed_proof :
  (fun m => (Proofs m !! 0, generateProofOn m blockA)) <$>
    built (New noRandom (Some (configOf None ModeProofGenAndTreeBuild)) [blockA; blockB])
  = Some (Some (mkProof [["b"%byte]] 1),
          Some (None, Some "data block is not a member of the Merkle Tree"%string)).
Proof. vm_compute. reflexivity. Qed.

(** C5 ([GenerateProof] finds every leaf of the tree), evaluated on the
    code: in the tree built in [ModeTreeBuild] from "a" and "b" the leaf
    "a" is at index 0 of the leaves and of the leaf index, and
    [GenerateProof] for the block "a" returns the not-found error: it looks
    up the hash of the serialized block. *)
Theorem C5_GenerateProof_not_found_for_member :
  (fun m => (Leaves m !! 0, leafMap m !! ["a"%byte], generateProofOn m blockA)) <$>
    built (New noRandom (Some (configOf None ModeTreeBuild)) [blockA; blockB])
  = Some (Some ["a"%byte], Some 0,
          Some (None, Some "data block is not a member of the Merkle Tree"%string)).
Proof. vm_compute. reflexivity. Qed.




(** C7 as stated fails: with the default configuration and a second block
    whose serialization fails, [New] returns an error and exposes no
    leaves, levels, root or proofs, although two blocks were supplied and
    the mode is recognized. *)
Lemma C7_counterexample :
  ~ (forall rnd cfg (blocks : list rawBlock),
       failsClean (New rnd cfg blocks) = true <->
       (length blocks < 2 \/ recognized (modeOf cfg) = false)).
Proof.
  intros Hclaim.
  destruct (Hclaim noRandom None [blockA; Faulty "broken"]) as [Hto _].
  destruct Hto as [Hlen | Hmode].
  - vm_compute. reflexivity.
  - simpl in Hlen. lia.
  - discriminate Hmode.
Qed.

(** C7, amended: [New] returns an error and exposes no leaves, levels,
    root or proofs exactly in three cases: fewer than two blocks are
    supplied, the mode is not a recognized value, or a block fails to
    serialize.  With fewer than two blocks it returns a nil tree at once;
    otherwise the blocks are serialized first, and a failure there returns
    the error of a block with a tree that holds the configuration and the
    depth only; an unrecognized mode is reported only after that, with a nil
    tree. *)
Theorem C7_New_rejects {B} `{DataBlock B} rnd cfg (blocks : list B) :
  (failsClean (New rnd cfg blocks) = true <->
   length blocks < 2 \/ recognized (modeOf cfg) = false \/ ~ Forall serializes blocks) /\
  (length blocks < 2 ->
     New rnd cfg blocks =
     Returned None (Some "the number of data blocks must be greater than 1"%string)) /\
  (2 <= length blocks -> ~ Forall serializes blocks ->
     exists e, New rnd cfg blocks =
       Returned (Some (with_Depth (calTreeDepth (Z.of_nat (length blocks)))
                         (newTree (normalize cfg)))) (Some e)) /\
  (2 <= length blocks -> Forall serializes blocks -> recognized (modeOf cfg) = false ->
     New rnd cfg blocks = Returned None (Some "invalid configuration mode"%string)).
Proof.
  split_and!.
  - split.
    + intros Hclean.
      destruct (decide (length blocks < 2)) as [|Hlen]; [by left|].
      destruct (decide (Forall serializes blocks)) as [Hall|]; [|by right; right].
      destruct (recognized (modeOf cfg)) eqn:Hmode; [|by right; left].
      exfalso.
      pose proof (New_recognized_tree rnd cfg blocks _ Hmode eq_refl ltac:(lia)) as Hr.
      destruct (New rnd cfg blocks) as [[m|] [e|]|] eqn:Hnew; try done.
      apply New_exposes_leaves in Hnew as [Hl Hge]; [|done].
      cbn [failsClean nothingExposed] in Hclean.
      destruct (Leaves m); [simpl in Hl; lia | done].
    + intros Hcase. destruct (decide (length blocks < 2)) as [Hlt|Hge].
      { by rewrite (New_too_few rnd cfg blocks Hlt). }
      destruct (decide (Forall serializes blocks)) as [Hall|Hn].
      * destruct Hcase as [?|[Hmode|?]]; [lia | | done].
        by rewrite (New_invalid_mode rnd cfg blocks ltac:(lia) Hall Hmode).
      * destruct (New_serialization_error rnd cfg blocks ltac:(lia) Hn) as [e ->]. done.
  - apply New_too_few.
  - apply New_serialization_error.
  - apply New_invalid_mode.
Qed.

(** The three cases, and a call outside them, on concrete inputs. *)
Lemma C7_witness :
  failsClean (New noRandom None [blockA]) = true /\
  failsClean (New noRandom (Some (configOf None 7%Z)) [blockA; blockB]) = true /\
  failsClean (New noRandom None [blockA; Faulty "broken"]) = true /\
  failsClean (New noRandom None [blockA; blockB]) = false.
Proof.
  split_and!.
  - apply (C7_New_rejects noRandom None [blockA]). left. simpl. lia.
  - apply (C7_New_rejects noRandom (Some (configOf None 7%Z)) [blockA; blockB]).
    right. left. reflexivity.
  - apply (C7_New_rejects noRandom None [blockA; Faulty "broken"]).
    right. right. intros Hall. apply Forall_cons in Hall as [_ Hall].
    apply Forall_cons in Hall as [Hb _]. discriminate Hb.
  - destruct (failsClean (New noRandom None [blockA; blockB])) eqn:E; [|reflexivity].
    apply (C7_New_rejects noRandom None [blockA; blockB]) in E as [E | [E | E]].
    + simpl in E. lia.
    + discriminate E.
    + destruct E. repeat constructor.
Defined.

(** C8 as stated fails: in the scenario with SHA-256 the proof generated
    for "a" does not have path 0, in either mode that generates proofs. *)
Lemma C8_counterexample :
  ~ scenario_abcd SHA256.sum256 ModeProofGen 0 /\
  ~ scenario_abcd SHA256.sum256 ModeProofGenAndTreeBuild 0.
Proof.
  split; intros Hs; apply scenario_abcd_path in Hs; auto; discriminate.
Qed.

(** C8, amended: for the blocks "a", "b", "c", "d", any hash [h] that does
    not fail (SHA-256 among them), no sorting and the duplication policy,
    the leaf layer is [a; b; c; d], level 1 is [h(a ++ b); h(c ++ d)], the
    root is h(level1[0] ++ level1[1]), and the proof generated for "a" has
    the siblings [b; level1[1]] and the path 3: both path bits are set,
    because "a" and h(a ++ b) sit on the left. *)
Theorem C8_scenario_abcd (h : bytes -> bytes) :
  scenario_abcd h ModeProofGen 3 /\ scenario_abcd h ModeProofGenAndTreeBuild 3.
Proof.
  assert (Hall : forall mode,
             mode = ModeProofGen \/ mode = ModeProofGenAndTreeBuild ->
             scenario_abcd h mode 3).
  { intros mode Hmode.
    destruct (fmap_built _ _ _ (scenario_abcd_observed h mode Hmode))
      as (m & Hm & [= HL HT HR HP]).
    exists m. split_and!; try done.
    intros ->. by rewrite HT. }
  split; apply Hall; auto.
Qed.




(** C10: in a tree that [New] returns without an error in [ModeProofGen]
    or [ModeProofGenAndTreeBuild], there is one proof per block, every
    proof has exactly [Depth] siblings, and its path is below 2^Depth. *)
Theorem C10_proofs_have_depth_siblings {B} `{DataBlock B} rnd cfg (blocks : list B) m :
  (Z.of_nat (length blocks) < 2 ^ 63)%Z ->
  New rnd cfg blocks = Returned (Some m) None ->
  modeOf cfg = ModeProofGen \/ modeOf cfg = ModeProofGenAndTreeBuild ->
  2 <= length blocks /\
  Depth m = calTreeDepth (Z.of_nat (length blocks)) /\
  length (Proofs m) = length blocks /\
  Forall (fun p => Z.of_nat (length (Siblings p)) = Depth m /\
                   (0 <= Path p < 2 ^ Depth m)%Z) (Proofs m).
Proof.
  intros Hbound Hnew Hmode. rewrite New_unfold in Hnew.
  destruct (decide (length blocks <= 1)) as [|Hlen]; [discriminate|].
  destruct (buildTree _ _ _) as [[[|] err] w|] eqn:E; try discriminate.
  injection Hnew as <- ->.
  rewrite <- normalize_Mode in Hmode.
  apply buildTree_proofs in E as (_ & HD & HL & Hok); [ | lia | done].
  pose proof (calTreeDepth_range (Z.of_nat (length blocks)) ltac:(lia)) as Hd.
  rewrite <- HD in Hd.
  split_and!; [lia | done | done |].
  eapply Forall_impl; [exact Hok|]. intros p [Hs Hp]. simpl.
  rewrite Z2Nat.id in Hp by lia. split; [lia | done].
Qed.

Lemma C10_witness :
  (Z.of_nat (length [blockA; blockB; blockC]) < 2 ^ 63)%Z /\
  New noRandom None [blockA; blockB; blockC] = Returned (Some tree_abc) None /\
  (modeOf None = ModeProofGen \/ modeOf None = ModeProofGenAndTreeBuild) /\
  2 <= length [blockA; blockB; blockC] /\
  Depth tree_abc = calTreeDepth (Z.of_nat (length [blockA; blockB; blockC])) /\
  length (Proofs tree_abc) = length [blockA; blockB; blockC] /\
  Forall (fun p => Z.of_nat (length (Siblings p)) = Depth tree_abc /\
                   (0 <= Path p < 2 ^ Depth tree_abc)%Z) (Proofs tree_abc).
Proof.
  assert (Hnew : New noRandom None [blockA; blockB; blockC] = Returned (Some tree_abc) None).
  { apply succeeded_treeOf. vm_compute. reflexivity. }
  split; [simpl; lia|]. split; [exact Hnew|]. split; [left; reflexivity|].
  apply (C10_proofs_have_depth_siblings noRandom None [blockA; blockB; blockC] tree_abc);
    [simpl; lia | exact Hnew | left; reflexivity].
Defined.

(* ===================================================================== *)
(** ** Sorted leaves and the leaf index *)

Lemma normalize_SortLeaves cfg : SortLeaves (normalize cfg) = sortLeavesOf cfg.
Proof.
  unfold normalize, sortLeavesOf.
  destruct cfg as [c|]; [destruct c as [[h|] r md nd sl sp]|]; simpl;
    try destruct (md =? 0)%Z; reflexivity.
Qed.

Lemma normalize_SortPairs cfg : SortPairs (normalize cfg) = sortPairsOf cfg.
Proof.
  unfold normalize, sortPairsOf.
  destruct cfg as [c|]; [destruct c as [[h|] r md nd sl sp]|]; simpl;
    try destruct (md =? 0)%Z; reflexivity.
Qed.

Lemma normalize_HashFunc cfg : is_Some (HashFunc (normalize cfg)).
Proof.
  unfold normalize.
  destruct cfg as [c|]; [destruct c as [[h|] r md nd sl sp]|]; simpl;
    try destruct (md =? 0)%Z; simpl; eauto.
Qed.

Lemma bytesCompare_opp a b : bytesCompare b a = CompOpp (bytesCompare a b).
Proof.
  revert b. induction a as [|x a IH]; intros [|y b]; simpl; try done.
  rewrite (N.compare_antisym (Byte.to_N x) (Byte.to_N y)).
  destruct (N.compare (Byte.to_N x) (Byte.to_N y)); simpl; auto.
Qed.

Lemma bytesCompare_eq a b : bytesCompare a b = Eq <-> a = b.
Proof.
  revert b. induction a as [|x a IH]; intros [|y b]; simpl; try done.
  destruct (N.compare_spec (Byte.to_N x) (Byte.to_N y)) as [Heq|Hlt|Hgt].
  - assert (x = y) as ->.
    { apply (f_equal Byte.of_N) in Heq. rewrite !Byte.of_to_N in Heq. congruence. }
    rewrite IH. split; congruence.
  - split; [done|]. intros [= -> _]. lia.
  - split; [done|]. intros [= -> _]. lia.
Qed.

Lemma bytesLess_asym a b : bytesLess a b = true -> bytesLess b a = false.
Proof.
  unfold bytesLess. rewrite (bytesCompare_opp a b).
  by destruct (bytesCompare a b).
Qed.

Lemma bytesLess_irrefl a : bytesLess a a = false.
Proof.
  unfold bytesLess. by rewrite (proj2 (bytesCompare_eq a a) eq_refl).
Qed.

Lemma sortInsert_perm x l : sortInsert x l ≡ₚ x :: l.
Proof.
  induction l as [|y l IH]; simpl; [done|].
  destruct (bytesLess y x); [|done]. rewrite IH. apply Permutation_swap.
Qed.

Lemma sortSlice_perm l : sortSlice l ≡ₚ l.
Proof.
  unfold sortSlice. induction l as [|x l IH]; simpl; [done|].
  by rewrite sortInsert_perm, IH.
Qed.

Lemma sortInsert_HdRel a x l :
  notBefore a x -> HdRel notBefore a l -> HdRel notBefore a (sortInsert x l).
Proof.
  intros Hax Hl. destruct l as [|y l]; simpl; [by constructor|].
  inversion Hl; subst. destruct (bytesLess y x); by constructor.
Qed.

Lemma sortInsert_Sorted x l : Sorted notBefore l -> Sorted notBefore (sortInsert x l).
Proof.
  induction 1 as [|y l Hs IH Hhd]; simpl; [repeat constructor|].
  destruct (bytesLess y x) eqn:E.
  - constructor; [done|]. apply sortInsert_HdRel; [|done].
    unfold notBefore. by apply bytesLess_asym.
  - constructor; [by constructor|]. by constructor.
Qed.

Lemma sortSlice_Sorted l : Sorted notBefore (sortSlice l).
Proof.
  unfold sortSlice. induction l as [|x l IH]; simpl; [constructor|].
  by apply sortInsert_Sorted.
Qed.

(** The leaf index after [k] leaves have been stored. *)
Lemma leafMap_loop L k w w' :
  Leaves (mt w) = L -> leafMap (mt w) = ∅ -> k <= length L ->
  forM (range 0 k) (fun i =>
      m <- getTree ;;
      l <- index (Leaves m) i ;;
      modify (with_leafMap (<[l := i]> (leafMap m)))) w = Done tt w' ->
  forall l i, leafMap (mt w') !! l = Some i <->
    (i < k /\ L !! i = Some l /\ forall j, i < j < k -> L !! j <> Some l).
Proof.
  intros HL Hempty Hk E.
  eapply (forM_range_inv
            (fun k v => Leaves (mt v) = L /\
               forall l i, leafMap (mt v) !! l = Some i <->
                 (i < k /\ L !! i = Some l /\ forall j, i < j < k -> L !! j <> Some l)))
    in E; [apply E | lia | | ].
  - split; [done|]. intros l i. rewrite Hempty, lookup_empty. split; [done | lia].
  - clear. intros c v1 v2 Hc [HL Hinv] Hbody.
    apply bind_Done in Hbody as (m & v3 & Eg & Hbody). exec_inv Eg.
    apply bind_Done in Hbody as (x & v4 & Ei & Hbody). exec_inv Ei. exec_inv Hbody.
    simpl. split; [done|]. intros l i.
    destruct (decide (l = x)) as [->|Hne].
    + rewrite lookup_insert_eq. split.
      * intros [= <-]. split_and!; [lia | done | intros j Hj; lia].
      * intros (Hi & Hl & Hlast). f_equal.
        destruct (decide (i = c)) as [|Hik]; [done|].
        exfalso. apply (Hlast c); [lia | done].
    + rewrite lookup_insert_ne by done. rewrite Hinv. split.
      * intros (Hi & Hl & Hlast). split_and!; [lia | done |].
        intros j Hj. destruct (decide (j = c)) as [->|]; [congruence | apply Hlast; lia].
      * intros (Hi & Hl & Hlast). split_and!; [ | done | intros j Hj; apply Hlast; lia].
        destruct (decide (i = c)) as [->|]; [congruence | lia].
Qed.

Lemma treeBuild_leafMap rnd w err w' :
  treeBuild rnd w = Done err w' -> leafMap (mt w) = ∅ ->
  forall l i, leafMap (mt w') !! l = Some i <-> lastIndexOf (Leaves (mt w)) l i.
Proof.
  unfold treeBuild. intros E Hempty.
  apply bind_Done in E as (m & w0 & E0 & E). exec_inv E0.
  apply bind_Done in E as ([] & w1 & Emap & E).
  pose proof (leafMap_loop _ _ _ _ eq_refl Hempty (le_n _) Emap) as Hmap.
  assert (Hkeep : leafMap (mt w') = leafMap (mt w1)).
  { refine ((_ : keeps (fun m => leafMap m = leafMap (mt w1)) _) w1 err w' E eq_refl).
    keeps_auto; eauto with keeps. }
  intros l i. rewrite Hkeep, Hmap. unfold lastIndexOf. split.
  - intros (Hi & Hl & Hlast). split; [done|]. intros j Hj Hlj.
    apply (Hlast j); [|done]. apply lookup_lt_Some in Hlj. lia.
  - intros [Hl Hlast]. split_and!; [by eapply lookup_lt_Some | done |].
    intros j Hj. apply Hlast. lia.
Qed.

(* ===================================================================== *)
(** ** Pairs hashed by [treeBuild] *)

Lemma fixOdd_full rnd buf buf' p' w w' :
  fixOdd rnd buf (length buf) w = Done (buf', p', None) w' ->
  p' = length buf' /\ Nat.even (length buf') = true /\
  exists pad, buf' = buf ++ pad /\ length pad <= 1 /\
    (NoDuplicates (config (mt w)) = false -> forall x, pad = [x] -> last buf = Some x).
Proof.
  unfold fixOdd. intros E. destruct (Nat.even (length buf)) eqn:Hev.
  - exec_inv E. injection H as -> ->. split_and!; [done | done |].
    exists []. rewrite app_nil_r. split_and!; [done | simpl; lia | done].
  - apply bind_Done in E as (m & w0 & E0 & E). exec_inv E0.
    apply bind_Done in E as ([x [e|]] & w1 & E1 & E); simpl in E; [exec_inv E; discriminate|].
    rewrite decide_True in E by lia. exec_inv E. injection H as -> ->.
    rewrite length_app. simpl. split_and!; [lia | |].
    + rewrite Nat.add_1_r, Nat.even_succ, <- Nat.negb_even, Hev. done.
    + exists [x]. split_and!; [done | simpl; lia |].
      intros Hnd y [= <-]. rewrite Hnd in E1.
      apply bind_Done in E1 as (z & w2 & Ez & E1).
      apply index_Done in Ez as [Hz ->]. apply ret_Done in E1 as [[= ->] _].
      rewrite last_lookup.
      replace (pred (length buf)) with (length buf - 1) by lia. done.
Qed.

Lemma callHash_value data r w w' h :
  callHash data w = Done r w' -> HashFunc (config (mt w)) = Some h -> r = h data /\ w' = w.
Proof.
  unfold callHash. intros E Hh. apply bind_Done in E as (m & w0 & E0 & E). exec_inv E0.
  rewrite Hh in E. by exec_inv E.
Qed.

Lemma with_tree_with_tree t t' m : with_tree t (with_tree t' m) = with_tree t m.
Proof. reflexivity. Qed.

(** The inner loop of [treeBuild]: the pairs of level [i] are given their
    nodes in level [i + 1]. *)
Lemma treeBuild_pairs i p lo h w r w' :
  HashFunc (config (mt w)) = Some h ->
  tree (mt w) !! i = Some lo ->
  (exists l1, tree (mt w) !! (i + 1) = Some l1 /\ length l1 = p / 2) ->
  forE (evens p) (fun j (_ : unit) =>
          a <- treeAt i j ;;
          b <- treeAt i (j + 1) ;;
          if bytesEqual a b then
            setTreeAt (i + 1) (j / 2) a ;; ret (tt, None)
          else
            m <- getTree ;;
            r <- (if SortPairs (config m) then
                    if bytesLess a b then callHash (a ++ b)
                    else callHash (b ++ a)
                  else callHash (a ++ b)) ;;
            setTreeAt (i + 1) (j / 2) r.1 ;;
            ret (tt, r.2)) tt w = Done (r, None) w' ->
  exists l1, mt w' = with_tree (<[i + 1 := l1]> (tree (mt w))) (mt w) /\
    length l1 = p / 2 /\
    forall j a b, j < Nat.div2 (p + 1) -> lo !! (2 * j) = Some a -> lo !! (2 * j + 1) = Some b ->
      exists x, pairNode (SortPairs (config (mt w))) h a b = (x, None) /\ l1 !! j = Some x.
Proof.
  intros Hh Hlo (l0 & Hl0 & Hlen0) E.
  eapply (forE_evens_inv
            (fun k (_ : unit) v =>
               exists l1, mt v = with_tree (<[i + 1 := l1]> (tree (mt w))) (mt w) /\
                 length l1 = p / 2 /\
                 forall j a b, j < k -> lo !! (2 * j) = Some a -> lo !! (2 * j + 1) = Some b ->
                   exists x, pairNode (SortPairs (config (mt w))) h a b = (x, None) /\
                             l1 !! j = Some x))
    in E; [exact E | | ].
  - exists l0. split_and!; [ | done | intros; lia].
    rewrite list_insert_id by done. by destruct (mt w).
  - clear E r w'. intros k [] v1 [] v2 Hk (l1 & Hv1 & Hlen1 & Hfill) Hbody.
    assert (Hlt : i + 1 < length (tree (mt w))) by (by eapply lookup_lt_Some).
    assert (Hti : tree (mt v1) !! i = Some lo).
    { rewrite Hv1. simpl. rewrite list_lookup_insert_ne by lia. done. }
    assert (Ht1 : tree (mt v1) !! (i + 1) = Some l1).
    { rewrite Hv1. simpl. by apply list_lookup_insert_eq. }
    assert (Hcfg : config (mt v1) = config (mt w)) by (by rewrite Hv1).
    apply bind_Done in Hbody as (a & v3 & Ea & Hbody).
    unfold treeAt in Ea. apply bind_Done in Ea as (la & v3' & Eal & Ea).
    apply level_Done in Eal as [Hla ->]. exec_inv Ea.
    apply bind_Done in Hbody as (b & v4 & Eb & Hbody).
    unfold treeAt in Eb. apply bind_Done in Eb as (lb & v4' & Ebl & Eb).
    apply level_Done in Ebl as [Hlb ->]. exec_inv Eb.
    rewrite Hti in Hla, Hlb. injection Hla as <-. injection Hlb as <-.
    assert (Hset : forall x u v, setTreeAt (i + 1) (2 * k / 2) x v1 = Done u v ->
              pairNode (SortPairs (config (mt w))) h a b = (x, None) ->
              exists l2, mt v = with_tree (<[i + 1 := l2]> (tree (mt w))) (mt w) /\
                length l2 = p / 2 /\
                forall j a' b', j < S k -> lo !! (2 * j) = Some a' -> lo !! (2 * j + 1) = Some b' ->
                  exists y, pairNode (SortPairs (config (mt w))) h a' b' = (y, None) /\
                            l2 !! j = Some y).
    { intros x u v Es Hx. apply setTreeAt_Done in Es as (lvl & Hlvl & Hj & Hv).
      rewrite Ht1 in Hlvl. injection Hlvl as <-.
      rewrite Nat.mul_comm, Nat.div_mul in Hj, Hv by lia.
      exists (<[k := x]> l1). split_and!.
      - rewrite Hv, Hv1. simpl. rewrite list_insert_insert_eq. done.
      - by rewrite length_insert.
      - intros j a' b' Hjk Ha' Hb'. destruct (decide (j = k)) as [->|Hne].
        + exists x. rewrite list_lookup_insert_eq by done. split; [|done].
          replace (2 * k + 1) with (2 * k + 1) in Hb' by lia. congruence.
        + rewrite list_lookup_insert_ne by done. apply Hfill; [lia | done | done]. }
    destruct (bytesEqual a b) eqn:Heq.
    + apply bind_Done in Hbody as ([] & v5 & Es & Hbody). exec_inv Hbody.
      eapply Hset; [exact Es|]. unfold pairNode. by rewrite Heq.
    + apply bind_Done in Hbody as (m & v5 & Eg & Hbody). exec_inv Eg.
      apply bind_Done in Hbody as (rr & v6 & Eh & Hbody).
      apply bind_Done in Hbody as ([] & v7 & Es & Hbody).
      apply ret_Done in Hbody as [Hr ->]. injection Hr as Hr.
      assert (Hrr : rr = pairNode (SortPairs (config (mt w))) h a b /\ v6 = v1).
      { unfold pairNode. rewrite Heq. rewrite Hcfg in Eh.
        destruct (SortPairs (config (mt w))); [destruct (bytesLess a b)|];
          eapply callHash_value in Eh; try (by rewrite Hcfg); done. }
      destruct Hrr as [-> ->].
      eapply Hset; [exact Es|]. symmetry in Hr.
      destruct (pairNode _ _ _ _) as [x e]. simpl in *. by subst.
Qed.

(** [pairUp] from the nodes given pair by pair. *)
Lemma pairUp_spec f up : forall lo,
  length lo = 2 * length up ->
  (forall j x, up !! j = Some x ->
     exists a b, lo !! (2 * j) = Some a /\ lo !! (2 * j + 1) = Some b /\ f a b = (x, None)) ->
  pairUp f lo = Some up.
Proof.
  induction up as [|x up IH]; intros lo Hlen Hall.
  - destruct lo; [done | simpl in Hlen; lia].
  - destruct lo as [|a [|b rest]]; simpl in Hlen; try lia.
    destruct (Hall 0 x eq_refl) as (a' & b' & [= <-] & [= <-] & Hf).
    cbn [pairUp]. rewrite Hf, (IH rest); [done | lia |].
    intros j y Hy. destruct (Hall (S j) y Hy) as (a' & b' & Ha & Hb & Hf').
    exists a', b'. split_and!; [ | | done].
    + replace (2 * S j) with (S (S (2 * j))) in Ha by lia. exact Ha.
    + replace (2 * S j + 1) with (S (S (2 * j + 1))) in Hb by lia. exact Hb.
Qed.

(** A buffer padded by [fixOdd] under the duplication policy. *)
Lemma dupPad_of_pad (buf buf' pad : list bytes) :
  buf' = buf ++ pad -> length pad <= 1 -> Nat.even (length buf') = true ->
  (forall x, pad = [x] -> last buf = Some x) ->
  buf' = dupPad buf.
Proof.
  intros -> Hpad Hev Hlast. unfold dupPad. rewrite length_app in Hev.
  destruct pad as [|x [|y pad]]; simpl in *; [ | | lia].
  - rewrite Nat.add_0_r in Hev. by rewrite Hev, app_nil_r.
  - rewrite Nat.add_1_r, Nat.even_succ, <- Nat.negb_even in Hev.
    apply negb_true_iff in Hev. by rewrite Hev, (Hlast x eq_refl).
Qed.

(* ===================================================================== *)
(** ** The levels built by [treeBuild] *)

Lemma even_div2_half p : Nat.even p = true -> Nat.div2 (p + 1) = p / 2.
Proof.
  intros He. pose proof (even_div2_succ p He). pose proof (even_halve p He). lia.
Qed.

Lemma tree_with_tree t m : tree (with_tree t m) = t.
Proof. reflexivity. Qed.

Lemma config_with_tree t m : config (with_tree t m) = config m.
Proof. reflexivity. Qed.

Ltac tree_simpl :=
  rewrite ?with_tree_with_tree, ?tree_with_tree, ?config_with_tree.
Tactic Notation "tree_simpl" "in" hyp(H) :=
  rewrite ?with_tree_with_tree, ?tree_with_tree, ?config_with_tree in H.

Lemma treeBuild_structure rnd w w' h :
  treeBuild rnd w = Done None w' ->
  (1 <= Depth (mt w) < 2 ^ 32)%Z ->
  HashFunc (config (mt w)) = Some h ->
  1 <= length (Leaves (mt w)) ->
  length (tree (mt w')) = Z.to_nat (Depth (mt w)) /\
  levelsTight (length (Leaves (mt w))) (tree (mt w')) (Z.to_nat (Depth (mt w))) /\
  levelsLinked (SortPairs (config (mt w))) h (tree (mt w')) (Z.to_nat (Depth (mt w))) /\
  (exists pad, tree (mt w') !! 0 = Some (Leaves (mt w) ++ pad) /\ length pad <= 1 /\
     (NoDuplicates (config (mt w)) = false ->
      forall x, pad = [x] -> last (Leaves (mt w)) = Some x)) /\
  (exists top a b, tree (mt w') !! (Z.to_nat (Depth (mt w)) - 1) = Some top /\
     top !! 0 = Some a /\ top !! 1 = Some b /\ h (a ++ b) = (Root (mt w'), None)) /\
  (NoDuplicates (config (mt w)) = false ->
   forall j lvl, tree (mt w') !! j = Some lvl ->
     levelAt (pairNode (SortPairs (config (mt w))) h) (Leaves (mt w)) j = Some lvl).
Proof.
  unfold treeBuild. intros E HD Hh Hn.
  apply bind_Done in E as (m & w0 & E0 & E). apply getTree_Done in E0 as [-> ->].
  set (L := Leaves (mt w)) in *. set (n := length L) in *.
  set (D := Z.to_nat (Depth (mt w))) in *. set (c := config (mt w)) in *.
  assert (HD1 : 1 <= D) by lia.
  rewrite (u32_pred _ HD) in E. fold D in E.
  apply bind_Done in E as ([] & w1 & Emap & E).
  assert (Hc1 : config (mt w1) = c).
  { refine ((_ : keeps (fun m => config m = c) _) w tt w1 Emap eq_refl).
    keeps_auto; try by destruct m. }
  apply bind_Done in E as ([] & w2 & Emk & E). apply modify_Done in Emk as ->.
  apply bind_Done in E as ([] & w3 & Eset & E).
  apply setLevel_Done in Eset as [_ Hw3]. simpl in Hw3.
  apply bind_Done in E as (lvl0 & w4 & Elvl & E).
  apply level_Done in Elvl as [Hlvl0 ->]. rewrite Hw3 in Hlvl0. simpl in Hlvl0.
  rewrite list_lookup_insert_eq in Hlvl0 by (rewrite length_replicate; lia).
  injection Hlvl0 as <-.
  apply bind_Done in E as ([[lvl prevLen] err] & w5 & Efix & E).
  apply bind_Done in E as ([] & w6 & Eset & E).
  apply setLevel_Done in Eset as [_ Hw6].
  destruct err as [e|]; [apply ret_Done in E as [? _]; discriminate|].
  assert (Hw5 : mt w5 = mt w3).
  { eapply keeps_eq; [|exact Efix]. intros P. apply keeps_fixOdd. }
  apply fixOdd_full in Efix as (Hp & Hev & pad & Hpad & Hlpad & Hdup).
  rewrite Hw3 in Hdup. simpl in Hdup. rewrite Hc1 in Hdup.
  rewrite Hw5, Hw3 in Hw6. simpl in Hw6. rewrite list_insert_insert_eq in Hw6.
  apply bind_Done in E as ([prevLen' err] & w7 & Eloop & E). simpl in E.
  destruct err as [e|]; [apply ret_Done in E as [? _]; discriminate|].
  assert (Hinv : config (mt w7) = c /\ length (tree (mt w7)) = D /\
                 levelsTight n (tree (mt w7)) D /\
                 levelsLinked (SortPairs c) h (tree (mt w7)) D /\
                 tree (mt w7) !! 0 = Some (L ++ pad) /\
                 (exists l, tree (mt w7) !! (D - 1) = Some l /\ length l = prevLen') /\
                 (NoDuplicates c = false ->
                  forall j lvl, j < D -> tree (mt w7) !! j = Some lvl ->
                    levelAt (pairNode (SortPairs c) h) L j = Some lvl)).
  { eapply (forE_range_inv
              (fun i (p : nat) v =>
                 config (mt v) = c /\ length (tree (mt v)) = D /\
                 levelsTight n (tree (mt v)) (S i) /\
                 levelsLinked (SortPairs c) h (tree (mt v)) (S i) /\
                 tree (mt v) !! 0 = Some (L ++ pad) /\
                 (exists l, tree (mt v) !! i = Some l /\ length l = p) /\
                 (NoDuplicates c = false ->
                  forall j lvl, j < S i -> tree (mt v) !! j = Some lvl ->
                    levelAt (pairNode (SortPairs c) h) L j = Some lvl)))
      in Eloop; [ | lia | | ].
    - replace (S (D - 1)) with D in Eloop by lia. exact Eloop.
    - assert (H0 : tree (mt w6) !! 0 = Some lvl).
      { rewrite Hw6. simpl. apply list_lookup_insert_eq. rewrite length_replicate. lia. }
      split_and!.
      + rewrite Hw6. simpl. done.
      + rewrite Hw6. simpl. by rewrite length_insert, length_replicate.
      + intros j l Hj Hl. replace j with 0 in * by lia.
        rewrite H0 in Hl. injection Hl as <-. split; [done|].
        rewrite Hpad, length_app. fold n. simpl. lia.
      + intros j lo up Hj. lia.
      + by rewrite H0, Hpad.
      + exists lvl. done.
      + intros Hnd j lj Hj Hlj. replace j with 0 in * by lia.
        rewrite H0 in Hlj. injection Hlj as <-. cbn [levelAt]. f_equal. symmetry.
        apply (dupPad_of_pad L lvl pad); [done | done | done | by apply Hdup].
    - clear Eloop E Hw6 Hw5 Hw3 Emap w' w7 prevLen'.
      intros i p v1 p' v2 Hi (Hcfg & HlenT & Htight & Hlink & H0 & (l & Hl & Hlp) & Href) Hbody.
      apply bind_Done in Hbody as ([] & va & Eset & Hbody).
      apply setLevel_Done in Eset as [Hlt Hva].
      apply bind_Done in Hbody as ([u err] & vb & Einner & Hbody). simpl in Hbody.
      destruct err as [e|]; [apply ret_Done in Hbody as [? _]; discriminate|].
      eapply (treeBuild_pairs i p l h) in Einner as (l1 & Hvb & Hlen1 & Hfill).
      2:{ rewrite Hva. tree_simpl. by rewrite Hcfg. }
      2:{ rewrite Hva. tree_simpl. by rewrite list_lookup_insert_ne by lia. }
      2:{ exists (replicate (p / 2) []). rewrite Hva. tree_simpl. split.
          - by apply list_lookup_insert_eq.
          - by rewrite length_replicate. }
      rewrite Hva in Hvb. tree_simpl in Hvb. rewrite list_insert_insert_eq in Hvb.
      rewrite Hva in Hfill. tree_simpl in Hfill. rewrite Hcfg in Hfill.
      apply bind_Done in Hbody as (l1' & vc & Elvl & Hbody).
      apply level_Done in Elvl as [Hl1' ->]. rewrite Hvb in Hl1'. tree_simpl in Hl1'.
      rewrite list_lookup_insert_eq in Hl1' by done. injection Hl1' as <-.
      apply bind_Done in Hbody as ([[l2 p2] err] & vd & Efix & Hbody).
      apply bind_Done in Hbody as ([] & ve & Eset & Hbody).
      apply ret_Done in Hbody as [Hr ->]. injection Hr as -> <-.
      assert (Hvd : mt vd = mt vb).
      { eapply keeps_eq; [|exact Efix]. intros P. apply keeps_fixOdd. }
      assert (Hcd : NoDuplicates (config (mt vb)) = NoDuplicates c).
      { rewrite Hvb. tree_simpl. by rewrite Hcfg. }
      apply fixOdd_full in Efix as (Hp2 & Hev2 & pad2 & Hpad2 & Hlpad2 & Hdup2).
      rewrite Hcd in Hdup2.
      apply setLevel_Done in Eset as [_ Hve]. rewrite Hvd, Hvb in Hve. tree_simpl in Hve.
      rewrite list_insert_insert_eq in Hve.
      assert (Hkeep : forall j, j <> i + 1 -> tree (mt ve) !! j = tree (mt v1) !! j).
      { intros j Hj. rewrite Hve. tree_simpl. by rewrite list_lookup_insert_ne by lia. }
      assert (Hnew : tree (mt ve) !! (S i) = Some l2).
      { rewrite Hve. tree_simpl. replace (i + 1) with (S i) by lia.
        apply list_lookup_insert_eq. lia. }
      destruct (Htight i l ltac:(lia) Hl) as (Hevl & Hlo & Hup).
      pose proof (even_halve _ Hevl) as Hhalf.
      assert (Hl2 : length l2 = length l / 2 + length pad2).
      { rewrite Hpad2, length_app, Hlen1, Hlp. done. }
      split_and!.
      + rewrite Hve. tree_simpl. done.
      + rewrite Hve. tree_simpl. rewrite length_insert. lia.
      + intros j lj Hj Hlj. destruct (decide (j = S i)) as [->|Hne].
        * rewrite Hnew in Hlj. injection Hlj as <-. split; [done|].
          rewrite (Nat.pow_succ_r' 2 (S i)), (Nat.pow_succ_r' 2 i).
          rewrite (Nat.pow_succ_r' 2 i) in Hup. subst p. nia.
        * rewrite Hkeep in Hlj by lia. apply Htight; [lia | done].
      + intros j lo up Hj Hlo' Hup'. destruct (decide (j = i)) as [->|Hne].
        * rewrite Hkeep in Hlo' by lia. rewrite Hl in Hlo'. injection Hlo' as <-.
          rewrite Hnew in Hup'. injection Hup' as <-.
          intros jj a b Ha Hb.
          destruct (Hfill jj a b) as (x & Hx & Hlx); [ | done | done | ].
          { rewrite even_div2_half by (by subst p). apply lookup_lt_Some in Hb. subst p. lia. }
          exists x. split; [done|]. rewrite Hpad2. by apply lookup_app_l_Some.
        * rewrite Hkeep in Hlo' by lia. rewrite Hkeep in Hup' by lia.
          eapply Hlink; [ | exact Hlo' | exact Hup']. lia.
      + rewrite Hkeep by lia. done.
      + exists l2. split; [done | by symmetry].
      + intros Hnd j lj Hj Hlj. destruct (decide (j = S i)) as [->|Hne].
        * assert (Hdbl : length l = 2 * length l1) by (rewrite Hlen1, <- Hlp; exact Hhalf).
          rewrite Hnew in Hlj. injection Hlj as <-. cbn [levelAt].
          rewrite (Href Hnd i l ltac:(lia) Hl).
          rewrite (pairUp_spec _ l1 l).
          -- cbn. f_equal. symmetry.
             apply (dupPad_of_pad l1 l2 pad2); [done | done | done | by apply Hdup2].
          -- exact Hdbl.
          -- intros jj x Hx. apply lookup_lt_Some in Hx as Hjj.
             destruct (lookup_lt_is_Some_2 l (2 * jj) ltac:(lia)) as [a Ha].
             destruct (lookup_lt_is_Some_2 l (2 * jj + 1) ltac:(lia)) as [b Hb].
             destruct (Hfill jj a b) as (x' & Hx' & Hlx); [ | done | done | ].
             { rewrite even_div2_half by (by subst p). rewrite <- Hlen1. done. }
             exists a, b. split_and!; [done | done |]. rewrite Hx in Hlx. by injection Hlx as ->.
        * rewrite Hkeep in Hlj by lia. apply Href; [done | lia | done]. }
  destruct Hinv as (Hc7 & HlenT & Htight & Hlink & H0 & (top & Htop & Hlentop) & Href).
  apply bind_Done in E as (a & w8 & Ea & E).
  unfold treeAt in Ea. apply bind_Done in Ea as (la & w8' & Eal & Ea).
  apply level_Done in Eal as [Hla ->]. apply index_Done in Ea as [Ha ->].
  apply bind_Done in E as (b & w9 & Eb & E).
  unfold treeAt in Eb. apply bind_Done in Eb as (lb & w9' & Ebl & Eb).
  apply level_Done in Ebl as [Hlb ->]. apply index_Done in Eb as [Hb ->].
  rewrite Htop in Hla, Hlb. injection Hla as <-. injection Hlb as <-.
  apply bind_Done in E as (r & w10 & Eh & E).
  apply (callHash_value _ _ _ _ h) in Eh as [-> ->]; [|by rewrite Hc7].
  apply bind_Done in E as ([] & w11 & Em & E). apply modify_Done in Em as ->.
  apply ret_Done in E as [Hr ->]. simpl.
  split_and!; try done.
  - exists pad. done.
  - exists top, a, b. split_and!; try done.
    destruct (h (a ++ b)) as [x e]. simpl in *. by subst.
  - intros Hnd j lvl' Hlvl'. apply Href; [done | | done].
    apply lookup_lt_Some in Hlvl'. lia.
Qed.

(* ===================================================================== *)
(** ** The exact effect of [updateProofs] *)

Lemma updatedBy_refl R lo hi (P : list Proof) : hi <= lo -> updatedBy R lo hi P P.
Proof.
  intros Hle. split; [done|]. intros i p Hp. exists p. split; [done|].
  case_decide; [lia | done].
Qed.

Lemma updatedBy_snoc R a j (P P1 : list Proof) p1 p1' :
  updatedBy R a j P P1 -> a <= j -> P1 !! j = Some p1 -> R j p1 p1' ->
  updatedBy R a (S j) P (<[j := p1']> P1).
Proof.
  intros [Hlen Hup] Haj Hj Hst. split; [by rewrite length_insert|].
  intros i p Hp. destruct (Hup i p Hp) as (p' & Hp' & Hcase).
  destruct (decide (i = j)) as [->|Hne].
  - exists p1'. split.
    + apply list_lookup_insert_eq. by eapply lookup_lt_Some.
    + rewrite decide_True by lia. rewrite decide_False in Hcase by lia.
      congruence.
  - exists p'. split; [by rewrite list_lookup_insert_ne|].
    destruct (decide (a <= i < j)).
    + by rewrite decide_True by lia.
    + by rewrite decide_False by lia.
Qed.

Lemma updatedBy_app R a b c (P P1 P2 : list Proof) :
  updatedBy R a b P P1 -> updatedBy R b c P1 P2 -> a <= b <= c ->
  updatedBy R a c P P2.
Proof.
  intros [Hlen1 Hup1] [Hlen2 Hup2] Habc. split; [congruence|].
  intros i p Hp. destruct (Hup1 i p Hp) as (p1 & Hp1 & Hc1).
  destruct (Hup2 i p1 Hp1) as (p2 & Hp2 & Hc2).
  exists p2. split; [done|].
  destruct (decide (a <= i < b)), (decide (b <= i < c)); try lia.
  - rewrite decide_True by lia. by subst.
  - rewrite decide_True by lia. by subst.
  - rewrite decide_False by lia. by subst.
Qed.

Lemma updatedBy_clip R a b (P P' : list Proof) :
  updatedBy R a (min b (length P)) P P' -> updatedBy R a b P P'.
Proof.
  intros [Hlen Hup]. split; [done|]. intros i p Hp.
  destruct (Hup i p Hp) as (p' & Hp' & Hc). exists p'. split; [done|].
  apply lookup_lt_Some in Hp. unfold min in Hc.
  destruct (decide (a <= i < b)); case_decide; case_decide; try lia; done.
Qed.

Lemma updatedBy_all R hi (P P' : list Proof) :
  updatedBy R 0 hi P P' -> length P <= hi ->
  length P' = length P /\
  forall i p, P !! i = Some p -> exists p', P' !! i = Some p' /\ R i p p'.
Proof.
  intros [Hlen Hup] Hhi. split; [done|]. intros i p Hp.
  destruct (Hup i p Hp) as (q & Hq & Hc).
  apply lookup_lt_Some in Hp as Hi. rewrite decide_True in Hc by lia. eauto.
Qed.

Lemma div_block i idx b : idx * b <= i < idx * b + b -> i / b = idx.
Proof.
  intros Hi. symmetry. apply (Nat.div_unique i b idx (i - idx * b)); lia.
Qed.

(** One call of [updatePairProof] on the pair at the even index [idx]. *)
Lemma updatePairProof_exact buf idx step w w' :
  Nat.even idx = true ->
  updatePairProof buf idx (2 ^ step) step w = Done tt w' ->
  updatedBy (stepBy buf step) (idx * 2 ^ step) (idx * 2 ^ step + 2 * 2 ^ step)
    (Proofs (mt w)) (Proofs (mt w')).
Proof.
  unfold updatePairProof. intros Hidx E.
  apply bind_Done in E as (m & w0 & E0 & E). apply getTree_Done in E0 as [-> ->].
  apply bind_Done in E as ([] & w1 & E1 & E2).
  set (P := Proofs (mt w)) in *. set (b := 2 ^ step) in *. set (s := idx * b) in *.
  assert (Hb : 0 < b) by (subst b; apply Nat.neq_0_lt_0, Nat.pow_nonzero; lia).
  assert (H1 : updatedBy (stepBy buf step) s (s + b) P (Proofs (mt w1))).
  { apply updatedBy_clip.
    destruct (decide (s <= min (s + b) (length P))) as [Hle|Hgt].
    - eapply (forM_range_inv (fun j v => updatedBy (stepBy buf step) s j P (Proofs (mt v))));
        [exact Hle | | | exact E1].
      + apply updatedBy_refl. lia.
      + intros j v1 v2 Hj Hinv Hbody.
        apply bind_Done in Hbody as ([] & v3 & Hu1 & Hbody).
        apply bind_Done in Hbody as (sib & v4 & Hsib & Hu2).
        apply index_Done in Hsib as [Hsib ->].
        apply updProof_Done in Hu1 as (p & Hp & Hw).
        apply updProof_Done in Hu2 as (p2 & Hp2 & Hw4).
        rewrite Hw4, Hw, list_insert_insert_eq.
        rewrite Hw in Hp2. rewrite list_lookup_insert_eq in Hp2 by (by eapply lookup_lt_Some).
        injection Hp2 as <-.
        eapply updatedBy_snoc; [exact Hinv | lia | exact Hp | ].
        unfold stepBy. fold b. rewrite (div_block j idx b), Hidx.
        * exists sib. done.
        * fold s. unfold min in Hj. case_decide; lia.
    - apply forM_range_empty in E1; [|lia]. subst w1. apply updatedBy_refl. lia. }
  assert (Hlen : length (Proofs (mt w1)) = length P) by apply H1.
  assert (H2 : updatedBy (stepBy buf step) (s + b) (s + b + b) (Proofs (mt w1)) (Proofs (mt w'))).
  { apply updatedBy_clip. rewrite Hlen.
    destruct (decide (s + b <= min (s + b + b) (length P))) as [Hle|Hgt].
    - eapply (forM_range_inv
                (fun j v => updatedBy (stepBy buf step) (s + b) j (Proofs (mt w1)) (Proofs (mt v))));
        [exact Hle | | | exact E2].
      + apply updatedBy_refl. lia.
      + intros j v1 v2 Hj Hinv Hbody.
        apply bind_Done in Hbody as (sib & v4 & Hsib & Hu2).
        apply index_Done in Hsib as [Hsib ->].
        apply updProof_Done in Hu2 as (p & Hp & Hw).
        rewrite Hw.
        eapply updatedBy_snoc; [exact Hinv | lia | exact Hp | ].
        unfold stepBy. fold b. rewrite (div_block j (idx + 1) b).
        * replace (idx + 1) with (S idx) by lia.
          rewrite Nat.even_succ, <- Nat.negb_even, Hidx. simpl.
          exists sib. by rewrite Nat.sub_0_r.
        * unfold min in Hj. case_decide; lia.
    - apply forM_range_empty in E2; [|lia]. subst w'. apply updatedBy_refl. lia. }
  replace (s + 2 * b) with (s + b + b) by lia.
  eapply updatedBy_app; [exact H1 | exact H2 | lia].
Qed.

(** [updateProofs] gives every proof the sibling of its node in [buf]. *)
Lemma updateProofs_exact buf bufLen step w w' :
  updateProofs buf bufLen step w = Done tt w' ->
  length (Proofs (mt w)) <= 2 * Nat.div2 (bufLen + 1) * 2 ^ step ->
  length (Proofs (mt w')) = length (Proofs (mt w)) /\
  forall i p, Proofs (mt w) !! i = Some p ->
    exists p', Proofs (mt w') !! i = Some p' /\ stepBy buf step i p p'.
Proof.
  unfold updateProofs. intros E Hcover.
  eapply updatedBy_all; [|exact Hcover].
  eapply (forM_evens_inv
            (fun j v => updatedBy (stepBy buf step) 0 (2 * j * 2 ^ step)
                          (Proofs (mt w)) (Proofs (mt v))));
    [ | | exact E].
  - apply updatedBy_refl. lia.
  - intros j w1 w2 Hj Hinv Hb. apply updatePairProof_exact in Hb.
    + eapply updatedBy_app; [exact Hinv | | lia].
      replace (2 * S j * 2 ^ step) with (2 * j * 2 ^ step + 2 * 2 ^ step) by lia.
      exact Hb.
    + rewrite Nat.even_mul. done.
Qed.

(* ===================================================================== *)
(** ** Climbing from a leaf with a proof *)

Lemma land_one_testbit path : (Z.land path 1 =? 1)%Z = Z.testbit path 0.
Proof.
  rewrite Z.bit0_odd. change 1%Z with (Z.ones 1) at 1.
  rewrite Z.land_ones by lia. change (2 ^ 1)%Z with 2%Z.
  rewrite Zodd_mod. reflexivity.
Qed.

Lemma verifyLoop_climb h root siblings acc path :
  verifyLoop h root siblings acc path = (true, None) <->
  climb h siblings acc path = Some root.
Proof.
  revert acc path. induction siblings as [|n rest IH]; intros acc path;
    cbn [verifyLoop climb].
  - unfold bytesEqual. split.
    + intros [= Hb]. apply bool_decide_eq_true in Hb. by subst.
    + intros [= ->]. by rewrite bool_decide_eq_true_2.
  - destruct (Z.land path 1 =? 1)%Z.
    + destruct (h (acc ++ n)) as [y [e|]]; [split; discriminate | apply IH].
    + destruct (h (n ++ acc)) as [y [e|]]; [split; discriminate | apply IH].
Qed.

Lemma climb_snoc h siblings x acc path :
  climb h (siblings ++ [x]) acc path =
  climbStep h (Z.testbit path (Z.of_nat (length siblings))) x (climb h siblings acc path).
Proof.
  revert acc path. induction siblings as [|n rest IH]; intros acc path.
  - cbn [app climb climbStep length]. rewrite land_one_testbit. change (Z.of_nat 0) with 0%Z.
    destruct (Z.testbit path 0).
    + by destruct (h (acc ++ x)) as [y [e|]].
    + by destruct (h (x ++ acc)) as [y [e|]].
  - change ((n :: rest) ++ [x]) with (n :: (rest ++ [x])). cbn [climb length].
    assert (Hbit : Z.testbit (Z.shiftr path 1) (Z.of_nat (length rest))
                   = Z.testbit path (Z.of_nat (S (length rest)))).
    { rewrite Z.shiftr_spec by lia. f_equal. lia. }
    destruct (Z.land path 1 =? 1)%Z.
    + destruct (h (acc ++ n)) as [y [e|]]; [done|]. by rewrite IH, Hbit.
    + destruct (h (n ++ acc)) as [y [e|]]; [done|]. by rewrite IH, Hbit.
Qed.

(** Only the bits of the path below the number of siblings are read. *)
Lemma climb_ext h siblings acc p q :
  (forall t, (0 <= t < Z.of_nat (length siblings))%Z -> Z.testbit p t = Z.testbit q t) ->
  climb h siblings acc p = climb h siblings acc q.
Proof.
  revert acc p q. induction siblings as [|n rest IH]; intros acc p q Hbits; [done|].
  cbn [climb]. rewrite !land_one_testbit.
  rewrite (Hbits 0%Z) by (cbn [length]; lia).
  assert (Hrest : forall y, climb h rest y (Z.shiftr p 1) = climb h rest y (Z.shiftr q 1)).
  { intros y. apply IH. intros t Ht. rewrite !Z.shiftr_spec by lia.
    apply Hbits. cbn [length]. lia. }
  destruct (Z.testbit q 0).
  - destruct (h (acc ++ n)) as [y [e|]]; [done | apply Hrest].
  - destruct (h (n ++ acc)) as [y [e|]]; [done | apply Hrest].
Qed.

Lemma testbit_add_pow2 P s t :
  (0 <= P < 2 ^ s)%Z -> (0 <= s)%Z -> (0 <= t)%Z ->
  Z.testbit (P + 2 ^ s) t = if (t =? s)%Z then true else Z.testbit P t.
Proof.
  intros HP Hs Ht.
  assert (Hhigh : forall u, (s <= u)%Z -> Z.testbit P u = false).
  { intros u Hu. rewrite <- (Z.mod_small P (2 ^ s)) by lia.
    apply Z.mod_pow2_bits_high. lia. }
  rewrite Z.add_nocarry_lxor.
  - rewrite Z.lxor_spec, Z.pow2_bits_eqb by lia.
    destruct (Z.eqb_spec t s) as [->|Hne].
    + rewrite Hhigh by lia. by rewrite Z.eqb_refl.
    + rewrite (proj2 (Z.eqb_neq s t)) by lia. by rewrite xorb_false_r.
  - apply Z.bits_inj'. intros u Hu. rewrite Z.land_spec, Z.bits_0, Z.pow2_bits_eqb by lia.
    destruct (Z.eqb_spec s u) as [->|Hne]; [|by rewrite andb_false_r].
    by rewrite Hhigh by lia.
Qed.

Lemma div_pow_succ i s : i / 2 ^ S s = i / 2 ^ s / 2.
Proof. rewrite Nat.pow_succ_r', (Nat.mul_comm 2). symmetry. apply Nat.Div0.div_div. Qed.

Lemma odd_pred_double k : Nat.even k = false -> 2 * (k / 2) = k - 1 /\ 2 * (k / 2) + 1 = k.
Proof.
  intros Hk. assert (Ho : Nat.odd k = true) by (by rewrite <- Nat.negb_even, Hk).
  apply Nat.odd_spec in Ho as [j ->].
  replace ((2 * j + 1) / 2) with j; [lia|].
  apply (Nat.div_unique _ 2 j 1); lia.
Qed.

(** The step of [updatePairProof] extends the climb of a leaf from its
    node at one level to its node at the next. *)
Lemma climb_stepBy h buf s i l p p' node :
  S s <= 32 ->
  proofOk s p ->
  climb h (Siblings p) l (Path p) = Some node ->
  buf !! (i / 2 ^ s) = Some node ->
  stepBy buf s i p p' ->
  proofOk (S s) p' /\
  forall a b y, buf !! (2 * (i / 2 ^ S s)) = Some a -> buf !! (2 * (i / 2 ^ S s) + 1) = Some b ->
    h (a ++ b) = (y, None) -> climb h (Siblings p') l (Path p') = Some y.
Proof.
  intros Hs [Hlen Hpath] Hclimb Hnode [x Hstep]. rewrite div_pow_succ.
  set (k := i / 2 ^ s) in *.
  assert (Hpow : (0 < 2 ^ Z.of_nat s)%Z) by (apply Z.pow_pos_nonneg; lia).
  assert (Hpow32 : (2 ^ Z.of_nat (S s) <= 2 ^ 32)%Z) by (apply Z.pow_le_mono_r; lia).
  assert (Hdbl : (2 ^ Z.of_nat (S s) = 2 * 2 ^ Z.of_nat s)%Z).
  { rewrite Nat2Z.inj_succ, Z.pow_succ_r by lia. done. }
  destruct (Nat.even k) eqn:Hk.
  - destruct Hstep as [Hx ->]. cbn [Siblings Path].
    assert (Hu : u32 (Path p + 2 ^ Z.of_nat s) = (Path p + 2 ^ Z.of_nat s)%Z).
    { unfold u32. apply Z.mod_small. lia. }
    rewrite Hu. split.
    + split; cbn [Siblings Path]; [rewrite length_app; simpl; lia | lia].
    + intros a b y Ha Hb Hy. pose proof (even_halve k Hk) as Hh.
      rewrite <- Hh in Ha, Hb. rewrite Hnode in Ha. injection Ha as <-.
      rewrite Hx in Hb. injection Hb as <-.
      rewrite climb_snoc, Hlen.
      rewrite testbit_add_pow2, Z.eqb_refl by lia.
      rewrite (climb_ext h (Siblings p) l _ (Path p)), Hclimb.
      * cbn [climbStep]. by rewrite Hy.
      * intros t Ht. rewrite testbit_add_pow2 by lia.
        rewrite (proj2 (Z.eqb_neq t (Z.of_nat s))) by lia. done.
  - destruct Hstep as [Hx ->]. cbn [Siblings Path]. split.
    + split; cbn [Siblings Path]; [rewrite length_app; simpl; lia | lia].
    + intros a b y Ha Hb Hy. destruct (odd_pred_double k Hk) as [H1 H2].
      rewrite H1 in Ha. rewrite H2 in Hb. rewrite Hx in Ha. injection Ha as <-.
      rewrite Hnode in Hb. injection Hb as <-.
      rewrite climb_snoc, Hlen, Hclimb.
      assert (Hbit : Z.testbit (Path p) (Z.of_nat s) = false).
      { rewrite <- (Z.mod_small (Path p) (2 ^ Z.of_nat s)) by lia.
        apply Z.mod_pow2_bits_high. lia. }
      rewrite Hbit. cbn [climbStep]. by rewrite Hy.
Qed.

(* ===================================================================== *)
(** ** The proofs of [proofGen] reach the root *)

(** [fixOdd] on the first [q] nodes of a longer buffer: they stay in
    place. *)
Lemma fixOdd_prefix rnd buf q buf' q' w w' :
  fixOdd rnd buf q w = Done (buf', q', None) w' ->
  q <= length buf ->
  mt w' = mt w /\ Nat.even q' = true /\ q <= q' <= q + 1 /\ q' <= length buf' /\
  forall t, t < q -> buf' !! t = buf !! t.
Proof.
  intros E Hq. split.
  { eapply keeps_eq; [|exact E]. intros P. apply keeps_fixOdd. }
  unfold fixOdd in E. destruct (Nat.even q) eqn:Hev.
  - apply ret_Done in E as [[= -> ->] _]. split_and!; try done; lia.
  - apply bind_Done in E as (m & w0 & E0 & E).
    apply bind_Done in E as (r & w1 & E1 & E).
    destruct r as [x [e|]]; cbn [fst snd] in E; [apply ret_Done in E as [? _]; discriminate|].
    assert (Hq' : Nat.even (q + 1) = true).
    { rewrite Nat.add_1_r, Nat.even_succ, <- Nat.negb_even, Hev. done. }
    case_decide.
    + apply ret_Done in E as [[= -> ->] _]. split_and!; try done; try lia.
      * rewrite length_app. simpl. lia.
      * intros t Ht. apply lookup_app_l. lia.
    + apply bind_Done in E as (b2 & w2 & E2 & E).
      apply store_Done in E2 as (Hlt & -> & ->).
      apply ret_Done in E as [[= -> ->] _]. split_and!; try done; try lia.
      * rewrite length_insert. lia.
      * intros t Ht. apply list_lookup_insert_ne. lia.
Qed.

(** The hashing loop of [proofGen]: the node above the [j]-th pair is
    written at [j], the nodes from [p / 2] on are left as they were. *)
Lemma proofGen_pairs p buf h w b1 w' :
  HashFunc (config (mt w)) = Some h ->
  forE (evens p) (fun idx buf =>
          a <- index buf idx ;;
          b <- index buf (idx + 1) ;;
          r <- callHash (a ++ b) ;;
          buf <- store buf (idx / 2) r.1 ;;
          ret (buf, r.2)) buf w = Done (b1, None) w' ->
  w' = w /\ length b1 = length buf /\
  (forall j, j < Nat.div2 (p + 1) ->
     exists a b y, buf !! (2 * j) = Some a /\ buf !! (2 * j + 1) = Some b /\
                   h (a ++ b) = (y, None) /\ b1 !! j = Some y) /\
  (forall t, Nat.div2 (p + 1) <= t -> b1 !! t = buf !! t).
Proof.
  intros Hh E.
  eapply (forE_evens_inv
            (fun k (cur : list bytes) v =>
               v = w /\ length cur = length buf /\
               (forall j, j < k ->
                  exists a b y, buf !! (2 * j) = Some a /\ buf !! (2 * j + 1) = Some b /\
                                h (a ++ b) = (y, None) /\ cur !! j = Some y) /\
               (forall t, k <= t -> cur !! t = buf !! t)))
    in E; [exact E | | ].
  - split_and!; try done. intros j Hj. lia.
  - clear E. intros k cur v1 cur' v2 Hk (-> & Hlen & Hdone & Hrest) Hbody.
    apply bind_Done in Hbody as (a & va & Ea & Hbody). apply index_Done in Ea as [Ha ->].
    apply bind_Done in Hbody as (b & vb & Eb & Hbody). apply index_Done in Eb as [Hb ->].
    apply bind_Done in Hbody as (r & vc & Er & Hbody).
    apply (callHash_value _ _ _ _ h) in Er as [-> ->]; [|done].
    apply bind_Done in Hbody as (cur2 & vd & Est & Hbody).
    apply store_Done in Est as (Hlt & Hcur2 & ->).
    assert (Hk2 : 2 * k / 2 = k).
    { rewrite Nat.mul_comm. apply Nat.div_mul. lia. }
    rewrite Hk2 in Hlt, Hcur2. subst cur2.
    apply ret_Done in Hbody as [[= -> Herr] ->].
    rewrite Hrest in Ha, Hb by lia.
    split_and!; [done | by rewrite length_insert | | ].
    + intros j Hj. destruct (decide (j = k)) as [->|Hne].
      * exists a, b, (h (a ++ b)).1. split_and!; try done.
        -- destruct (h (a ++ b)) as [y e]. simpl in *. by subst.
        -- by apply list_lookup_insert_eq.
      * destruct (Hdone j ltac:(lia)) as (a' & b' & y & Ha' & Hb' & Hy & Hc).
        exists a', b', y. split_and!; try done.
        by rewrite list_lookup_insert_ne by lia.
    + intros t Ht. rewrite list_lookup_insert_ne by lia. apply Hrest. lia.
Qed.

Lemma div_lt_half i s q n :
  i < n -> n <= q * 2 ^ s -> Nat.even q = true -> i / 2 ^ S s < q / 2.
Proof.
  intros Hi Hn Hq. apply Nat.Div0.div_lt_upper_bound.
  pose proof (even_halve q Hq). rewrite Nat.pow_succ_r'. nia.
Qed.

(** Every proof made by [proofGen] climbs from its leaf to the root. *)
Lemma proofGen_sound rnd w w' h :
  proofGen rnd w = Done None w' ->
  HashFunc (config (mt w)) = Some h ->
  (1 <= Depth (mt w) <= 32)%Z ->
  length (Leaves (mt w)) <= 2 ^ Z.to_nat (Depth (mt w)) ->
  forall i l, Leaves (mt w) !! i = Some l ->
    exists p, Proofs (mt w') !! i = Some p /\
              climb h (Siblings p) l (Path p) = Some (Root (mt w')).
Proof.
  unfold proofGen. intros E Hh HD Hn.
  apply bind_Done in E as (m & w0 & E0 & E). apply getTree_Done in E0 as [-> ->].
  set (L := Leaves (mt w)) in *. set (n := length L) in *.
  set (D := Z.to_nat (Depth (mt w))) in *. set (c := config (mt w)) in *.
  assert (HD1 : 1 <= D <= 32) by lia.
  apply bind_Done in E as ([] & w1 & Einit & E).
  assert (Hc1 : config (mt w1) = c).
  { refine ((_ : keeps (fun m => config m = c) _) w tt w1 Einit eq_refl).
    apply keeps_initProofs. done. }
  apply initProofs_Done in Einit as HP1. fold L n in HP1.
  apply bind_Done in E as ([[buf prevLen] err] & w2 & Efix & E).
  destruct err as [e|]; [apply ret_Done in E as [? _]; discriminate|].
  apply fixOdd_prefix in Efix as (Hmt2 & Hev & Hle & Hlb & Hpre); [|done].
  apply bind_Done in E as ([] & w3 & Eup & E).
  assert (Hc3 : config (mt w3) = c).
  { refine ((_ : keeps (fun m => config m = c) _) w2 tt w3 Eup _); [|by rewrite Hmt2].
    apply keeps_updateProofs. done. }
  apply updateProofs_exact in Eup as [Hlen3 Hstep3].
  2:{ rewrite Hmt2, HP1, length_replicate, Nat.pow_0_r, Nat.mul_1_r.
      apply le_double_div2_succ. }
  rewrite Hmt2, HP1, length_replicate in Hlen3. rewrite Hmt2, HP1 in Hstep3.
  apply bind_Done in E as ([[buf' prevLen'] err] & w4 & Eloop & E).
  destruct err as [e|]; [apply ret_Done in E as [? _]; discriminate|].
  assert (Hinv :
    config (mt w4) = c /\ length (Proofs (mt w4)) = n /\
    forall i l, L !! i = Some l ->
      exists p, Proofs (mt w4) !! i = Some p /\
        forall a b y, buf' !! (2 * (i / 2 ^ D)) = Some a ->
          buf' !! (2 * (i / 2 ^ D) + 1) = Some b ->
          h (a ++ b) = (y, None) -> climb h (Siblings p) l (Path p) = Some y).
  { eapply (forE_range_inv
              (fun s (acc : list bytes * nat) v =>
                 config (mt v) = c /\
                 Nat.even acc.2 = true /\ n <= acc.2 * 2 ^ (s - 1) /\
                 acc.2 <= length acc.1 /\
                 length (Proofs (mt v)) = n /\
                 forall i l, L !! i = Some l ->
                   exists p, Proofs (mt v) !! i = Some p /\ proofOk s p /\
                     forall a b y, acc.1 !! (2 * (i / 2 ^ s)) = Some a ->
                       acc.1 !! (2 * (i / 2 ^ s) + 1) = Some b ->
                       h (a ++ b) = (y, None) ->
                       climb h (Siblings p) l (Path p) = Some y))
      in Eloop; [ | lia | | ].
    - destruct Eloop as (Hc4 & _ & _ & _ & Hlen4 & Hall). cbn [fst snd] in Hall.
      split_and!; try done. intros i l Hl.
      destruct (Hall i l Hl) as (p & Hp & _ & Hc). eauto.
    - cbn [fst snd]. change (1 - 1) with 0. rewrite Nat.pow_0_r.
      split_and!; try done; [lia|].
      intros i l Hl. apply lookup_lt_Some in Hl as Hi. fold n in Hi.
      destruct (Hstep3 i (mkProof [] 0%Z)) as (p' & Hp' & Hst).
      { apply lookup_replicate. done. }
      exists p'. split; [done|].
      apply (climb_stepBy h buf 0 i l (mkProof [] 0%Z) p' l);
        [lia | split; simpl; lia | done | | done].
      rewrite Nat.pow_0_r, Nat.div_1_r, Hpre by done. done.
    - clear Eloop E Hstep3 Hlen3 Hpre Hlb Hle Hev.
      intros s [b p] v1 [b2 p2] v2 Hs (Hcfg & Hev & Hcov & Hlb & Hlen & Hall) Hbody.
      cbn [fst snd] in Hev, Hcov, Hlb, Hall.
      apply bind_Done in Hbody as ([b1 err] & va & Ehash & Hbody).
      destruct err as [e|]; [apply ret_Done in Hbody as [[= ? ?] _]; discriminate|].
      apply (proofGen_pairs p b h) in Ehash as (-> & Hlen1 & Hdone & Hrest);
        [|by rewrite Hcfg].
      rewrite even_div2_half in Hdone, Hrest by done.
      apply bind_Done in Hbody as ([[b3 p3] err] & vb & Efix & Hbody).
      destruct err as [e|]; [apply ret_Done in Hbody as [[= ? ?] _]; discriminate|].
      pose proof (even_halve p Hev) as Hhalf.
      apply fixOdd_prefix in Efix as (Hvb & Hev3 & Hle3 & Hlb3 & Hpre3); [|lia].
      apply bind_Done in Hbody as ([] & vc & Eup & Hbody).
      apply ret_Done in Hbody as [[= -> ->] ->].
      assert (Hcov3 : n <= p3 * 2 ^ s).
      { destruct s as [|s']; [lia|].
        replace (S s' - 1) with s' in Hcov by lia.
        rewrite Nat.pow_succ_r'. nia. }
      assert (Hcc : config (mt vc) = c).
      { refine ((_ : keeps (fun m => config m = c) _) vb tt vc Eup _);
          [|by rewrite Hvb].
        apply keeps_updateProofs. done. }
      apply updateProofs_exact in Eup as [Hlen' Hstep'].
      2:{ rewrite even_div2_succ by done. rewrite Hvb. lia. }
      rewrite Hvb in Hlen', Hstep'.
      cbn [fst snd]. replace (S s - 1) with s by lia.
      split_and!; try done; [congruence|].
      intros i l Hl. apply lookup_lt_Some in Hl as Hi. fold n in Hi.
      destruct (Hall i l Hl) as (q & Hq & Hok & Hclimb).
      destruct (Hstep' i q Hq) as (q' & Hq' & Hst).
      exists q'. split; [done|].
      assert (Hk : i / 2 ^ s < p / 2).
      { destruct s as [|s']; [lia|]. replace (S s' - 1) with s' in Hcov by lia.
        by eapply div_lt_half. }
      destruct (Hdone _ Hk) as (a & b' & y & Ha & Hb & Hy & Hy1).
      apply (climb_stepBy h b3 s i l q q' y); [lia | done | | | done].
      + by eapply Hclimb.
      + rewrite Hpre3 by done. done. }
  destruct Hinv as (Hc4 & Hlen4 & Hall).
  apply bind_Done in E as (a & w5 & Ea & E). apply index_Done in Ea as [Ha ->].
  apply bind_Done in E as (b & w6 & Eb & E). apply index_Done in Eb as [Hb ->].
  apply bind_Done in E as (r & w7 & Er & E).
  apply (callHash_value _ _ _ _ h) in Er as [-> ->]; [|by rewrite Hc4].
  apply bind_Done in E as ([] & w8 & Em & E). apply modify_Done in Em as ->.
  apply ret_Done in E as [Herr ->]. cbn [mt Proofs Root with_Root].
  intros i l Hl. apply lookup_lt_Some in Hl as Hi. fold n in Hi.
  destruct (Hall i l Hl) as (p & Hp & Hclimb). exists p. split; [done|].
  assert (H0 : i / 2 ^ D = 0) by (apply Nat.div_small; lia).
  rewrite H0 in Hclimb. apply (Hclimb a b); try done.
  destruct (h (a ++ b)) as [y e]. simpl in *. by subst.
Qed.

(* ===================================================================== *)
(** ** The runs of [New] that return a tree *)

Lemma normalize_hashOf cfg : HashFunc (normalize cfg) = Some (hashOf cfg).
Proof.
  unfold normalize, hashOf. destruct cfg as [c|]; cbn [HashFunc newConfig].
  - destruct (HashFunc c) eqn:Hh; cbn [Mode HashFunc]; destruct (Mode c =? 0)%Z;
      cbn [HashFunc]; by rewrite ?Hh.
  - reflexivity.
Qed.

Section Run.
Context {B : Type} `{DataBlock B}.

(** The three ways in which [New] returns a tree without an error. *)
Lemma New_run rnd cfg (blocks : list B) m :
  New rnd cfg blocks = Returned (Some m) None ->
  exists leaves,
    2 <= length blocks /\ length leaves = length blocks /\
    Forall serializes blocks /\
    leaves = (if sortLeavesOf cfg then sortSlice (serialized <$> blocks)
              else serialized <$> blocks) /\
    ((modeOf cfg = ModeProofGen /\
      exists w, proofGen rnd (started cfg blocks leaves) = Done None w /\ mt w = m) \/
     (modeOf cfg = ModeTreeBuild /\
      exists w, treeBuild rnd (started cfg blocks leaves) = Done None w /\ mt w = m) \/
     (modeOf cfg = ModeProofGenAndTreeBuild /\
      exists w5 w6 w, treeBuild rnd (started cfg blocks leaves) = Done None w5 /\
        initProofs w5 = Done tt w6 /\
        streamLevels (length (tree (mt w6))) w6 = Done tt w /\ mt w = m)).
Proof.
  intros Hnew. rewrite New_unfold in Hnew.
  destruct (decide (length blocks <= 1)) as [|Hlen]; [discriminate|].
  destruct (buildTree _ _ _) as [[[|] err'] w|] eqn:E; try discriminate.
  injection Hnew as <- ->. unfold buildTree in E.
  set (c := normalize cfg) in *.
  set (d := calTreeDepth (Z.of_nat (length blocks))) in *.
  apply bind_Done in E as ([] & w1 & E1 & E). apply modify_Done in E1 as ->.
  cbn [mt draws] in E.
  apply bind_Done in E as ([leaves err] & w2 & Eleaf & E).
  destruct (leafGen_Done blocks {| mt := with_Depth d (newTree c); draws := 0 |})
    as (y & e & Eleaf' & Hll & _).
  rewrite Eleaf' in Eleaf. injection Eleaf as -> -> <-.
  apply bind_Done in E as ([] & w3 & E3 & E). apply modify_Done in E3 as ->.
  cbn [mt draws] in E.
  destruct err as [e|]; [apply ret_Done in E as [? _]; discriminate|].
  specialize (Hll eq_refl).
  apply leafGen_result in Eleaf' as [Hall Hleaves].
  change (config (mt _)) with c in Hleaves. unfold c in Hleaves.
  rewrite normalize_SortLeaves in Hleaves. fold c in Hleaves.
  exists leaves. split_and!; [lia | done | done | done | ].
  apply bind_Done in E as (m0 & w4 & E4 & E). apply getTree_Done in E4 as [-> ->].
  change (started cfg blocks leaves)
    with {| mt := with_Leaves leaves (with_Depth d (newTree c)); draws := 0 |}.
  set (w0 := {| mt := with_Leaves leaves (with_Depth d (newTree c)); draws := 0 |}) in *.
  change (config (mt w0)) with c in E.
  assert (Hmode : Mode c = modeOf cfg) by apply normalize_Mode.
  rewrite Hmode in E.
  destruct (Z.eqb_spec (modeOf cfg) ModeProofGen) as [Hm|_].
  { left. split; [done|].
    apply bind_Done in E as (err & w5 & Egen & E). apply ret_Done in E as [[= <-] ->].
    eauto. }
  destruct (Z.eqb_spec (modeOf cfg) ModeTreeBuild) as [Hm|_].
  { right. left. split; [done|].
    apply bind_Done in E as (err & w5 & Egen & E). apply ret_Done in E as [[= <-] ->].
    eauto. }
  destruct (Z.eqb_spec (modeOf cfg) ModeProofGenAndTreeBuild) as [Hm|_].
  { right. right. split; [done|].
    apply bind_Done in E as (err & w5 & Etb & E).
    destruct err as [e|]; [apply ret_Done in E as [? _]; discriminate|].
    apply bind_Done in E as ([] & w6 & Einit & E).
    apply bind_Done in E as (m6 & w7 & E7 & E). apply getTree_Done in E7 as [-> ->].
    apply bind_Done in E as ([] & w8 & Eloop & E). apply ret_Done in E as [_ ->].
    exists w5, w6, w8. done. }
  apply ret_Done in E as [? _]. discriminate.
Qed.

End Run.

(* ===================================================================== *)
(** ** Well-formed trees *)

Lemma keeps_streamLevels P n :
  (forall m l, P m -> P (with_Proofs l m)) -> keeps P (streamLevels n).
Proof. intros HP. unfold streamLevels. keeps_auto; eauto with keeps. Qed.

Lemma depth_covers n :
  2 <= n -> (Z.of_nat n < 2 ^ 63)%Z -> n <= 2 ^ Z.to_nat (calTreeDepth (Z.of_nat n)).
Proof.
  intros Hn Hb. rewrite calTreeDepth_log2_up by lia.
  destruct (Z.log2_up_spec (Z.of_nat n)) as [_ H2]; [lia|].
  assert (0 <= Z.log2_up (Z.of_nat n))%Z by apply Z.log2_up_nonneg.
  apply Nat2Z.inj_le. rewrite Nat2Z.inj_pow, Z2Nat.id by lia. done.
Qed.

Lemma depth_small n :
  2 <= n -> (Z.of_nat n <= 2 ^ 32)%Z -> (calTreeDepth (Z.of_nat n) <= 32)%Z.
Proof.
  intros Hn Hb. rewrite calTreeDepth_log2_up by lia.
  apply Z.log2_up_le_pow2; lia.
Qed.

(** The top level of a tight tree over at most [2 ^ D] leaves has two
    nodes. *)
Lemma top_level_pair n t D top :
  1 <= n <= 2 ^ D -> 1 <= D -> levelsTight n t D -> t !! (D - 1) = Some top ->
  exists a b, top = [a; b].
Proof.
  intros Hn HD Ht Htop. destruct (Ht (D - 1) top ltac:(lia) Htop) as (Hev & Hlo & Hup).
  replace (S (D - 1)) with D in Hup by lia.
  assert (Hpow : 2 ^ D = 2 * 2 ^ (D - 1)).
  { rewrite <- Nat.pow_succ_r'. f_equal. lia. }
  assert (Hlen : length top = 2).
  { pose proof (even_halve _ Hev).
    assert (0 < 2 ^ (D - 1)) by (apply Nat.neq_0_lt_0, Nat.pow_nonzero; lia).
    assert (length top < 4) by nia.
    assert (1 <= length top) by nia. lia. }
  destruct top as [|a [|b [|? ?]]]; simpl in Hlen; try lia. eauto.
Qed.

Section Trees.
Context {B : Type} `{DataBlock B}.

(** In the modes that build it, the tree that [New] returns is the one
    made by [treeBuild] from the generated leaves. *)
Lemma New_treeBuild rnd cfg (blocks : list B) m :
  New rnd cfg blocks = Returned (Some m) None ->
  modeOf cfg = ModeTreeBuild \/ modeOf cfg = ModeProofGenAndTreeBuild ->
  2 <= length blocks /\
  exists leaves w5,
    length leaves = length blocks /\
    treeBuild rnd (started cfg blocks leaves) = Done None w5 /\ sameTree m (mt w5).
Proof.
  intros Hnew Hmode.
  apply New_run in Hnew as (leaves & Hlen & Hll & _ & _ & Hrun).
  split; [done|]. exists leaves.
  destruct Hrun as [[Hm _] | [[Hm (w & Etb & <-)] | [Hm (w5 & w6 & w & Etb & Einit & Eloop & <-)]]].
  - destruct Hmode as [Hm' | Hm']; rewrite Hm in Hm'; discriminate.
  - exists w. done.
  - exists w5. split_and!; [done | done |].
    assert (H6 : sameTree (mt w6) (mt w5)).
    { refine (keeps_initProofs (fun m => sameTree m (mt w5)) _ w5 tt w6 Einit eq_refl).
      by intros m0 l. }
    refine (keeps_streamLevels (fun m => sameTree m (mt w5)) _ _ w6 tt w Eloop H6).
    by intros m0 l.
Qed.

Lemma New_wellFormed rnd cfg (blocks : list B) m :
  New rnd cfg blocks = Returned (Some m) None ->
  modeOf cfg = ModeTreeBuild \/ modeOf cfg = ModeProofGenAndTreeBuild ->
  (Z.of_nat (length blocks) < 2 ^ 63)%Z ->
  config m = normalize cfg /\
  Depth m = calTreeDepth (Z.of_nat (length blocks)) /\
  length (Leaves m) = length blocks /\
  wellFormed (sortPairsOf cfg) (hashOf cfg) m /\
  (forall l i, leafMap m !! l = Some i <-> lastIndexOf (Leaves m) l i) /\
  (noDuplicateOddNode cfg = false ->
   forall j lvl, tree m !! j = Some lvl ->
     levelAt (pairNode (sortPairsOf cfg) (hashOf cfg)) (Leaves m) j = Some lvl).
Proof.
  intros Hnew Hmode Hbound.
  apply New_treeBuild in Hnew as (Hlen & leaves & w5 & Hll & Etb & Hsame); [|done].
  pose proof (calTreeDepth_range (Z.of_nat (length blocks)) ltac:(lia)) as Hd.
  pose proof (depth_covers (length blocks) Hlen Hbound) as Hcov.
  set (d := calTreeDepth (Z.of_nat (length blocks))) in *.
  assert (Hfr : frame (normalize cfg) d leaves (mt w5)).
  { refine (keeps_treeBuild _ rnd _ _ _ _ None w5 Etb _);
      eauto using frame_with_leafMap, frame_with_tree, frame_with_Root. done. }
  destruct Hfr as (Hc5 & Hd5 & Hl5).
  pose proof (treeBuild_leafMap _ _ _ _ Etb eq_refl) as Hmap.
  apply (treeBuild_structure rnd _ w5 (hashOf cfg)) in Etb
    as (HlenT & Htight & Hlink & Hpad & Htop & Href);
    [ | done | apply normalize_hashOf | cbn [started mt Leaves with_Leaves]; lia ].
  change (Depth (mt (started cfg blocks leaves))) with d in *.
  change (Leaves (mt (started cfg blocks leaves))) with leaves in *.
  change (config (mt (started cfg blocks leaves))) with (normalize cfg) in *.
  rewrite normalize_SortPairs in Hlink, Href. rewrite normalize_NoDuplicates in Href.
  assert (Hm : config m = config (mt w5) /\ Depth m = Depth (mt w5) /\
               Leaves m = Leaves (mt w5) /\ tree m = tree (mt w5) /\
               Root m = Root (mt w5) /\ leafMap m = leafMap (mt w5)).
  { unfold sameTree in Hsame.
    split_and!;
      [ exact (f_equal config Hsame) | exact (f_equal Depth Hsame)
      | exact (f_equal Leaves Hsame) | exact (f_equal tree Hsame)
      | exact (f_equal Root Hsame) | exact (f_equal leafMap Hsame) ]. }
  destruct Hm as (Hmc & Hmd & Hml & Hmt & Hmr & Hmm).
  rewrite Hmc, Hmd, Hml, Hmm, Hmt, Hc5, Hd5, Hl5.
  split_and!; [done | done | done | | done | done].
  destruct Htop as (top & a & b & Htop & Ha & Hb & Hroot).
  destruct (top_level_pair (length leaves) (tree (mt w5)) (Z.to_nat d) top)
    as (a' & b' & ->); [lia | lia | done | done |].
  injection Ha as ->. injection Hb as ->.
  constructor; rewrite ?Hmc, ?Hmd, ?Hml, ?Hmt, ?Hmr, ?Hc5, ?Hd5, ?Hl5; try done.
  exists a, b. done.
Qed.

End Trees.

(* ===================================================================== *)
(** ** Proofs read off the tree *)

Lemma stepBy_neighbour lvl s i p p' :
  stepBy lvl s i p p' <->
  exists x, lvl !! neighbour (i / 2 ^ s) = Some x /\
    p' = mkProof (Siblings p ++ [x])
           (if Nat.even (i / 2 ^ s) then u32 (Path p + 2 ^ Z.of_nat s) else Path p).
Proof.
  unfold stepBy, neighbour. split; intros [x Hx]; exists x; by destruct (Nat.even _).
Qed.

Lemma proofAt_step t i s p lvl p' :
  proofAt t i s = Some p -> t !! s = Some lvl -> stepBy lvl s i p p' ->
  proofAt t i (S s) = Some p'.
Proof.
  intros Hp Hl Hst. apply stepBy_neighbour in Hst as (x & Hx & ->).
  cbn [proofAt]. by rewrite Hp, Hl, Hx.
Qed.

Lemma proofAt_length t i s p : proofAt t i s = Some p -> length (Siblings p) = s.
Proof.
  revert p. induction s as [|s IH]; intros p; cbn [proofAt].
  - by intros [= <-].
  - destruct (proofAt t i s) as [q|]; [|done]. destruct (t !! s) as [lvl|]; [|done].
    destruct (lvl !! _) as [x|]; [|done]. intros [= <-]. cbn [Siblings].
    rewrite length_app, (IH q eq_refl). simpl. lia.
Qed.

(** The loop of [New] over the levels gives every leaf the proof read
    off the tree. *)
Lemma streamLevels_proofAt t n w w' :
  streamLevels (length t) w = Done tt w' ->
  tree (mt w) = t ->
  Proofs (mt w) = replicate n (mkProof [] 0%Z) ->
  levelsTight n t (length t) ->
  length (Proofs (mt w')) = n /\
  forall i, i < n -> Proofs (mt w') !! i = proofAt t i (length t) /\
                     is_Some (proofAt t i (length t)).
Proof.
  unfold streamLevels. intros E Ht HP Htight.
  eapply (forM_range_inv
            (fun s v => tree (mt v) = t /\ length (Proofs (mt v)) = n /\
                        forall i, i < n -> Proofs (mt v) !! i = proofAt t i s /\
                                           is_Some (proofAt t i s)))
    in E; [ | lia | | ].
  - tauto.
  - split_and!; [done | by rewrite HP, length_replicate |].
    intros i Hi. rewrite HP, lookup_replicate_2 by done. cbn [proofAt]. eauto.
  - clear E HP Ht. intros s v1 v2 Hs (Ht & Hlen & Hall) Hbody.
    apply bind_Done in Hbody as (lvl & v3 & Elvl & Hbody).
    apply level_Done in Elvl as [Hlvl ->]. rewrite Ht in Hlvl.
    destruct (Htight s lvl ltac:(lia) Hlvl) as (Hev & Hcov & _).
    assert (Hk : tree (mt v2) = t).
    { refine (keeps_updateProofs (fun m => tree m = t) _ _ _ _ v1 tt v2 Hbody Ht). done. }
    apply updateProofs_exact in Hbody as [Hlen' Hstep].
    2:{ rewrite even_div2_succ by done. lia. }
    split_and!; [done | congruence |].
    intros i Hi. destruct (Hall i Hi) as [Hp [p Hpa]]. rewrite Hpa in Hp.
    destruct (Hstep i p Hp) as (p' & Hp' & Hst).
    rewrite Hp', (proofAt_step t i s p lvl p' Hpa Hlvl Hst). eauto.
Qed.

Lemma forL_seq_inv {L} (I : nat -> L -> World -> Prop) body len :
  forall a acc w acc' w',
  I a acc w ->
  (forall j x w1 y w2, a <= j < a + len -> I j x w1 ->
     body j x w1 = Done y w2 -> I (S j) y w2) ->
  forL (seq a len) body acc w = Done acc' w' ->
  I (a + len) acc' w'.
Proof.
  induction len as [|len IH]; intros a acc w acc' w' H0 Hstep Hrun; simpl in Hrun.
  - apply ret_Done in Hrun as [-> ->]. by rewrite Nat.add_0_r.
  - apply bind_Done in Hrun as (y & w1 & E1 & Hrun).
    replace (a + S len) with (S a + len) by lia.
    eapply IH; [ | | exact Hrun].
    + eapply Hstep; [ | exact H0 | exact E1 ]. lia.
    + intros j x v1 z v2 Hj. apply Hstep. lia.
Qed.

Lemma insert_filled {A} (l : list A) (x d : A) n :
  0 < n -> <[length l := x]> (l ++ replicate n d) = (l ++ [x]) ++ replicate (n - 1) d.
Proof.
  intros Hn. destruct n as [|n]; [lia|]. cbn [replicate].
  rewrite insert_app_r_alt by lia. rewrite Nat.sub_diag. cbn.
  rewrite Nat.sub_0_r, <- app_assoc. done.
Qed.

(** The walk of [GenerateProof] up the levels from the index [idx]. *)
Lemma GenerateProof_walk D idx w r w' :
  forL (range 0 D) (fun i '(idx, path, siblings) =>
          if Nat.odd idx then
            x <- treeAt i (idx - 1) ;;
            siblings <- store siblings i x ;;
            ret (idx / 2, path, siblings)
          else
            let path := u32 (path + 2 ^ Z.of_nat i) in
            x <- treeAt i (idx + 1) ;;
            siblings <- store siblings i x ;;
            ret (idx / 2, path, siblings)) (idx, 0%Z, replicate D []) w = Done r w' ->
  w' = w /\ proofAt (tree (mt w)) idx D = Some (mkProof r.2 r.1.2).
Proof.
  intros E. unfold range in E. rewrite Nat.sub_0_r in E.
  eapply (forL_seq_inv
            (fun s (acc : nat * Z * list bytes) v =>
               v = w /\ s <= D /\ acc.1.1 = idx / 2 ^ s /\
               exists p, proofAt (tree (mt w)) idx s = Some p /\
                         acc.1.2 = Path p /\
                         acc.2 = Siblings p ++ replicate (D - s) []))
    in E.
  - cbn [Nat.add] in E. destruct E as (-> & _ & _ & p & Hp & Hpath & Hsib).
    split; [done|]. rewrite Nat.sub_diag, app_nil_r in Hsib.
    rewrite Hp, Hsib, Hpath. by destruct p.
  - cbn [fst snd proofAt]. split_and!; [done | lia | by rewrite Nat.div_1_r |].
    eexists. split_and!; [done | done |]. by rewrite Nat.sub_0_r.
  - clear E. intros s [[cur path] sibs] v1 [[cur' path'] sibs'] v2 Hs
                    (-> & _ & Hcur & p & Hp & Hpath & Hsib) Hbody.
    cbn [fst snd] in *. subst cur path sibs.
    pose proof (proofAt_length _ _ _ _ Hp) as Hlen.
    assert (Hodd : Nat.odd (idx / 2 ^ s) = negb (Nat.even (idx / 2 ^ s)))
      by (by rewrite Nat.negb_even).
    rewrite Hodd in Hbody. unfold treeAt in Hbody.
    destruct (Nat.even (idx / 2 ^ s)) eqn:Hev; cbn [negb] in Hbody.
    + apply bind_Done in Hbody as (x & va & Ex & Hbody).
      apply bind_Done in Ex as (lvl & vb & El & Ex).
      apply level_Done in El as [Hl ->]. apply index_Done in Ex as [Hx ->].
      apply bind_Done in Hbody as (s2 & vc & Est & Hbody).
      apply store_Done in Est as (Hlt & -> & ->).
      apply ret_Done in Hbody as [[= -> -> ->] ->].
      split_and!; [done | lia | by rewrite div_pow_succ |].
      eexists. split_and!.
      * cbn [proofAt]. unfold neighbour. rewrite Hp, Hl, Hev, Hx. reflexivity.
      * done.
      * cbn [Siblings]. rewrite <- Hlen at 1. rewrite insert_filled by lia.
        do 2 f_equal. lia.
    + apply bind_Done in Hbody as (x & va & Ex & Hbody).
      apply bind_Done in Ex as (lvl & vb & El & Ex).
      apply level_Done in El as [Hl ->]. apply index_Done in Ex as [Hx ->].
      apply bind_Done in Hbody as (s2 & vc & Est & Hbody).
      apply store_Done in Est as (Hlt & -> & ->).
      apply ret_Done in Hbody as [[= -> -> ->] ->].
      split_and!; [done | lia | by rewrite div_pow_succ |].
      eexists. split_and!.
      * cbn [proofAt]. unfold neighbour. rewrite Hp, Hl, Hev, Hx. reflexivity.
      * done.
      * cbn [Siblings]. rewrite <- Hlen at 1. rewrite insert_filled by lia.
        do 2 f_equal. lia.
Qed.

Lemma proofAt_siblings t i s p :
  proofAt t i s = Some p ->
  forall j, j < s ->
    exists lvl x, t !! j = Some lvl /\ lvl !! neighbour (i / 2 ^ j) = Some x /\
                  Siblings p !! j = Some x.
Proof.
  revert p. induction s as [|s IH]; intros p Hp j Hj; [lia|].
  cbn [proofAt] in Hp.
  destruct (proofAt t i s) as [q|] eqn:Hq; [|done].
  destruct (t !! s) as [lvl|] eqn:Hl; [|done].
  destruct (lvl !! _) as [x|] eqn:Hx; [|done]. injection Hp as <-. cbn [Siblings].
  pose proof (proofAt_length _ _ _ _ Hq) as Hlen.
  destruct (decide (j = s)) as [->|Hne].
  - exists lvl, x. split_and!; [done | done |].
    rewrite lookup_app_r by lia. by rewrite Hlen, Nat.sub_diag.
  - destruct (IH q eq_refl j ltac:(lia)) as (lvl' & y & H1 & H2 & H3).
    exists lvl', y. split_and!; [done | done |]. by apply lookup_app_l_Some.
Qed.

Lemma proofAt_path t i s p :
  s <= 32 -> proofAt t i s = Some p ->
  (0 <= Path p < 2 ^ Z.of_nat s)%Z /\
  forall j, j < s -> Z.testbit (Path p) (Z.of_nat j) = Nat.even (i / 2 ^ j).
Proof.
  revert p. induction s as [|s IH]; intros p Hs Hp.
  - injection Hp as <-. cbn [Path]. split; [simpl; lia | intros j Hj; lia].
  - cbn [proofAt] in Hp.
    destruct (proofAt t i s) as [q|] eqn:Hq; [|done].
    destruct (t !! s) as [lvl|] eqn:Hl; [|done].
    destruct (lvl !! _) as [x|] eqn:Hx; [|done]. injection Hp as <-. cbn [Path].
    destruct (IH q ltac:(lia) eq_refl) as [Hpath Hbits].
    assert (Hpow : (0 < 2 ^ Z.of_nat s)%Z) by (apply Z.pow_pos_nonneg; lia).
    assert (Hpow32 : (2 ^ Z.of_nat (S s) <= 2 ^ 32)%Z) by (apply Z.pow_le_mono_r; lia).
    assert (Hdbl : (2 ^ Z.of_nat (S s) = 2 * 2 ^ Z.of_nat s)%Z).
    { rewrite Nat2Z.inj_succ, Z.pow_succ_r by lia. done. }
    assert (Hhigh : Z.testbit (Path q) (Z.of_nat s) = false).
    { rewrite <- (Z.mod_small (Path q) (2 ^ Z.of_nat s)) by lia.
      apply Z.mod_pow2_bits_high. lia. }
    destruct (Nat.even (i / 2 ^ s)) eqn:Hev.
    + assert (Hu : u32 (Path q + 2 ^ Z.of_nat s) = (Path q + 2 ^ Z.of_nat s)%Z).
      { unfold u32. apply Z.mod_small. lia. }
      rewrite Hu. split; [lia|]. intros j Hj. rewrite testbit_add_pow2 by lia.
      destruct (decide (j = s)) as [->|Hne].
      * by rewrite Z.eqb_refl.
      * rewrite (proj2 (Z.eqb_neq _ _)) by lia. apply Hbits. lia.
    + split; [lia|]. intros j Hj. destruct (decide (j = s)) as [->|Hne].
      * by rewrite Hhigh.
      * apply Hbits. lia.
Qed.

Section Streamed.
Context {B : Type} `{DataBlock B}.

(** In [ModeProofGenAndTreeBuild] the proofs are read off the tree. *)
Lemma New_proofAt rnd cfg (blocks : list B) m :
  New rnd cfg blocks = Returned (Some m) None ->
  modeOf cfg = ModeProofGenAndTreeBuild ->
  (Z.of_nat (length blocks) < 2 ^ 63)%Z ->
  length (Proofs m) = length blocks /\
  forall i, i < length blocks ->
    Proofs m !! i = proofAt (tree m) i (Z.to_nat (Depth m)) /\
    is_Some (proofAt (tree m) i (Z.to_nat (Depth m))).
Proof.
  intros Hnew Hmode Hbound.
  destruct (New_wellFormed rnd cfg blocks m Hnew (or_intror Hmode) Hbound)
    as (_ & _ & Hlen & [HlenT Htight _ _ _] & _).
  apply New_run in Hnew as (leaves & _ & Hll & _ & _ & Hrun).
  destruct Hrun as [[Hm _] | [[Hm _] | [_ (w5 & w6 & w & Etb & Einit & Eloop & <-)]]];
    [rewrite Hm in Hmode; discriminate .. |].
  assert (H5 : Leaves (mt w5) = leaves).
  { refine (keeps_treeBuild (fun m => Leaves m = leaves) rnd _ _ _ _ None w5 Etb eq_refl);
      done. }
  assert (H6 : tree (mt w6) = tree (mt w5) /\ Leaves (mt w6) = leaves).
  { refine (keeps_initProofs (fun m => tree m = tree (mt w5) /\ Leaves m = leaves)
              _ w5 tt w6 Einit _); done. }
  destruct H6 as [H6 H6l].
  assert (Hw : tree (mt w) = tree (mt w6) /\ Leaves (mt w) = leaves /\
               Depth (mt w) = Depth (mt w6)).
  { refine (keeps_streamLevels
              (fun m => tree m = tree (mt w6) /\ Leaves m = leaves /\ Depth m = Depth (mt w6))
              _ _ w6 tt w Eloop _); done. }
  destruct Hw as (Hwt & Hwl & Hwd).
  apply initProofs_Done in Einit as HP6. rewrite H5 in HP6.
  rewrite Hwl in Htight, Hlen. rewrite Hwt in HlenT, Htight |- *. rewrite <- HlenT in *.
  apply (streamLevels_proofAt (tree (mt w6)) (length leaves)) in Eloop
    as [HlenP Hall]; [ | done | done | done].
  rewrite <- Hlen. done.
Qed.

End Streamed.

(* ===================================================================== *)
(** ** Executions that do not panic *)

Lemma wp_Done {A} (c : M A) Q w :
  wp c Q w <-> exists a w', c w = Done a w' /\ Q a w'.
Proof.
  unfold wp. destruct (c w) as [a w'|why].
  - split; [eauto | by intros (? & ? & [= <- <-] & ?)].
  - split; [done | by intros (? & ? & ? & _)].
Qed.

Lemma wp_ret {A} (a : A) (Q : A -> World -> Prop) w : Q a w -> wp (ret a) Q w.
Proof. done. Qed.

Lemma wp_bind {A C} (c : M A) (k : A -> M C) (P : A -> World -> Prop) Q w :
  wp c P w -> (forall a w1, P a w1 -> wp (k a) Q w1) -> wp (bind c k) Q w.
Proof.
  unfold wp, bind. destruct (c w) as [a w1|why]; [|done]. intros HP Hk. by apply Hk.
Qed.

Lemma wp_bind_eq {A C} (c : M A) (k : A -> M C) a w1 Q w :
  c w = Done a w1 -> wp (k a) Q w1 -> wp (bind c k) Q w.
Proof. unfold wp, bind. by intros ->. Qed.

Lemma wp_mono {A} (c : M A) (P Q : A -> World -> Prop) w :
  wp c P w -> (forall a w', P a w' -> Q a w') -> wp c Q w.
Proof. unfold wp. destruct (c w); [|done]. intros HP HQ. by apply HQ. Qed.

(** What is known of the executions that end holds of one that does not
    panic. *)
Lemma wp_partial {A} (c : M A) (P Q : A -> World -> Prop) w :
  wp c P w -> (forall a w', c w = Done a w' -> Q a w') ->
  wp c (fun a w' => P a w' /\ Q a w') w.
Proof. unfold wp. destruct (c w); [|done]. intros HP HQ. split; [done | by apply HQ]. Qed.

Lemma index_run {A} (s : list A) i x w : s !! i = Some x -> index s i w = Done x w.
Proof. unfold index. by intros ->. Qed.

Lemma store_run {A} (s : list A) i x w :
  i < length s -> store s i x w = Done (<[i := x]> s) w.
Proof. unfold store. intros Hi. by rewrite decide_True. Qed.

Lemma callHash_run data h w :
  HashFunc (config (mt w)) = Some h -> callHash data w = Done (h data) w.
Proof. unfold callHash, bind, getTree. by intros ->. Qed.

Lemma level_run i lvl w : tree (mt w) !! i = Some lvl -> level i w = Done lvl w.
Proof. unfold level, bind, getTree. apply index_run. Qed.

Lemma treeAt_run i j lvl x w :
  tree (mt w) !! i = Some lvl -> lvl !! j = Some x -> treeAt i j w = Done x w.
Proof.
  intros Hl Hx. unfold treeAt, bind. rewrite (level_run _ _ _ Hl). by apply index_run.
Qed.

Lemma setLevel_run i lvl w :
  i < length (tree (mt w)) ->
  setLevel i lvl w = Done tt (mkWorld (with_tree (<[i := lvl]> (tree (mt w))) (mt w)) (draws w)).
Proof.
  intros Hi. unfold setLevel, bind, getTree. by rewrite (store_run _ _ _ _ Hi).
Qed.

Lemma setTreeAt_run i j x lvl w :
  tree (mt w) !! i = Some lvl -> j < length lvl ->
  setTreeAt i j x w =
  Done tt (mkWorld (with_tree (<[i := <[j := x]> lvl]> (tree (mt w))) (mt w)) (draws w)).
Proof.
  intros Hl Hj. unfold setTreeAt, bind. rewrite (level_run _ _ _ Hl), (store_run _ _ _ _ Hj).
  apply setLevel_run. by eapply lookup_lt_Some.
Qed.

Section LoopsRun.
Context {L : Type}.

Lemma wp_forM_seq (I : nat -> World -> Prop) (f : nat -> nat) body len :
  forall a w,
  I a w ->
  (forall j v, a <= j < a + len -> I j v -> wp (body (f j)) (fun _ v' => I (S j) v') v) ->
  wp (forM (f <$> seq a len) body) (fun _ v => I (a + len) v) w.
Proof.
  induction len as [|len IH]; intros a w H0 Hstep; cbn [seq fmap list_fmap forM].
  - apply wp_ret. by rewrite Nat.add_0_r.
  - eapply wp_bind; [apply Hstep; [lia | exact H0]|].
    intros [] w1 H1. cbn beta in H1.
    replace (a + S len) with (S a + len) by lia.
    apply IH; [done|]. intros j v Hj. apply Hstep. lia.
Qed.

Lemma wp_forE_seq (I : nat -> L -> World -> Prop) (R : L * option error -> World -> Prop)
    (f : nat -> nat) body len :
  forall a acc w,
  I a acc w ->
  (forall j x v, a <= j < a + len -> I j x v ->
     wp (body (f j) x)
        (fun r v' => match r.2 with None => I (S j) r.1 v' | Some _ => R r v' end) v) ->
  wp (forE (f <$> seq a len) body acc)
     (fun r v => match r.2 with None => I (a + len) r.1 v | Some _ => R r v end) w.
Proof.
  induction len as [|len IH]; intros a acc w H0 Hstep; cbn [seq fmap list_fmap forE].
  - apply wp_ret. cbn [fst snd]. by rewrite Nat.add_0_r.
  - eapply wp_bind; [apply Hstep; [lia | exact H0]|].
    intros [y [e|]] w1 H1; cbn [fst snd] in *.
    + apply wp_ret. done.
    + replace (a + S len) with (S a + len) by lia.
      apply IH; [done|]. intros j x v Hj. apply Hstep. lia.
Qed.

Lemma wp_forL_seq (I : nat -> L -> World -> Prop) body len :
  forall a acc w,
  I a acc w ->
  (forall j x v, a <= j < a + len -> I j x v ->
     wp (body j x) (fun y v' => I (S j) y v') v) ->
  wp (forL (seq a len) body acc) (fun y v => I (a + len) y v) w.
Proof.
  induction len as [|len IH]; intros a acc w H0 Hstep; cbn [seq forL].
  - apply wp_ret. by rewrite Nat.add_0_r.
  - eapply wp_bind; [apply Hstep; [lia | exact H0]|].
    intros y w1 H1. cbn beta in H1.
    replace (a + S len) with (S a + len) by lia.
    apply IH; [done|]. intros j x v Hj. apply Hstep. lia.
Qed.
End LoopsRun.

Lemma wp_forM_range (I : nat -> World -> Prop) body lo hi w :
  lo <= hi -> I lo w ->
  (forall j v, lo <= j < hi -> I j v -> wp (body j) (fun _ v' => I (S j) v') v) ->
  wp (forM (range lo hi) body) (fun _ v => I hi v) w.
Proof.
  intros Hle H0 Hstep. rewrite range_seq.
  eapply wp_mono; [apply (wp_forM_seq I id); [exact H0|]|].
  - intros j v Hj. apply Hstep. lia.
  - cbn beta. intros _ v Hv. by replace (lo + (hi - lo)) with hi in Hv by lia.
Qed.

Lemma wp_forM_evens (I : nat -> World -> Prop) body hi w :
  I 0 w ->
  (forall j v, j < Nat.div2 (hi + 1) -> I j v ->
     wp (body (2 * j)) (fun _ v' => I (S j) v') v) ->
  wp (forM (evens hi) body) (fun _ v => I (Nat.div2 (hi + 1)) v) w.
Proof.
  intros H0 Hstep. unfold evens.
  eapply wp_mono; [apply (wp_forM_seq I (fun k => 2 * k)); [exact H0|]|].
  - intros j v Hj. apply Hstep. lia.
  - cbn beta. intros _ v Hv. exact Hv.
Qed.

Lemma wp_forE_range {L} (I : nat -> L -> World -> Prop) R body lo hi acc w :
  lo <= hi -> I lo acc w ->
  (forall j x v, lo <= j < hi -> I j x v ->
     wp (body j x)
        (fun r v' => match r.2 with None => I (S j) r.1 v' | Some _ => R r v' end) v) ->
  wp (forE (range lo hi) body acc)
     (fun r v => match r.2 with None => I hi r.1 v | Some _ => R r v end) w.
Proof.
  intros Hle H0 Hstep. rewrite range_seq.
  eapply wp_mono; [apply (wp_forE_seq I R id); [exact H0|]|].
  - intros j x v Hj. apply Hstep. lia.
  - cbn beta. intros r v Hv. destruct r.2; [done|].
    by replace (lo + (hi - lo)) with hi in Hv by lia.
Qed.

Lemma wp_forE_evens {L} (I : nat -> L -> World -> Prop) R body hi acc w :
  I 0 acc w ->
  (forall j x v, j < Nat.div2 (hi + 1) -> I j x v ->
     wp (body (2 * j) x)
        (fun r v' => match r.2 with None => I (S j) r.1 v' | Some _ => R r v' end) v) ->
  wp (forE (evens hi) body acc)
     (fun r v => match r.2 with None => I (Nat.div2 (hi + 1)) r.1 v | Some _ => R r v end) w.
Proof.
  intros H0 Hstep. unfold evens.
  eapply wp_mono; [apply (wp_forE_seq I R (fun k => 2 * k)); [exact H0|]|].
  - intros j x v Hj. apply Hstep. lia.
  - cbn beta. intros r v Hv. exact Hv.
Qed.

Lemma wp_updProof n m i f v :
  shape n m v -> i < n -> wp (updProof i f) (fun _ v' => shape n m v') v.
Proof.
  intros [Hs Hn] Hi. unfold updProof.
  eapply wp_bind_eq; [reflexivity|].
  destruct (lookup_lt_is_Some_2 (Proofs (mt v)) i ltac:(lia)) as [p Hp].
  eapply wp_bind_eq; [by apply index_run|].
  unfold wp, modify. split; [exact Hs | cbn; by rewrite length_insert].
Qed.

Lemma wp_updatePairProof n m buf idx batch step v :
  shape n m v -> idx + 1 < length buf ->
  wp (updatePairProof buf idx batch step) (fun _ v' => shape n m v') v.
Proof.
  intros Hv Hidx. unfold updatePairProof.
  eapply wp_bind_eq; [reflexivity|].
  destruct (lookup_lt_is_Some_2 buf idx ltac:(lia)) as [a Ha].
  destruct (lookup_lt_is_Some_2 buf (idx + 1) ltac:(lia)) as [b Hb].
  assert (Hlen : length (Proofs (mt v)) = n) by apply Hv. rewrite Hlen.
  assert (Hloop : forall lo (body : nat -> M unit) u,
            shape n m u ->
            (forall j u', j < n -> shape n m u' -> wp (body j) (fun _ u'' => shape n m u'') u') ->
            wp (forM (range lo (min (lo + batch) n)) body) (fun _ u' => shape n m u') u).
  { intros lo body u Hu Hbody.
    destruct (decide (lo <= min (lo + batch) n)) as [Hle|Hgt].
    - apply (wp_forM_range (fun _ u' => shape n m u')); [done | done |].
      intros j u' Hj Hu'. apply Hbody; [|done]. unfold min in Hj. case_decide; lia.
    - unfold range. replace (min (lo + batch) n - lo) with 0 by lia. by apply wp_ret. }
  eapply wp_bind; [apply Hloop; [exact Hv|]|].
  - intros j u Hj Hu.
    eapply wp_bind; [by apply wp_updProof|]. intros [] u1 Hu1.
    eapply wp_bind_eq; [by apply index_run|]. by apply wp_updProof.
  - intros [] u Hu. cbn beta in Hu. apply Hloop; [done|].
    intros j u' Hj Hu'. eapply wp_bind_eq; [by apply index_run|]. by apply wp_updProof.
Qed.

Lemma wp_updateProofs n m buf bufLen step v :
  shape n m v -> 2 * Nat.div2 (bufLen + 1) <= length buf ->
  wp (updateProofs buf bufLen step) (fun _ v' => shape n m v') v.
Proof.
  intros Hv Hlen. unfold updateProofs.
  eapply wp_mono; [apply (wp_forM_evens (fun _ u => shape n m u)); [exact Hv|]|].
  - intros j u Hj Hu. apply wp_updatePairProof; [done | lia].
  - done.
Qed.

Lemma wp_fixOdd rnd buf q w :
  q <= length buf ->
  wp (fixOdd rnd buf q)
     (fun r w' => mt w' = mt w /\
        (r.2 = None ->
         Nat.even r.1.2 = true /\ q <= r.1.2 <= q + 1 /\ r.1.2 <= length r.1.1 /\
         (forall t, t < q -> r.1.1 !! t = buf !! t) /\
         (q = length buf -> r.1.2 = length r.1.1))) w.
Proof.
  intros Hq.
  assert (Hrun : wp (fixOdd rnd buf q) (fun _ _ => True) w).
  { unfold fixOdd. destruct (Nat.even q) eqn:Hev; [by apply wp_ret|].
    assert (1 <= q) by (destruct q; [discriminate | lia]).
    eapply wp_bind_eq; [reflexivity|].
    eapply (wp_bind _ _ (fun _ _ => True)).
    - destruct (NoDuplicates _).
      + unfold wp, getDummyHash. by destruct (rnd _).
      + destruct (lookup_lt_is_Some_2 buf (q - 1) ltac:(lia)) as [x Hx].
        eapply wp_bind_eq; [by apply index_run|]. by apply wp_ret.
    - intros [x [e|]] w1 _; cbn [fst snd]; [by apply wp_ret|].
      case_decide; [by apply wp_ret|].
      eapply wp_bind_eq; [apply store_run; lia|]. by apply wp_ret. }
  apply wp_Done in Hrun as ([[buf' q'] e] & w' & E & _).
  apply wp_Done. exists (buf', q', e), w'. split; [exact E|]. cbn [fst snd]. split.
  { eapply keeps_eq; [|exact E]. intros P. apply keeps_fixOdd. }
  intros ->. pose proof E as E'.
  apply fixOdd_prefix in E as (_ & Hev & Hle & Hlb & Hpre); [|done].
  split_and!; [done | lia | lia | done | done | ]. intros ->.
  apply fixOdd_Done in E' as (_ & _ & _ & Hl). by rewrite Hl.
Qed.

Lemma sameTree_config m m' : sameTree m m' -> config m = config m'.
Proof. intros Hs. exact (f_equal config Hs). Qed.

Lemma even_ge_2 p : Nat.even p = true -> 1 <= p -> 2 <= p.
Proof. intros He Hp. destruct p as [|[|p]]; [lia | discriminate | lia]. Qed.

Lemma fixed_covers n p : Nat.even p = true -> n <= p -> 2 * Nat.div2 (n + 1) <= p.
Proof.
  intros He Hn. destruct (decide (n = p)) as [->|Hne].
  - rewrite even_div2_succ by done. lia.
  - pose proof (even_halve p He) as Hp.
    assert (Nat.div2 (n + 1) <= p / 2); [|lia].
    rewrite Nat.div2_div. apply Nat.Div0.div_le_mono. lia.
Qed.

Lemma double_div k : 2 * k / 2 = k.
Proof. rewrite Nat.mul_comm. apply Nat.div_mul. lia. Qed.

(** The hashing loop of [proofGen] does not panic. *)
Lemma wp_proofGen_pairs p buf h w :
  HashFunc (config (mt w)) = Some h -> Nat.even p = true -> p <= length buf ->
  wp (forE (evens p) (fun idx buf =>
          a <- index buf idx ;;
          b <- index buf (idx + 1) ;;
          r <- callHash (a ++ b) ;;
          buf <- store buf (idx / 2) r.1 ;;
          ret (buf, r.2)) buf)
     (fun r v => v = w /\ (r.2 = None -> length r.1 = length buf)) w.
Proof.
  intros Hh Hev Hp.
  eapply wp_mono;
    [apply (wp_forE_evens (fun _ (cur : list bytes) v => v = w /\ length cur = length buf)
              (fun _ v => v = w)); [done|] | ].
  - intros k cur v Hk [-> Hlen]. rewrite even_div2_half in Hk by done.
    pose proof (even_halve p Hev) as Hhalf.
    destruct (lookup_lt_is_Some_2 cur (2 * k) ltac:(lia)) as [a Ha].
    destruct (lookup_lt_is_Some_2 cur (2 * k + 1) ltac:(lia)) as [b Hb].
    eapply wp_bind_eq; [by apply index_run|].
    eapply wp_bind_eq; [by apply index_run|].
    eapply wp_bind_eq; [by apply callHash_run|].
    eapply wp_bind_eq; [apply store_run; rewrite double_div; lia|].
    apply wp_ret. cbn [fst snd]. destruct (h (a ++ b)).2; [done|].
    split; [done|]. by rewrite length_insert.
  - cbn beta. intros [cur [e|]] v; cbn [fst snd]; [done|]. intros [-> Hl]. done.
Qed.

Lemma initProofs_run w :
  initProofs w =
  Done tt (mkWorld (with_Proofs (replicate (length (Leaves (mt w))) (mkProof [] 0%Z)) (mt w))
             (draws w)).
Proof. reflexivity. Qed.

(** [proofGen] does not panic on a tree with a hash function, a depth
    and a leaf. *)
Lemma wp_proofGen rnd w h :
  HashFunc (config (mt w)) = Some h ->
  (1 <= Depth (mt w))%Z -> 1 <= length (Leaves (mt w)) ->
  wp (proofGen rnd) (fun _ _ => True) w.
Proof.
  intros Hh HD Hn. unfold proofGen.
  eapply wp_bind_eq; [reflexivity|].
  set (L := Leaves (mt w)) in *. set (n := length L) in *.
  eapply wp_bind_eq; [apply initProofs_run|]. fold L n.
  set (w1 := {| mt := with_Proofs (replicate n {| Siblings := []; Path := 0 |}) (mt w);
                draws := draws w |}).
  assert (Hs1 : shape n (mt w1) w1) by (split; [done | cbn; by rewrite length_replicate]).
  assert (Hcfg : forall v, shape n (mt w1) v -> HashFunc (config (mt v)) = Some h).
  { intros v [Hv _]. by rewrite (sameTree_config _ _ Hv). }
  eapply wp_bind; [apply (wp_fixOdd rnd L n w1); lia|].
  intros [[buf p] [e|]] w2 [Hw2 Hfix]; cbn [fst snd] in *; [by apply wp_ret|].
  destruct (Hfix eq_refl) as (Hev & Hle & Hlb & _ & _).
  assert (Hs2 : shape n (mt w1) w2) by (unfold shape; by rewrite Hw2).
  eapply wp_bind; [apply (wp_updateProofs n (mt w1)); [exact Hs2|]|].
  { etrans; [apply (fixed_covers n p); [done | lia] | done]. }
  intros [] w3 Hs3. cbn beta in Hs3.
  eapply wp_bind.
  - apply (wp_forE_range
             (fun _ (acc : list bytes * nat) v =>
                shape n (mt w1) v /\ Nat.even acc.2 = true /\ 2 <= acc.2 /\
                acc.2 <= length acc.1)
             (fun _ _ => True)); [lia | | ].
    + cbn [fst snd]. split_and!; try done. apply even_ge_2; [done | lia].
    + intros s [b q] v Hs (Hv & Hevq & Hq2 & Hqb). cbn [fst snd] in *.
      pose proof (even_halve q Hevq) as Hhalf.
      eapply wp_bind; [apply (wp_proofGen_pairs q b h); [by apply Hcfg | done | done]|].
      intros [b1 [e|]] va [-> Hb1]; cbn [fst snd] in *; [by apply wp_ret|].
      specialize (Hb1 eq_refl).
      eapply wp_bind; [apply (wp_fixOdd rnd b1 (q / 2) v); lia|].
      intros [[b3 q3] [e|]] vb [Hvb Hfix3]; cbn [fst snd] in *; [by apply wp_ret|].
      destruct (Hfix3 eq_refl) as (Hev3 & Hle3 & Hlb3 & _ & _).
      assert (Hsb : shape n (mt w1) vb) by (unfold shape; by rewrite Hvb).
      eapply wp_bind; [apply (wp_updateProofs n (mt w1)); [exact Hsb|]|].
      { rewrite even_div2_succ by done. done. }
      intros [] vc Hsc. cbn beta in Hsc. apply wp_ret. cbn [fst snd].
      split_and!; try done. apply even_ge_2; [done | lia].
  - intros [[b q] [e|]] v; cbn [fst snd]; [intros _; by apply wp_ret|].
    intros (Hv & Hevq & Hq2 & Hqb).
    destruct (lookup_lt_is_Some_2 b 0 ltac:(lia)) as [x Hx].
    destruct (lookup_lt_is_Some_2 b 1 ltac:(lia)) as [y Hy].
    eapply wp_bind_eq; [by apply index_run|].
    eapply wp_bind_eq; [by apply index_run|].
    eapply wp_bind_eq; [apply callHash_run; by apply Hcfg|].
    eapply wp_bind_eq; [reflexivity|]. by apply wp_ret.
Qed.

(** The pair loop of [treeBuild] does not panic. *)
Lemma wp_treeBuild_pairs i p lo l1 h w :
  HashFunc (config (mt w)) = Some h ->
  tree (mt w) !! i = Some lo -> length lo = p -> Nat.even p = true ->
  tree (mt w) !! (i + 1) = Some l1 -> length l1 = p / 2 ->
  wp (forE (evens p) (fun j (_ : unit) =>
          a <- treeAt i j ;;
          b <- treeAt i (j + 1) ;;
          if bytesEqual a b then
            setTreeAt (i + 1) (j / 2) a ;; ret (tt, None)
          else
            m <- getTree ;;
            r <- (if SortPairs (config m) then
                    if bytesLess a b then callHash (a ++ b)
                    else callHash (b ++ a)
                  else callHash (a ++ b)) ;;
            setTreeAt (i + 1) (j / 2) r.1 ;;
            ret (tt, r.2)) tt)
     (fun r v =>
        r.2 = None ->
        HashFunc (config (mt v)) = Some h /\ length (tree (mt v)) = length (tree (mt w)) /\
        exists l, tree (mt v) !! (i + 1) = Some l /\ length l = p / 2) w.
Proof.
  intros Hh Hlo Hp Hev Hl1 Hlen1.
  eapply wp_mono;
    [apply (wp_forE_evens
              (fun _ (_ : unit) v =>
                 HashFunc (config (mt v)) = Some h /\ tree (mt v) !! i = Some lo /\
                 length (tree (mt v)) = length (tree (mt w)) /\
                 exists l, tree (mt v) !! (i + 1) = Some l /\ length l = p / 2)
              (fun _ _ => True)); [by eauto 10|] | ].
  2:{ cbn beta. intros [u [e|]] v; cbn [fst snd]; [done|]. intros (? & ? & ? & ?) _. done. }
  intros k [] v Hk (Hhv & Hlov & HlenT & l & Hl & Hlen). rewrite even_div2_half in Hk by done.
  pose proof (even_halve p Hev) as Hhalf.
  destruct (lookup_lt_is_Some_2 lo (2 * k) ltac:(lia)) as [a Ha].
  destruct (lookup_lt_is_Some_2 lo (2 * k + 1) ltac:(lia)) as [b Hb].
  eapply wp_bind_eq; [by eapply treeAt_run|].
  eapply wp_bind_eq; [by eapply treeAt_run|].
  assert (Hset : forall x (e : option error) u,
            HashFunc (config (mt u)) = Some h -> tree (mt u) !! i = Some lo ->
            tree (mt u) !! (i + 1) = Some l ->
            wp (setTreeAt (i + 1) (2 * k / 2) x ;; ret (tt, e))
               (fun r v' =>
                  match r.2 with
                  | None => HashFunc (config (mt v')) = Some h /\ tree (mt v') !! i = Some lo /\
                            length (tree (mt v')) = length (tree (mt u)) /\
                            exists l', tree (mt v') !! (i + 1) = Some l' /\ length l' = p / 2
                  | Some _ => True
                  end) u).
  { intros x e u Hhu Hlou Hlu. rewrite double_div.
    eapply wp_bind_eq; [apply (setTreeAt_run _ _ _ l); [done | lia]|].
    apply wp_ret. cbn [fst snd]. destruct e; [done|].
    cbn [mt tree config with_tree]. split_and!; [done | | by rewrite length_insert |].
    - by rewrite list_lookup_insert_ne by lia.
    - eexists. split; [apply list_lookup_insert_eq; by eapply lookup_lt_Some|].
      by rewrite length_insert. }
  assert (Hset' : forall x (e : option error),
            wp (setTreeAt (i + 1) (2 * k / 2) x ;; ret (tt, e))
               (fun r v' =>
                  match r.2 with
                  | None => HashFunc (config (mt v')) = Some h /\ tree (mt v') !! i = Some lo /\
                            length (tree (mt v')) = length (tree (mt w)) /\
                            exists l', tree (mt v') !! (i + 1) = Some l' /\ length l' = p / 2
                  | Some _ => True
                  end) v).
  { intros x e. eapply wp_mono; [by apply Hset|]. cbn beta.
    intros r v' Hr. destruct r.2; [done|]. by rewrite <- HlenT. }
  destruct (bytesEqual a b); [by apply Hset'|].
  eapply wp_bind_eq; [reflexivity|].
  destruct (SortPairs _); [destruct (bytesLess a b)|];
    (eapply wp_bind_eq; [by apply callHash_run|]); by apply Hset'.
Qed.

(** [treeBuild] does not panic on a tree with a hash function, a depth
    and a leaf. *)
Lemma wp_treeBuild rnd w h :
  HashFunc (config (mt w)) = Some h ->
  (1 <= Depth (mt w) < 2 ^ 32)%Z -> 1 <= length (Leaves (mt w)) ->
  wp (treeBuild rnd) (fun _ _ => True) w.
Proof.
  intros Hh HD Hn. unfold treeBuild.
  eapply wp_bind_eq; [reflexivity|].
  set (L := Leaves (mt w)) in *. set (n := length L) in *.
  set (D := Z.to_nat (Depth (mt w))) in *.
  assert (HD1 : 1 <= D) by lia.
  rewrite (u32_pred _ HD). fold D.
  eapply wp_bind.
  { apply (wp_forM_range
             (fun _ v => with_leafMap ∅ (mt v) = with_leafMap ∅ (mt w)));
      [lia | done |].
    intros j v Hj Hv. eapply wp_bind_eq; [reflexivity|].
    destruct (lookup_lt_is_Some_2 L j ltac:(lia)) as [l Hl].
    assert (HL : Leaves (mt v) = L) by exact (f_equal Leaves Hv).
    eapply wp_bind_eq; [apply index_run; by rewrite HL|].
    unfold wp, modify. exact Hv. }
  intros [] w1 Hw1. cbn beta in Hw1.
  assert (Hh1 : HashFunc (config (mt w1)) = Some h).
  { by rewrite (f_equal config Hw1 : config (mt w1) = config (mt w)). }
  eapply wp_bind_eq; [reflexivity|].
  eapply wp_bind_eq; [apply setLevel_run; cbn; rewrite length_replicate; lia|].
  cbn [mt draws tree with_tree].
  eapply wp_bind_eq.
  { apply level_run. cbn. apply list_lookup_insert_eq. rewrite length_replicate. lia. }
  eapply wp_bind; [apply (wp_fixOdd rnd L n); lia|].
  intros [[lvl p] err] w2 [Hw2 Hfix]; cbn [fst snd] in *.
  eapply wp_bind_eq.
  { apply setLevel_run. rewrite Hw2. cbn. rewrite length_insert, length_replicate. lia. }
  rewrite Hw2. cbn [mt draws tree with_tree]. rewrite list_insert_insert_eq.
  destruct err as [e|]; [by apply wp_ret|].
  destruct (Hfix eq_refl) as (Hev & Hle & _ & _ & Hlen). specialize (Hlen eq_refl).
  eapply wp_bind.
  - apply (wp_forE_range
             (fun i (q : nat) v =>
                HashFunc (config (mt v)) = Some h /\ length (tree (mt v)) = D /\
                Nat.even q = true /\ 2 <= q /\
                exists l, tree (mt v) !! i = Some l /\ length l = q)
             (fun _ _ => True)); [lia | | ].
    + cbn [mt tree config with_tree]. split_and!; [done | | done | | ].
      * by rewrite length_insert, length_replicate.
      * apply even_ge_2; [done | lia].
      * exists lvl. split; [|done]. apply list_lookup_insert_eq. rewrite length_replicate. lia.
    + intros i q v Hi (Hhv & HlenT & Hevq & Hq2 & l & Hl & Hlq).
      pose proof (even_halve q Hevq) as Hhalf.
      eapply wp_bind_eq; [apply setLevel_run; lia|].
      eapply wp_bind.
      { apply (wp_treeBuild_pairs i q l (replicate (q / 2) []) h); cbn [mt tree config with_tree];
          [done | by rewrite list_lookup_insert_ne by lia | done | done
          | apply list_lookup_insert_eq; lia | by rewrite length_replicate]. }
      intros [u [e|]] va Hva; cbn [fst snd] in *; [by apply wp_ret|].
      destruct (Hva eq_refl) as (Hha & Hlena & l1 & Hl1 & Hlen1).
      cbn [mt tree with_tree] in Hlena. rewrite length_insert in Hlena.
      eapply wp_bind_eq; [by apply level_run|].
      eapply wp_bind; [apply (wp_fixOdd rnd l1 (length l1)); lia|].
      intros [[l2 q2] err] vb [Hvb Hfix2]; cbn [fst snd] in *.
      eapply wp_bind_eq; [apply setLevel_run; rewrite Hvb; lia|].
      apply wp_ret. cbn [fst snd]. destruct err as [e|]; [done|].
      destruct (Hfix2 eq_refl) as (Hev2 & Hle2 & _ & _ & Hlen2). specialize (Hlen2 eq_refl).
      rewrite Hvb. cbn [mt tree config with_tree].
      split_and!; [done | by rewrite length_insert; lia | done | | ].
      * apply even_ge_2; [done | lia].
      * exists l2. split; [|done]. replace (S i) with (i + 1) by lia.
        apply list_lookup_insert_eq. lia.
  - intros [q [e|]] v; cbn [fst snd]; [intros _; by apply wp_ret|].
    intros (Hhv & HlenT & Hevq & Hq2 & l & Hl & Hlq).
    destruct (lookup_lt_is_Some_2 l 0 ltac:(lia)) as [x Hx].
    destruct (lookup_lt_is_Some_2 l 1 ltac:(lia)) as [y Hy].
    eapply wp_bind_eq; [by eapply treeAt_run|].
    eapply wp_bind_eq; [by eapply treeAt_run|].
    eapply wp_bind_eq; [by apply callHash_run|].
    eapply wp_bind_eq; [reflexivity|]. by apply wp_ret.
Qed.

(** The loop over the levels does not panic when they have even
    lengths. *)
Lemma wp_streamLevels t w :
  tree (mt w) = t ->
  (forall j lvl, t !! j = Some lvl -> Nat.even (length lvl) = true) ->
  wp (streamLevels (length t)) (fun _ _ => True) w.
Proof.
  intros Ht Heven. unfold streamLevels.
  eapply wp_mono;
    [apply (wp_forM_range (fun _ v => shape (length (Proofs (mt w))) (mt w) v));
     [lia | done | ] | done].
  intros s v Hs Hv.
  assert (Htv : tree (mt v) = t).
  { rewrite <- Ht. exact (f_equal tree (proj1 Hv)). }
  destruct (lookup_lt_is_Some_2 t s ltac:(lia)) as [lvl Hlvl].
  eapply wp_bind_eq; [apply level_run; by rewrite Htv|].
  apply wp_updateProofs; [done|].
  rewrite even_div2_succ by (by eapply Heven). done.
Qed.

Section NoPanic.
Context {B : Type} `{DataBlock B}.

(** The construction run by [New] does not panic. *)
Lemma wp_buildTree rnd cfg (blocks : list B) :
  2 <= length blocks -> (Z.of_nat (length blocks) < 2 ^ 63)%Z ->
  wp (buildTree rnd blocks) (fun _ _ => True) (mkWorld (newTree (normalize cfg)) 0).
Proof.
  intros Hlen Hbound. unfold buildTree.
  set (c := normalize cfg). set (d := calTreeDepth (Z.of_nat (length blocks))).
  pose proof (calTreeDepth_range (Z.of_nat (length blocks)) ltac:(lia)) as Hd. fold d in Hd.
  eapply wp_bind_eq; [reflexivity|]. cbn [mt draws].
  destruct (leafGen_Done blocks {| mt := with_Depth d (newTree c); draws := 0 |})
    as (leaves & e & Eleaf & Hll & _).
  eapply wp_bind_eq; [exact Eleaf|].
  eapply wp_bind_eq; [reflexivity|]. cbn [mt draws].
  destruct e as [e|]; [by apply wp_ret|]. specialize (Hll eq_refl).
  eapply wp_bind_eq; [reflexivity|].
  set (w0 := {| mt := with_Leaves leaves (with_Depth d (newTree c)); draws := 0 |}).
  change (config (mt w0)) with c.
  assert (Hh : HashFunc (config (mt w0)) = Some (hashOf cfg)) by apply normalize_hashOf.
  assert (Hn : 1 <= length (Leaves (mt w0))) by (cbn; lia).
  assert (HD : (1 <= Depth (mt w0) < 2 ^ 32)%Z) by done.
  destruct (Mode c =? ModeProofGen)%Z.
  { eapply wp_bind; [apply (wp_proofGen rnd w0 _ Hh); [lia | done]|].
    intros err w1 _. by apply wp_ret. }
  destruct (Mode c =? ModeTreeBuild)%Z.
  { eapply wp_bind; [apply (wp_treeBuild rnd w0 _ Hh HD Hn)|].
    intros err w1 _. by apply wp_ret. }
  destruct (Mode c =? ModeProofGenAndTreeBuild)%Z; [|by apply wp_ret].
  eapply wp_bind.
  { apply (wp_partial _ _ (fun err w5 =>
             err = None -> length (tree (mt w5)) = Z.to_nat (Depth (mt w0)) /\
                           levelsTight (length (Leaves (mt w0))) (tree (mt w5))
                             (Z.to_nat (Depth (mt w0))))
             _ (wp_treeBuild rnd w0 _ Hh HD Hn)).
    intros err w5 Etb ->.
    apply (treeBuild_structure rnd w0 w5 (hashOf cfg)) in Etb as (H1 & H2 & _); done. }
  intros [e|] w5 [_ Hw5]; [by apply wp_ret|]. destruct (Hw5 eq_refl) as [HlenT Htight].
  eapply wp_bind_eq; [apply initProofs_run|].
  eapply wp_bind_eq; [reflexivity|]. cbn [mt draws tree with_Proofs].
  eapply wp_bind; [apply (wp_streamLevels (tree (mt w5))); [done|]|].
  - intros j lvl Hlvl. apply (Htight j lvl); [|done].
    apply lookup_lt_Some in Hlvl. lia.
  - intros [] w6 _. by apply wp_ret.
Qed.

End NoPanic.

Section Walk.
Context {B : Type} `{DataBlock B}.

(** [GenerateProof] does not panic on a well-formed tree whose leaf
    index points into the leaves. *)
Lemma wp_GenerateProof sp h m (b : B) :
  HashFunc (config m) = Some h -> wellFormed sp h m ->
  (forall l i, leafMap m !! l = Some i -> i < length (Leaves m)) ->
  wp (GenerateProof b) (fun _ _ => True) (mkWorld m 0).
Proof.
  intros Hh [HlenT Htight _ _ _] Hmap. unfold GenerateProof.
  eapply wp_bind_eq; [reflexivity|]. cbn [mt].
  destruct (negb _ && negb _); [by apply wp_ret|].
  destruct (Serialize b) as [blockByte [e|]]; [by apply wp_ret|].
  eapply wp_bind_eq; [by apply callHash_run|].
  destruct (h blockByte) as [blockHash [e|]]; [by apply wp_ret|].
  destruct (leafMap m !! blockHash) as [idx|] eqn:Hidx; [|by apply wp_ret].
  apply Hmap in Hidx.
  set (D := Z.to_nat (Depth m)) in *. set (w := {| mt := m; draws := 0 |}).
  eapply wp_bind.
  - unfold range. rewrite Nat.sub_0_r.
    apply (wp_forL_seq
             (fun s (acc : nat * Z * list bytes) v =>
                v = w /\ acc.1.1 = idx / 2 ^ s /\ length acc.2 = D)).
    + cbn [fst snd]. by rewrite Nat.div_1_r, length_replicate.
    + intros s [[cur path] sibs] v Hs (-> & Hcur & Hsibs). cbn [fst snd] in *.
      destruct (lookup_lt_is_Some_2 (tree m) s ltac:(lia)) as [lvl Hlvl].
      destruct (Htight s lvl ltac:(lia) Hlvl) as (Hev & Hcov & _).
      assert (Hlt : cur < length lvl).
      { subst cur. apply Nat.Div0.div_lt_upper_bound. lia. }
      pose proof (even_halve _ Hev) as Hhalf.
      assert (Hpost : forall (p : Z) k x,
                lvl !! k = Some x ->
                wp (x <- treeAt s k ;; siblings <- store sibs s x ;; ret (cur / 2, p, siblings))
                   (fun y v' => v' = w /\ y.1.1 = idx / 2 ^ S s /\ length y.2 = D) w).
      { intros p k x Hx. eapply wp_bind_eq; [by eapply treeAt_run|].
        eapply wp_bind_eq; [apply store_run; lia|]. apply wp_ret. cbn [fst snd].
        split_and!; [done | by rewrite div_pow_succ, Hcur | by rewrite length_insert]. }
      destruct (Nat.odd cur) eqn:Hodd.
      * destruct (lookup_lt_is_Some_2 lvl (cur - 1) ltac:(lia)) as [x Hx]. by eapply Hpost.
      * assert (Hevc : Nat.even cur = true) by (by rewrite <- Nat.negb_odd, Hodd).
        pose proof (even_halve _ Hevc).
        destruct (lookup_lt_is_Some_2 lvl (cur + 1) ltac:(lia)) as [x Hx]. by eapply Hpost.
  - intros [[cur path] sibs] v _. by apply wp_ret.
Qed.

End Walk.

(* ===================================================================== *)
(** ** Errors, and what [Verify] and [GenerateProof] return *)

Lemma fixOdd_dummy rnd buf buf' p' w w' :
  fixOdd rnd buf (length buf) w = Done (buf', p', None) w' ->
  NoDuplicates (config (mt w)) = true ->
  forall x, buf' = buf ++ [x] -> length x = defaultHashLen.
Proof.
  unfold fixOdd. intros E Hnd x Hx. destruct (Nat.even (length buf)) eqn:Hev.
  - apply ret_Done in E as [[= -> ->] _].
    apply (f_equal length) in Hx. rewrite length_app in Hx. simpl in Hx. lia.
  - apply bind_Done in E as (m & w0 & E0 & E). apply getTree_Done in E0 as [-> ->].
    rewrite Hnd in E.
    apply bind_Done in E as ([z [e|]] & w1 & E1 & E); cbn [fst snd] in E;
      [apply ret_Done in E as [? _]; discriminate|].
    rewrite decide_True in E by lia. apply ret_Done in E as [[= -> ->] _].
    apply app_inj_tail in Hx as [_ ->].
    unfold getDummyHash in E1. destruct (rnd (draws w)) as [b|e]; [|discriminate].
    injection E1 as <- _. apply length_resize.
Qed.

Section Returned.
Context {B : Type} `{DataBlock B}.

Lemma verifyLoop_error h root siblings acc path e :
  (verifyLoop h root siblings acc path).2 = Some e ->
  (verifyLoop h root siblings acc path).1 = false.
Proof.
  revert acc path. induction siblings as [|n rest IH]; intros acc path; cbn [verifyLoop].
  - discriminate.
  - destruct (Z.land path 1 =? 1)%Z.
    + destruct (h (acc ++ n)) as [y [e'|]]; [done | apply IH].
    + destruct (h (n ++ acc)) as [y [e'|]]; [done | apply IH].
Qed.

Lemma verifyLoop_ext h root siblings acc p q :
  (forall t, (0 <= t < Z.of_nat (length siblings))%Z -> Z.testbit p t = Z.testbit q t) ->
  verifyLoop h root siblings acc p = verifyLoop h root siblings acc q.
Proof.
  revert acc p q. induction siblings as [|n rest IH]; intros acc p q Hbits; [done|].
  cbn [verifyLoop]. rewrite !land_one_testbit.
  rewrite (Hbits 0%Z) by (cbn [length]; lia).
  assert (Hrest : forall y, verifyLoop h root rest y (Z.shiftr p 1)
                            = verifyLoop h root rest y (Z.shiftr q 1)).
  { intros y. apply IH. intros t Ht. rewrite !Z.shiftr_spec by lia.
    apply Hbits. cbn [length]. lia. }
  destruct (Z.testbit q 0).
  - destruct (h (acc ++ n)) as [y [e|]]; [done | apply Hrest].
  - destruct (h (n ++ acc)) as [y [e|]]; [done | apply Hrest].
Qed.

Lemma Verify_unfold (b : B) p root h :
  Verify (Some b) (Some p) root (Some h) =
  match Serialize b with
  | (_, Some e) => (false, Some e)
  | (data, None) =>
      match h data with
      | (_, Some e) => (false, Some e)
      | (hash, None) => verifyLoop h root (Siblings p) hash (Path p)
      end
  end.
Proof.
  unfold Verify. destruct (Serialize b) as [data [e|]]; [done|].
  by destruct (h data) as [hash [e|]].
Qed.

(** What [GenerateProof] returns when it returns a proof. *)
Lemma GenerateProof_spec m (b : B) h p :
  HashFunc (config m) = Some h ->
  generateProofOn m b = Some (Some p, None) ->
  (Mode (config m) = ModeTreeBuild \/ Mode (config m) = ModeProofGenAndTreeBuild) /\
  serializes b /\ (h (serialized b)).2 = None /\
  exists idx, leafMap m !! (h (serialized b)).1 = Some idx /\
              proofAt (tree m) idx (Z.to_nat (Depth m)) = Some p.
Proof.
  intros Hh. unfold generateProofOn.
  destruct (GenerateProof b _) as [r w'|] eqn:E; [|discriminate]. intros [= ->].
  unfold GenerateProof in E.
  apply bind_Done in E as (m0 & w0 & E0 & E). apply getTree_Done in E0 as [-> ->].
  cbn [mt] in E.
  destruct (Z.eqb_spec (Mode (config m)) ModeTreeBuild) as [Hm1|Hm1];
    destruct (Z.eqb_spec (Mode (config m)) ModeProofGenAndTreeBuild) as [Hm2|Hm2];
    cbn [negb andb] in E;
    try (apply ret_Done in E as [? _]; discriminate).
  all: unfold serializes, serialized;
    destruct (Serialize b) as [blockByte [e|]];
      [apply ret_Done in E as [? _]; discriminate|];
    apply bind_Done in E as (r & w1 & Er & E);
    apply (callHash_value _ _ _ _ h) in Er as [-> ->]; [|done];
    cbn [fst snd];
    destruct (h blockByte) as [blockHash [e|]];
      [apply ret_Done in E as [? _]; discriminate|];
    cbn [fst snd];
    destruct (leafMap m !! blockHash) as [idx|] eqn:Hidx;
      [|apply ret_Done in E as [? _]; discriminate];
    apply bind_Done in E as ([[cur path] sibs] & w2 & Ew & E);
    apply ret_Done in E as [[= ->] _];
    apply GenerateProof_walk in Ew as [_ Hp]; cbn [fst snd mt] in Hp;
    split_and!; eauto.
Qed.

End Returned.

(* ===================================================================== *)
(** ** The reference construction *)





(* ===================================================================== *)
(** ** Climbing a built tree *)

Lemma proofAt_succ t i s p' :
  proofAt t i (S s) = Some p' ->
  exists p lvl, proofAt t i s = Some p /\ t !! s = Some lvl /\ stepBy lvl s i p p'.
Proof.
  cbn [proofAt]. destruct (proofAt t i s) as [p|]; [|done].
  destruct (t !! s) as [lvl|]; [|done].
  destruct (lvl !! _) as [x|] eqn:Hx; [|done]. intros [= <-].
  exists p, lvl. split_and!; [done | done |]. apply stepBy_neighbour. eauto.
Qed.

(** The pair of a node and its neighbour, left node first. *)
Lemma pair_of_neighbour (lvl : list bytes) k x y :
  lvl !! k = Some x -> lvl !! neighbour k = Some y ->
  exists a b, lvl !! (2 * (k / 2)) = Some a /\ lvl !! (2 * (k / 2) + 1) = Some b /\
              (a = x /\ b = y \/ a = y /\ b = x).
Proof.
  unfold neighbour. intros Hx Hy. destruct (Nat.even k) eqn:Hk.
  - pose proof (even_halve k Hk) as Hh. rewrite <- Hh. eauto 10.
  - destruct (odd_pred_double k Hk) as [H1 H2]. rewrite H2, H1. eauto 10.
Qed.

(** On a well-formed tree without sorted pairs, the proof read off the
    tree climbs from its leaf to the node above it at every level, and to
    the root at the end, when no node on the way is identical to its
    neighbour. *)
Lemma proofAt_climbs h m i l :
  wellFormed false h m -> (1 <= Depth m <= 32)%Z ->
  Leaves m !! i = Some l -> distinctOnPath m i ->
  forall s p, proofAt (tree m) i s = Some p ->
    (s < Z.to_nat (Depth m) ->
     exists lvl node, tree m !! s = Some lvl /\ lvl !! (i / 2 ^ s) = Some node /\
                      climb h (Siblings p) l (Path p) = Some node) /\
    (s = Z.to_nat (Depth m) -> climb h (Siblings p) l (Path p) = Some (Root m)).
Proof.
  intros [HlenT Htight Hlink (pad & H0 & _) (ta & tb & Htop & Hroot)] HD Hl Hdist.
  set (D := Z.to_nat (Depth m)) in *.
  induction s as [|s IH]; intros p Hp.
  - injection Hp as <-. cbn [Siblings Path climb]. split; [|lia]. intros _.
    exists (Leaves m ++ pad), l. split_and!; [done | | done].
    rewrite Nat.pow_0_r, Nat.div_1_r. by apply lookup_app_l_Some.
  - apply proofAt_succ in Hp as (q & lvl & Hq & Hlvl & Hst).
    apply lookup_lt_Some in Hlvl as HsD. rewrite HlenT in HsD.
    destruct (IH q Hq) as [Hnode _].
    destruct (Hnode HsD) as (lvl' & node & Hlvl' & Hn & Hclimb).
    rewrite Hlvl in Hlvl'. injection Hlvl' as <-.
    pose proof (proofAt_length _ _ _ _ Hq) as Hqlen.
    destruct (proofAt_path (tree m) i s q ltac:(lia) Hq) as [Hqpath _].
    pose proof Hst as Hst'. apply stepBy_neighbour in Hst' as (y & Hy & _).
    destruct (pair_of_neighbour lvl _ node y Hn Hy) as (a & b & Ha & Hb & Hab).
    rewrite <- div_pow_succ in Ha, Hb.
    destruct (climb_stepBy h lvl s i l q p node ltac:(lia) (conj Hqlen Hqpath) Hclimb Hn Hst)
      as [_ Hup].
    split.
    + intros HsD'.
      destruct (lookup_lt_is_Some_2 (tree m) (S s) ltac:(lia)) as [up Hup'].
      destruct (Hlink s lvl up ltac:(lia) Hlvl Hup' (i / 2 ^ S s) a b Ha Hb)
        as (x & Hx & Hxup).
      exists up, x. split_and!; [done | done |].
      apply (Hup a b x Ha Hb).
      assert (Hne : a <> b).
      { assert (node <> y) by (apply (Hdist s lvl); [lia | done | done | done]).
        destruct Hab as [[-> ->] | [-> ->]]; congruence. }
      unfold pairNode, bytesEqual in Hx. rewrite bool_decide_eq_false_2 in Hx by done.
      exact Hx.
    + intros HsD'. assert (s = D - 1) as -> by lia.
      rewrite Htop in Hlvl. injection Hlvl as <-.
      apply lookup_lt_Some in Ha as Hlt. cbn [length] in Hlt.
      assert (H0' : i / 2 ^ S (D - 1) = 0) by lia.
      pose proof Ha as Ha0. pose proof Hb as Hb0. rewrite H0' in Ha0, Hb0.
      injection Ha0 as <-. injection Hb0 as <-. exact (Hup ta tb (Root m) Ha Hb Hroot).
Qed.

(* ===================================================================== *)
(** ** Slices in memory: the bytes of the nodes

    While no slice has spare capacity no [append] writes into an array
    that is in use, the memory only grows, and the methods on slices
    compute on the bytes of their slices what the methods on bytes
    compute. *)

(** *** Memory *)

Lemma read_extends m m' s :
  Heap.valid m s -> m `prefix_of` m' -> Heap.read m' s = Heap.read m s.
Proof.
  intros Hv [k ->]. destruct s as [|p l c]; [done|]. simpl in *.
  rewrite drop_app_le by lia. rewrite take_app_le; [done|]. rewrite length_drop. lia.
Qed.

Lemma valid_extends m m' s :
  Heap.valid m s -> m `prefix_of` m' -> Heap.valid m' s.
Proof.
  intros Hv Hp. apply prefix_length in Hp. destruct s; [done|]. simpl in *. lia.
Qed.

Lemma good_extends m m' s :
  Heap.good m s -> m `prefix_of` m' -> Heap.good m' s.
Proof. intros [Hv Ht] Hp. split; [by eapply valid_extends | done]. Qed.

Lemma alloc_read m data :
  Heap.read (Heap.alloc m data).2 (Heap.alloc m data).1 = data.
Proof.
  unfold Heap.alloc. simpl. rewrite drop_app_length. by rewrite take_ge.
Qed.

Lemma alloc_good m data :
  data <> [] -> Heap.good (Heap.alloc m data).2 (Heap.alloc m data).1.
Proof.
  intros Hne. unfold Heap.alloc, Heap.good. simpl. rewrite length_app.
  destruct data; [done|]. simpl. lia.
Qed.

Lemma alloc_extends m data : m `prefix_of` (Heap.alloc m data).2.
Proof. by apply prefix_app_r. Qed.

Lemma good_empty m s : Heap.good m s -> Heap.read m s = [] -> s = Heap.nilSlice.
Proof.
  intros [Hv Ht] Hr. destruct s as [|p l c]; [done|]. simpl in *.
  apply (f_equal length) in Hr. rewrite length_take, length_drop in Hr. simpl in Hr. lia.
Qed.

Lemma good_length m s : Heap.good m s -> length (Heap.read m s) = Heap.len s.
Proof.
  intros [Hv Ht]. destruct s as [|p l c]; [done|]. simpl in *.
  rewrite length_take, length_drop. lia.
Qed.

(** [append] on slices without spare capacity: the result is the first
    operand when nothing is added, and is allocated otherwise; the memory
    in use is not written. *)
Lemma appendAt_good m x y :
  Heap.good m x -> Heap.good m y ->
  m `prefix_of` (Heap.appendAt m x y).2 /\
  Heap.good (Heap.appendAt m x y).2 (Heap.appendAt m x y).1 /\
  Heap.read (Heap.appendAt m x y).2 (Heap.appendAt m x y).1 = Heap.read m x ++ Heap.read m y.
Proof.
  intros Hx Hy. unfold Heap.appendAt.
  destruct x as [|p l c].
  - destruct (Heap.read m y) as [|b bs] eqn:Ey; [done|].
    split_and!; [apply alloc_extends | by apply alloc_good | apply alloc_read].
  - pose proof (good_length _ _ Hx) as Hlx. destruct Hx as [Hv [-> Hpos]]. simpl in Hv, Hlx.
    destruct (decide (l + length (Heap.read m y) <= l)) as [Hfit|Hno].
    + assert (Ey : Heap.read m y = []) by (apply length_zero_iff_nil; lia).
      rewrite Ey. simpl. rewrite Nat.add_0_r. unfold Heap.write. simpl.
      rewrite Nat.add_0_r, take_drop, app_nil_r.
      split_and!; [done | split; simpl; lia | done].
    + split_and!; [apply alloc_extends | apply alloc_good | apply alloc_read].
      intros E. apply (f_equal length) in E. rewrite length_app in E.
      simpl in E, Hlx. lia.
Qed.

(** [reflect.DeepEqual] on such slices compares their bytes. *)
Lemma deepEqualAt_good m x y :
  Heap.good m x -> Heap.good m y ->
  Heap.deepEqualAt m x y = bytesEqual (Heap.read m x) (Heap.read m y).
Proof.
  intros Hx Hy. unfold Heap.deepEqualAt, bytesEqual.
  destruct x as [|p l c], y as [|p' l' c']; try done.
  - symmetry. apply bool_decide_eq_false. intros E. symmetry in E.
    by apply (good_empty _ _ Hy) in E.
  - symmetry. apply bool_decide_eq_false. intros E.
    by apply (good_empty _ _ Hx) in E.
Qed.

(** *** The relation is kept when memory is allocated *)

#[global] Instance stable_slice : Stable Heap.slice bytes.
Proof.
  intros m m' s a Hp [Hg <-]. split; [by eapply good_extends|].
  apply read_extends; [apply Hg | done].
Qed.

#[global] Instance stable_unit : Stable unit unit.
Proof. by intros m m' x a Hp Hr. Qed.
#[global] Instance stable_nat : Stable nat nat.
Proof. by intros m m' x a Hp Hr. Qed.
#[global] Instance stable_bool : Stable bool bool.
Proof. by intros m m' x a Hp Hr. Qed.
#[global] Instance stable_Z : Stable Z Z.
Proof. by intros m m' x a Hp Hr. Qed.
#[global] Instance stable_error : Stable (option error) (option error).
Proof. by intros m m' x a Hp Hr. Qed.

#[global] Instance stable_list {AH A} `{Stable AH A} : Stable (list AH) (list A).
Proof.
  intros m m' x a Hp HF. eapply Forall2_impl; [exact HF|].
  intros ? ?. by apply rel_stable.
Qed.

#[global] Instance stable_prod {AH A CH C} `{Stable AH A} `{Stable CH C} :
  Stable (AH * CH) (A * C).
Proof. intros m m' x a Hp [Ha Hb]. split; by eapply rel_stable. Qed.

#[global] Instance stable_Proof : Stable Heap.Proof Proof.
Proof. intros m m' p q Hp [Hs Hpath]. split; [by eapply rel_stable | done]. Qed.

#[global] Instance stable_option_Proof : Stable (option Heap.Proof) (option Proof).
Proof. intros m m' p q Hp Ho. destruct Ho; constructor. by eapply rel_stable. Qed.

#[global] Instance stable_tree : Stable Heap.MerkleTree MerkleTree.
Proof.
  intros m m' t u Hp (? & ? & ? & ? & ? & ? & ?).
  split; [|split; [|split; [|split; [|split; [|split]]]]]; try done; by eapply rel_stable.
Qed.

Lemma rel_list_length {AH A} `{Stable AH A} m (x : list AH) (a : list A) :
  rel m x a -> length x = length a.
Proof. apply Forall2_length. Qed.

Lemma rel_list_lookup {AH A} `{Stable AH A} m (x : list AH) (a : list A) i :
  rel m x a -> option_Forall2 (rel m) (x !! i) (a !! i).
Proof. intros HF. by apply Forall2_lookup. Qed.

Lemma rel_list_insert {AH A} `{Stable AH A} m (x : list AH) (a : list A) i y b :
  rel m x a -> rel m y b -> rel m (<[i := y]> x) (<[i := b]> a).
Proof. intros HF Hy. by apply Forall2_insert. Qed.

Lemma rel_list_app {AH A} `{Stable AH A} m (x x' : list AH) (a a' : list A) :
  rel m x a -> rel m x' a' -> rel m (x ++ x') (a ++ a').
Proof. intros. by apply Forall2_app. Qed.

Lemma rel_list_replicate {AH A} `{Stable AH A} m n (x : AH) (a : A) :
  rel m x a -> rel m (replicate n x) (replicate n a).
Proof. intros. by apply Forall2_replicate. Qed.

Lemma rel_nil m : rel m Heap.nilSlice ([] : bytes).
Proof. done. Qed.

Lemma rel_slices_read m (x : list Heap.slice) (a : list bytes) :
  rel m x a -> a = Heap.read m <$> x.
Proof.
  intros HF. induction HF as [|s b x a [_ <-] _ IH]; [done|]. rewrite fmap_cons. by f_equal.
Qed.

(** *** The rules of the simulation *)

Lemma sim_ret {AH A} `{Stable AH A} m0 (x : AH) (a : A) :
  rel m0 x a -> sim m0 (Heap.ret x) (ret a).
Proof.
  intros Hr wh w Hp Hw. simpl. exists a, w. split_and!; try done.
  by eapply rel_stable.
Qed.

Lemma sim_panic {AH A} `{Stable AH A} m0 why :
  sim (AH := AH) (A := A) m0 (Heap.panic why) (panic why).
Proof. by intros wh w Hp Hw. Qed.

Lemma sim_bind {AH A CH C} `{Stable AH A} `{Stable CH C} m0
    (cH : Heap.M AH) (c : M A) (kH : AH -> Heap.M CH) (k : A -> M C) :
  sim m0 cH c ->
  (forall m x a, m0 `prefix_of` m -> rel m x a -> sim m (kH x) (k a)) ->
  sim m0 (Heap.bind cH kH) (bind c k).
Proof.
  intros Hc Hk wh w Hp Hw. unfold Heap.bind, bind.
  specialize (Hc wh w Hp Hw).
  destruct (cH wh) as [x wh1|why]; [|by rewrite Hc].
  destruct Hc as (a & w1 & -> & Hw1 & Hp1 & Hr).
  specialize (Hk (Heap.mem wh1) x a ltac:(by etrans) Hr wh1 w1 ltac:(done) Hw1).
  destruct (kH x wh1) as [y wh2|why]; [|done].
  destruct Hk as (b & w2 & -> & Hw2 & Hp2 & Hr2).
  exists b, w2. split_and!; try done. by etrans.
Qed.

Lemma sim_bind_left {AH A CH C} `{Stable AH A} `{Stable CH C} m0
    (cH : Heap.M AH) (a : A) (kH : AH -> Heap.M CH) (c : M C) :
  reads m0 cH a ->
  (forall m x, m0 `prefix_of` m -> rel m x a -> sim m (kH x) c) ->
  sim m0 (Heap.bind cH kH) c.
Proof.
  intros Hc Hk wh w Hp Hw. unfold Heap.bind.
  specialize (Hc wh w Hp Hw).
  destruct (cH wh) as [x wh1|why]; [|done].
  destruct Hc as (a' & w1 & E & Hw1 & Hp1 & Hr). injection E as <- <-.
  specialize (Hk (Heap.mem wh1) x ltac:(by etrans) Hr wh1 w ltac:(done) Hw1).
  destruct (kH x wh1) as [y wh2|why]; [|done].
  destruct Hk as (b & w2 & -> & Hw2 & Hp2 & Hr2).
  exists b, w2. split_and!; try done. by etrans.
Qed.

Lemma sim_getTree m0 : sim m0 Heap.getTree getTree.
Proof.
  intros wh w Hp Hw. simpl. exists (mt w), w.
  split; [done|]. split; [done|]. split; [reflexivity | apply Hw].
Qed.

Lemma sim_modify m0 (fH : Heap.MerkleTree -> Heap.MerkleTree) (f : MerkleTree -> MerkleTree) :
  (forall m t u, m0 `prefix_of` m -> rel m t u -> rel m (fH t) (f u)) ->
  sim m0 (Heap.modify fH) (modify f).
Proof.
  intros Hf wh w Hp [Hw Hd]. simpl. eexists tt, _. split_and!; try done.
  split; [|done]. simpl. by apply Hf.
Qed.

Lemma sim_index {AH A} `{Stable AH A} m0 (x : list AH) (a : list A) i :
  rel m0 x a -> sim m0 (Heap.index x i) (index a i).
Proof.
  intros Hr. unfold Heap.index, index.
  destruct (rel_list_lookup _ _ _ i Hr) as [y b Hy|].
  - by apply sim_ret.
  - apply sim_panic.
Qed.

Lemma sim_store {AH A} `{Stable AH A} m0 (x : list AH) (a : list A) i y b :
  rel m0 x a -> rel m0 y b -> sim m0 (Heap.store x i y) (store a i b).
Proof.
  intros Hr Hy. unfold Heap.store, store.
  rewrite (rel_list_length _ _ _ Hr).
  destruct (decide (i < length a)).
  - apply sim_ret. by apply rel_list_insert.
  - apply sim_panic.
Qed.

Lemma sim_forM m0 idxs (bodyH : nat -> Heap.M unit) (body : nat -> M unit) :
  (forall m i, m0 `prefix_of` m -> sim m (bodyH i) (body i)) ->
  sim m0 (Heap.forM idxs bodyH) (forM idxs body).
Proof.
  revert m0. induction idxs as [|i idxs IH]; intros m0 Hb; simpl.
  - by apply sim_ret.
  - apply sim_bind; [by apply Hb|].
    intros m ? ? Hm _. apply IH. intros m' j Hm'. apply Hb. by etrans.
Qed.

Lemma sim_forE {LH L} `{Stable LH L} m0 idxs
    (bodyH : nat -> LH -> Heap.M (LH * option error))
    (body : nat -> L -> M (L * option error)) accH acc :
  (forall m i x a, m0 `prefix_of` m -> rel m x a -> sim m (bodyH i x) (body i a)) ->
  rel m0 accH acc ->
  sim m0 (Heap.forE idxs bodyH accH) (forE idxs body acc).
Proof.
  revert m0 accH acc. induction idxs as [|i idxs IH]; intros m0 accH acc Hb Hacc; simpl.
  - apply sim_ret. by split.
  - apply sim_bind; [by apply Hb|].
    intros m [x e] [a e'] Hm [Hx He]. cbn [fst snd] in *. change (e = e') in He. subst e'.
    destruct e as [e|].
    + apply sim_ret. by split.
    + apply IH; [|done]. intros m' j y b Hm'. apply Hb. by etrans.
Qed.

Lemma sim_forL {LH L} `{Stable LH L} m0 idxs
    (bodyH : nat -> LH -> Heap.M LH) (body : nat -> L -> M L) accH acc :
  (forall m i x a, m0 `prefix_of` m -> rel m x a -> sim m (bodyH i x) (body i a)) ->
  rel m0 accH acc ->
  sim m0 (Heap.forL idxs bodyH accH) (forL idxs body acc).
Proof.
  revert m0 accH acc. induction idxs as [|i idxs IH]; intros m0 accH acc Hb Hacc; simpl.
  - by apply sim_ret.
  - apply sim_bind; [by apply Hb|].
    intros m x a Hm Hx. apply IH; [|done].
    intros m' j y b Hm'. apply Hb. by etrans.
Qed.

(** The operations on the memory. *)
Lemma sim_load {CH C} `{Stable CH C} m0 s a (kH : bytes -> Heap.M CH) (c : M C) :
  rel m0 s a -> sim m0 (kH a) c -> sim m0 (Heap.bind (Heap.load s) kH) c.
Proof.
  intros Hr Hk wh w Hp Hw. unfold Heap.bind, Heap.load.
  destruct (rel_stable _ _ _ _ Hp Hr) as [_ ->]. by apply Hk.
Qed.

Lemma sim_deepEqual {CH C} `{Stable CH C} m0 x a y b (kH : bool -> Heap.M CH) (c : M C) :
  rel m0 x a -> rel m0 y b ->
  sim m0 (kH (bytesEqual a b)) c -> sim m0 (Heap.bind (Heap.deepEqual x y) kH) c.
Proof.
  intros Hx Hy Hk wh w Hp Hw. unfold Heap.bind, Heap.deepEqual.
  destruct (rel_stable _ _ _ _ Hp Hx) as [Hgx Hrx].
  destruct (rel_stable _ _ _ _ Hp Hy) as [Hgy Hry].
  rewrite deepEqualAt_good, Hrx, Hry by done. by apply Hk.
Qed.

Lemma sim_less {CH C} `{Stable CH C} m0 x a y b (kH : bool -> Heap.M CH) (c : M C) :
  rel m0 x a -> rel m0 y b ->
  sim m0 (kH (bytesLess a b)) c -> sim m0 (Heap.bind (Heap.less x y) kH) c.
Proof.
  intros Hx Hy Hk wh w Hp Hw. unfold Heap.bind, Heap.less.
  destruct (rel_stable _ _ _ _ Hp Hx) as [Hgx Hrx].
  destruct (rel_stable _ _ _ _ Hp Hy) as [Hgy Hry].
  rewrite Hrx, Hry. by apply Hk.
Qed.

Lemma sim_equal {CH C} `{Stable CH C} m0 x a y b (kH : bool -> Heap.M CH) (c : M C) :
  rel m0 x a -> rel m0 y b ->
  sim m0 (kH (bytesEqual a b)) c -> sim m0 (Heap.bind (Heap.equal x y) kH) c.
Proof.
  intros Hx Hy Hk wh w Hp Hw. unfold Heap.bind, Heap.equal.
  destruct (rel_stable _ _ _ _ Hp Hx) as [Hgx Hrx].
  destruct (rel_stable _ _ _ _ Hp Hy) as [Hgy Hry].
  rewrite Hrx, Hry. by apply Hk.
Qed.

Lemma reads_append m0 x a y b :
  rel m0 x a -> rel m0 y b -> reads m0 (Heap.append x y) (a ++ b).
Proof.
  intros Hx Hy wh w Hp Hw. unfold Heap.append.
  destruct (rel_stable _ _ _ _ Hp Hx) as [Hgx Hrx].
  destruct (rel_stable _ _ _ _ Hp Hy) as [Hgy Hry].
  destruct (appendAt_good (Heap.mem wh) x y Hgx Hgy) as (Hext & Hg & Hr).
  destruct (Heap.appendAt (Heap.mem wh) x y) as [s m1]. cbn [fst snd] in *.
  exists (a ++ b), w. split_and!; try done.
  - destruct Hw as [Hw Hd]. split; [|done]. simpl. by eapply rel_stable.
  - cbn [Heap.mem]. split; [done|]. by rewrite Hr, Hrx, Hry.
Qed.

Lemma reads_fresh m0 data : reads m0 (Heap.fresh data) data.
Proof.
  intros wh w Hp Hw. unfold Heap.fresh.
  destruct data as [|b bs].
  - exists [], w. split_and!; done.
  - simpl. eexists (b :: bs), w. split_and!; try done.
    + destruct Hw as [Hw Hd]. split; [|done]. simpl.
      eapply rel_stable; [|exact Hw]. by apply prefix_app_r.
    + by apply prefix_app_r.
    + split; [by apply (alloc_good (Heap.mem wh) (b :: bs))|].
      apply (alloc_read (Heap.mem wh) (b :: bs)).
Qed.

Lemma reads_hashWith m0 h t data :
  rel m0 t data -> reads m0 (Heap.hashWith h t) (h data).
Proof.
  intros Ht. unfold reads, Heap.hashWith.
  apply sim_load with (a := data); [done|].
  destruct (h data) as [out err].
  eapply sim_bind_left; [apply reads_fresh|].
  intros m s Hm Hs. apply sim_ret. by split.
Qed.

(** *** The methods *)

Ltac tree_fields := split; [|split; [|split; [|split; [|split; [|split]]]]]; try done.

Lemma rel_with_Proofs m t u p q :
  rel m t u -> rel m p q -> rel m (Heap.with_Proofs p t) (with_Proofs q u).
Proof. intros (? & ? & ? & ? & ? & ? & ?) Hp. tree_fields. Qed.

Lemma rel_with_Root m t u p q :
  rel m t u -> rel m p q -> rel m (Heap.with_Root p t) (with_Root q u).
Proof. intros (? & ? & ? & ? & ? & ? & ?) Hp. tree_fields. Qed.

Lemma rel_with_tree m t u p q :
  rel m t u -> rel m p q -> rel m (Heap.with_tree p t) (with_tree q u).
Proof. intros (? & ? & ? & ? & ? & ? & ?) Hp. tree_fields. Qed.

Lemma rel_with_Leaves m t u p q :
  rel m t u -> rel m p q -> rel m (Heap.with_Leaves p t) (with_Leaves q u).
Proof. intros (? & ? & ? & ? & ? & ? & ?) Hp. tree_fields. Qed.

Lemma rel_with_leafMap m t u lm :
  rel m t u -> rel m (Heap.with_leafMap lm t) (with_leafMap lm u).
Proof. intros (? & ? & ? & ? & ? & ? & ?). tree_fields. Qed.

Lemma rel_with_Depth m t u d :
  rel m t u -> rel m (Heap.with_Depth d t) (with_Depth d u).
Proof. intros (? & ? & ? & ? & ? & ? & ?). tree_fields. Qed.

(** What is known at a memory is known at the memories that extend it. *)
Ltac rebase Hm :=
  repeat match goal with
  | Hr : @rel _ _ _ ?m0 _ _ |- _ =>
      lazymatch type of Hm with
      | m0 `prefix_of` _ => apply (rel_stable _ _ _ _ Hm) in Hr
      end
  end.

Ltac sim_with lem :=
  eapply sim_bind; [ eapply lem; try apply _; eauto | ].

Ltac sim_tree m t u Hm Ht :=
  eapply sim_bind; [ apply sim_getTree | intros m t u Hm Ht; rebase Hm ].

Section Simulation.

Context {B : Type} `{Heap.DataBlock B}.
Variable rnd : nat -> RandRead.

Lemma callHash_sim m0 t data :
  rel m0 t data -> sim m0 (Heap.callHash t) (callHash data).
Proof.
  intros Ht. unfold Heap.callHash, callHash.
  sim_tree m mH u Hm Hu. destruct Hu as (-> & _).
  destruct (HashFunc (config u)) as [h|]; [|apply sim_panic].
  by apply reads_hashWith.
Qed.

Lemma initProofs_sim m0 : sim m0 Heap.initProofs initProofs.
Proof.
  unfold Heap.initProofs, initProofs.
  sim_tree m mH u Hm Hu.
  assert (Hl : length (Heap.Leaves mH) = length (Leaves u)).
  { destruct Hu as (_ & _ & _ & _ & Hl & _). by apply rel_list_length in Hl. }
  rewrite Hl. apply sim_modify. intros m' t' u' _ Hr.
  apply rel_with_Proofs; [done|]. apply rel_list_replicate.
  split; [constructor | done].
Qed.

Lemma updProof_sim m0 i (fH : Heap.Proof -> Heap.Proof) (f : Proof -> Proof) :
  (forall m p q, m0 `prefix_of` m -> rel m p q -> rel m (fH p) (f q)) ->
  sim m0 (Heap.updProof i fH) (updProof i f).
Proof.
  intros Hf. unfold Heap.updProof, updProof.
  sim_tree m mH u Hm Hu.
  pose proof Hu as (_ & _ & _ & _ & _ & Hp & _).
  sim_with (@sim_index Heap.Proof Proof). intros m1 p q Hm1 Hpq. rebase Hm1.
  apply sim_modify. intros m2 t2 u2 Hm2 Hr2. rebase Hm2.
  apply rel_with_Proofs; [done|]. apply rel_list_insert; [done|].
  apply Hf; [by repeat (etrans; [eassumption|]) | done].
Qed.

Lemma updatePairProof_sim m0 bufH buf idx batch step :
  rel m0 bufH buf ->
  sim m0 (Heap.updatePairProof bufH idx batch step) (updatePairProof buf idx batch step).
Proof.
  intros Hbuf. unfold Heap.updatePairProof, updatePairProof.
  sim_tree m mH u Hm Hu.
  assert (Hl : length (Heap.Proofs mH) = length (Proofs u)).
  { destruct Hu as (_ & _ & _ & _ & _ & Hl & _). by apply rel_list_length in Hl. }
  rewrite Hl.
  eapply sim_bind.
  - apply sim_forM. intros m1 i Hm1. rebase Hm1.
    eapply sim_bind.
    { apply updProof_sim. intros m2 p q _ [Hs Hp]. split; [done|]. simpl. by rewrite Hp. }
    intros m2 [] [] Hm2 _. rebase Hm2.
    sim_with (@sim_index Heap.slice bytes). intros m3 s a Hm3 Hs. rebase Hm3.
    apply updProof_sim. intros m4 p q Hm4 [Hsib Hp]. rebase Hm4.
    split; [|done]. simpl. apply rel_list_app; [done|]. by constructor.
  - intros m1 [] [] Hm1 _. rebase Hm1.
    apply sim_forM. intros m2 i Hm2. rebase Hm2.
    sim_with (@sim_index Heap.slice bytes). intros m3 s a Hm3 Hs. rebase Hm3.
    apply updProof_sim. intros m4 p q Hm4 [Hsib Hp]. rebase Hm4.
    split; [|done]. simpl. apply rel_list_app; [done|]. by constructor.
Qed.

Lemma updateProofs_sim m0 bufH buf bufLen step :
  rel m0 bufH buf ->
  sim m0 (Heap.updateProofs bufH bufLen step) (updateProofs buf bufLen step).
Proof.
  intros Hbuf. unfold Heap.updateProofs, updateProofs.
  apply sim_forM. intros m i Hm. rebase Hm. by apply updatePairProof_sim.
Qed.

Lemma getDummyHash_sim m0 : sim m0 (Heap.getDummyHash rnd) (getDummyHash rnd).
Proof.
  intros wh w Hp [Hw Hd]. unfold Heap.getDummyHash, getDummyHash. rewrite Hd.
  destruct (rnd (draws w)) as [b|e].
  - pose proof (alloc_good (Heap.mem wh) (resize defaultHashLen Byte.x00 b)) as Hg.
    pose proof (alloc_read (Heap.mem wh) (resize defaultHashLen Byte.x00 b)) as Hr.
    pose proof (alloc_extends (Heap.mem wh) (resize defaultHashLen Byte.x00 b)) as He.
    destruct (Heap.alloc _ _) as [s m1]. cbn [fst snd] in *.
    eexists _, _. split; [reflexivity|]. cbn [Heap.mem Heap.mt Heap.draws mt draws].
    split; [|split; [done|]].
    + split; [by eapply rel_stable | simpl; congruence].
    + split; [|done]. cbn [fst]. split; [|done]. apply Hg.
      intros E. apply (f_equal length) in E. by rewrite length_resize in E.
  - eexists _, _. split; [reflexivity|]. cbn [Heap.mem Heap.mt Heap.draws mt draws].
    split; [|split; [done|]].
    + split; [done | simpl; congruence].
    + by split.
Qed.

Lemma fixOdd_sim m0 bufH buf prevLen :
  rel m0 bufH buf ->
  sim m0 (Heap.fixOdd rnd bufH prevLen) (fixOdd rnd buf prevLen).
Proof.
  intros Hbuf. unfold Heap.fixOdd, fixOdd.
  destruct (Nat.even prevLen); [by apply sim_ret|].
  sim_tree m mH u Hm Hu. pose proof Hu as (-> & _).
  eapply sim_bind.
  { destruct (NoDuplicates (config u)); [apply getDummyHash_sim|].
    sim_with (@sim_index Heap.slice bytes). intros m1 s a Hm1 Hs. rebase Hm1.
    apply sim_ret. by split. }
  intros m1 [s e] [a e'] Hm1 [Hs He]. rebase Hm1. cbn [fst snd] in *.
  change (e = e') in He. subst e'.
  destruct e as [e|].
  { apply sim_ret. repeat split. constructor. }
  rewrite (rel_list_length _ _ _ Hbuf).
  destruct (decide (length buf < prevLen + 1)).
  - apply sim_ret. repeat split. cbn [fst]. apply rel_list_app; [done|]. by constructor.
  - sim_with (@sim_store Heap.slice bytes). intros m2 b2 b2' Hm2 Hb2.
    apply sim_ret. by repeat split.
Qed.

Lemma proofGen_sim m0 : sim m0 (Heap.proofGen rnd) (proofGen rnd).
Proof.
  unfold Heap.proofGen, proofGen.
  sim_tree m mH u Hm Hu.
  pose proof Hu as (_ & _ & _ & _ & Hl & _ & Hd).
  rewrite (rel_list_length _ _ _ Hl), Hd.
  eapply sim_bind; [apply initProofs_sim|]. intros m1 [] [] Hm1 _. rebase Hm1.
  eapply sim_bind; [by apply fixOdd_sim|].
  intros m2 [[bufH n] e] [[buf n'] e'] Hm2 [[Hb Hn] He]. rebase Hm2. cbn [fst snd] in *.
  change (n = n') in Hn. change (e = e') in He. subst n' e'.
  destruct e; [by apply sim_ret|].
  eapply sim_bind; [by apply updateProofs_sim|]. intros m3 [] [] Hm3 _. rebase Hm3.
  eapply sim_bind.
  { apply (sim_forE (LH := list Heap.slice * nat) (L := list bytes * nat)); [|by split].
    intros m4 step [xH k] [x k'] Hm4 [Hx Hk]. cbn [fst snd] in *.
    change (k = k') in Hk. subst k'.
    eapply sim_bind.
    { apply sim_forE; [|done]. intros m5 idx yH y Hm5 Hy.
      sim_with (@sim_index Heap.slice bytes). intros m6 aH a Hm6 Ha. rebase Hm6.
      sim_with (@sim_index Heap.slice bytes). intros m7 bH b Hm7 Hb'. rebase Hm7.
      eapply sim_bind_left; [by apply reads_append|]. intros m8 t Hm8 Ht. rebase Hm8.
      eapply sim_bind; [by apply callHash_sim|].
      intros m9 [rH re] [r re'] Hm9 [Hr Hre]. rebase Hm9. cbn [fst snd] in *.
      change (re = re') in Hre. subst re'.
      sim_with (@sim_store Heap.slice bytes). intros m10 zH z Hm10 Hz.
      apply sim_ret. by split. }
    intros m5 [yH e] [y e'] Hm5 [Hy He]. cbn [fst snd] in *.
    change (e = e') in He. subst e'.
    destruct e; [apply sim_ret; by repeat split|].
    eapply sim_bind; [by apply fixOdd_sim|].
    intros m6 [[zH n6] e] [[z n6'] e'] Hm6 [[Hz Hn] He]. rebase Hm6. cbn [fst snd] in *.
    change (n6 = n6') in Hn. change (e = e') in He. subst n6' e'.
    destruct e; [apply sim_ret; by repeat split|].
    eapply sim_bind; [by apply updateProofs_sim|]. intros m7 [] [] Hm7 _. rebase Hm7.
    apply sim_ret. by repeat split. }
  intros m4 [[xH k] e] [[x k'] e'] Hm4 [[Hx Hk] He]. rebase Hm4. cbn [fst snd] in *.
  change (k = k') in Hk. change (e = e') in He. subst k' e'.
  destruct e; [by apply sim_ret|].
  sim_with (@sim_index Heap.slice bytes). intros m6 aH a Hm6 Ha. rebase Hm6.
  sim_with (@sim_index Heap.slice bytes). intros m7 bH b Hm7 Hb'. rebase Hm7.
  eapply sim_bind_left; [by apply reads_append|]. intros m8 t Hm8 Ht. rebase Hm8.
  eapply sim_bind; [by apply callHash_sim|].
  intros m9 [rH re] [r re'] Hm9 [Hr Hre]. rebase Hm9. cbn [fst snd] in *.
  change (re = re') in Hre. subst re'.
  eapply sim_bind.
  { apply sim_modify. intros m10 t10 u10 Hm10 H10. rebase Hm10. by apply rel_with_Root. }
  intros m10 [] [] Hm10 _. by apply sim_ret.
Qed.

Lemma sortInsert_rel m x a l l' :
  rel m x a -> rel m l l' -> rel m (Heap.sortInsert m x l) (sortInsert a l').
Proof.
  intros Hx Hl. induction Hl as [|y b l l' Hy Hl IH]; simpl.
  - constructor; [done | constructor].
  - destruct Hx as [Hgx <-]. pose proof Hy as [Hgy <-].
    destruct (bytesLess (Heap.read m y) (Heap.read m x)).
    + constructor; [done|]. apply IH.
    + constructor; [by split|]. by constructor.
Qed.

Lemma sortSlice_rel m (l : list Heap.slice) (l' : list bytes) :
  rel m l l' -> rel m (Heap.sortSlice m l) (sortSlice l').
Proof.
  intros Hl. induction Hl as [|y b l l' Hy Hl IH]; simpl.
  - constructor.
  - by apply sortInsert_rel.
Qed.

Lemma sim_bind_ret {AH A CH C} `{Stable CH C} m0 (x : AH) (a : A)
    (kH : AH -> Heap.M CH) (k : A -> M C) :
  sim m0 (kH x) (k a) -> sim m0 (Heap.bind (Heap.ret x) kH) (bind (ret a) k).
Proof. intros Hk. exact Hk. Qed.

Lemma sim_bind_panic {AH A CH C} `{Stable CH C} m0 why
    (kH : AH -> Heap.M CH) (k : A -> M C) :
  sim m0 (Heap.bind (Heap.panic why) kH) (bind (panic why) k).
Proof. by intros wh w Hp Hw. Qed.

Lemma leafGen_sim m0 mX (blocks : list B) :
  Forall (placed m0) blocks -> m0 `prefix_of` mX ->
  sim m0 (Heap.leafGen blocks) (@leafGen B (contents mX) blocks).
Proof.
  intros Hplaced HX. unfold Heap.leafGen, leafGen.
  eapply sim_bind.
  { apply sim_forE; [|apply rel_list_replicate, rel_nil].
    intros m i xH x Hm Hx. unfold Heap.index, index.
    destruct (blocks !! i) as [b|] eqn:Hb; [|apply sim_bind_panic].
    apply sim_bind_ret.
    pose proof (Forall_lookup_1 _ _ _ _ Hplaced Hb) as Hpl.
    unfold placed in Hpl. unfold Serialize, contents.
    destruct (Heap.Serialize b) as [data err]. cbn [fst snd] in *.
    destruct err as [e|].
    { apply sim_ret. split; [constructor | done]. }
    sim_with (@sim_store Heap.slice bytes).
    { destruct (Hpl eq_refl) as [Hv Ht].
      split; [eapply good_extends; [by split | done]|].
      by rewrite (read_extends m0 m), (read_extends m0 mX). }
    intros m1 y y' Hm1 Hy. apply sim_ret. by split. }
  intros m1 [xH e] [x e'] Hm1 [Hx He]. cbn [fst snd] in *.
  change (e = e') in He. subst e'.
  destruct e as [e|].
  { apply sim_ret. split; [constructor | done]. }
  sim_tree m2 mH u Hm2 Hu. destruct Hu as (-> & _).
  destruct (SortLeaves (config u)); [|apply sim_ret; by split].
  intros wh w Hp Hw. eexists _, w. split; [reflexivity|].
  split; [done|]. split; [reflexivity|]. split; [|done].
  cbn [fst]. apply sortSlice_rel. by eapply rel_stable.
Qed.

Lemma setLevel_sim m0 i lvlH lvl :
  rel m0 lvlH lvl -> sim m0 (Heap.setLevel i lvlH) (setLevel i lvl).
Proof.
  intros Hl. unfold Heap.setLevel, setLevel.
  sim_tree m mH u Hm Hu. pose proof Hu as (_ & _ & Ht & _).
  sim_with (@sim_store (list Heap.slice) (list bytes)). intros m1 tH t Hm1 Ht1.
  apply sim_modify. intros m2 t2 u2 Hm2 H2. rebase Hm2. by apply rel_with_tree.
Qed.

Lemma level_sim m0 i : sim m0 (Heap.level i) (level i).
Proof.
  unfold Heap.level, level.
  sim_tree m mH u Hm Hu. pose proof Hu as (_ & _ & Ht & _).
  by apply sim_index.
Qed.

Lemma treeAt_sim m0 i j : sim m0 (Heap.treeAt i j) (treeAt i j).
Proof.
  unfold Heap.treeAt, treeAt.
  eapply sim_bind; [apply level_sim|]. intros m lH l Hm Hl. by apply sim_index.
Qed.

Lemma setTreeAt_sim m0 i j xH x :
  rel m0 xH x -> sim m0 (Heap.setTreeAt i j xH) (setTreeAt i j x).
Proof.
  intros Hx. unfold Heap.setTreeAt, setTreeAt.
  eapply sim_bind; [apply level_sim|]. intros m lH l Hm Hl. rebase Hm.
  sim_with (@sim_store Heap.slice bytes). intros m1 l1H l1 Hm1 Hl1.
  by apply setLevel_sim.
Qed.

Lemma hashPair_sim m0 aH a bH b :
  rel m0 aH a -> rel m0 bH b ->
  sim m0 (Heap.bind (Heap.append aH bH) Heap.callHash) (callHash (a ++ b)).
Proof.
  intros Ha Hb. eapply sim_bind_left; [by apply reads_append|].
  intros m t Hm Ht. by apply callHash_sim.
Qed.

Lemma treeBuild_sim m0 : sim m0 (Heap.treeBuild rnd) (treeBuild rnd).
Proof.
  unfold Heap.treeBuild, treeBuild.
  sim_tree m mH u Hm Hu.
  pose proof Hu as (_ & _ & _ & _ & Hl & _ & Hd).
  rewrite (rel_list_length _ _ _ Hl), Hd.
  eapply sim_bind.
  { apply sim_forM. intros m1 i Hm1.
    sim_tree m2 m2H u2 Hm2 Hu2. pose proof Hu2 as (_ & Hlm & _ & _ & Hl2 & _).
    sim_with (@sim_index Heap.slice bytes). intros m3 lH l Hm3 Hl3. rebase Hm3.
    apply sim_load with (a := l); [done|]. rewrite Hlm.
    apply sim_modify. intros m4 t4 u4 Hm4 H4. by apply rel_with_leafMap. }
  intros m1 [] [] Hm1 _. rebase Hm1.
  eapply sim_bind.
  { apply sim_modify. intros m2 t2 u2 Hm2 H2. apply rel_with_tree; [done|].
    apply rel_list_replicate. constructor. }
  intros m2 [] [] Hm2 _. rebase Hm2.
  eapply sim_bind; [by apply setLevel_sim|]. intros m3 [] [] Hm3 _. rebase Hm3.
  eapply sim_bind; [apply level_sim|]. intros m4 lvlH lvl Hm4 Hlvl. rebase Hm4.
  eapply sim_bind; [by apply fixOdd_sim|].
  intros m5 [[bufH n] e] [[buf n'] e'] Hm5 [[Hb Hn] He]. rebase Hm5. cbn [fst snd] in *.
  change (n = n') in Hn. change (e = e') in He. subst n' e'.
  eapply sim_bind; [by apply setLevel_sim|]. intros m6 [] [] Hm6 _. rebase Hm6.
  destruct e; [by apply sim_ret|].
  eapply sim_bind.
  { apply (sim_forE (LH := nat) (L := nat)); [|done].
    intros m7 i k k' Hm7 Hk. change (k = k') in Hk. subst k'.
    eapply sim_bind.
    { apply setLevel_sim. apply rel_list_replicate, rel_nil. }
    intros m8 [] [] Hm8 _.
    eapply sim_bind.
    { apply (sim_forE (LH := unit) (L := unit)); [|done].
      intros m9 j [] [] Hm9 _.
      eapply sim_bind; [apply treeAt_sim|]. intros m10 aH a Hm10 Ha. rebase Hm10.
      eapply sim_bind; [apply treeAt_sim|]. intros m11 bH b Hm11 Hb'. rebase Hm11.
      apply sim_deepEqual with (a := a) (b := b); [done | done |].
      destruct (bytesEqual a b).
      { eapply sim_bind; [by apply setTreeAt_sim|]. intros m12 [] [] Hm12 _.
        apply sim_ret. by split. }
      sim_tree m12 m12H u12 Hm12 Hu12. pose proof Hu12 as (-> & _).
      eapply sim_bind.
      { destruct (SortPairs (config u12)).
        - apply sim_less with (a := a) (b := b); [done | done |].
          destruct (bytesLess a b); by apply hashPair_sim.
        - by apply hashPair_sim. }
      intros m13 [rH re] [r re'] Hm13 [Hr Hre]. rebase Hm13. cbn [fst snd] in *.
      change (re = re') in Hre. subst re'.
      eapply sim_bind; [by apply setTreeAt_sim|]. intros m14 [] [] Hm14 _.
      apply sim_ret. by split. }
    intros m9 [[] e] [[] e'] Hm9 [_ He]. cbn [fst snd] in *.
    change (e = e') in He. subst e'.
    destruct e; [apply sim_ret; by split|].
    eapply sim_bind; [apply level_sim|]. intros m10 l10H l10 Hm10 Hl10. rebase Hm10.
    rewrite (rel_list_length _ _ _ Hl10).
    eapply sim_bind; [by apply fixOdd_sim|].
    intros m11 [[zH n11] e] [[z n11'] e'] Hm11 [[Hz Hn] He]. rebase Hm11.
    cbn [fst snd] in *.
    change (n11 = n11') in Hn. change (e = e') in He. subst n11' e'.
    eapply sim_bind; [by apply setLevel_sim|]. intros m12 [] [] Hm12 _.
    apply sim_ret. by split. }
  intros m7 [k e] [k' e'] Hm7 [Hk He]. cbn [fst snd] in *.
  change (e = e') in He. subst e'.
  destruct e; [by apply sim_ret|].
  eapply sim_bind; [apply treeAt_sim|]. intros m10 aH a Hm10 Ha. rebase Hm10.
  eapply sim_bind; [apply treeAt_sim|]. intros m11 bH b Hm11 Hb'. rebase Hm11.
  eapply sim_bind_left; [by apply reads_append|]. intros m12 t Hm12 Ht. rebase Hm12.
  eapply sim_bind; [by apply callHash_sim|].
  intros m13 [rH re] [r re'] Hm13 [Hr Hre]. rebase Hm13. cbn [fst snd] in *.
  change (re = re') in Hre. subst re'.
  eapply sim_bind.
  { apply sim_modify. intros m14 t14 u14 Hm14 H14. rebase Hm14. by apply rel_with_Root. }
  intros m14 [] [] Hm14 _. by apply sim_ret.
Qed.

Lemma buildTree_sim m0 mX (blocks : list B) :
  Forall (placed m0) blocks -> m0 `prefix_of` mX ->
  sim m0 (Heap.buildTree rnd blocks) (@buildTree B (contents mX) rnd blocks).
Proof.
  intros Hplaced HX. unfold Heap.buildTree, buildTree.
  eapply sim_bind.
  { apply sim_modify. intros m t u Hm Hr. by apply rel_with_Depth. }
  intros m1 [] [] Hm1 _.
  eapply sim_bind.
  { pose proof (leafGen_sim m0 mX blocks Hplaced HX) as Hs.
    intros wh w Hp Hw. apply Hs; [by etrans | done]. }
  intros m2 [xH e] [x e'] Hm2 [Hx He]. cbn [fst snd] in *.
  change (e = e') in He. subst e'.
  eapply sim_bind.
  { apply sim_modify. intros m3 t u Hm3 Hr. rebase Hm3. by apply rel_with_Leaves. }
  intros m3 [] [] Hm3 _.
  destruct e; [apply sim_ret; by split|].
  sim_tree m4 mH u Hm4 Hu. pose proof Hu as (-> & _).
  destruct (Mode (config u) =? ModeProofGen)%Z.
  { eapply sim_bind; [apply proofGen_sim|]. intros m5 e e' Hm5 He.
    apply sim_ret. by split. }
  destruct (Mode (config u) =? ModeTreeBuild)%Z.
  { eapply sim_bind; [apply treeBuild_sim|]. intros m5 e e' Hm5 He.
    apply sim_ret. by split. }
  destruct (Mode (config u) =? ModeProofGenAndTreeBuild)%Z; [|apply sim_ret; by split].
  eapply sim_bind; [apply treeBuild_sim|]. intros m5 e e' Hm5 He.
  change (e = e') in He. subst e'.
  destruct e; [apply sim_ret; by split|].
  eapply sim_bind; [apply initProofs_sim|]. intros m6 [] [] Hm6 _.
  sim_tree m7 m7H u7 Hm7 Hu7. pose proof Hu7 as (_ & _ & Ht & _).
  rewrite (rel_list_length _ _ _ Ht).
  eapply sim_bind.
  { apply sim_forM. intros m8 i Hm8.
    eapply sim_bind; [apply level_sim|]. intros m9 lH l Hm9 Hl.
    rewrite (rel_list_length _ _ _ Hl). by apply updateProofs_sim. }
  intros m8 [] [] Hm8 _. apply sim_ret. by split.
Qed.

Lemma rel_newTree m c : rel m (Heap.newTree c) (newTree c).
Proof.
  unfold Heap.newTree, newTree.
  split; [|split; [|split; [|split; [|split; [|split]]]]]; cbn; try done; constructor.
Qed.

(** [New] on blocks whose slices have no spare capacity: the call ends as
    the call on the bytes of the blocks does, the tree holds slices of the
    bytes of the tree built there, and the memory of the caller is extended
    only. *)
Lemma New_sim cfg (blocks : list B) mem0 mX :
  Forall (placed mem0) blocks -> mem0 `prefix_of` mX ->
  match Heap.New rnd cfg blocks mem0 with
  | Heap.Returned mH err mem1 =>
      exists t, @New B (contents mX) rnd cfg blocks = Returned t err /\
                mem0 `prefix_of` mem1 /\ option_Forall2 (rel mem1) mH t
  | Heap.Panicked why => @New B (contents mX) rnd cfg blocks = Panicked why
  end.
Proof.
  intros Hplaced HX. unfold Heap.New, New.
  destruct (decide (length blocks <= 1)).
  { eexists. split; [reflexivity|]. split; [reflexivity | constructor]. }
  match goal with |- context [Heap.newTree ?c] => set (cf := c) end.
  pose proof (buildTree_sim mem0 mX blocks Hplaced HX
                (Heap.mkWorld (Heap.newTree cf) 0 mem0) (mkWorld (newTree cf) 0)
                ltac:(reflexivity) (conj (rel_newTree mem0 cf) eq_refl)) as Hs.
  destruct (Heap.buildTree rnd blocks _) as [[[|] e] wh|why].
  - destruct Hs as ([b e'] & w & -> & [Hw _] & Hext & [Hb He]). cbn [fst snd] in *.
    change (true = b) in Hb. change (e = e') in He. subst b e'.
    eexists. split; [reflexivity|]. split; [done|]. by constructor.
  - destruct Hs as ([b e'] & w & -> & [Hw _] & Hext & [Hb He]). cbn [fst snd] in *.
    change (false = b) in Hb. change (e = e') in He. subst b e'.
    eexists. split; [reflexivity|]. split; [done|]. constructor.
  - by rewrite Hs.
Qed.

Lemma verifyLoop_sim m0 h rootH root sibsH sibs hashH hash path :
  rel m0 rootH root -> rel m0 sibsH sibs -> rel m0 hashH hash ->
  reads m0 (Heap.verifyLoop h rootH sibsH hashH path) (verifyLoop h root sibs hash path).
Proof.
  revert m0 sibs hashH hash path.
  induction sibsH as [|nH sibsH IH]; intros m0 sibs hashH hash path Hroot Hsibs Hhash;
    inversion Hsibs as [|? n ? sibs' Hn Hsibs']; subst; unfold reads; simpl.
  - apply sim_equal with (a := hash) (b := root); [done | done |]. apply sim_ret. by split.
  - assert (Hstep : forall aH a bH b, rel m0 aH a -> rel m0 bH b ->
      sim m0
        (Heap.bind (Heap.append aH bH) (fun t =>
           Heap.bind (Heap.hashWith h t) (fun r =>
             let '(hash, err) := r in
             match err with
             | Some e => Heap.ret (false, Some e)
             | None => Heap.verifyLoop h rootH sibsH hash (Z.shiftr path 1)
             end)))
        (ret (let '(hash, err) := h (a ++ b) in
              match err with
              | Some e => (false, Some e)
              | None => verifyLoop h root sibs' hash (Z.shiftr path 1)
              end))).
    { intros aH a bH b Ha Hb. change (rel m0 sibsH sibs') in Hsibs'.
      eapply sim_bind_left; [by apply reads_append|]. intros m1 t Hm1 Ht. rebase Hm1.
      eapply sim_bind_left; [by apply reads_hashWith|].
      intros m2 [xH e] Hm2 Hx. rebase Hm2.
      destruct (h (a ++ b)) as [x e']. destruct Hx as [Hx He]. cbn [fst snd] in *.
      change (e = e') in He. subst e'.
      destruct e; [apply sim_ret; by split|].
      by apply IH. }
    destruct (Z.land path 1 =? 1)%Z; by apply Hstep.
Qed.

Lemma Verify_sim m0 mX (b : option B) pH p rootH root h :
  (forall x, b = Some x -> placed mX x) -> mX `prefix_of` m0 ->
  option_Forall2 (rel m0) pH p -> rel m0 rootH root ->
  reads m0 (Heap.Verify b pH rootH h) (@Verify B (contents mX) b p root h).
Proof.
  intros Hpl HX Hp Hroot. unfold reads, Heap.Verify, Verify.
  destruct b as [b|]; [|apply sim_ret; by split].
  destruct Hp as [pH p [Hsib Hpath]|]; [|apply sim_ret; by split].
  specialize (Hpl b eq_refl). unfold placed in Hpl. unfold Serialize, contents.
  destruct (Heap.Serialize b) as [data err]. cbn [fst snd] in *.
  destruct err as [e|]; [apply sim_ret; by split|].
  set (hf := match h with Some h' => h' | None => defaultHashFunc end).
  eapply sim_bind_left.
  { apply reads_hashWith. eapply (rel_stable (R := rel_slice)); [exact HX|].
    split; [by apply Hpl | reflexivity]. }
  intros m1 [xH e] Hm1 Hx. rebase Hm1.
  destruct (hf (Heap.read mX data)) as [x e']. destruct Hx as [Hx He]. cbn [fst snd] in *.
  change (e = e') in He. subst e'.
  destruct e; [apply sim_ret; by split|].
  rewrite Hpath. by apply verifyLoop_sim.
Qed.

Lemma GenerateProof_sim m0 (b : B) :
  placed m0 b ->
  sim m0 (Heap.GenerateProof b) (@GenerateProof B (contents m0) b).
Proof.
  intros Hpl. unfold Heap.GenerateProof, GenerateProof.
  sim_tree m mH u Hm Hu. pose proof Hu as (Hc & Hlm & _ & _ & _ & _ & Hd).
  rewrite Hc, Hlm, Hd.
  destruct (negb (Mode (config u) =? ModeTreeBuild)%Z
            && negb (Mode (config u) =? ModeProofGenAndTreeBuild)%Z).
  { apply sim_ret. split; [constructor | done]. }
  unfold placed in Hpl. unfold Serialize, contents.
  destruct (Heap.Serialize b) as [data err]. cbn [fst snd] in *.
  destruct err as [e|]; [apply sim_ret; split; [constructor | done]|].
  eapply sim_bind.
  { apply callHash_sim. eapply (rel_stable (R := rel_slice)); [exact Hm|].
    split; [by apply Hpl | reflexivity]. }
  intros m1 [xH e] [x e'] Hm1 [Hx He]. rebase Hm1. cbn [fst snd] in *.
  change (e = e') in He. subst e'.
  destruct e; [apply sim_ret; split; [constructor | done]|].
  apply sim_load with (a := x); [done|].
  destruct (leafMap u !! x) as [idx|]; [|apply sim_ret; split; [constructor | done]].
  eapply sim_bind.
  { apply (sim_forL (LH := nat * Z * list Heap.slice) (L := nat * Z * list bytes)).
    - intros m2 i [[k z] sH] [[k' z'] s] Hm2 [[Hk Hz] Hs]. cbn [fst snd] in *.
      change (k = k') in Hk. change (z = z') in Hz. subst k' z'.
      destruct (Nat.odd k).
      + eapply sim_bind; [apply treeAt_sim|]. intros m3 yH y Hm3 Hy. rebase Hm3.
        sim_with (@sim_store Heap.slice bytes). intros m4 s4H s4 Hm4 Hs4.
        apply sim_ret. by repeat split.
      + eapply sim_bind; [apply treeAt_sim|]. intros m3 yH y Hm3 Hy. rebase Hm3.
        sim_with (@sim_store Heap.slice bytes). intros m4 s4H s4 Hm4 Hs4.
        apply sim_ret. by repeat split.
    - repeat split. cbn [fst snd]. apply rel_list_replicate, rel_nil. }
  intros m2 [[k z] sH] [[k' z'] s] Hm2 [[Hk Hz] Hs]. cbn [fst snd] in *.
  change (k = k') in Hk. change (z = z') in Hz. subst k' z'.
  apply sim_ret. split; [|done]. constructor. by split.
Qed.

End Simulation.

(** The tree on bytes that a tree on slices is related to is the tree of
    its bytes. *)
Lemma rel_proofBytes m (p : Heap.Proof) (q : Proof) : rel m p q -> q = proofBytes m p.
Proof.
  intros [Hs Hp]. destruct q as [sib path]. unfold proofBytes. simpl in *.
  by rewrite (rel_slices_read _ _ _ Hs), Hp.
Qed.

Lemma rel_treeBytes m (t : Heap.MerkleTree) (u : MerkleTree) : rel m t u -> u = treeBytes m t.
Proof.
  intros (Hc & Hlm & Ht & [_ Hr] & Hl & Hp & Hd).
  destruct u as [c lm tr r l p d]. unfold treeBytes. simpl in *.
  rewrite Hc, Hlm, Hr, Hd, (rel_slices_read _ _ _ Hl). f_equal.
  - clear -Ht. induction Ht as [|x a xs as' Hx _ IH]; [done|].
    rewrite fmap_cons. f_equal; [by apply rel_slices_read | done].
  - clear -Hp. induction Hp as [|x a xs as' Hx _ IH]; [done|].
    rewrite fmap_cons. f_equal; [by apply rel_proofBytes | done].
Qed.

Section Transport.

Context {B : Type} `{Heap.DataBlock B}.

(** A tree that [New] returns for blocks placed in the memory holds, in
    the memory that [New] leaves, the bytes of the tree that [New] on bytes
    returns for the bytes of the blocks; the memory of the caller is a
    prefix of the memory left. *)
Lemma New_bytes rnd cfg (blocks : list B) mem m err mem' :
  Forall (placed mem) blocks ->
  Heap.New rnd cfg blocks mem = Heap.Returned (Some m) err mem' ->
  mem `prefix_of` mem' /\
  rel mem' m (treeBytes mem' m) /\
  @New B (contents mem') rnd cfg blocks = Returned (Some (treeBytes mem' m)) err.
Proof.
  intros Hplaced Hnew.
  assert (Hext : mem `prefix_of` mem').
  { pose proof (New_sim rnd cfg blocks mem mem Hplaced ltac:(reflexivity)) as Hs.
    rewrite Hnew in Hs. by destruct Hs as (_ & _ & ? & _). }
  pose proof (New_sim rnd cfg blocks mem mem' Hplaced Hext) as Hs.
  rewrite Hnew in Hs. destruct Hs as (t & -> & _ & Hr).
  inversion Hr as [? u Hu|]; subst.
  pose proof (rel_treeBytes _ _ _ Hu) as ->. done.
Qed.

End Transport.

(** *** The examples *)

Lemma windows_placed mem :
  memory_abc `prefix_of` mem -> Forall (placed mem) [windowA; windowB; windowC].
Proof.
  intros Hp. apply prefix_length in Hp. simpl in Hp.
  repeat constructor; simpl; lia.
Qed.

Lemma slices_echo_built mode :
  mode = ModeProofGen \/ mode = ModeTreeBuild \/ mode = ModeProofGenAndTreeBuild ->
  Heap.New noRandom (Some (configOf (Some echo) mode)) [windowA; windowB; windowC] memory_abc
  = Heap.Returned (Some (Heap.treeOf (slices_echo mode))) None (Heap.memOf (slices_echo mode)).
Proof.
  intros [-> | [-> | ->]]; vm_compute; reflexivity.
Qed.

Lemma slices_echo_memory mode :
  mode = ModeProofGen \/ mode = ModeTreeBuild \/ mode = ModeProofGenAndTreeBuild ->
  memory_abc `prefix_of` Heap.memOf (slices_echo mode).
Proof.
  intros [-> | [-> | ->]]; eexists; vm_compute; reflexivity.
Qed.

(** The proof and the root of a tree are related to their bytes. *)
Lemma rel_tree_proof mem (m : Heap.MerkleTree) i p :
  rel mem m (treeBytes mem m) -> Heap.Proofs m !! i = Some p ->
  rel mem p (proofBytes mem p) /\ Proofs (treeBytes mem m) !! i = Some (proofBytes mem p).
Proof.
  intros (_ & _ & _ & _ & _ & Hp & _) Hi.
  assert (Hq : Proofs (treeBytes mem m) !! i = Some (proofBytes mem p)).
  { unfold treeBytes. cbn [Proofs]. by rewrite list_lookup_fmap, Hi. }
  split; [|done]. exact (Forall2_lookup_lr _ _ _ _ _ _ Hp Hi Hq).
Qed.

Lemma rel_tree_root mem (m : Heap.MerkleTree) :
  rel mem m (treeBytes mem m) -> rel mem (Heap.Root m) (Root (treeBytes mem m)).
Proof. by intros (_ & _ & _ & Hr & _). Qed.

Lemma tree_leaf_bytes mem (m : Heap.MerkleTree) i l :
  Heap.Leaves m !! i = Some l -> Leaves (treeBytes mem m) !! i = Some (Heap.read mem l).
Proof. intros Hi. unfold treeBytes. cbn [Leaves]. by rewrite list_lookup_fmap, Hi. Qed.

(** A call of [Verify] in a memory that holds the proof and the root
    answers as [Verify] on their bytes. *)
Lemma Verify_bytes {B} `{Heap.DataBlock B} mX (b : B) p q rootH root h w :
  placed mX b -> mX `prefix_of` Heap.mem w ->
  rel (Heap.mem w) p q -> rel (Heap.mem w) rootH root ->
  rel (Heap.mem w) (Heap.mt w) (treeBytes (Heap.mem w) (Heap.mt w)) ->
  exists w', Heap.Verify (Some b) (Some p) rootH h w
             = Heap.Done (@Verify B (contents mX) (Some b) (Some q) root h) w'.
Proof.
  intros Hpl HX Hp Hroot Hw.
  pose proof (Verify_sim (Heap.mem w) mX (Some b) (Some p) (Some q) rootH root h
                ltac:(by intros x [= <-]) HX ltac:(by constructor) Hroot
                w (mkWorld (treeBytes (Heap.mem w) (Heap.mt w)) (Heap.draws w))
                ltac:(reflexivity) (conj Hw eq_refl)) as Hs.
  destruct (Heap.Verify _ _ _ _ w) as [[v e] w'|why]; [|discriminate Hs].
  destruct Hs as ([v' e'] & w2 & E & _ & _ & [Hv He]). cbn [fst snd] in *.
  change (v = v') in Hv. change (e = e') in He. subst v' e'.
  injection E as <- _. by exists w'.
Qed.

(* ===================================================================== *)
(** ** Further properties of the code *)

Lemma tree_echo_built mode :
  mode = ModeProofGen \/ mode = ModeTreeBuild \/ mode = ModeProofGenAndTreeBuild ->
  New noRandom (Some (configOf (Some echo) mode)) [blockA; blockB; blockC]
  = Returned (Some (tree_echo mode)) None.
Proof.
  intros Hmode. apply succeeded_treeOf.
  destruct Hmode as [-> | [-> | ->]]; vm_compute; reflexivity.
Qed.

Lemma tree_abc_built :
  New noRandom None [blockA; blockB; blockC] = Returned (Some tree_abc) None.
Proof. apply succeeded_treeOf. vm_compute. reflexivity. Qed.

(** On bytes: the leaves of a tree that [New] returns without an error are the
    serialized blocks, none of which failed to serialize: in the order of
    the blocks when [SortLeaves] is off, and sorted by [bytes.Compare]
    when it is on. *)
Lemma New_leaves_serialized {B} `{DataBlock B} rnd cfg (blocks : list B) m :
  New rnd cfg blocks = Returned (Some m) None ->
  Forall serializes blocks /\
  Permutation (Leaves m) (serialized <$> blocks) /\
  (sortLeavesOf cfg = false -> Leaves m = serialized <$> blocks) /\
  (sortLeavesOf cfg = true -> Sorted notBefore (Leaves m)).
Proof.
  intros Hnew. apply New_frame in Hnew as (_ & leaves & e & El & (_ & _ & HL) & He & _).
  rewrite (He eq_refl) in El. apply leafGen_result in El as [Hall Hl].
  simpl in Hl. rewrite normalize_SortLeaves in Hl. rewrite HL.
  split; [done|]. destruct (sortLeavesOf cfg); subst leaves.
  - split_and!; [apply sortSlice_perm | done | intros _; apply sortSlice_Sorted].
  - split_and!; done.
Qed.

(** X1: when the slices of the blocks have no spare capacity, the leaves
    of a tree that [New] returns without an error hold the bytes of the
    blocks, none of which failed to serialize: in the order of the blocks
    when [SortLeaves] is off, and sorted by [bytes.Compare] when it is on;
    the memory of the caller is left as it was, with new memory after it. *)
Theorem X1_leaves_are_serialized_blocks {B} `{Heap.DataBlock B}
    rnd cfg (blocks : list B) mem m mem' :
  Forall (placed mem) blocks ->
  Heap.New rnd cfg blocks mem = Heap.Returned (Some m) None mem' ->
  mem `prefix_of` mem' /\
  Forall (fun b => (Heap.Serialize b).2 = None) blocks /\
  Permutation (Leaves (treeBytes mem' m)) (bytesOf mem <$> blocks) /\
  (sortLeavesOf cfg = false -> Leaves (treeBytes mem' m) = bytesOf mem <$> blocks) /\
  (sortLeavesOf cfg = true -> Sorted notBefore (Leaves (treeBytes mem' m))).
Proof.
  intros Hplaced Hnew.
  destruct (New_bytes rnd cfg blocks mem m None mem' Hplaced Hnew) as (Hext & _ & Hpure).
  destruct (@New_leaves_serialized B (contents mem') rnd cfg blocks _ Hpure)
    as (Hser & Hperm & Hoff & Hon).
  assert (Hsame : @serialized B (contents mem') <$> blocks = bytesOf mem <$> blocks).
  { apply Forall_fmap_ext. rewrite Forall_forall. intros b Hb.
    rewrite Forall_forall in Hplaced, Hser.
    destruct (Hplaced b Hb (Hser b Hb)) as [Hv _].
    unfold serialized, bytesOf. simpl. by apply read_extends. }
  rewrite Hsame in Hperm, Hoff. done.
Qed.

Lemma X1_witness :
  Forall (placed memory_abc) [windowA; windowB; windowC] /\
  Heap.New noRandom (Some (configOf (Some echo) ModeProofGen))
    [windowA; windowB; windowC] memory_abc
  = Heap.Returned (Some (Heap.treeOf (slices_echo ModeProofGen))) None
      (Heap.memOf (slices_echo ModeProofGen)) /\
  memory_abc `prefix_of` Heap.memOf (slices_echo ModeProofGen) /\
  Forall (fun b => (Heap.Serialize b).2 = None) [windowA; windowB; windowC] /\
  Permutation
    (Leaves (treeBytes (Heap.memOf (slices_echo ModeProofGen))
               (Heap.treeOf (slices_echo ModeProofGen))))
    (bytesOf memory_abc <$> [windowA; windowB; windowC]) /\
  (sortLeavesOf (Some (configOf (Some echo) ModeProofGen)) = false ->
   Leaves (treeBytes (Heap.memOf (slices_echo ModeProofGen))
             (Heap.treeOf (slices_echo ModeProofGen)))
   = bytesOf memory_abc <$> [windowA; windowB; windowC]) /\
  (sortLeavesOf (Some (configOf (Some echo) ModeProofGen)) = true ->
   Sorted notBefore
     (Leaves (treeBytes (Heap.memOf (slices_echo ModeProofGen))
                (Heap.treeOf (slices_echo ModeProofGen))))).
Proof.
  assert (Hpl := windows_placed memory_abc ltac:(reflexivity)).
  assert (Hnew := slices_echo_built ModeProofGen (or_introl eq_refl)).
  split; [exact Hpl|]. split; [exact Hnew|].
  exact (X1_leaves_are_serialized_blocks noRandom _ _ memory_abc _ _ Hpl Hnew).
Defined.

(** X2: in the modes that build the tree it has [Depth] levels; the
    level [j] has an even number of nodes, enough to cover the leaves in
    groups of [2 ^ j] and less than one pair more; the lowest level is the
    leaves followed by at most one node of padding, which under the
    duplication policy is the last leaf. *)
Theorem X2_tree_levels {B} `{DataBlock B} rnd cfg (blocks : list B) m :
  New rnd cfg blocks = Returned (Some m) None ->
  modeOf cfg = ModeTreeBuild \/ modeOf cfg = ModeProofGenAndTreeBuild ->
  (Z.of_nat (length blocks) < 2 ^ 63)%Z ->
  length (tree m) = Z.to_nat (Depth m) /\
  levelsTight (length blocks) (tree m) (Z.to_nat (Depth m)) /\
  exists pad, tree m !! 0 = Some (Leaves m ++ pad) /\ length pad <= 1 /\
    (noDuplicateOddNode cfg = false -> forall x, pad = [x] -> last (Leaves m) = Some x).
Proof.
  intros Hnew Hmode Hbound.
  destruct (New_wellFormed rnd cfg blocks m Hnew Hmode Hbound)
    as (Hc & _ & Hlen & [HlenT Htight _ Hpad _] & _).
  rewrite Hlen in Htight. rewrite Hc, normalize_NoDuplicates in Hpad. done.
Qed.

Lemma X2_witness :
  New noRandom (Some (configOf (Some echo) ModeTreeBuild)) [blockA; blockB; blockC]
  = Returned (Some (tree_echo ModeTreeBuild)) None /\
  (modeOf (Some (configOf (Some echo) ModeTreeBuild)) = ModeTreeBuild \/
   modeOf (Some (configOf (Some echo) ModeTreeBuild)) = ModeProofGenAndTreeBuild) /\
  (Z.of_nat (length [blockA; blockB; blockC]) < 2 ^ 63)%Z /\
  length (tree (tree_echo ModeTreeBuild)) = Z.to_nat (Depth (tree_echo ModeTreeBuild)) /\
  levelsTight (length [blockA; blockB; blockC]) (tree (tree_echo ModeTreeBuild))
    (Z.to_nat (Depth (tree_echo ModeTreeBuild))) /\
  exists pad, tree (tree_echo ModeTreeBuild) !! 0
              = Some (Leaves (tree_echo ModeTreeBuild) ++ pad) /\ length pad <= 1 /\
    (noDuplicateOddNode (Some (configOf (Some echo) ModeTreeBuild)) = false ->
     forall x, pad = [x] -> last (Leaves (tree_echo ModeTreeBuild)) = Some x).
Proof.
  assert (Hnew := tree_echo_built ModeTreeBuild (or_intror (or_introl eq_refl))).
  split; [exact Hnew|]. split; [left; reflexivity|]. split; [simpl; lia|].
  apply (X2_tree_levels noRandom _ [blockA; blockB; blockC] _ Hnew);
    [left; reflexivity | simpl; lia].
Defined.

(** On bytes: every node above the lowest level is made from the pair below
    it: a pair of identical nodes is handed up unhashed, any other pair is
    hashed, smaller node first when [SortPairs] is set. *)
Lemma New_levels_linked {B} `{DataBlock B} rnd cfg (blocks : list B) m :
  New rnd cfg blocks = Returned (Some m) None ->
  modeOf cfg = ModeTreeBuild \/ modeOf cfg = ModeProofGenAndTreeBuild ->
  (Z.of_nat (length blocks) < 2 ^ 63)%Z ->
  levelsLinked (sortPairsOf cfg) (hashOf cfg) (tree m) (Z.to_nat (Depth m)).
Proof.
  intros Hnew Hmode Hbound.
  by destruct (New_wellFormed rnd cfg blocks m Hnew Hmode Hbound)
    as (_ & _ & _ & [_ _ Hlink _ _] & _).
Qed.

(** X3: when the slices of the blocks have no spare capacity, every node
    above the lowest level is made from the pair below it: a pair of nodes
    with the same bytes is handed up unhashed, any other pair is hashed,
    smaller node first when [SortPairs] is set. *)
Theorem X3_tree_levels_linked {B} `{Heap.DataBlock B} rnd cfg (blocks : list B) mem m mem' :
  Forall (placed mem) blocks ->
  Heap.New rnd cfg blocks mem = Heap.Returned (Some m) None mem' ->
  modeOf cfg = ModeTreeBuild \/ modeOf cfg = ModeProofGenAndTreeBuild ->
  (Z.of_nat (length blocks) < 2 ^ 63)%Z ->
  levelsLinked (sortPairsOf cfg) (hashOf cfg) (tree (treeBytes mem' m))
    (Z.to_nat (Heap.Depth m)).
Proof.
  intros Hplaced Hnew Hmode Hbound.
  destruct (New_bytes rnd cfg blocks mem m None mem' Hplaced Hnew) as (_ & _ & Hpure).
  exact (@New_levels_linked B (contents mem') rnd cfg blocks _ Hpure Hmode Hbound).
Qed.

Lemma X3_witness :
  Forall (placed memory_abc) [windowA; windowB; windowC] /\
  Heap.New noRandom (Some (configOf (Some echo) ModeTreeBuild))
    [windowA; windowB; windowC] memory_abc
  = Heap.Returned (Some (Heap.treeOf (slices_echo ModeTreeBuild))) None
      (Heap.memOf (slices_echo ModeTreeBuild)) /\
  (modeOf (Some (configOf (Some echo) ModeTreeBuild)) = ModeTreeBuild \/
   modeOf (Some (configOf (Some echo) ModeTreeBuild)) = ModeProofGenAndTreeBuild) /\
  (Z.of_nat (length [windowA; windowB; windowC]) < 2 ^ 63)%Z /\
  levelsLinked (sortPairsOf (Some (configOf (Some echo) ModeTreeBuild)))
    (hashOf (Some (configOf (Some echo) ModeTreeBuild)))
    (tree (treeBytes (Heap.memOf (slices_echo ModeTreeBuild))
             (Heap.treeOf (slices_echo ModeTreeBuild))))
    (Z.to_nat (Heap.Depth (Heap.treeOf (slices_echo ModeTreeBuild)))).
Proof.
  assert (Hpl := windows_placed memory_abc ltac:(reflexivity)).
  assert (Hnew := slices_echo_built ModeTreeBuild (or_intror (or_introl eq_refl))).
  split; [exact Hpl|]. split; [exact Hnew|]. split; [left; reflexivity|].
  split; [simpl; lia|].
  apply (X3_tree_levels_linked noRandom _ _ memory_abc _ _ Hpl Hnew);
    [left; reflexivity | simpl; lia].
Defined.

(** On bytes: the top level of the tree has exactly two nodes, and the root is
    the hash of the first followed by the second. *)
Lemma New_root_top_level {B} `{DataBlock B} rnd cfg (blocks : list B) m :
  New rnd cfg blocks = Returned (Some m) None ->
  modeOf cfg = ModeTreeBuild \/ modeOf cfg = ModeProofGenAndTreeBuild ->
  (Z.of_nat (length blocks) < 2 ^ 63)%Z ->
  exists a b, tree m !! (Z.to_nat (Depth m) - 1) = Some [a; b] /\
              hashOf cfg (a ++ b) = (Root m, None).
Proof.
  intros Hnew Hmode Hbound.
  by destruct (New_wellFormed rnd cfg blocks m Hnew Hmode Hbound)
    as (_ & _ & _ & [_ _ _ _ Hroot] & _).
Qed.

(** X4: when the slices of the blocks have no spare capacity, the top
    level of the tree has exactly two nodes, and the root holds the hash of
    the bytes of the first followed by those of the second. *)
Theorem X4_root_hashes_top_level {B} `{Heap.DataBlock B} rnd cfg (blocks : list B) mem m mem' :
  Forall (placed mem) blocks ->
  Heap.New rnd cfg blocks mem = Heap.Returned (Some m) None mem' ->
  modeOf cfg = ModeTreeBuild \/ modeOf cfg = ModeProofGenAndTreeBuild ->
  (Z.of_nat (length blocks) < 2 ^ 63)%Z ->
  exists a b, Heap.tree m !! (Z.to_nat (Heap.Depth m) - 1) = Some [a; b] /\
              hashOf cfg (Heap.read mem' a ++ Heap.read mem' b)
              = (Heap.read mem' (Heap.Root m), None).
Proof.
  intros Hplaced Hnew Hmode Hbound.
  destruct (New_bytes rnd cfg blocks mem m None mem' Hplaced Hnew) as (_ & _ & Hpure).
  destruct (@New_root_top_level B (contents mem') rnd cfg blocks _ Hpure Hmode Hbound)
    as (a & b & Htop & Hroot).
  unfold treeBytes in Htop. cbn [tree Depth] in Htop.
  rewrite list_lookup_fmap in Htop.
  destruct (Heap.tree m !! (Z.to_nat (Heap.Depth m) - 1)) as [[|x [|y [|z lvl]]]|];
    try discriminate Htop.
  injection Htop as <- <-. by exists x, y.
Qed.

Lemma X4_witness :
  Forall (placed memory_abc) [windowA; windowB; windowC] /\
  Heap.New noRandom (Some (configOf (Some echo) ModeProofGenAndTreeBuild))
    [windowA; windowB; windowC] memory_abc
  = Heap.Returned (Some (Heap.treeOf (slices_echo ModeProofGenAndTreeBuild))) None
      (Heap.memOf (slices_echo ModeProofGenAndTreeBuild)) /\
  (modeOf (Some (configOf (Some echo) ModeProofGenAndTreeBuild)) = ModeTreeBuild \/
   modeOf (Some (configOf (Some echo) ModeProofGenAndTreeBuild)) = ModeProofGenAndTreeBuild) /\
  (Z.of_nat (length [windowA; windowB; windowC]) < 2 ^ 63)%Z /\
  exists a b,
    Heap.tree (Heap.treeOf (slices_echo ModeProofGenAndTreeBuild))
      !! (Z.to_nat (Heap.Depth (Heap.treeOf (slices_echo ModeProofGenAndTreeBuild))) - 1)
    = Some [a; b] /\
    hashOf (Some (configOf (Some echo) ModeProofGenAndTreeBuild))
      (Heap.read (Heap.memOf (slices_echo ModeProofGenAndTreeBuild)) a ++
       Heap.read (Heap.memOf (slices_echo ModeProofGenAndTreeBuild)) b)
    = (Heap.read (Heap.memOf (slices_echo ModeProofGenAndTreeBuild))
         (Heap.Root (Heap.treeOf (slices_echo ModeProofGenAndTreeBuild))), None).
Proof.
  assert (Hpl := windows_placed memory_abc ltac:(reflexivity)).
  assert (Hnew := slices_echo_built ModeProofGenAndTreeBuild
                    (or_intror (or_intror eq_refl))).
  split; [exact Hpl|]. split; [exact Hnew|]. split; [right; reflexivity|].
  split; [simpl; lia|].
  apply (X4_root_hashes_top_level noRandom _ _ memory_abc _ _ Hpl Hnew);
    [right; reflexivity | simpl; lia].
Defined.

(** On bytes: the leaf index built by [treeBuild] maps every leaf to its last
    position among the leaves, and holds nothing else. *)
Lemma New_leafMap_last {B} `{DataBlock B} rnd cfg (blocks : list B) m l i :
  New rnd cfg blocks = Returned (Some m) None ->
  modeOf cfg = ModeTreeBuild \/ modeOf cfg = ModeProofGenAndTreeBuild ->
  (Z.of_nat (length blocks) < 2 ^ 63)%Z ->
  leafMap m !! l = Some i <-> lastIndexOf (Leaves m) l i.
Proof.
  intros Hnew Hmode Hbound.
  destruct (New_wellFormed rnd cfg blocks m Hnew Hmode Hbound) as (_ & _ & _ & _ & Hmap & _).
  apply Hmap.
Qed.

(** X5: when the slices of the blocks have no spare capacity, the leaf
    index built by [treeBuild] maps the bytes of every leaf to the last
    position at which a leaf holds them, and holds nothing else. *)
Theorem X5_leafMap_last_position {B} `{Heap.DataBlock B}
    rnd cfg (blocks : list B) mem m mem' l i :
  Forall (placed mem) blocks ->
  Heap.New rnd cfg blocks mem = Heap.Returned (Some m) None mem' ->
  modeOf cfg = ModeTreeBuild \/ modeOf cfg = ModeProofGenAndTreeBuild ->
  (Z.of_nat (length blocks) < 2 ^ 63)%Z ->
  Heap.leafMap m !! l = Some i <-> lastIndexOf (Leaves (treeBytes mem' m)) l i.
Proof.
  intros Hplaced Hnew Hmode Hbound.
  destruct (New_bytes rnd cfg blocks mem m None mem' Hplaced Hnew) as (_ & _ & Hpure).
  exact (@New_leafMap_last B (contents mem') rnd cfg blocks _ l i Hpure Hmode Hbound).
Qed.

Lemma X5_witness :
  Forall (placed memory_abc) [windowA; windowB; windowC] /\
  Heap.New noRandom (Some (configOf (Some echo) ModeTreeBuild))
    [windowA; windowB; windowC] memory_abc
  = Heap.Returned (Some (Heap.treeOf (slices_echo ModeTreeBuild))) None
      (Heap.memOf (slices_echo ModeTreeBuild)) /\
  (modeOf (Some (configOf (Some echo) ModeTreeBuild)) = ModeTreeBuild \/
   modeOf (Some (configOf (Some echo) ModeTreeBuild)) = ModeProofGenAndTreeBuild) /\
  (Z.of_nat (length [windowA; windowB; windowC]) < 2 ^ 63)%Z /\
  (Heap.leafMap (Heap.treeOf (slices_echo ModeTreeBuild)) !! ["b"%byte] = Some 1 <->
   lastIndexOf
     (Leaves (treeBytes (Heap.memOf (slices_echo ModeTreeBuild))
                (Heap.treeOf (slices_echo ModeTreeBuild)))) ["b"%byte] 1).
Proof.
  assert (Hpl := windows_placed memory_abc ltac:(reflexivity)).
  assert (Hnew := slices_echo_built ModeTreeBuild (or_intror (or_introl eq_refl))).
  split; [exact Hpl|]. split; [exact Hnew|]. split; [left; reflexivity|].
  split; [simpl; lia|].
  apply (X5_leafMap_last_position noRandom _ _ memory_abc _ _ _ _ Hpl Hnew);
    [left; reflexivity | simpl; lia].
Defined.

(** On bytes: in [ModeProofGen], over at most 2^32 blocks, the proof generated
    for the leaf [i] makes [Verify] accept, against the root and with the
    hash function of the tree, every block whose hash is that leaf. *)
Lemma New_proof_verifies {B} `{DataBlock B}
    rnd cfg (blocks : list B) m i l p (b : B) :
  New rnd cfg blocks = Returned (Some m) None ->
  modeOf cfg = ModeProofGen ->
  (Z.of_nat (length blocks) <= 2 ^ 32)%Z ->
  Leaves m !! i = Some l -> Proofs m !! i = Some p ->
  serializes b -> hashOf cfg (serialized b) = (l, None) ->
  Verify (Some b) (Some p) (Root m) (HashFunc (config m)) = (true, None).
Proof.
  intros Hnew Hmode Hbound Hl Hp Hser Hhash.
  pose proof Hnew as Hfr. apply New_frame in Hfr as (_ & _ & _ & _ & (Hc & _ & _) & _).
  apply New_run in Hnew as (leaves & Hlen & Hll & _ & _ & Hrun).
  destruct Hrun as [[_ (w & Egen & <-)] | [[Hm _] | [Hm _]]];
    [ | rewrite Hm in Hmode; discriminate ..].
  assert (HL : Leaves (mt w) = leaves).
  { refine (keeps_proofGen (fun m => Leaves m = leaves) rnd _ _ _ None w Egen eq_refl); done. }
  rewrite HL in Hl.
  destruct (proofGen_sound rnd _ w (hashOf cfg) Egen (normalize_hashOf cfg)) with (i := i) (l := l)
    as (p' & Hp' & Hclimb).
  - pose proof (calTreeDepth_range (Z.of_nat (length blocks)) ltac:(lia)).
    pose proof (depth_small (length blocks) Hlen Hbound).
    cbn [started mt Depth with_Leaves with_Depth]. lia.
  - cbn [started mt Depth Leaves with_Leaves with_Depth]. rewrite Hll.
    apply depth_covers; [done | lia].
  - done.
  - rewrite Hp in Hp'. injection Hp' as <-.
    rewrite Hc, normalize_hashOf, Verify_unfold.
    unfold serializes in Hser. unfold serialized in Hhash.
    destruct (Serialize b) as [data err]. cbn [fst snd] in *. subst err.
    rewrite Hhash. by apply verifyLoop_climb.
Qed.

(** X6: in [ModeProofGen], over at most 2^32 blocks whose slices have no
    spare capacity, the proof generated for the leaf [i] makes [Verify],
    called in the memory that [New] left, accept against the root and with
    the hash function of the tree every block whose hash is the bytes of
    that leaf. *)
Theorem X6_Verify_accepts_generated_proof {B} `{Heap.DataBlock B}
    rnd cfg (blocks : list B) mem m mem' i l p (b : B) :
  Forall (placed mem) blocks ->
  Heap.New rnd cfg blocks mem = Heap.Returned (Some m) None mem' ->
  modeOf cfg = ModeProofGen ->
  (Z.of_nat (length blocks) <= 2 ^ 32)%Z ->
  Heap.Leaves m !! i = Some l -> Heap.Proofs m !! i = Some p ->
  placed mem' b -> (Heap.Serialize b).2 = None ->
  hashOf cfg (bytesOf mem' b) = (Heap.read mem' l, None) ->
  exists w, Heap.Verify (Some b) (Some p) (Heap.Root m) (HashFunc (Heap.config m))
              (called m mem')
            = Heap.Done (true, None) w.
Proof.
  intros Hplaced Hnew Hmode Hbound Hl Hp Hb Hser Hhash.
  destruct (New_bytes rnd cfg blocks mem m None mem' Hplaced Hnew) as (_ & Hrel & Hpure).
  destruct (rel_tree_proof mem' m i p Hrel Hp) as [Hpq Hq].
  pose proof (@New_proof_verifies B (contents mem') rnd cfg blocks _ i _ _ b
                Hpure Hmode Hbound (tree_leaf_bytes mem' m i l Hl) Hq Hser Hhash) as Hv.
  destruct (Verify_bytes mem' b p (proofBytes mem' p) (Heap.Root m)
              (Root (treeBytes mem' m)) (HashFunc (Heap.config m)) (called m mem')
              Hb ltac:(reflexivity) Hpq (rel_tree_root mem' m Hrel) Hrel) as [w Hw].
  exists w. rewrite Hw. f_equal. exact Hv.
Qed.

Lemma X6_witness :
  Forall (placed memory_abc) [windowA; windowB; windowC] /\
  Heap.New noRandom (Some (configOf (Some echo) ModeProofGen))
    [windowA; windowB; windowC] memory_abc
  = Heap.Returned (Some (Heap.treeOf (slices_echo ModeProofGen))) None
      (Heap.memOf (slices_echo ModeProofGen)) /\
  modeOf (Some (configOf (Some echo) ModeProofGen)) = ModeProofGen /\
  (Z.of_nat (length [windowA; windowB; windowC]) <= 2 ^ 32)%Z /\
  Heap.Leaves (Heap.treeOf (slices_echo ModeProofGen)) !! 0 = Some (Heap.Slice 0 1 1) /\
  Heap.Proofs (Heap.treeOf (slices_echo ModeProofGen)) !! 0
  = Some (Heap.mkProof [Heap.Slice 1 1 1; Heap.Slice 9 2 2] 3) /\
  placed (Heap.memOf (slices_echo ModeProofGen)) windowA /\
  (Heap.Serialize windowA).2 = None /\
  hashOf (Some (configOf (Some echo) ModeProofGen))
    (bytesOf (Heap.memOf (slices_echo ModeProofGen)) windowA)
  = (Heap.read (Heap.memOf (slices_echo ModeProofGen)) (Heap.Slice 0 1 1), None) /\
  exists w,
    Heap.Verify (Some windowA) (Some (Heap.mkProof [Heap.Slice 1 1 1; Heap.Slice 9 2 2] 3))
      (Heap.Root (Heap.treeOf (slices_echo ModeProofGen)))
      (HashFunc (Heap.config (Heap.treeOf (slices_echo ModeProofGen))))
      (called (Heap.treeOf (slices_echo ModeProofGen)) (Heap.memOf (slices_echo ModeProofGen)))
    = Heap.Done (true, None) w.
Proof.
  assert (Hpl := windows_placed memory_abc ltac:(reflexivity)).
  assert (Hnew := slices_echo_built ModeProofGen (or_introl eq_refl)).
  assert (Hl : Heap.Leaves (Heap.treeOf (slices_echo ModeProofGen)) !! 0
               = Some (Heap.Slice 0 1 1)) by (vm_compute; reflexivity).
  assert (Hp : Heap.Proofs (Heap.treeOf (slices_echo ModeProofGen)) !! 0
               = Some (Heap.mkProof [Heap.Slice 1 1 1; Heap.Slice 9 2 2] 3))
    by (vm_compute; reflexivity).
  assert (Hb : placed (Heap.memOf (slices_echo ModeProofGen)) windowA).
  { pose proof (windows_placed _ (slices_echo_memory ModeProofGen (or_introl eq_refl))) as HF.
    by apply Forall_cons in HF as [HA _]. }
  assert (Hh : hashOf (Some (configOf (Some echo) ModeProofGen))
                 (bytesOf (Heap.memOf (slices_echo ModeProofGen)) windowA)
               = (Heap.read (Heap.memOf (slices_echo ModeProofGen)) (Heap.Slice 0 1 1), None))
    by (vm_compute; reflexivity).
  split; [exact Hpl|]. split; [exact Hnew|]. split; [reflexivity|]. split; [simpl; lia|].
  split; [exact Hl|]. split; [exact Hp|]. split; [exact Hb|]. split; [reflexivity|].
  split; [exact Hh|].
  apply (X6_Verify_accepts_generated_proof noRandom _ _ memory_abc _ _ 0
           (Heap.Slice 0 1 1) (Heap.mkProof [Heap.Slice 1 1 1; Heap.Slice 9 2 2] 3) windowA
           Hpl Hnew);
    [reflexivity | simpl; lia | exact Hl | exact Hp | exact Hb | reflexivity | exact Hh].
Defined.

(** X7: in [ModeProofGenAndTreeBuild] the proof of the leaf [i] holds, at
    every level [s], the neighbour of the node above the leaf; and over at
    most 2^32 blocks the bit [s] of its path tells whether that node has an
    even index. *)
Theorem X7_streamed_proofs_hold_neighbours {B} `{DataBlock B}
    rnd cfg (blocks : list B) m i p s :
  New rnd cfg blocks = Returned (Some m) None ->
  modeOf cfg = ModeProofGenAndTreeBuild ->
  (Z.of_nat (length blocks) < 2 ^ 63)%Z ->
  Proofs m !! i = Some p -> s < Z.to_nat (Depth m) ->
  exists lvl x, tree m !! s = Some lvl /\ lvl !! neighbour (i / 2 ^ s) = Some x /\
                Siblings p !! s = Some x /\
                ((Depth m <= 32)%Z ->
                 Z.testbit (Path p) (Z.of_nat s) = Nat.even (i / 2 ^ s)).
Proof.
  intros Hnew Hmode Hbound Hp Hs.
  destruct (New_proofAt rnd cfg blocks m Hnew Hmode Hbound) as [Hlen Hall].
  apply lookup_lt_Some in Hp as Hi. rewrite Hlen in Hi.
  destruct (Hall i Hi) as [Hpa _]. rewrite Hp in Hpa. symmetry in Hpa.
  destruct (proofAt_siblings _ _ _ _ Hpa s Hs) as (lvl & x & H1 & H2 & H3).
  exists lvl, x. split_and!; try done. intros HD.
  destruct (proofAt_path (tree m) i (Z.to_nat (Depth m)) p ltac:(lia) Hpa) as [_ Hbits].
  by apply Hbits.
Qed.

Lemma X7_witness :
  New noRandom (Some (configOf (Some echo) ModeProofGenAndTreeBuild)) [blockA; blockB; blockC]
  = Returned (Some (tree_echo ModeProofGenAndTreeBuild)) None /\
  modeOf (Some (configOf (Some echo) ModeProofGenAndTreeBuild)) = ModeProofGenAndTreeBuild /\
  (Z.of_nat (length [blockA; blockB; blockC]) < 2 ^ 63)%Z /\
  Proofs (tree_echo ModeProofGenAndTreeBuild) !! 2 = Some (mkProof [["c"]; ["a"; "b"]]%byte 1) /\
  1 < Z.to_nat (Depth (tree_echo ModeProofGenAndTreeBuild)) /\
  exists lvl x,
    tree (tree_echo ModeProofGenAndTreeBuild) !! 1 = Some lvl /\
    lvl !! neighbour (2 / 2 ^ 1) = Some x /\
    Siblings (mkProof [["c"]; ["a"; "b"]]%byte 1) !! 1 = Some x /\
    ((Depth (tree_echo ModeProofGenAndTreeBuild) <= 32)%Z ->
     Z.testbit (Path (mkProof [["c"]; ["a"; "b"]]%byte 1)) (Z.of_nat 1) = Nat.even (2 / 2 ^ 1)).
Proof.
  assert (Hnew := tree_echo_built ModeProofGenAndTreeBuild (or_intror (or_intror eq_refl))).
  assert (Hp : Proofs (tree_echo ModeProofGenAndTreeBuild) !! 2
               = Some (mkProof [["c"]; ["a"; "b"]]%byte 1)) by (vm_compute; reflexivity).
  assert (Hs : 1 < Z.to_nat (Depth (tree_echo ModeProofGenAndTreeBuild)))
    by (vm_compute; lia).
  split; [exact Hnew|]. split; [reflexivity|]. split; [simpl; lia|].
  split; [exact Hp|]. split; [exact Hs|].
  apply (X7_streamed_proofs_hold_neighbours noRandom _ [blockA; blockB; blockC] _ 2 _ 1 Hnew);
    [reflexivity | simpl; lia | exact Hp | exact Hs].
Defined.

(** X8: in [ModeProofGenAndTreeBuild], a proof that [GenerateProof]
    returns is the proof stored in [Proofs] at the index it found for the
    hash of the block. *)
Theorem X8_GenerateProof_returns_streamed_proof {B} `{DataBlock B}
    rnd cfg (blocks : list B) m (b : B) p :
  New rnd cfg blocks = Returned (Some m) None ->
  modeOf cfg = ModeProofGenAndTreeBuild ->
  (Z.of_nat (length blocks) < 2 ^ 63)%Z ->
  generateProofOn m b = Some (Some p, None) ->
  exists idx, leafMap m !! (hashOf cfg (serialized b)).1 = Some idx /\
              Proofs m !! idx = Some p.
Proof.
  intros Hnew Hmode Hbound Hgen.
  destruct (New_wellFormed rnd cfg blocks m Hnew (or_intror Hmode) Hbound)
    as (Hc & _ & Hlen & _ & Hmap & _).
  destruct (New_proofAt rnd cfg blocks m Hnew Hmode Hbound) as [_ Hall].
  apply (GenerateProof_spec m b (hashOf cfg)) in Hgen as (_ & _ & _ & idx & Hidx & Hpa);
    [|by rewrite Hc, normalize_hashOf].
  exists idx. split; [done|].
  apply Hmap in Hidx as [Hidx _]. apply lookup_lt_Some in Hidx. rewrite Hlen in Hidx.
  destruct (Hall idx Hidx) as [-> _]. done.
Qed.

Lemma X8_witness :
  New noRandom (Some (configOf (Some echo) ModeProofGenAndTreeBuild)) [blockA; blockB; blockC]
  = Returned (Some (tree_echo ModeProofGenAndTreeBuild)) None /\
  modeOf (Some (configOf (Some echo) ModeProofGenAndTreeBuild)) = ModeProofGenAndTreeBuild /\
  (Z.of_nat (length [blockA; blockB; blockC]) < 2 ^ 63)%Z /\
  generateProofOn (tree_echo ModeProofGenAndTreeBuild) blockA
  = Some (Some (mkProof [["b"]; ["c"]]%byte 3), None) /\
  exists idx,
    leafMap (tree_echo ModeProofGenAndTreeBuild)
      !! (hashOf (Some (configOf (Some echo) ModeProofGenAndTreeBuild)) (serialized blockA)).1
    = Some idx /\
    Proofs (tree_echo ModeProofGenAndTreeBuild) !! idx = Some (mkProof [["b"]; ["c"]]%byte 3).
Proof.
  assert (Hnew := tree_echo_built ModeProofGenAndTreeBuild (or_intror (or_intror eq_refl))).
  assert (Hgen : generateProofOn (tree_echo ModeProofGenAndTreeBuild) blockA
                 = Some (Some (mkProof [["b"]; ["c"]]%byte 3), None))
    by (vm_compute; reflexivity).
  split; [exact Hnew|]. split; [reflexivity|]. split; [simpl; lia|]. split; [exact Hgen|].
  apply (X8_GenerateProof_returns_streamed_proof noRandom _ [blockA; blockB; blockC] _ _ _ Hnew);
    [reflexivity | simpl; lia | exact Hgen].
Defined.

(** X9: in the modes that build the tree, a proof that [GenerateProof]
    returns has [Depth] siblings: at every level the neighbour of the node
    above the leaf it found for the hash of the block; and over at most
    2^32 blocks the bit [s] of the path tells whether that node has an even
    index. *)
Theorem X9_GenerateProof_walks_the_levels {B} `{DataBlock B}
    rnd cfg (blocks : list B) m (b : B) p :
  New rnd cfg blocks = Returned (Some m) None ->
  modeOf cfg = ModeTreeBuild \/ modeOf cfg = ModeProofGenAndTreeBuild ->
  (Z.of_nat (length blocks) < 2 ^ 63)%Z ->
  generateProofOn m b = Some (Some p, None) ->
  exists idx,
    leafMap m !! (hashOf cfg (serialized b)).1 = Some idx /\
    length (Siblings p) = Z.to_nat (Depth m) /\
    forall s, s < Z.to_nat (Depth m) ->
      exists lvl x, tree m !! s = Some lvl /\ lvl !! neighbour (idx / 2 ^ s) = Some x /\
                    Siblings p !! s = Some x /\
                    ((Depth m <= 32)%Z ->
                     Z.testbit (Path p) (Z.of_nat s) = Nat.even (idx / 2 ^ s)).
Proof.
  intros Hnew Hmode Hbound Hgen.
  destruct (New_wellFormed rnd cfg blocks m Hnew Hmode Hbound) as (Hc & _ & _ & _ & _).
  apply (GenerateProof_spec m b (hashOf cfg)) in Hgen as (_ & _ & _ & idx & Hidx & Hpa);
    [|by rewrite Hc, normalize_hashOf].
  exists idx. split_and!; [done | by eapply proofAt_length |].
  intros s Hs. destruct (proofAt_siblings _ _ _ _ Hpa s Hs) as (lvl & x & H1 & H2 & H3).
  exists lvl, x. split_and!; try done. intros HD.
  destruct (proofAt_path (tree m) idx (Z.to_nat (Depth m)) p ltac:(lia) Hpa) as [_ Hbits].
  by apply Hbits.
Qed.

Lemma X9_witness :
  New noRandom (Some (configOf (Some echo) ModeTreeBuild)) [blockA; blockB; blockC]
  = Returned (Some (tree_echo ModeTreeBuild)) None /\
  (modeOf (Some (configOf (Some echo) ModeTreeBuild)) = ModeTreeBuild \/
   modeOf (Some (configOf (Some echo) ModeTreeBuild)) = ModeProofGenAndTreeBuild) /\
  (Z.of_nat (length [blockA; blockB; blockC]) < 2 ^ 63)%Z /\
  generateProofOn (tree_echo ModeTreeBuild) blockB
  = Some (Some (mkProof [["a"]; ["c"]]%byte 2), None) /\
  exists idx,
    leafMap (tree_echo ModeTreeBuild)
      !! (hashOf (Some (configOf (Some echo) ModeTreeBuild)) (serialized blockB)).1
    = Some idx /\
    length (Siblings (mkProof [["a"]; ["c"]]%byte 2))
    = Z.to_nat (Depth (tree_echo ModeTreeBuild)) /\
    forall s, s < Z.to_nat (Depth (tree_echo ModeTreeBuild)) ->
      exists lvl x, tree (tree_echo ModeTreeBuild) !! s = Some lvl /\
                    lvl !! neighbour (idx / 2 ^ s) = Some x /\
                    Siblings (mkProof [["a"]; ["c"]]%byte 2) !! s = Some x /\
                    ((Depth (tree_echo ModeTreeBuild) <= 32)%Z ->
                     Z.testbit (Path (mkProof [["a"]; ["c"]]%byte 2)) (Z.of_nat s)
                     = Nat.even (idx / 2 ^ s)).
Proof.
  assert (Hnew := tree_echo_built ModeTreeBuild (or_intror (or_introl eq_refl))).
  assert (Hgen : generateProofOn (tree_echo ModeTreeBuild) blockB
                 = Some (Some (mkProof [["a"]; ["c"]]%byte 2), None))
    by (vm_compute; reflexivity).
  split; [exact Hnew|]. split; [left; reflexivity|]. split; [simpl; lia|].
  split; [exact Hgen|].
  apply (X9_GenerateProof_walks_the_levels noRandom _ [blockA; blockB; blockC] _ _ _ Hnew);
    [left; reflexivity | simpl; lia | exact Hgen].
Defined.

(** X10: [New] never panics: for every configuration, every outcome of
    the random source and every list of blocks of [int] length, no index
    is out of range and no nil function is called; the call returns. *)
Theorem X10_New_never_panics {B} `{DataBlock B} rnd cfg (blocks : list B) :
  (Z.of_nat (length blocks) < 2 ^ 63)%Z ->
  exists m err, New rnd cfg blocks = Returned m err.
Proof.
  intros Hbound. rewrite New_unfold. case_decide; [eauto|].
  pose proof (wp_buildTree rnd cfg blocks ltac:(lia) Hbound) as Hwp.
  apply wp_Done in Hwp as ([[|] err] & w & -> & _); eauto.
Qed.

Lemma X10_witness :
  (Z.of_nat (length [blockA; blockB; blockC]) < 2 ^ 63)%Z /\
  exists m err, New (constRandom x01) (Some (mkConfig None 0 ModeProofGenAndTreeBuild true true true))
                  [blockA; blockB; blockC] = Returned m err.
Proof.
  split; [simpl; lia|].
  apply (X10_New_never_panics (constRandom x01)
           (Some (mkConfig None 0 ModeProofGenAndTreeBuild true true true))
           [blockA; blockB; blockC]).
  simpl; lia.
Defined.

(** X11: [GenerateProof] never panics on a tree that [New] returned
    without an error, whatever the block. *)
Theorem X11_GenerateProof_never_panics {B} `{DataBlock B} rnd cfg (blocks : list B) m (b : B) :
  New rnd cfg blocks = Returned (Some m) None ->
  (Z.of_nat (length blocks) < 2 ^ 63)%Z ->
  exists r, generateProofOn m b = Some r.
Proof.
  intros Hnew Hbound.
  assert (Hwp : wp (GenerateProof b) (fun _ _ => True) (mkWorld m 0)).
  { pose proof Hnew as Hrun.
    apply New_run in Hrun as (leaves & _ & _ & _ & _ & Hrun).
    destruct Hrun as [[Hm _] | Hm].
    - apply New_frame in Hnew as (_ & _ & _ & _ & (Hc & _ & _) & _).
      unfold GenerateProof. eapply wp_bind_eq; [reflexivity|]. cbn [mt].
      rewrite Hc, normalize_Mode, Hm. by apply wp_ret.
    - assert (Hmode : modeOf cfg = ModeTreeBuild \/ modeOf cfg = ModeProofGenAndTreeBuild).
      { destruct Hm as [[Hm _] | [Hm _]]; auto. }
      destruct (New_wellFormed rnd cfg blocks m Hnew Hmode Hbound)
        as (Hc & _ & _ & Hwf & Hmap & _).
      apply (wp_GenerateProof (sortPairsOf cfg) (hashOf cfg)); [|done|].
      + by rewrite Hc, normalize_hashOf.
      + intros l i Hi. apply Hmap in Hi as [Hi _]. by eapply lookup_lt_Some. }
  apply wp_Done in Hwp as (r & w' & E & _). exists r. unfold generateProofOn. by rewrite E.
Qed.

Lemma X11_witness :
  New noRandom (Some (configOf (Some echo) ModeTreeBuild)) [blockA; blockB; blockC]
  = Returned (Some (tree_echo ModeTreeBuild)) None /\
  (Z.of_nat (length [blockA; blockB; blockC]) < 2 ^ 63)%Z /\
  generateProofOn (tree_echo ModeTreeBuild) blockC
  = Some (Some (mkProof [["c"]; ["a"; "b"]]%byte 1), None) /\
  exists r, generateProofOn (tree_echo ModeTreeBuild) blockC = Some r.
Proof.
  assert (Hnew := tree_echo_built ModeTreeBuild (or_intror (or_introl eq_refl))).
  split; [exact Hnew|]. split; [simpl; lia|]. split; [vm_compute; reflexivity|].
  apply (X11_GenerateProof_never_panics noRandom _ [blockA; blockB; blockC]
           (tree_echo ModeTreeBuild) blockC Hnew).
  simpl; lia.
Defined.

(** X12: on a tree built in [ModeProofGen], the default mode,
    [GenerateProof] returns no proof and the error that the tree is not
    built, for every block. *)
Theorem X12_GenerateProof_needs_a_built_tree {B} `{DataBlock B}
    rnd cfg (blocks : list B) m (b : B) :
  New rnd cfg blocks = Returned (Some m) None ->
  modeOf cfg = ModeProofGen ->
  generateProofOn m b =
  Some (None, Some "merkle Tree is not in built, could not generate proof by this method"%string).
Proof.
  intros Hnew Hmode.
  apply New_frame in Hnew as (_ & _ & _ & _ & (Hc & _ & _) & _).
  unfold generateProofOn, GenerateProof, bind, getTree. cbn [mt].
  by rewrite Hc, normalize_Mode, Hmode.
Qed.

Lemma X12_witness :
  New noRandom None [blockA; blockB; blockC] = Returned (Some tree_abc) None /\
  modeOf None = ModeProofGen /\
  generateProofOn tree_abc blockA =
  Some (None, Some "merkle Tree is not in built, could not generate proof by this method"%string).
Proof.
  split; [exact tree_abc_built|]. split; [reflexivity|].
  apply (X12_GenerateProof_needs_a_built_tree noRandom None [blockA; blockB; blockC] tree_abc
           blockA tree_abc_built).
  reflexivity.
Defined.

(** X13: when a block fails to serialize, [New] returns the error of the
    first such block, in every mode, together with a tree that holds the
    configuration and the depth and nothing else. *)
Theorem X13_New_returns_first_serialization_error {B} `{DataBlock B}
    rnd cfg (blocks : list B) i b e :
  2 <= length blocks ->
  blocks !! i = Some b -> (Serialize b).2 = Some e ->
  Forall serializes (take i blocks) ->
  New rnd cfg blocks =
  Returned (Some (with_Depth (calTreeDepth (Z.of_nat (length blocks))) (newTree (normalize cfg))))
    (Some e).
Proof.
  intros Hlen Hb He Hbefore. rewrite New_unfold.
  rewrite decide_False by lia. unfold buildTree.
  unfold bind at 1. unfold modify at 1. cbn [mt draws].
  unfold bind at 1. rewrite (leafGen_first_error blocks i b e _ Hb He Hbefore).
  reflexivity.
Qed.

Lemma X13_witness :
  2 <= length [blockA; Faulty "unreadable"; Faulty "lost"] /\
  [blockA; Faulty "unreadable"; Faulty "lost"] !! 1 = Some (Faulty "unreadable") /\
  (Serialize (Faulty "unreadable")).2 = Some "unreadable"%string /\
  Forall serializes (take 1 [blockA; Faulty "unreadable"; Faulty "lost"]) /\
  New noRandom None [blockA; Faulty "unreadable"; Faulty "lost"] =
  Returned (Some (with_Depth
                    (calTreeDepth (Z.of_nat (length [blockA; Faulty "unreadable"; Faulty "lost"])))
                    (newTree (normalize None))))
    (Some "unreadable"%string).
Proof.
  assert (Hbefore : Forall serializes (take 1 [blockA; Faulty "unreadable"; Faulty "lost"])).
  { repeat constructor. }
  split; [simpl; lia|]. split; [reflexivity|]. split; [reflexivity|]. split; [exact Hbefore|].
  apply (X13_New_returns_first_serialization_error noRandom None
           [blockA; Faulty "unreadable"; Faulty "lost"] 1 (Faulty "unreadable"));
    [simpl; lia | reflexivity | reflexivity | exact Hbefore].
Defined.

(** X14: [Verify] never accepts together with an error: whenever it
    returns an error its verdict is [false]. *)
Theorem X14_Verify_rejects_on_error {B} `{DataBlock B}
    (dataBlock : option B) proof root hashFunc e :
  (Verify dataBlock proof root hashFunc).2 = Some e ->
  (Verify dataBlock proof root hashFunc).1 = false.
Proof.
  unfold Verify. destruct dataBlock as [b|]; [|done]. destruct proof as [p|]; [|done].
  destruct (Serialize b) as [data [e'|]]; [done|].
  generalize (match hashFunc with Some h => h | None => defaultHashFunc end). intros h.
  destruct (h data) as [hash [e'|]]; [done|]. apply verifyLoop_error.
Qed.

Lemma X14_witness :
  (Verify (Some (Faulty "unreadable")) (Some (mkProof [] 0)) [] (Some echo)).2
  = Some "unreadable"%string /\
  (Verify (Some (Faulty "unreadable")) (Some (mkProof [] 0)) [] (Some echo)).1 = false.
Proof.
  split; [reflexivity|].
  apply (X14_Verify_rejects_on_error (Some (Faulty "unreadable")) (Some (mkProof [] 0)) []
           (Some echo) "unreadable"%string).
  reflexivity.
Defined.

(** X15: [Verify] reads only the bits of the path below the number of
    siblings: two proofs with the same siblings whose paths agree on those
    bits get the same answer. *)
Theorem X15_Verify_reads_low_path_bits {B} `{DataBlock B}
    (dataBlock : option B) siblings path path' root hashFunc :
  (forall t, (0 <= t < Z.of_nat (length siblings))%Z ->
     Z.testbit path t = Z.testbit path' t) ->
  Verify dataBlock (Some (mkProof siblings path)) root hashFunc
  = Verify dataBlock (Some (mkProof siblings path')) root hashFunc.
Proof.
  intros Hbits. unfold Verify. destruct dataBlock as [b|]; [|done].
  destruct (Serialize b) as [data [e'|]]; [done|].
  generalize (match hashFunc with Some h => h | None => defaultHashFunc end). intros h.
  destruct (h data) as [hash [e'|]]; [done|]. cbn [Siblings Path].
  by apply verifyLoop_ext.
Qed.

Lemma X15_witness :
  (forall t, (0 <= t < Z.of_nat (length [["b"%byte]]))%Z -> Z.testbit 1 t = Z.testbit 3 t) /\
  Verify (Some blockA) (Some (mkProof [["b"%byte]] 1)) ["a"; "b"]%byte (Some echo)
  = Verify (Some blockA) (Some (mkProof [["b"%byte]] 3)) ["a"; "b"]%byte (Some echo).
Proof.
  assert (Hbits : forall t, (0 <= t < Z.of_nat (length [["b"%byte]]))%Z ->
                            Z.testbit 1 t = Z.testbit 3 t).
  { intros t Ht. replace t with 0%Z by (simpl in Ht; lia). reflexivity. }
  split; [exact Hbits|].
  apply (X15_Verify_reads_low_path_bits (Some blockA) [["b"%byte]] 1 3 ["a"; "b"]%byte
           (Some echo) Hbits).
Defined.

(** X16: [fixOdd] called on a whole buffer leaves the tree alone and
    returns a buffer of even length: the buffer itself when its length is
    even, and otherwise the buffer with one node appended, which is the
    last node under the duplication policy and a node of 32 bytes under
    [NoDuplicates]. *)
Theorem X16_fixOdd_pads_to_even rnd buf buf' p' w w' :
  fixOdd rnd buf (length buf) w = Done (buf', p', None) w' ->
  mt w' = mt w /\ p' = length buf' /\ Nat.even p' = true /\
  exists pad, buf' = buf ++ pad /\
    length pad = (if Nat.even (length buf) then 0 else 1) /\
    forall x, pad = [x] ->
      if NoDuplicates (config (mt w)) then length x = defaultHashLen
      else last buf = Some x.
Proof.
  intros E. pose proof E as E1. pose proof E as E2.
  apply fixOdd_Done in E1 as (Hmt & _ & _ & _).
  apply fixOdd_full in E2 as (Hp & Hev & pad & Hpad & Hlen & Hdup).
  split_and!; [done | done | by rewrite Hp |]. exists pad. split_and!; [done | |].
  - apply (f_equal length) in Hpad as Hl. rewrite length_app in Hl.
    destruct (Nat.even (length buf)) eqn:Hb.
    + destruct pad as [|x [|y pad]]; simpl in *; [done | | lia].
      rewrite Hl, Nat.add_1_r, Nat.even_succ, <- Nat.negb_even, Hb in Hev. done.
    + destruct pad as [|x [|y pad]]; simpl in *; [|done | lia].
      rewrite Hl, Nat.add_0_r, Hb in Hev. done.
  - intros x ->. destruct (NoDuplicates (config (mt w))) eqn:Hnd.
    + by eapply fixOdd_dummy.
    + by apply Hdup.
Qed.

Lemma X16_witness :
  fixOdd noRandom [["a"]; ["b"]; ["c"]]%byte (length [["a"]; ["b"]; ["c"]]%byte)
    (mkWorld (newTree newConfig) 0)
  = Done ([["a"]; ["b"]; ["c"]; ["c"]]%byte, 4, None) (mkWorld (newTree newConfig) 0) /\
  mt (mkWorld (newTree newConfig) 0) = mt (mkWorld (newTree newConfig) 0) /\
  4 = length [["a"]; ["b"]; ["c"]; ["c"]]%byte /\ Nat.even 4 = true /\
  exists pad, [["a"]; ["b"]; ["c"]; ["c"]]%byte = [["a"]; ["b"]; ["c"]]%byte ++ pad /\
    length pad = (if Nat.even (length [["a"]; ["b"]; ["c"]]%byte) then 0 else 1) /\
    forall x, pad = [x] ->
      if NoDuplicates (config (mt (mkWorld (newTree newConfig) 0)))
      then length x = defaultHashLen
      else last [["a"]; ["b"]; ["c"]]%byte = Some x.
Proof.
  split; [reflexivity|].
  apply (X16_fixOdd_pads_to_even noRandom [["a"]; ["b"]; ["c"]]%byte). reflexivity.
Defined.

(** X17: each mode builds only its own part: a tree returned in
    [ModeProofGen] has no levels and an empty leaf index, and a tree
    returned in [ModeTreeBuild] has no proofs. *)
Theorem X17_modes_build_their_part {B} `{DataBlock B} rnd cfg (blocks : list B) m :
  New rnd cfg blocks = Returned (Some m) None ->
  (modeOf cfg = ModeProofGen -> tree m = [] /\ leafMap m = ∅) /\
  (modeOf cfg = ModeTreeBuild -> Proofs m = []).
Proof.
  intros Hnew. apply New_run in Hnew as (leaves & _ & _ & _ & _ & Hrun).
  split; intros Hmode.
  - destruct Hrun as [[_ (w & Egen & <-)] | [[Hm _] | [Hm _]]];
      [ | rewrite Hm in Hmode; discriminate ..].
    refine (keeps_proofGen (fun m => tree m = [] /\ leafMap m = ∅) rnd _ _ _ None w Egen _);
      done.
  - destruct Hrun as [[Hm _] | [[_ (w & Etb & <-)] | [Hm _]]];
      [rewrite Hm in Hmode; discriminate | | rewrite Hm in Hmode; discriminate].
    refine (keeps_treeBuild (fun m => Proofs m = []) rnd _ _ _ _ None w Etb _); done.
Qed.

Lemma X17_witness :
  New noRandom None [blockA; blockB; blockC] = Returned (Some tree_abc) None /\
  (modeOf None = ModeProofGen -> tree tree_abc = [] /\ leafMap tree_abc = ∅) /\
  (modeOf None = ModeTreeBuild -> Proofs tree_abc = []).
Proof.
  split; [exact tree_abc_built|].
  apply (X17_modes_build_their_part noRandom None [blockA; blockB; blockC] tree_abc).
  exact tree_abc_built.
Defined.

(** X18: a call of [updateProofs] at the level [step], on a buffer whose
    pairs cover the proofs, changes nothing but the proofs, and gives the
    proof of every leaf [i] one more sibling: the neighbour in the buffer
    of the node [i / 2 ^ step] above the leaf; the bit [step] is added to
    the path when that node has an even index. *)
Theorem X18_updateProofs_appends_neighbours buf bufLen step w w' :
  updateProofs buf bufLen step w = Done tt w' ->
  length (Proofs (mt w)) <= 2 * Nat.div2 (bufLen + 1) * 2 ^ step ->
  sameTree (mt w') (mt w) /\
  length (Proofs (mt w')) = length (Proofs (mt w)) /\
  forall i p, Proofs (mt w) !! i = Some p ->
    exists x, buf !! neighbour (i / 2 ^ step) = Some x /\
      Proofs (mt w') !! i =
      Some (mkProof (Siblings p ++ [x])
              (if Nat.even (i / 2 ^ step) then u32 (Path p + 2 ^ Z.of_nat step)
               else Path p)).
Proof.
  intros E Hcover. split.
  { refine (keeps_updateProofs (fun m => sameTree m (mt w)) _ _ _ _ w tt w' E eq_refl).
    by intros m l. }
  apply updateProofs_exact in E as [Hlen Hstep]; [|done]. split; [done|].
  intros i p Hp. destruct (Hstep i p Hp) as (p' & Hp' & Hst).
  apply stepBy_neighbour in Hst as (x & Hx & ->). eauto.
Qed.

Lemma X18_witness :
  updateProofs [["a"]; ["b"]; ["c"]; ["c"]]%byte 3 0 proofs_at_leaves
  = Done tt (mkWorld (with_Proofs [mkProof [["b"%byte]] 1; mkProof [["a"%byte]] 0;
                                    mkProof [["c"%byte]] 1] (newTree newConfig)) 0) /\
  length (Proofs (mt proofs_at_leaves)) <= 2 * Nat.div2 (3 + 1) * 2 ^ 0 /\
  sameTree (mt (mkWorld (with_Proofs [mkProof [["b"%byte]] 1; mkProof [["a"%byte]] 0;
                                      mkProof [["c"%byte]] 1] (newTree newConfig)) 0))
    (mt proofs_at_leaves) /\
  length (Proofs (mt (mkWorld (with_Proofs [mkProof [["b"%byte]] 1; mkProof [["a"%byte]] 0;
                                            mkProof [["c"%byte]] 1] (newTree newConfig)) 0)))
  = length (Proofs (mt proofs_at_leaves)) /\
  forall i p, Proofs (mt proofs_at_leaves) !! i = Some p ->
    exists x, [["a"]; ["b"]; ["c"]; ["c"]]%byte !! neighbour (i / 2 ^ 0) = Some x /\
      Proofs (mt (mkWorld (with_Proofs [mkProof [["b"%byte]] 1; mkProof [["a"%byte]] 0;
                                        mkProof [["c"%byte]] 1] (newTree newConfig)) 0)) !! i =
      Some (mkProof (Siblings p ++ [x])
              (if Nat.even (i / 2 ^ 0) then u32 (Path p + 2 ^ Z.of_nat 0) else Path p)).
Proof.
  assert (Hrun : updateProofs [["a"]; ["b"]; ["c"]; ["c"]]%byte 3 0 proofs_at_leaves
                 = Done tt (mkWorld (with_Proofs [mkProof [["b"%byte]] 1; mkProof [["a"%byte]] 0;
                                                  mkProof [["c"%byte]] 1] (newTree newConfig)) 0))
    by (vm_compute; reflexivity).
  split; [exact Hrun|]. split; [simpl; lia|].
  apply (X18_updateProofs_appends_neighbours _ _ _ _ _ Hrun). simpl; lia.
Defined.









Lemma tree_echo_distinct mode :
  mode = ModeTreeBuild \/ mode = ModeProofGenAndTreeBuild ->
  distinctOnPath (tree_echo mode) 0.
Proof.
  intros Hmode s lvl x y Hs Hlvl Hx Hy.
  assert (HD : Z.to_nat (Depth (tree_echo mode)) = 2)
    by (destruct Hmode as [-> | ->]; vm_compute; reflexivity).
  assert (Ht : tree (tree_echo mode) !! 0 = Some [["a"]; ["b"]; ["c"]; ["c"]]%byte)
    by (destruct Hmode as [-> | ->]; vm_compute; reflexivity).
  rewrite HD in Hs. assert (s = 0) as -> by lia.
  rewrite Ht in Hlvl. injection Hlvl as <-.
  injection Hx as <-. injection Hy as <-. discriminate.
Qed.

(** On bytes: the round trip through [GenerateProof] in the modes that build
    the tree, without [SortPairs] and over at most 2^32 blocks: a proof
    that [GenerateProof] returns for a block makes [Verify] accept that
    block against the root of the tree, provided that on the way up from
    the leaf found for the block no node below the top level is identical
    to its neighbour (such a pair is handed up unhashed). *)
Lemma New_generated_proof_verifies {B} `{DataBlock B}
    rnd cfg (blocks : list B) m (b : B) p idx :
  New rnd cfg blocks = Returned (Some m) None ->
  modeOf cfg = ModeTreeBuild \/ modeOf cfg = ModeProofGenAndTreeBuild ->
  sortPairsOf cfg = false ->
  (Z.of_nat (length blocks) <= 2 ^ 32)%Z ->
  generateProofOn m b = Some (Some p, None) ->
  leafMap m !! (hashOf cfg (serialized b)).1 = Some idx ->
  distinctOnPath m idx ->
  Verify (Some b) (Some p) (Root m) (HashFunc (config m)) = (true, None).
Proof.
  intros Hnew Hmode Hsp Hbound Hgen Hidx Hdist.
  destruct (New_wellFormed rnd cfg blocks m Hnew Hmode ltac:(lia))
    as (Hc & Hd & Hlen & Hwf & Hmap & _).
  rewrite Hsp in Hwf.
  assert (Hh : HashFunc (config m) = Some (hashOf cfg)) by (by rewrite Hc, normalize_hashOf).
  apply (GenerateProof_spec m b (hashOf cfg) p Hh) in Hgen
    as (_ & Hser & Herr & idx' & Hidx' & Hpa).
  rewrite Hidx in Hidx'. injection Hidx' as <-.
  apply Hmap in Hidx as [Hleaf _].
  assert (HD : (1 <= Depth m <= 32)%Z).
  { apply New_run in Hnew as (_ & Hlen2 & _).
    pose proof (calTreeDepth_range (Z.of_nat (length blocks)) ltac:(lia)).
    pose proof (depth_small (length blocks) Hlen2 Hbound). lia. }
  destruct (proofAt_climbs _ m idx _ Hwf HD Hleaf Hdist _ p Hpa) as [_ Hclimb].
  specialize (Hclimb eq_refl).
  rewrite Hh, Verify_unfold. unfold serializes in Hser. unfold serialized in *.
  destruct (Serialize b) as [data err]. cbn [fst snd] in *. subst err.
  destruct (hashOf cfg data) as [key err]. cbn [fst snd] in *. subst err.
  by apply verifyLoop_climb.
Qed.

(** The slices that [New] leaves for the three windows hold the tree that
    [New] on bytes builds from "a", "b", "c". *)
Lemma slices_echo_bytes mode :
  mode = ModeProofGen \/ mode = ModeTreeBuild \/ mode = ModeProofGenAndTreeBuild ->
  treeBytes (Heap.memOf (slices_echo mode)) (Heap.treeOf (slices_echo mode)) = tree_echo mode.
Proof.
  intros [-> | [-> | ->]]; vm_compute; reflexivity.
Qed.

Lemma slices_echo_distinct mode :
  mode = ModeTreeBuild \/ mode = ModeProofGenAndTreeBuild ->
  distinctOnPath (treeBytes (Heap.memOf (slices_echo mode)) (Heap.treeOf (slices_echo mode))) 0.
Proof.
  intros Hmode. rewrite slices_echo_bytes by (destruct Hmode; auto).
  by apply tree_echo_distinct.
Qed.

Lemma windowA_placed mode :
  mode = ModeProofGen \/ mode = ModeTreeBuild \/ mode = ModeProofGenAndTreeBuild ->
  placed (Heap.memOf (slices_echo mode)) windowA.
Proof.
  intros Hmode. pose proof (windows_placed _ (slices_echo_memory mode Hmode)) as HF.
  by apply Forall_cons in HF as [HA _].
Qed.

(** X22: the round trip through [GenerateProof] in the modes that build
    the tree, without [SortPairs] and over at most 2^32 blocks whose slices
    have no spare capacity: a proof that [GenerateProof], called in the
    memory that [New] left, returns for a block makes [Verify] accept that
    block against the root of the tree, provided that on the way up from
    the leaf found for the block no node below the top level holds the
    bytes of its neighbour (such a pair is handed up unhashed). *)
Theorem X22_generated_proof_verifies {B} `{Heap.DataBlock B}
    rnd cfg (blocks : list B) mem m mem' (b : B) p idx w :
  Forall (placed mem) blocks ->
  Heap.New rnd cfg blocks mem = Heap.Returned (Some m) None mem' ->
  modeOf cfg = ModeTreeBuild \/ modeOf cfg = ModeProofGenAndTreeBuild ->
  sortPairsOf cfg = false ->
  (Z.of_nat (length blocks) <= 2 ^ 32)%Z ->
  placed mem' b ->
  Heap.GenerateProof b (called m mem') = Heap.Done (Some p, None) w ->
  Heap.leafMap m !! (hashOf cfg (bytesOf mem' b)).1 = Some idx ->
  distinctOnPath (treeBytes mem' m) idx ->
  exists w', Heap.Verify (Some b) (Some p) (Heap.Root m) (HashFunc (Heap.config m)) w
             = Heap.Done (true, None) w'.
Proof.
  intros Hplaced Hnew Hmode Hsp Hbound Hb Hgen Hidx Hdist.
  destruct (New_bytes rnd cfg blocks mem m None mem' Hplaced Hnew) as (_ & Hrel & Hpure).
  pose proof (GenerateProof_sim mem' b Hb (called m mem') (mkWorld (treeBytes mem' m) 0)
                ltac:(reflexivity) (conj Hrel eq_refl)) as Hs.
  rewrite Hgen in Hs. destruct Hs as ([q e] & w2 & Epure & [Hw _] & Hext & [Hq He]).
  cbn [fst snd] in *. change (None = e) in He. subst e.
  inversion Hq as [? q' Hpq|]; subst.
  assert (Hgp : @generateProofOn B (contents mem') (treeBytes mem' m) b = Some (Some q', None)).
  { unfold generateProofOn. by rewrite Epure. }
  pose proof (@New_generated_proof_verifies B (contents mem') rnd cfg blocks _ b q' idx
                Hpure Hmode Hsp Hbound Hgp Hidx Hdist) as Hv.
  pose proof (rel_treeBytes _ _ _ Hw) as Hmt.
  destruct (Verify_bytes mem' b p q' (Heap.Root m) (Root (treeBytes mem' m))
              (HashFunc (Heap.config m)) w Hb Hext Hpq
              (rel_stable _ _ _ _ Hext (rel_tree_root mem' m Hrel))
              ltac:(by rewrite <- Hmt)) as [w' Hw'].
  exists w'. rewrite Hw'. f_equal. exact Hv.
Qed.

Lemma X22_witness :
  exists w,
  Forall (placed memory_abc) [windowA; windowB; windowC] /\
  Heap.New noRandom (Some (configOf (Some echo) ModeTreeBuild))
    [windowA; windowB; windowC] memory_abc
  = Heap.Returned (Some (Heap.treeOf (slices_echo ModeTreeBuild))) None
      (Heap.memOf (slices_echo ModeTreeBuild)) /\
  (modeOf (Some (configOf (Some echo) ModeTreeBuild)) = ModeTreeBuild \/
   modeOf (Some (configOf (Some echo) ModeTreeBuild)) = ModeProofGenAndTreeBuild) /\
  sortPairsOf (Some (configOf (Some echo) ModeTreeBuild)) = false /\
  (Z.of_nat (length [windowA; windowB; windowC]) <= 2 ^ 32)%Z /\
  placed (Heap.memOf (slices_echo ModeTreeBuild)) windowA /\
  Heap.GenerateProof windowA
    (called (Heap.treeOf (slices_echo ModeTreeBuild)) (Heap.memOf (slices_echo ModeTreeBuild)))
  = Heap.Done (Some (Heap.mkProof [Heap.Slice 1 1 1; Heap.Slice 2 1 1] 3), None) w /\
  Heap.leafMap (Heap.treeOf (slices_echo ModeTreeBuild))
    !! (hashOf (Some (configOf (Some echo) ModeTreeBuild))
          (bytesOf (Heap.memOf (slices_echo ModeTreeBuild)) windowA)).1 = Some 0 /\
  distinctOnPath
    (treeBytes (Heap.memOf (slices_echo ModeTreeBuild))
       (Heap.treeOf (slices_echo ModeTreeBuild))) 0 /\
  exists w',
    Heap.Verify (Some windowA) (Some (Heap.mkProof [Heap.Slice 1 1 1; Heap.Slice 2 1 1] 3))
      (Heap.Root (Heap.treeOf (slices_echo ModeTreeBuild)))
      (HashFunc (Heap.config (Heap.treeOf (slices_echo ModeTreeBuild)))) w
    = Heap.Done (true, None) w'.
Proof.
  assert (Hpl := windows_placed memory_abc ltac:(reflexivity)).
  assert (Hnew := slices_echo_built ModeTreeBuild (or_intror (or_introl eq_refl))).
  assert (Hb := windowA_placed ModeTreeBuild (or_intror (or_introl eq_refl))).
  assert (Hidx : Heap.leafMap (Heap.treeOf (slices_echo ModeTreeBuild))
                   !! (hashOf (Some (configOf (Some echo) ModeTreeBuild))
                         (bytesOf (Heap.memOf (slices_echo ModeTreeBuild)) windowA)).1
                 = Some 0) by (vm_compute; reflexivity).
  assert (Hdist := slices_echo_distinct ModeTreeBuild (or_introl eq_refl)).
  eexists. split; [exact Hpl|]. split; [exact Hnew|]. split; [left; reflexivity|].
  split; [reflexivity|]. split; [simpl; lia|]. split; [exact Hb|].
  assert (Hgen : Heap.GenerateProof windowA
            (called (Heap.treeOf (slices_echo ModeTreeBuild))
               (Heap.memOf (slices_echo ModeTreeBuild)))
          = Heap.Done (Some (Heap.mkProof [Heap.Slice 1 1 1; Heap.Slice 2 1 1] 3), None)
              (Heap.mkWorld (Heap.treeOf (slices_echo ModeTreeBuild)) 0
                 (Heap.memOf (slices_echo ModeTreeBuild) ++ ["a"%byte])))
    by (vm_compute; reflexivity).
  split; [exact Hgen|]. split; [exact Hidx|]. split; [exact Hdist|].
  apply (X22_generated_proof_verifies noRandom _ _ memory_abc _ _ windowA _ 0 _ Hpl Hnew);
    [left; reflexivity | reflexivity | simpl; lia | exact Hb | exact Hgen | exact Hidx
    | exact Hdist].
Defined.

(** On bytes: in [ModeProofGenAndTreeBuild], without [SortPairs] and over at
    most 2^32 blocks, the stored proof of the leaf [i] makes [Verify]
    accept every block whose hash is that leaf, provided that on the way
    up from the leaf no node below the top level is identical to its
    neighbour. *)
Lemma New_streamed_proof_verifies {B} `{DataBlock B}
    rnd cfg (blocks : list B) m i l p (b : B) :
  New rnd cfg blocks = Returned (Some m) None ->
  modeOf cfg = ModeProofGenAndTreeBuild ->
  sortPairsOf cfg = false ->
  (Z.of_nat (length blocks) <= 2 ^ 32)%Z ->
  Leaves m !! i = Some l -> Proofs m !! i = Some p ->
  distinctOnPath m i ->
  serializes b -> hashOf cfg (serialized b) = (l, None) ->
  Verify (Some b) (Some p) (Root m) (HashFunc (config m)) = (true, None).
Proof.
  intros Hnew Hmode Hsp Hbound Hl Hp Hdist Hser Hhash.
  destruct (New_wellFormed rnd cfg blocks m Hnew (or_intror Hmode) ltac:(lia))
    as (Hc & Hd & Hlen & Hwf & _ & _).
  rewrite Hsp in Hwf.
  destruct (New_proofAt rnd cfg blocks m Hnew Hmode ltac:(lia)) as [_ Hall].
  apply lookup_lt_Some in Hl as Hi. rewrite Hlen in Hi.
  destruct (Hall i Hi) as [Hpa _]. rewrite Hp in Hpa. symmetry in Hpa.
  assert (HD : (1 <= Depth m <= 32)%Z).
  { apply New_run in Hnew as (_ & Hlen2 & _).
    pose proof (calTreeDepth_range (Z.of_nat (length blocks)) ltac:(lia)).
    pose proof (depth_small (length blocks) Hlen2 Hbound). lia. }
  destruct (proofAt_climbs _ m i _ Hwf HD Hl Hdist _ p Hpa) as [_ Hclimb].
  specialize (Hclimb eq_refl).
  rewrite Hc, normalize_hashOf, Verify_unfold.
  unfold serializes in Hser. unfold serialized in Hhash.
  destruct (Serialize b) as [data err]. cbn [fst snd] in *. subst err.
  rewrite Hhash. by apply verifyLoop_climb.
Qed.

(** X23: in [ModeProofGenAndTreeBuild], without [SortPairs] and over at
    most 2^32 blocks whose slices have no spare capacity, the stored proof
    of the leaf [i] makes [Verify], called in the memory that [New] left,
    accept every block whose hash is the bytes of that leaf, provided that
    on the way up from the leaf no node below the top level holds the bytes
    of its neighbour. *)
Theorem X23_streamed_proof_verifies {B} `{Heap.DataBlock B}
    rnd cfg (blocks : list B) mem m mem' i l p (b : B) :
  Forall (placed mem) blocks ->
  Heap.New rnd cfg blocks mem = Heap.Returned (Some m) None mem' ->
  modeOf cfg = ModeProofGenAndTreeBuild ->
  sortPairsOf cfg = false ->
  (Z.of_nat (length blocks) <= 2 ^ 32)%Z ->
  Heap.Leaves m !! i = Some l -> Heap.Proofs m !! i = Some p ->
  distinctOnPath (treeBytes mem' m) i ->
  placed mem' b -> (Heap.Serialize b).2 = None ->
  hashOf cfg (bytesOf mem' b) = (Heap.read mem' l, None) ->
  exists w, Heap.Verify (Some b) (Some p) (Heap.Root m) (HashFunc (Heap.config m))
              (called m mem')
            = Heap.Done (true, None) w.
Proof.
  intros Hplaced Hnew Hmode Hsp Hbound Hl Hp Hdist Hb Hser Hhash.
  destruct (New_bytes rnd cfg blocks mem m None mem' Hplaced Hnew) as (_ & Hrel & Hpure).
  destruct (rel_tree_proof mem' m i p Hrel Hp) as [Hpq Hq].
  pose proof (@New_streamed_proof_verifies B (contents mem') rnd cfg blocks _ i _ _ b
                Hpure Hmode Hsp Hbound (tree_leaf_bytes mem' m i l Hl) Hq Hdist Hser Hhash)
    as Hv.
  destruct (Verify_bytes mem' b p (proofBytes mem' p) (Heap.Root m)
              (Root (treeBytes mem' m)) (HashFunc (Heap.config m)) (called m mem')
              Hb ltac:(reflexivity) Hpq (rel_tree_root mem' m Hrel) Hrel) as [w Hw].
  exists w. rewrite Hw. f_equal. exact Hv.
Qed.

Lemma X23_witness :
  Forall (placed memory_abc) [windowA; windowB; windowC] /\
  Heap.New noRandom (Some (configOf (Some echo) ModeProofGenAndTreeBuild))
    [windowA; windowB; windowC] memory_abc
  = Heap.Returned (Some (Heap.treeOf (slices_echo ModeProofGenAndTreeBuild))) None
      (Heap.memOf (slices_echo ModeProofGenAndTreeBuild)) /\
  modeOf (Some (configOf (Some echo) ModeProofGenAndTreeBuild)) = ModeProofGenAndTreeBuild /\
  sortPairsOf (Some (configOf (Some echo) ModeProofGenAndTreeBuild)) = false /\
  (Z.of_nat (length [windowA; windowB; windowC]) <= 2 ^ 32)%Z /\
  Heap.Leaves (Heap.treeOf (slices_echo ModeProofGenAndTreeBuild)) !! 0
  = Some (Heap.Slice 0 1 1) /\
  Heap.Proofs (Heap.treeOf (slices_echo ModeProofGenAndTreeBuild)) !! 0
  = Some (Heap.mkProof [Heap.Slice 1 1 1; Heap.Slice 2 1 1] 3) /\
  distinctOnPath
    (treeBytes (Heap.memOf (slices_echo ModeProofGenAndTreeBuild))
       (Heap.treeOf (slices_echo ModeProofGenAndTreeBuild))) 0 /\
  placed (Heap.memOf (slices_echo ModeProofGenAndTreeBuild)) windowA /\
  (Heap.Serialize windowA).2 = None /\
  hashOf (Some (configOf (Some echo) ModeProofGenAndTreeBuild))
    (bytesOf (Heap.memOf (slices_echo ModeProofGenAndTreeBuild)) windowA)
  = (Heap.read (Heap.memOf (slices_echo ModeProofGenAndTreeBuild)) (Heap.Slice 0 1 1),
     None) /\
  exists w,
    Heap.Verify (Some windowA) (Some (Heap.mkProof [Heap.Slice 1 1 1; Heap.Slice 2 1 1] 3))
      (Heap.Root (Heap.treeOf (slices_echo ModeProofGenAndTreeBuild)))
      (HashFunc (Heap.config (Heap.treeOf (slices_echo ModeProofGenAndTreeBuild))))
      (called (Heap.treeOf (slices_echo ModeProofGenAndTreeBuild))
         (Heap.memOf (slices_echo ModeProofGenAndTreeBuild)))
    = Heap.Done (true, None) w.
Proof.
  assert (Hpl := windows_placed memory_abc ltac:(reflexivity)).
  assert (Hnew := slices_echo_built ModeProofGenAndTreeBuild
                    (or_intror (or_intror eq_refl))).
  assert (Hl : Heap.Leaves (Heap.treeOf (slices_echo ModeProofGenAndTreeBuild)) !! 0
               = Some (Heap.Slice 0 1 1)) by (vm_compute; reflexivity).
  assert (Hp : Heap.Proofs (Heap.treeOf (slices_echo ModeProofGenAndTreeBuild)) !! 0
               = Some (Heap.mkProof [Heap.Slice 1 1 1; Heap.Slice 2 1 1] 3))
    by (vm_compute; reflexivity).
  assert (Hdist := slices_echo_distinct ModeProofGenAndTreeBuild (or_intror eq_refl)).
  assert (Hb := windowA_placed ModeProofGenAndTreeBuild (or_intror (or_intror eq_refl))).
  assert (Hh : hashOf (Some (configOf (Some echo) ModeProofGenAndTreeBuild))
                 (bytesOf (Heap.memOf (slices_echo ModeProofGenAndTreeBuild)) windowA)
               = (Heap.read (Heap.memOf (slices_echo ModeProofGenAndTreeBuild))
                    (Heap.Slice 0 1 1), None)) by (vm_compute; reflexivity).
  split; [exact Hpl|]. split; [exact Hnew|]. split; [reflexivity|]. split; [reflexivity|].
  split; [simpl; lia|]. split; [exact Hl|]. split; [exact Hp|]. split; [exact Hdist|].
  split; [exact Hb|]. split; [reflexivity|]. split; [exact Hh|].
  apply (X23_streamed_proof_verifies noRandom _ _ memory_abc _ _ 0
           (Heap.Slice 0 1 1) (Heap.mkProof [Heap.Slice 1 1 1; Heap.Slice 2 1 1] 3) windowA
           Hpl Hnew);
    [reflexivity | reflexivity | simpl; lia | exact Hl | exact Hp | exact Hdist | exact Hb
    | reflexivity | exact Hh].
Defined.

(** X24: a leaf slice with spare capacity lets [New] write into the memory
    of the caller.  The blocks "a", "d", "b", "c" are given, the first as a
    slice of one byte with the capacity of the array that also holds "b"
    and "c".  [proofGen] appends "d" to it, over "b": when [New] returns,
    the third leaf holds "d", and the root is built from "a", "d", "d", "c"
    and not from the bytes the blocks had. *)
Theorem X24_spare_capacity_is_overwritten :
  let blocks := [windowWide; windowD; windowB; windowC] in
  let r := Heap.New noRandom (Some (configOf (Some echo) ModeProofGen)) blocks memory_abcd in
  ~ Forall (placed memory_abcd) blocks /\
  (exists m mem', r = Heap.Returned (Some m) None mem') /\
  bytesOf memory_abcd <$> blocks = [["a"]; ["d"]; ["b"]; ["c"]]%byte /\
  Leaves (treeBytes (Heap.memOf r) (Heap.treeOf r)) = [["a"]; ["d"]; ["d"]; ["c"]]%byte /\
  Heap.read (Heap.memOf r) (Heap.Root (Heap.treeOf r)) = ["a"; "d"; "d"; "c"]%byte /\
  merkleRoot (hashNode echo) echo (bytesOf memory_abcd <$> blocks) 2
  = Some ["a"; "d"; "b"; "c"]%byte.
Proof.
  cbv zeta. split.
  { intros HF. apply Forall_cons in HF as [HA _].
    destruct (HA eq_refl) as [_ [Hcap _]]. discriminate Hcap. }
  split; [eexists _, _; vm_compute; reflexivity|].
  repeat split; vm_compute; reflexivity.
Qed.
